(** * mobx-binder: a shallow embedding of [Model.js] and [Store.js]

    The two classes of the repository, [Model] (an entity) and [Store] (a
    collection), are embedded as pure functions over explicit object
    graphs.  JavaScript values are a small inductive type, objects are
    association lists in insertion order (the order [forIn] visits them),
    exceptions are an explicit result type that keeps the state reached when
    the exception was thrown, and the asynchronous operations are split at
    their single suspension point: a synchronous part that issues a request
    and a continuation that is run when the request settles. *)

From Stdlib Require Import ZArith QArith Qround List String Ascii Bool Lia.
From Stdlib Require Import Permutation.
From Stdlib Require Import Decimal DecimalString DecimalPos DecimalZ.
Import ListNotations.

Set Warnings "-register-all".

Local Open Scope string_scope.
Local Open Scope Z_scope.

(* ------------------------------------------------------------------------ *)
(** ** JavaScript values *)

(** A Number is an integer ([VNum]), a finite Number that is not an
    integer ([VFrac]: its value as a fraction, and the numeral [String]
    gives for it; a fraction that denotes an integer is read as that
    integer), [NaN], or an infinity. *)
Inductive value : Type :=
| VUndefined
| VNull
| VBool (b : bool)
| VNum (n : Z)
| VNaN
| VStr (s : string)
| VArr (xs : list value)
| VObj (props : list (string * value))
| VFrac (q : Q) (numeral : string)
| VInfinity (positive : bool).

(** A plain object: its own enumerable properties in insertion order. *)
Definition obj : Type := list (string * value).

Fixpoint obj_get (o : obj) (k : string) : option value :=
  match o with
  | [] => None
  | (k', v) :: o' => if String.eqb k k' then Some v else obj_get o' k
  end.

(** [o[k]]: a missing property reads as [undefined]. *)
Definition prop (o : obj) (k : string) : value :=
  match obj_get o k with Some v => v | None => VUndefined end.

(** [o[k] = v]: an existing property keeps its place, a new one goes last. *)
Fixpoint obj_set (o : obj) (k : string) (v : value) : obj :=
  match o with
  | [] => [(k, v)]
  | (k', v') :: o' =>
      if String.eqb k k' then (k', v) :: o' else (k', v') :: obj_set o' k v
  end.

Definition has_key (o : obj) (k : string) : bool :=
  match obj_get o k with Some _ => true | None => false end.

(** [v[k]] on any value: only plain objects have the properties read here. *)
Definition value_prop (v : value) (k : string) : value :=
  match v with VObj o => prop o k | _ => VUndefined end.

(** ToBoolean. *)
Definition truthy (v : value) : bool :=
  match v with
  | VUndefined | VNull => false
  | VBool b => b
  | VNum n => negb (n =? 0)
  | VNaN => false
  | VStr s => negb (String.eqb s "")
  | VArr _ | VObj _ => true
  | VFrac q _ => negb (Qeq_bool q 0)
  | VInfinity _ => true
  end.

(** lodash [isPlainObject] and [isArray]. *)
Definition isPlainObject (v : value) : bool :=
  match v with VObj _ => true | _ => false end.

Definition isArray (v : value) : bool :=
  match v with VArr _ => true | _ => false end.

(** The integer a Number is, if it is one. *)
Definition as_integer (v : value) : option Z :=
  match v with
  | VNum n => Some n
  | VFrac q _ => if Qeq_bool q (inject_Z (Qfloor q)) then Some (Qfloor q) else None
  | _ => None
  end.

(** [Number.isInteger]. *)
Definition Number_isInteger (v : value) : bool :=
  match as_integer v with Some _ => true | None => false end.

(** Primitive values: everything but arrays and objects. *)
Definition is_primitive (v : value) : bool :=
  match v with VArr _ | VObj _ => false | _ => true end.

(** [key.startsWith(p)]. *)
Definition startsWith (p key : string) : bool := String.prefix p key.

(* ------------------------------------------------------------------------ *)
(** ** Placeholder identifiers: [generateNegativeId]

    lodash's [uniqueId] keeps one counter per process ([idCounter], initially
    0) and returns [toString(prefix) + (++idCounter)]; called without a
    prefix it returns the decimal numeral of the incremented counter. *)

(** [String(n)] for an integer Number. *)
Definition toString (n : Z) : string := NilZero.string_of_int (Z.to_int n).

Definition uniqueId (idCounter : Z) : string * Z :=
  let id := idCounter + 1 in (toString id, id).

(** The value of a character as a digit in the given radix. *)
Definition digit_of (radix : Z) (c : ascii) : option Z :=
  let n := Z.of_nat (nat_of_ascii c) in
  let d := if (48 <=? n) && (n <=? 57) then Some (n - 48)
           else if (97 <=? n) && (n <=? 122) then Some (n - 87)
           else if (65 <=? n) && (n <=? 90) then Some (n - 55)
           else None in
  match d with
  | Some d => if d <? radix then Some d else None
  | None => None
  end.

(** The longest prefix of digits, read left to right; [None] when the string
    starts with no digit. *)
Fixpoint parse_digits (radix : Z) (s : string) (acc : option Z) : option Z :=
  match s with
  | EmptyString => acc
  | String c s' =>
      match digit_of radix c with
      | Some d =>
          parse_digits radix s'
            (Some (radix * match acc with Some a => a | None => 0 end + d))
      | None => acc
      end
  end.

Definition is_whitespace (c : ascii) : bool :=
  let n := nat_of_ascii c in
  ((9 <=? n) && (n <=? 13))%nat || (n =? 32)%nat.

Fixpoint trim_start (s : string) : string :=
  match s with
  | String c s' => if is_whitespace c then trim_start s' else s
  | EmptyString => s
  end.

(** [parseInt(s)] with no radix: leading white space, a sign, a [0x] prefix
    for radix 16, then the longest prefix of digits; [NaN] without one. *)
Definition parseInt (s : string) : value :=
  let s := trim_start s in
  let '(sign, s) :=
    match s with
    | String "-" s' => (-1, s')
    | String "+" s' => (1, s')
    | _ => (1, s)
    end in
  let '(radix, s) :=
    match s with
    | String "0" (String "x" s') => (16, s')
    | String "0" (String "X" s') => (16, s')
    | _ => (10, s)
    end in
  match parse_digits radix s None with
  | Some n => VNum (sign * n)
  | None => VNaN
  end.

(** Unary minus on a Number. *)
Definition js_neg (v : value) : value :=
  match v with
  | VNum n => VNum (- n)
  | VFrac q numeral =>
      VFrac (- q) match numeral with
                  | String "-" digits => digits
                  | _ => String "-" numeral
                  end
  | VInfinity positive => VInfinity (negb positive)
  | _ => VNaN
  end.

(** [generateNegativeId]: the state is lodash's [idCounter]. *)
Definition generateNegativeId (idCounter : Z) : value * Z :=
  let '(s, idCounter) := uniqueId idCounter in
  (js_neg (parseInt s), idCounter).

(** The number a decimal numeral denotes when it is read after digits worth
    [acc]. *)
Fixpoint uint_val (d : uint) (acc : Z) : Z :=
  match d with
  | Nil => acc
  | D0 d => uint_val d (10 * acc + 0)
  | D1 d => uint_val d (10 * acc + 1)
  | D2 d => uint_val d (10 * acc + 2)
  | D3 d => uint_val d (10 * acc + 3)
  | D4 d => uint_val d (10 * acc + 4)
  | D5 d => uint_val d (10 * acc + 5)
  | D6 d => uint_val d (10 * acc + 6)
  | D7 d => uint_val d (10 * acc + 7)
  | D8 d => uint_val d (10 * acc + 8)
  | D9 d => uint_val d (10 * acc + 9)
  end.

(** What a process does with the counter: it synthesizes a placeholder
    identifier, or some other code of the process calls [uniqueId]. *)
Inductive id_event : Type := Synthesize | OtherUniqueId.

(** The identifiers synthesized along a sequence of events, oldest first. *)
Fixpoint synthesized (evs : list id_event) (idCounter : Z) : list value * Z :=
  match evs with
  | [] => ([], idCounter)
  | Synthesize :: evs' =>
      let '(id, c) := generateNegativeId idCounter in
      let '(ids, c') := synthesized evs' c in
      (id :: ids, c')
  | OtherUniqueId :: evs' => synthesized evs' (snd (uniqueId idCounter))
  end.

(** The counter of a fresh process. *)
Definition initial_idCounter : Z := 0.

(* ------------------------------------------------------------------------ *)
(** ** Exceptions *)

(** The errors the two classes throw, one constructor per [throw] of the
    source, and the [TypeError]s of the JavaScript runtime (a property read
    on [null] or [undefined], a call of what is not a function).  Two more
    are not errors of the program.  [OutOfFuel] marks a run of the
    embedding that was given too little fuel for the depth of the relation
    tree.  [OutsideModel] marks a run that reads a property which this
    embedding does not describe: a method, an accessor or an internal field
    of an instance, a property inherited from [Object.prototype], an index
    or the length of an array or a string, or a path where lodash is given
    one in place of a key; what the program does from there on is not
    stated. *)
Inductive error : Type :=
| RelationDoesNotExist (relName : string)
| ParseNotObject
| ParseNotArray
| NoApi
| NoUrlRoot
| NoUrl
| FetchWithoutId
| UnknownStoreOption (option : string)
| DuplicatePrimaryKey (primaryValue : value)
| PageLimitNotNumber
| NoNextPage
| NoPreviousPage
| PageNotNumber
| PageOutOfRange (totalPages : Z)
| IndexOutOfBounds (index zeroLength : Z)
| TypeError (what : string)
| OutOfFuel
| OutsideModel.

(** The result of an expression that may throw. *)
Inductive result (A : Type) : Type :=
| Ok (a : A)
| Throw (e : error).

Arguments Ok {A} a.
Arguments Throw {A} e.

Definition bind {A B : Type} (r : result A) (k : A -> result B) : result B :=
  match r with Ok a => k a | Throw e => Throw e end.

Notation "x <- r ;; k" := (bind r (fun x => k))
  (at level 61, r at next level, right associativity).

(** A method that mutates its receiver: the receiver's state when the method
    returns or throws, and the exception if it threw. *)
Definition outcome (S : Type) : Type := (S * option error)%type.

(** [forIn(o, f)] over a state: properties in order, stopping at a throw. *)
Fixpoint forIn {S : Type} (f : string -> value -> S -> outcome S) (o : obj) (s : S)
  : outcome S :=
  match o with
  | [] => (s, None)
  | (k, v) :: o' =>
      match f k v s with
      | (s', None) => forIn f o' s'
      | thrown => thrown
      end
  end.

(** [xs.map(f)] for an [f] that may throw: the first exception ends it. *)
Fixpoint map_result {A B : Type} (f : A -> result B) (xs : list A) : result (list B) :=
  match xs with
  | [] => Ok []
  | x :: xs' => y <- f x ;; ys <- map_result f xs' ;; Ok (y :: ys)
  end.

(* ------------------------------------------------------------------------ *)
(** ** Comparisons and property keys *)

Definition is_null (v : value) : bool :=
  match v with VNull => true | _ => false end.

Definition is_undefined (v : value) : bool :=
  match v with VUndefined => true | _ => false end.

(** [a === b] when at least one side is a primitive value (two objects are
    compared by reference, which the source never does). *)
Definition strict_eq (a b : value) : bool :=
  match a, b with
  | VUndefined, VUndefined => true
  | VNull, VNull => true
  | VBool x, VBool y => Bool.eqb x y
  | VNum x, VNum y => x =? y
  | VFrac x _, VFrac y _ => Qeq_bool x y
  | VNum x, VFrac y _ | VFrac y _, VNum x => Qeq_bool (inject_Z x) y
  | VInfinity x, VInfinity y => Bool.eqb x y
  | VStr x, VStr y => String.eqb x y
  | _, _ => false
  end.

Fixpoint join (sep : string) (xs : list string) : string :=
  match xs with
  | [] => ""
  | [x] => x
  | x :: xs' => x ++ sep ++ join sep xs'
  end.

(** ToString, as used for a property key ([o[v]]). *)
Fixpoint toKey (v : value) : string :=
  match v with
  | VUndefined => "undefined"
  | VNull => "null"
  | VBool true => "true"
  | VBool false => "false"
  | VNum n => toString n
  | VNaN => "NaN"
  | VStr s => s
  | VArr xs =>
      join "," (map (fun x => match x with
                              | VUndefined | VNull => ""
                              | _ => toKey x
                              end) xs)
  | VObj _ => "[object Object]"
  | VFrac _ numeral =>
      match as_integer v with
      | Some n => toString n
      | None => numeral
      end
  | VInfinity true => "Infinity"
  | VInfinity false => "-Infinity"
  end.

(** The properties every object inherits from [Object.prototype]. *)
Definition Object_prototype : list string :=
  ["constructor"; "__defineGetter__"; "__defineSetter__"; "hasOwnProperty";
   "__lookupGetter__"; "__lookupSetter__"; "isPrototypeOf";
   "propertyIsEnumerable"; "toString"; "valueOf"; "__proto__";
   "toLocaleString"].

(** The fields, accessors and methods that [Model.js] gives an entity, and
    [relations], which a subclass with relations defines. *)
Definition Model_properties : list string :=
  ["urlRoot"; "__attributes"; "__originalAttributes"; "__activeRelations";
   "__activeCurrentRelations"; "__repository"; "__store"; "api";
   "__backendValidationErrors"; "__pendingRequestCount";
   "url"; "isNew"; "isLoading"; "primaryKey"; "backendValidationErrors";
   "casts"; "__parseRelations"; "toBackend"; "toBackendAll"; "toJS";
   "__toJSAttr"; "fromBackend"; "__getApi"; "__addFromRepository"; "parse";
   "__parseAttr"; "save"; "saveAll"; "delete"; "fetch"; "clear";
   "relations"].

(** The fields, accessors and methods that [Store.js] gives a collection,
    and [url], which a subclass defines. *)
Definition Store_properties : list string :=
  ["models"; "params"; "__pendingRequestCount"; "__state";
   "__activeRelations"; "Model"; "api"; "__repository"; "__nestedRepository";
   "isLoading"; "length"; "url";
   "__parseRelations"; "__addFromRepository"; "__getApi"; "fromBackend";
   "_newModel"; "parse"; "add"; "remove"; "clear"; "fetch"; "toJS";
   "getPageOffset"; "setLimit"; "totalPages"; "currentPage"; "hasNextPage";
   "hasPreviousPage"; "getNextPage"; "getPreviousPage"; "setPage";
   "toBackendAll"; "get"; "map"; "mapByPrimaryKey"; "filter"; "find";
   "each"; "at"].

(** A string that lodash reads as a path and not as one key when it is no
    property of the object: it has a dot or a bracket. *)
Definition has_path_syntax (s : string) : bool :=
  existsb (fun c => Ascii.eqb c "." || Ascii.eqb c "[" || Ascii.eqb c "]")
          (list_ascii_of_string s).

(** An array index as a property key: the numeral of an integer from 0 to
    [2^32 - 2] without a sign or leading zeros. *)
Definition array_index (k : string) : option Z :=
  match parse_digits 10 k None with
  | Some n => if String.eqb (toString n) k && (n <? 4294967295) then Some n else None
  | None => None
  end.

(** The own properties of an object in the order the language visits them:
    the array indices in ascending order, then the other keys in the order
    of their insertion. *)
Fixpoint insert_index {A : Type} (n : Z) (kv : string * A) (l : list (string * A))
  : list (string * A) :=
  match l with
  | [] => [kv]
  | kv' :: l' =>
      match array_index (fst kv') with
      | Some n' => if n <? n' then kv :: l else kv' :: insert_index n kv l'
      | None => kv :: l
      end
  end.

Definition own_properties {A : Type} (o : list (string * A)) : list (string * A) :=
  fold_left
    (fun acc kv =>
       match array_index (fst kv) with
       | Some n => insert_index n kv acc
       | None => (acc ++ [kv])%list
       end)
    o [].

(* ------------------------------------------------------------------------ *)
(** ** Entity types and the environment

    What the application declares: its [Model] subclasses (primary key,
    observable fields with their initial values in declaration order, casts,
    the [relations()] table, [urlRoot], [api]) and its [Store] subclasses
    ([Model], [url], [api]). *)

(** A cast: [parse(attr, value)] and [toJS(attr, value)]. *)
Record Cast : Type := {
  cast_parse : string -> value -> value;
  cast_toJS : string -> value -> value
}.

(** A [Store] subclass. *)
Record StoreClass : Type := {
  sc_Model : string;
  sc_url : option string;
  sc_api : bool
}.

(** What [relations()] maps a relation name to: a [Model] subclass, by name,
    or a [Store] subclass. *)
Inductive RelTarget : Type :=
| ToModel (cls : string)
| ToStore (sc : StoreClass).

(** A [Model] subclass; [relations = None] when it has no [relations]
    method. *)
Record ModelClass : Type := {
  primaryKey : string;
  observables : list (string * value);
  casts : list (string * Cast);
  relations : option (list (string * RelTarget));
  urlRoot : option string;
  api : bool
}.

(** The environment of the two classes: the application's entity types by
    name, and the functions of other modules.  [snakeCase] is lodash's;
    [snakeToCamel] is the repository's own module of that name, whose file
    is not part of the sources; [StringToNumber] is the language's
    conversion of a string to a Number;
    [isMatchDeep object source] is lodash's partial deep comparison, used
    by [find] when the identifier looked for is an array or an object;
    [looseEqObject] is [==] when one side is an array or an object;
    [otherProperty name] tells whether the instances have a property of
    that name besides those of [Model.js], [Store.js] and
    [Object.prototype]: a method or a field that is not observable of the
    application's subclass, or one that the observation library adds. *)
Record Env : Type := {
  snakeCase : string -> string;
  snakeToCamel : string -> string;
  classes : string -> ModelClass;
  StringToNumber : string -> value;
  isMatchDeep : value -> value -> bool;
  looseEqObject : value -> value -> bool;
  otherProperty : string -> bool
}.

(** [x == y]. *)
Definition loose_eq (E : Env) (x y : value) : bool :=
  match x, y with
  | (VArr _ | VObj _), _ | _, (VArr _ | VObj _) => looseEqObject E x y
  | (VUndefined | VNull), (VUndefined | VNull) => true
  | (VUndefined | VNull), _ | _, (VUndefined | VNull) => false
  | _, _ =>
      let toNumber v :=
        match v with
        | VBool true => VNum 1
        | VBool false => VNum 0
        | VStr s => StringToNumber E s
        | _ => v
        end in
      match x, y with
      | VStr a, VStr b => String.eqb a b
      | _, _ => strict_eq (toNumber x) (toNumber y)
      end
  end.

(* ------------------------------------------------------------------------ *)
(** ** The object graph *)

(** Pagination state of a collection ([__state]); [limit = None] is [null]. *)
Record State : Type := {
  currentPage : Z;
  limit : option Z;
  totalRecords : Z
}.

(** The fields of a [Model] instance that hold no other instance.
    [m_attrs] lists the attribute fields with their current values: its keys
    are [__attributes], in the order the constructor found them.
    [m_store] tells whether [__store] is set; the owning collection's
    [__nestedRepository] is read only while the entity is constructed. *)
Record ModelData : Type := {
  m_class : ModelClass;
  m_attrs : obj;
  m_originalAttributes : obj;
  m_activeRelations : list (option string);
  m_activeCurrentRelations : list string;
  m_repository : value;
  m_store : bool;
  m_backendValidationErrors : value;
  m_pendingRequestCount : Z
}.

(** The fields of a [Store] instance other than [models]. *)
Record StoreData : Type := {
  s_class : StoreClass;
  s_params : obj;
  s_pendingRequestCount : Z;
  s_state : State;
  s_activeRelations : list (option string);
  s_repository : value;
  s_nestedRepository : obj
}.

(** Entities and collections.  [rels] are the relation fields that
    [__parseRelations] adds to an entity, by name. *)
Inductive Model : Type :=
| MkModel (d : ModelData) (rels : list (string * Rel))
with Rel : Type :=
| RModel (m : Model)
| RStore (s : Store)
with Store : Type :=
| MkStore (d : StoreData) (models : list Model).

Definition mdata (m : Model) : ModelData := let 'MkModel d _ := m in d.
Definition mrels (m : Model) : list (string * Rel) := let 'MkModel _ rels := m in rels.
Definition sdata (s : Store) : StoreData := let 'MkStore d _ := s in d.
Definition models (s : Store) : list Model := let 'MkStore _ ms := s in ms.

Definition with_mdata (f : ModelData -> ModelData) (m : Model) : Model :=
  let 'MkModel d rels := m in MkModel (f d) rels.
Definition with_sdata (f : StoreData -> StoreData) (s : Store) : Store :=
  let 'MkStore d ms := s in MkStore (f d) ms.
Definition set_models (ms : list Model) (s : Store) : Store :=
  let 'MkStore d _ := s in MkStore d ms.

Definition set_attrs (a : obj) (d : ModelData) : ModelData :=
  {| m_class := m_class d; m_attrs := a;
     m_originalAttributes := m_originalAttributes d;
     m_activeRelations := m_activeRelations d;
     m_activeCurrentRelations := m_activeCurrentRelations d;
     m_repository := m_repository d; m_store := m_store d;
     m_backendValidationErrors := m_backendValidationErrors d;
     m_pendingRequestCount := m_pendingRequestCount d |}.

Definition set_repository (r : value) (d : ModelData) : ModelData :=
  {| m_class := m_class d; m_attrs := m_attrs d;
     m_originalAttributes := m_originalAttributes d;
     m_activeRelations := m_activeRelations d;
     m_activeCurrentRelations := m_activeCurrentRelations d;
     m_repository := r; m_store := m_store d;
     m_backendValidationErrors := m_backendValidationErrors d;
     m_pendingRequestCount := m_pendingRequestCount d |}.

Definition set_backendValidationErrors (v : value) (d : ModelData) : ModelData :=
  {| m_class := m_class d; m_attrs := m_attrs d;
     m_originalAttributes := m_originalAttributes d;
     m_activeRelations := m_activeRelations d;
     m_activeCurrentRelations := m_activeCurrentRelations d;
     m_repository := m_repository d; m_store := m_store d;
     m_backendValidationErrors := v;
     m_pendingRequestCount := m_pendingRequestCount d |}.

Definition set_pendingRequestCount (n : Z) (d : ModelData) : ModelData :=
  {| m_class := m_class d; m_attrs := m_attrs d;
     m_originalAttributes := m_originalAttributes d;
     m_activeRelations := m_activeRelations d;
     m_activeCurrentRelations := m_activeCurrentRelations d;
     m_repository := m_repository d; m_store := m_store d;
     m_backendValidationErrors := m_backendValidationErrors d;
     m_pendingRequestCount := n |}.

Definition set_class (c : ModelClass) (d : ModelData) : ModelData :=
  {| m_class := c; m_attrs := m_attrs d;
     m_originalAttributes := m_originalAttributes d;
     m_activeRelations := m_activeRelations d;
     m_activeCurrentRelations := m_activeCurrentRelations d;
     m_repository := m_repository d; m_store := m_store d;
     m_backendValidationErrors := m_backendValidationErrors d;
     m_pendingRequestCount := m_pendingRequestCount d |}.

Definition s_set_pendingRequestCount (n : Z) (d : StoreData) : StoreData :=
  {| s_class := s_class d; s_params := s_params d;
     s_pendingRequestCount := n; s_state := s_state d;
     s_activeRelations := s_activeRelations d;
     s_repository := s_repository d;
     s_nestedRepository := s_nestedRepository d |}.

Definition s_set_state (st : State) (d : StoreData) : StoreData :=
  {| s_class := s_class d; s_params := s_params d;
     s_pendingRequestCount := s_pendingRequestCount d; s_state := st;
     s_activeRelations := s_activeRelations d;
     s_repository := s_repository d;
     s_nestedRepository := s_nestedRepository d |}.

Definition s_set_repository (r : value) (d : StoreData) : StoreData :=
  {| s_class := s_class d; s_params := s_params d;
     s_pendingRequestCount := s_pendingRequestCount d; s_state := s_state d;
     s_activeRelations := s_activeRelations d;
     s_repository := r;
     s_nestedRepository := s_nestedRepository d |}.

Definition s_set_nestedRepository (n : obj) (d : StoreData) : StoreData :=
  {| s_class := s_class d; s_params := s_params d;
     s_pendingRequestCount := s_pendingRequestCount d; s_state := s_state d;
     s_activeRelations := s_activeRelations d;
     s_repository := s_repository d;
     s_nestedRepository := n |}.

(** [this.__attributes]. *)
Definition attributes (m : Model) : list string := map fst (m_attrs (mdata m)).

(** [this[attr]] for an attribute field. *)
Definition field (m : Model) (attr : string) : value := prop (m_attrs (mdata m)) attr.

(** [this[attr] = v] for an attribute field. *)
Definition set_field (attr : string) (v : value) (m : Model) : Model :=
  with_mdata (fun d => set_attrs (obj_set (m_attrs d) attr v) d) m.

Fixpoint assoc {A : Type} (l : list (string * A)) (k : string) : option A :=
  match l with
  | [] => None
  | (k', a) :: l' => if String.eqb k k' then Some a else assoc l' k
  end.

Fixpoint assoc_set {A : Type} (l : list (string * A)) (k : string) (a : A)
  : list (string * A) :=
  match l with
  | [] => [(k, a)]
  | (k', a') :: l' =>
      if String.eqb k k' then (k', a) :: l' else (k', a') :: assoc_set l' k a
  end.

(** [this[currentRel]] for a relation field; [None] is [undefined]. *)
Definition rel_field (m : Model) (rel : string) : option Rel := assoc (mrels m) rel.

Definition set_rel (rel : string) (r : Rel) (m : Model) : Model :=
  let 'MkModel d rels := m in MkModel d (assoc_set rels rel r).

(** [xs.includes(x)] for strings. *)
Definition includes (xs : list string) (x : string) : bool :=
  existsb (String.eqb x) xs.

(** [this.constructor.primaryKey] and [this[this.constructor.primaryKey]]. *)
Definition pk (m : Model) : string := primaryKey (m_class (mdata m)).
Definition id_of (m : Model) : value := field m (pk m).

(** [isNew] and [isLoading]. *)
Definition isNew (m : Model) : bool := negb (truthy (id_of m)).
Definition isLoading (m : Model) : bool := 0 <? m_pendingRequestCount (mdata m).
Definition Store_isLoading (s : Store) : bool := 0 <? s_pendingRequestCount (sdata s).

(** [length] of a collection. *)
Definition Store_length (s : Store) : Z := Z.of_nat (List.length (models s)).

(* ------------------------------------------------------------------------ *)
(** ** The relation descriptor parser: [__parseRelations] *)

(** Line terminators, which [.] does not match (LF and CR; strings are
    sequences of 8-bit characters here). *)
Definition is_line_terminator (c : ascii) : bool :=
  let n := nat_of_ascii c in ((n =? 10) || (n =? 13))%nat.

Definition is_dot (c : ascii) : bool := Ascii.eqb c ".".

(** The longest prefix of characters satisfying [p], and the rest. *)
Fixpoint span (p : ascii -> bool) (s : string) : string * string :=
  match s with
  | EmptyString => ("", "")
  | String c s' =>
      if p c then let '(a, b) := span p s' in (String c a, b) else ("", s)
  end.

(** [/([^.]+)\.(.+)/] tried at the start of [s]: both quantifiers are
    greedy, and a shorter first group is followed by a character that is
    not a dot, so backtracking finds nothing more. *)
Definition match_here (s : string) : option (string * string) :=
  let '(g1, rest) := span (fun c => negb (is_dot c)) s in
  match g1, rest with
  | String _ _, String _ rest' =>
      match span (fun c => negb (is_line_terminator c)) rest' with
      | (String c g2, _) => Some (g1, String c g2)
      | _ => None
      end
  | _, _ => None
  end.

(** [aRel.match(/([^.]+)\.(.+)/)]: the leftmost match, as the pair of its
    two groups. *)
Fixpoint regex_match (s : string) : option (string * string) :=
  match match_here s with
  | Some groups => Some groups
  | None =>
      match s with
      | EmptyString => None
      | String _ s' => regex_match s'
      end
  end.

(** A list of relation paths as a value of the program: an array whose
    elements are strings or [null] ([None]). *)
Definition paths : Type := list (option string).

(** [relModels]: relation name to [null] ([None]) or an array of paths. *)
Definition RelModels : Type := list (string * option paths).

(** One turn of the [forEach] over [activeRelations]: the state is
    [relModels] and [__activeCurrentRelations].  [relModels] is an object:
    under a name that it does not hold itself, [relModels[currentRel]]
    reads what [Object.prototype] has under that name, which is not an
    array. *)
Definition parseRelation (aRel : option string) (st : RelModels * list string)
  : result (RelModels * list string) :=
  let '(relModels, activeCurrentRelations) := st in
  match aRel with
  | None => Throw (TypeError "Cannot read property 'match' of null")
  | Some aRel =>
      let relNames := regex_match aRel in
      let currentRel := match relNames with Some (r1, _) => r1 | None => aRel end in
      let otherRelNames := match relNames with Some (_, r2) => Some r2 | None => None end in
      let currentProp := assoc relModels currentRel in
      let otherRels : option paths :=
        match otherRelNames with Some o => Some [Some o] | None => None end in
      if match currentProp with
         | None => includes Object_prototype currentRel
         | Some _ => false
         end
      then Throw (TypeError "currentProp.concat is not a function")
      else
        let relModels :=
          assoc_set relModels currentRel
            match currentProp with
            | Some (Some arr) =>
                (* [currentProp.concat(otherRels)]: an array argument is
                   spread, [null] is appended as an element *)
                Some (arr ++ match otherRels with Some o => o | None => [None] end)%list
            | _ => otherRels
            end in
        let activeCurrentRelations :=
          if includes activeCurrentRelations currentRel then activeCurrentRelations
          else (activeCurrentRelations ++ [currentRel])%list in
        Ok (relModels, activeCurrentRelations)
  end.

Fixpoint parseRelations_loop (activeRelations : paths) (st : RelModels * list string)
  : result (RelModels * list string) :=
  match activeRelations with
  | [] => Ok st
  | aRel :: rest => st' <- parseRelation aRel st ;; parseRelations_loop rest st'
  end.

(** The options of the [Model] constructor.  [opt_store] is the owning
    collection's [__nestedRepository] when [options.store] is given. *)
Record Options : Type := {
  opt_store : option obj;
  opt_repository : value;
  opt_relations : option paths
}.

(** The options of the [Store] constructor: [relations], [limit], and the
    names of the other properties of the options object, in order. *)
Record StoreOptions : Type := {
  so_relations : option paths;
  so_limit : value;
  so_others : list string
}.

(** [setLimit] on the pagination state. *)
Definition setLimit_state (lim : value) (st : State) : result State :=
  if truthy lim && negb (Number_isInteger lim) then Throw PageLimitNotNumber
  else Ok {| currentPage := currentPage st;
             limit := match as_integer lim with
                      | Some n => if n =? 0 then None else Some n
                      | None => None
                      end;
             totalRecords := totalRecords st |}.

(** [new RelModel(options)] for a [Store] subclass. *)
Definition new_Store (sc : StoreClass) (options : StoreOptions) : result Store :=
  match so_others options with
  | option :: _ => Throw (UnknownStoreOption option)
  | [] =>
      let activeRelations :=
        match so_relations options with Some rels => rels | None => [] end in
      let st := {| currentPage := 1; limit := Some 25; totalRecords := 0 |} in
      st <- (if is_undefined (so_limit options) then Ok st
             else setLimit_state (so_limit options) st) ;;
      Ok (MkStore {| s_class := sc; s_params := []; s_pendingRequestCount := 0;
                     s_state := st; s_activeRelations := activeRelations;
                     s_repository := VUndefined; s_nestedRepository := [] |} [])
  end.

(* ------------------------------------------------------------------------ *)
(** ** The backend codec, the constructors and repository propagation *)

Section WithEnv.

Context (E : Env).

(** mobx's [toJS]: a plain copy of a value, which is the value itself
    here. *)
Definition toJS (v : value) : value := v.

Definition casts_of (m : Model) : list (string * Cast) := casts (m_class (mdata m)).

(** [__toJSAttr] and [__parseAttr]. *)
Definition toJSAttr (m : Model) (attr : string) (v : value) : value :=
  match assoc (casts_of m) attr with
  | Some cast => toJS (cast_toJS cast attr v)
  | None => toJS v
  end.

Definition parseAttr (m : Model) (attr : string) (v : value) : value :=
  match assoc (casts_of m) attr with
  | Some cast => cast_parse cast attr v
  | None => v
  end.

(** [this.Model] of a collection. *)
Definition Store_Model (s : Store) : ModelClass := classes E (sc_Model (s_class (sdata s))).

(** [mapByPrimaryKey]: lodash's [map] with a property name. *)
Definition mapByPrimaryKey (s : Store) : list value :=
  map (fun m => field m (primaryKey (Store_Model s))) (models s).

(** [toBackend]. *)
Definition toBackend (m : Model) : obj :=
  let output :=
    fold_left
      (fun output attr =>
         if startsWith "_" attr then output
         else obj_set output (snakeCase E attr) (toJSAttr m attr (field m attr)))
      (attributes m) [] in
  fold_left
    (fun output currentRel =>
       let relBackendName := snakeCase E currentRel in
       match rel_field m currentRel with
       | Some (RModel rel) => obj_set output relBackendName (id_of rel)
       | Some (RStore rel) => obj_set output relBackendName (VArr (mapByPrimaryKey rel))
       | None => output
       end)
    (m_activeCurrentRelations (mdata m)) output.

(** The methods an instance calls on the instances below it in the relation
    tree: the constructor of an entity type and [parse] of an entity. *)
Record Methods : Type := {
  rec_new : ModelClass -> value -> Options -> result Model;
  rec_parse : Model -> value -> outcome Model
}.

(** lodash's [matches({id})] applied to a record.  For a primitive [id]
    other than [NaN] it is [record.id === id], with the property required
    to exist when [id] is [undefined]. *)
Definition matches_id (id record : value) : bool :=
  match id with
  | VArr _ | VObj _ => isMatchDeep E record (VObj [("id", id)])
  | VNaN =>
      match record with
      | VObj o => match obj_get o "id" with Some VNaN => true | _ => false end
      | _ => false
      end
  | _ =>
      match record with
      | VUndefined | VNull => false
      | _ =>
          strict_eq (value_prop record "id") id
          && (negb (is_undefined id)
              || match record with VObj o => has_key o "id" | _ => false end)
      end
  end.

(** The elements lodash iterates over in a collection. *)
Definition elements (collection : value) : list value :=
  match collection with
  | VArr xs => xs
  | VObj o => map snd o
  | _ => []
  end.

(** [find(repository, {id})]. *)
Definition find_id (repository id : value) : option value :=
  List.find (matches_id id) (elements repository).

(** [Model.__addFromRepository], given the entity's [parse]. *)
Definition addFromRepository_with (parse : Model -> value -> outcome Model)
  (m : Model) (id : value) : outcome Model :=
  match find_id (m_repository (mdata m)) id with
  | Some relData => if truthy relData then parse m relData else (m, None)
  | None => (m, None)
  end.

(** [Store._newModel]. *)
Definition newModel (rec : Methods) (s : Store) (model : value) : result Model :=
  rec_new rec (Store_Model s)
    (if is_undefined model then VNull else model)
    {| opt_store := Some (s_nestedRepository (sdata s));
       opt_repository := VUndefined;
       opt_relations := Some (s_activeRelations (sdata s)) |}.

(** [Store.parse]. *)
Definition Store_parse (rec : Methods) (s : Store) (data : value) : outcome Store :=
  match data with
  | VArr records =>
      match map_result (newModel rec s) records with
      | Ok ms => (set_models ms s, None)
      | Throw e => (s, Some e)
      end
  | _ => (s, Some ParseNotArray)
  end.

(** [at(keyBy(repository, primaryKey), ids)]: for each identifier the last
    record filed under its key, or [undefined].  lodash takes an
    identifier that is an array or an object, and a string with a dot or a
    bracket under which no record is filed, for a path; and under a name
    of [Object.prototype] with no record the keyed object has what it
    inherits. *)
Definition record_at (repository : value) (key : string) (id : value) : result value :=
  match id with
  | VArr _ | VObj _ => Throw OutsideModel
  | _ =>
      match List.find
              (fun record => String.eqb (toKey (value_prop record key)) (toKey id))
              (List.rev (elements repository)) with
      | Some record => Ok record
      | None =>
          match id with
          | VStr s =>
              if has_path_syntax s || includes Object_prototype s
              then Throw OutsideModel
              else Ok VUndefined
          | _ => Ok VUndefined
          end
      end
  end.

Definition records_at (repository : value) (key : string) (ids : list value)
  : result (list value) :=
  map_result (record_at repository key) ids.

(** [Store.__addFromRepository]. *)
Definition Store_addFromRepository (rec : Methods) (s : Store) (ids : value)
  : outcome Store :=
  let ids :=
    match ids with
    | VUndefined => []
    | VArr xs => xs
    | _ => [ids]
    end in
  match
    records <- records_at (s_repository (sdata s)) (primaryKey (Store_Model s)) ids ;;
    map_result
      (fun record =>
         rec_new rec (Store_Model s) record
           {| opt_store := Some (s_nestedRepository (sdata s));
              opt_repository := VUndefined;
              opt_relations := Some (s_activeRelations (sdata s)) |})
      records
  with
  | Ok ms => (set_models ms s, None)
  | Throw e => (s, Some e)
  end.

(** [this[attr].parse(value)] and [this[attr].__addFromRepository(value)]
    on a relation field. *)
Definition Rel_parse (rec : Methods) (r : Rel) (v : value) : outcome Rel :=
  match r with
  | RModel c => let '(c', err) := rec_parse rec c v in (RModel c', err)
  | RStore s => let '(s', err) := Store_parse rec s v in (RStore s', err)
  end.

Definition Rel_addFromRepository (rec : Methods) (r : Rel) (v : value) : outcome Rel :=
  match r with
  | RModel c => let '(c', err) := addFromRepository_with (rec_parse rec) c v in (RModel c', err)
  | RStore s => let '(s', err) := Store_addFromRepository rec s v in (RStore s', err)
  end.

(** [isPlainObject(value) || isPlainObject(get(value, '[0]'))]. *)
Definition is_nested_data (v : value) : bool :=
  match v with
  | VObj _ => true
  | VArr (VObj _ :: _) => true
  | _ => false
  end.

(** One property of the data given to [Model.parse]. *)
Definition parse_property (rec : Methods) (key : string) (v : value) (m : Model)
  : outcome Model :=
  let attr := snakeToCamel E key in
  if includes (attributes m) attr then
    (set_field attr (parseAttr m attr v) m, None)
  else if includes (m_activeCurrentRelations (mdata m)) attr then
    match rel_field m attr with
    | Some r =>
        let '(r', err) :=
          if is_nested_data v then Rel_parse rec r v
          else Rel_addFromRepository rec r v in
        (set_rel attr r' m, err)
    | None => (m, Some (TypeError "Cannot read property of undefined"))
    end
  else (m, None).

(** [Model.parse]. *)
Definition Model_parse (rec : Methods) (m : Model) (data : value) : outcome Model :=
  match data with
  | VObj o => forIn (parse_property rec) o m
  | _ => (m, Some ParseNotObject)
  end.

(** [Model.__addFromRepository]. *)
Definition Model_addFromRepository (rec : Methods) (m : Model) (id : value)
  : outcome Model :=
  addFromRepository_with (Model_parse rec) m id.

(** The instance one relation of [relModels] becomes: the callback of
    [mapValues] in [__parseRelations]. *)
Definition new_relation (rec : Methods) (cls : ModelClass) (store : option obj)
  (relName : string) (otherRelNames : option paths) : result Rel :=
  match relations cls with
  | None => Throw (TypeError "Cannot read property of undefined")
  | Some table =>
      match assoc table relName with
      | None => Throw (RelationDoesNotExist relName)
      | Some RelModel =>
          let repository :=
            match store with
            | Some nestedRepository =>
                if truthy (prop nestedRepository relName)
                then Some (prop nestedRepository relName) else None
            | None => None
            end in
          match RelModel with
          | ToStore sc =>
              s <- new_Store sc
                     {| so_relations := otherRelNames; so_limit := VUndefined;
                        so_others := match repository with
                                     | Some _ => ["repository"]
                                     | None => []
                                     end |} ;;
              Ok (RStore s)
          | ToModel c =>
              m <- rec_new rec (classes E c) VNull
                     {| opt_store := None;
                        opt_repository := match repository with
                                          | Some r => r
                                          | None => VUndefined
                                          end;
                        opt_relations := otherRelNames |} ;;
              Ok (RModel m)
          end
      end
  end.

Fixpoint new_relations (rec : Methods) (cls : ModelClass) (store : option obj)
  (relModels : RelModels) : result (list (string * Rel)) :=
  match relModels with
  | [] => Ok []
  | (relName, otherRelNames) :: rest =>
      r <- new_relation rec cls store relName otherRelNames ;;
      rs <- new_relations rec cls store rest ;;
      Ok ((relName, r) :: rs)
  end.

(** The relation fields [created], listed by the [names]. *)
Definition fields_of (names : list string) (created : list (string * Rel))
  : list (string * Rel) :=
  flat_map (fun name => match assoc created name with
                        | Some r => [(name, r)]
                        | None => []
                        end) names.

(** [__parseRelations], called by the constructor on an entity that has no
    relation field yet.  [mapValues] visits [relModels] as the language
    orders its properties; the fields it makes are kept in the order of
    [relModels], which is that of [__activeCurrentRelations] (the order of
    the fields of an instance is read nowhere). *)
Definition parseRelations (rec : Methods) (store : option obj) (d : ModelData)
  (activeRelations : paths) : result Model :=
  st <- parseRelations_loop activeRelations ([], m_activeCurrentRelations d) ;;
  let '(relModels, activeCurrentRelations) := st in
  created <- new_relations rec (m_class d) store (own_properties relModels) ;;
  let rels := fields_of (map fst relModels) created in
  Ok (MkModel {| m_class := m_class d; m_attrs := m_attrs d;
                 m_originalAttributes := m_originalAttributes d;
                 m_activeRelations := activeRelations;
                 m_activeCurrentRelations := activeCurrentRelations;
                 m_repository := m_repository d; m_store := m_store d;
                 m_backendValidationErrors := m_backendValidationErrors d;
                 m_pendingRequestCount := m_pendingRequestCount d |} rels).

(** [new Model(data, options)] for the entity type [cls]. *)
Definition new_Model (rec : Methods) (cls : ModelClass) (data : value) (options : Options)
  : result Model :=
  let attrs := filter (fun kv => negb (startsWith "__" (fst kv))) (observables cls) in
  let d := {| m_class := cls; m_attrs := attrs; m_originalAttributes := attrs;
              m_activeRelations := []; m_activeCurrentRelations := [];
              m_repository := opt_repository options;
              m_store := match opt_store options with Some _ => true | None => false end;
              m_backendValidationErrors := VObj [];
              m_pendingRequestCount := 0 |} in
  m <- match opt_relations options with
       | Some activeRelations => parseRelations rec (opt_store options) d activeRelations
       | None => Ok (MkModel d [])
       end ;;
  if truthy data then
    match Model_parse rec m data with
    | (m', None) => Ok m'
    | (_, Some e) => Throw e
    end
  else Ok m.

(** The methods at each depth of the relation tree: [methods n] serves
    instances with fewer than [n] levels of relations below them. *)
Fixpoint methods (fuel : nat) : Methods :=
  match fuel with
  | O => {| rec_new := fun _ _ _ => Throw OutOfFuel;
            rec_parse := fun m _ => (m, Some OutOfFuel) |}
  | S fuel' => {| rec_new := new_Model (methods fuel');
                  rec_parse := Model_parse (methods fuel') |}
  end.

(** *** Repository propagation: [fromBackend] *)

(** What the backend sends: [{data, repos, relMapping}]. *)
Record Payload : Type := {
  p_data : value;
  p_repos : obj;
  p_relMapping : list (string * string)
}.

(** [s.split('.')]. *)
Fixpoint split_dots (s : string) : list string :=
  match s with
  | EmptyString => [""]
  | String c s' =>
      if is_dot c then "" :: split_dots s'
      else match split_dots s' with
           | x :: xs => String c x :: xs
           | [] => [String c ""]
           end
  end.

(** lodash's [get(v, path)] inside a plain value. *)
Fixpoint value_get (path : list string) (v : value) : value :=
  match path with
  | [] => v
  | seg :: rest =>
      match v with
      | VObj o => value_get rest (prop o seg)
      | _ => VUndefined
      end
  end.

Fixpoint value_update (path : list string) (f : value -> value) (v : value) : value :=
  match path with
  | [] => f v
  | seg :: rest =>
      match v with
      | VObj o => VObj (obj_set o seg (value_update rest f (prop o seg)))
      | _ => v
      end
  end.

(** [get(v, path)] inside a plain value, as far as the path stays in plain
    objects: [None] when it reads an inherited property, or a property of
    an array, a string or another primitive value. *)
Fixpoint value_walk (path : list string) (v : value) : option value :=
  match path with
  | [] => Some v
  | seg :: rest =>
      match v with
      | VObj o =>
          match obj_get o seg with
          | Some v' => value_walk rest v'
          | None => if includes Object_prototype seg then None else Some VUndefined
          end
      | VUndefined | VNull => Some VUndefined
      | _ => None
      end
  end.

(** [get(this, path)] when it is a relation field of the entity or of an
    entity below it.  A path is followed through the relation fields and the
    attribute fields; a collection has no property of a relation's name. *)
Fixpoint get_rel (path : list string) (m : Model) : option Rel :=
  match path with
  | [] => None
  | seg :: rest =>
      match rel_field m seg with
      | Some r =>
          match rest, r with
          | [], _ => Some r
          | _, RModel c => get_rel rest c
          | _, RStore _ => None
          end
      | None => None
      end
  end.

Fixpoint update_rel (path : list string) (f : Rel -> Rel) (m : Model) : Model :=
  match path with
  | [] => m
  | seg :: rest =>
      match rel_field m seg with
      | Some r =>
          match rest, r with
          | [], _ => set_rel seg (f r) m
          | _, RModel c => set_rel seg (RModel (update_rel rest f c)) m
          | _, RStore _ => m
          end
      | None => m
      end
  end.

Definition Rel_set_repository (repository : value) (r : Rel) : Rel :=
  match r with
  | RModel c => RModel (with_mdata (set_repository repository) c)
  | RStore s => RStore (with_sdata (s_set_repository repository) s)
  end.

(** [model = get(this, path); if (model !== undefined) model.__repository =
    repository]: [None] when [model] is [undefined].  A path that ends in
    an attribute's value assigns a property of that value, which throws on
    [null] and on a primitive.  The path is one that stays within the
    relation fields and the attribute values ([leaves_model] below tells
    the others apart, and [propagate_repository] asks it first). *)
Fixpoint assign_repository (path : list string) (repository : value) (m : Model)
  : option (outcome Model) :=
  match path with
  | [] => None
  | seg :: rest =>
      match rel_field m seg with
      | Some r =>
          match rest, r with
          | [], _ => Some (set_rel seg (Rel_set_repository repository r) m, None)
          | _, RModel c =>
              match assign_repository rest repository c with
              | Some (c', err) => Some (set_rel seg (RModel c') m, err)
              | None => None
              end
          | _, RStore _ => None
          end
      | None =>
          if includes (attributes m) seg then
            match value_get rest (field m seg) with
            | VUndefined => None
            | VObj _ =>
                Some (set_field seg
                        (value_update rest
                           (fun v => match v with
                                     | VObj o => VObj (obj_set o "__repository" repository)
                                     | _ => v
                                     end)
                           (field m seg)) m, None)
            | VArr _ => Some (m, None)
            | _ => Some (m, Some (TypeError "Cannot set property '__repository'"))
            end
          else None
      end
  end.

(** Whether [get(this, path)] reads a property that is neither a relation
    field nor inside the value of an attribute: another property of an
    entity or of a collection, or a segment in bracket syntax. *)
Definition Model_property (name : string) : bool :=
  includes Model_properties name || includes Object_prototype name
  || otherProperty E name || has_path_syntax name.

Definition Store_property (name : string) : bool :=
  includes Store_properties name || includes Object_prototype name
  || otherProperty E name || has_path_syntax name.

Fixpoint leaves_model (path : list string) (m : Model) : bool :=
  match path with
  | [] => false
  | seg :: rest =>
      match rel_field m seg with
      | Some (RModel c) => leaves_model rest c
      | Some (RStore _) =>
          match rest with
          | [] => false
          | seg' :: _ => Store_property seg'
          end
      | None =>
          if includes (attributes m) seg
          then match value_walk rest (field m seg) with
               | Some _ => false
               | None => true
               end
          else Model_property seg
      end
  end.

(** The first collection in the relation chain of [relName], as the path
    that leads to it and the rest of the chain ([nestedRel]); the search
    also ends at a path that leaves the model. *)
Definition find_first_store (relName : string) (m : Model) : option (list string * string) :=
  let rels := split_dots relName in
  List.find
    (fun c => leaves_model (fst c) m
              || match get_rel (fst c) m with Some (RStore _) => true | _ => false end)
    (map (fun i => (split_dots (snakeToCamel E (join "." (firstn i rels))),
                    join "." (skipn i rels)))
         (seq 1 (List.length rels))).

(** One entry of [relMapping]. *)
Definition propagate_repository (repos : obj) (relName repoName : string) (m : Model)
  : outcome Model :=
  let repository := prop repos repoName in
  let path := split_dots (snakeToCamel E relName) in
  if leaves_model path m then (m, Some OutsideModel)
  else
    match assign_repository path repository m with
    | Some r => r
    | None =>
        match find_first_store relName m with
        | Some (path, nestedRel) =>
            if leaves_model path m then (m, Some OutsideModel)
            else
              (update_rel path
                 (fun r =>
                    match r with
                    | RStore s =>
                        RStore (with_sdata
                                  (fun d => s_set_nestedRepository
                                              (obj_set (s_nestedRepository d) nestedRel
                                                       repository) d)
                                  s)
                    | _ => r
                    end) m, None)
        | None =>
            (m, Some (TypeError "Cannot read property '__nestedRepository' of undefined"))
        end
    end.

Fixpoint propagate_repositories (repos : obj) (relMapping : list (string * string))
  (m : Model) : outcome Model :=
  match relMapping with
  | [] => (m, None)
  | (relName, repoName) :: rest =>
      match propagate_repository repos relName repoName m with
      | (m', None) => propagate_repositories repos rest m'
      | thrown => thrown
      end
  end.

(** [Model.fromBackend], given the entity's [parse]. *)
Definition fromBackend_with (parse : Model -> value -> outcome Model)
  (m : Model) (res : Payload) : outcome Model :=
  match propagate_repositories (p_repos res) (p_relMapping res) m with
  | (m', None) => if truthy (p_data res) then parse m' (p_data res) else (m', None)
  | thrown => thrown
  end.

Definition Model_fromBackend (rec : Methods) (m : Model) (res : Payload) : outcome Model :=
  fromBackend_with (Model_parse rec) m res.

(** [Store.fromBackend]. *)
Definition Store_fromBackend (rec : Methods) (s : Store) (res : Payload) : outcome Store :=
  match p_data res with
  | VArr records =>
      match map_result
              (fun record =>
                 model <- newModel rec s VUndefined ;;
                 match fromBackend_with (rec_parse rec) model
                         {| p_data := record; p_repos := p_repos res;
                            p_relMapping := p_relMapping res |} with
                 | (model', None) => Ok model'
                 | (_, Some e) => Throw e
                 end)
              records with
      | Ok ms => (set_models ms s, None)
      | Throw e => (s, Some e)
      end
  | _ => (s, Some (TypeError "data.map is not a function"))
  end.

(** *** The graph flattener: [toBackendAll] *)

(** What [toBackendAll] returns: [{data, relations}]. *)
Record BackendAll : Type := {
  ba_data : list value;
  ba_relations : list (string * list value)
}.

(** [relations[key] = relations[key] ? relations[key].concat(relB) : relB]
    for every entry of the relations of a branch. *)
Definition merge_relations (relations from : list (string * list value))
  : list (string * list value) :=
  fold_left
    (fun relations kv =>
       let '(key, relB) := kv in
       assoc_set relations key
         match assoc relations key with
         | Some bucket => (bucket ++ relB)%list
         | None => relB
         end)
    from relations.

(** [ids.map(id => id === null ? generateNegativeId() : id)]. *)
Fixpoint fill_ids (ids : list value) (idCounter : Z) : list value * Z :=
  match ids with
  | [] => ([], idCounter)
  | id :: rest =>
      let '(id', c) :=
        if is_null id then generateNegativeId idCounter else (id, idCounter) in
      let '(rest', c') := fill_ids rest c in
      (id' :: rest', c')
  end.

(** [f] applied to the relation field [k]; [None] when there is none. *)
Fixpoint on_field {A B : Type} (f : A -> B) (k : string) (l : list (string * A)) : option B :=
  match l with
  | [] => None
  | (k', a) :: l' => if String.eqb k k' then Some (f a) else on_field f k l'
  end.

(** [newIds && newIds[i] !== undefined ? newIds[i] : null]. *)
Definition newId_at (newIds : value) (i : nat) : value :=
  match newIds with
  | VArr ids =>
      match nth_error ids i with
      | Some VUndefined | None => VNull
      | Some id => id
      end
  | _ => VNull
  end.

(** The [forEach] of [Model.toBackendAll] over [__activeCurrentRelations]:
    [data] is the entity's record, [relations] the output map, and
    [toBackendAll] the method of the related instance. *)
Fixpoint each_relation (toBackendAll : Rel -> value -> Z -> result BackendAll * Z)
  (rels : list (string * Rel)) (currentRels : list string) (data : obj)
  (relations : list (string * list value)) (idCounter : Z) {struct currentRels}
  : result BackendAll * Z :=
  match currentRels with
  | [] => (Ok {| ba_data := [VObj data]; ba_relations := relations |}, idCounter)
  | currentRel :: rest =>
      let relBackendName := snakeCase E currentRel in
      let '(myNewId, data, idCounter) :=
        if is_null (prop data relBackendName) then
          let '(id, c) := generateNegativeId idCounter in
          (id, obj_set data relBackendName id, c)
        else (VNull, data, idCounter) in
      let '(myNewId, data, idCounter) :=
        match prop data relBackendName with
        | VArr ids =>
            let '(ids', c) := fill_ids ids idCounter in
            (VArr ids', obj_set data relBackendName (VArr ids'), c)
        | _ => (myNewId, data, idCounter)
        end in
      match on_field (fun rel => toBackendAll rel myNewId idCounter) currentRel rels with
      | None => (Throw (TypeError "Cannot read property 'toBackendAll' of undefined"),
                 idCounter)
      | Some (Throw e, idCounter) => (Throw e, idCounter)
      | Some (Ok relBackendData, idCounter) =>
          let relations := assoc_set relations relBackendName (ba_data relBackendData) in
          each_relation toBackendAll rels rest data
            (merge_relations relations (ba_relations relBackendData)) idCounter
      end
  end.

(** The members of [Store.toBackendAll] in turn, from position [i]:
    [toBackendAll] is the method of a member. *)
Fixpoint each_model (toBackendAll : Model -> value -> Z -> result BackendAll * Z)
  (newIds : value) (ms : list Model) (i : nat) (data : list value)
  (relations : list (string * list value)) (idCounter : Z) {struct ms}
  : result BackendAll * Z :=
  match ms with
  | [] => (Ok {| ba_data := data; ba_relations := relations |}, idCounter)
  | model :: rest =>
      match toBackendAll model (newId_at newIds i) idCounter with
      | (Throw e, idCounter) => (Throw e, idCounter)
      | (Ok modelData, idCounter) =>
          each_model toBackendAll newIds rest (S i) (data ++ ba_data modelData)%list
            (merge_relations relations (ba_relations modelData)) idCounter
      end
  end.

(** [Model.toBackendAll] and [Store.toBackendAll]; the state is lodash's
    [idCounter]. *)
Fixpoint Model_toBackendAll (m : Model) (newId : value) (idCounter : Z) {struct m}
  : result BackendAll * Z :=
  let data := toBackend m in
  let primaryKey := pk m in
  let '(data, idCounter) :=
    if truthy newId then (obj_set data primaryKey newId, idCounter)
    else if is_null (prop data primaryKey) then
      let '(id, c) := generateNegativeId idCounter in (obj_set data primaryKey id, c)
    else (data, idCounter) in
  match m with
  | MkModel d rels =>
      each_relation
        (fun rel =>
           match rel with
           | RModel c => Model_toBackendAll c
           | RStore s => Store_toBackendAll s
           end)
        rels (m_activeCurrentRelations d) data [] idCounter
  end
with Store_toBackendAll (s : Store) (newIds : value) (idCounter : Z) {struct s}
  : result BackendAll * Z :=
  let newIds := match newIds with VUndefined => VArr [] | _ => newIds end in
  match s with
  | MkStore _ ms => each_model Model_toBackendAll newIds ms O [] [] idCounter
  end.

(** *** Collections: membership and pagination *)

(** [Store.get]: the first member whose primary key [==] the identifier. *)
Definition Store_get (s : Store) (id : value) : option Model :=
  List.find (fun model => loose_eq E (id_of model) id) (models s).

(** The [forEach] of [Store.add] over the new instances. *)
Fixpoint add_each (modelInstances : list Model) (s : Store) : outcome Store :=
  match modelInstances with
  | [] => (s, None)
  | modelInstance :: rest =>
      let primaryValue := field modelInstance (primaryKey (Store_Model s)) in
      if truthy primaryValue
         && match Store_get s primaryValue with Some _ => true | None => false end
      then (s, Some (DuplicatePrimaryKey primaryValue))
      else add_each rest (set_models (models s ++ [modelInstance])%list s)
  end.

(** [Store.add]: the collection afterwards, and the new instances (one for
    an argument that is not an array) unless it threw. *)
Definition Store_add (rec : Methods) (s : Store) (input : value)
  : Store * result (list Model) :=
  let inputs := match input with VArr xs => xs | _ => [input] end in
  match map_result (newModel rec s) inputs with
  | Throw e => (s, Throw e)
  | Ok modelInstances =>
      match add_each modelInstances s with
      | (s', None) => (s', Ok modelInstances)
      | (s', Some e) => (s', Throw e)
      end
  end.

(** [this.models[index]]: [None] is [undefined]. *)
Definition models_at (s : Store) (index : Z) : option Model :=
  if index <? 0 then None else nth_error (models s) (Z.to_nat index).

(** [Store.at]. *)
Definition Store_at (s : Store) (index : Z) : result (option Model) :=
  let zeroLength := Store_length s - 1 in
  if index >? zeroLength then Throw (IndexOutOfBounds index zeroLength)
  else
    let index := if index <? 0 then index + Store_length s else index in
    Ok (models_at s index).

(** Division of Numbers is that of IEEE 754 doubles: the quotient is
    rounded to the nearest Number with a significand of 53 bits, a tie to
    the one whose significand is even.  The operands are integers here and
    are taken to be Numbers themselves; the range of the exponent plays no
    part for their quotient. *)

(** The integer nearest to [n / d] for [0 <= n] and [0 < d], a tie to the
    even one. *)
Definition round_half_even (n d : Z) : Z :=
  let q := n / d in
  let r := n mod d in
  if 2 * r <? d then q
  else if d <? 2 * r then q + 1
  else if Z.even q then q else q + 1.

(** [floor(log2(a / b))] for [0 < a] and [0 < b]. *)
Definition log2_quotient (a b : Z) : Z :=
  let t := Z.log2 a - Z.log2 b in
  if (if 0 <=? t then b * 2 ^ t <=? a else b <=? a * 2 ^ (- t)) then t else t - 1.

(** The Number [a / b] for [0 < a] and [0 < b], as a significand [m] and an
    exponent [e]: it is [m * 2 ^ e], with [2 ^ 52 <= m <= 2 ^ 53]. *)
Definition double_quotient (a b : Z) : Z * Z :=
  let e := log2_quotient a b - 52 in
  (if 0 <=? e then round_half_even a (b * 2 ^ e)
   else round_half_even (a * 2 ^ (- e)) b,
   e).

(** [Math.ceil(a / b)] for integers [a] and [b <> 0] ([totalPages] does not
    divide by a limit of 0). *)
Definition Math_ceil_div (a b : Z) : Z :=
  if (a =? 0) || (b =? 0) then 0
  else
    let '(m, e) := double_quotient (Z.abs a) (Z.abs b) in
    if Bool.eqb (a <? 0) (b <? 0)
    then if 0 <=? e then m * 2 ^ e else - ((- m) / 2 ^ (- e))
    else - (if 0 <=? e then m * 2 ^ e else m / 2 ^ (- e)).

Definition totalPages (s : Store) : Z :=
  match limit (s_state (sdata s)) with
  | None => 0
  | Some l => if l =? 0 then 0 else Math_ceil_div (totalRecords (s_state (sdata s))) l
  end.

Definition Store_currentPage (s : Store) : Z := currentPage (s_state (sdata s)).

Definition hasNextPage (s : Store) : bool := Store_currentPage s + 1 <=? totalPages s.

Definition hasPreviousPage (s : Store) : bool := Store_currentPage s >? 1.

Definition getPageOffset (s : Store) : Z :=
  (Store_currentPage s - 1)
  * match limit (s_state (sdata s)) with Some l => l | None => 0 end.

Definition set_currentPage (page : Z) (s : Store) : Store :=
  with_sdata
    (fun d => s_set_state {| currentPage := page; limit := limit (s_state d);
                             totalRecords := totalRecords (s_state d) |} d) s.

Definition set_totalRecords (n : Z) (s : Store) : Store :=
  with_sdata
    (fun d => s_set_state {| currentPage := currentPage (s_state d);
                             limit := limit (s_state d); totalRecords := n |} d) s.

Definition Store_setLimit (s : Store) (lim : value) : outcome Store :=
  match setLimit_state lim (s_state (sdata s)) with
  | Ok st => (with_sdata (s_set_state st) s, None)
  | Throw e => (s, Some e)
  end.

(** *** Requests: the asynchronous operations

    An operation runs up to the call of the transport adapter, which returns
    a promise; the handlers chained on the promise run when it settles. *)

(** The calls of the adapter.  The parameters the adapter adds itself
    ([buildFetchModelParams], [buildFetchStoreParams]) are its own. *)
Inductive Request : Type :=
| saveModel (url : string) (data : obj) (params : value) (isNew : bool)
| saveAllModels (url : option string) (data : BackendAll)
| deleteModel (url : string) (params : value)
| fetchModel (url : string) (data : value)
| fetchStore (url : option string) (params : obj) (data : value).

(** What a promise is rejected with: an exception thrown by a handler, or
    the adapter's reason. *)
Inductive rejection : Type :=
| Thrown (e : error)
| Reason (err : value).

Inductive settled (A : Type) : Type :=
| Fulfilled (a : A)
| Rejected (err : rejection).

Arguments Fulfilled {A} a.
Arguments Rejected {A} err.

(** [promise.then(onFulfilled)] and [promise.catch(onRejected)], for
    handlers that act on a state. *)
Definition then_ {S A B : Type} (onFulfilled : A -> S -> S * result B)
  (p : S * settled A) : S * settled B :=
  match p with
  | (s, Fulfilled a) =>
      match onFulfilled a s with
      | (s', Ok b) => (s', Fulfilled b)
      | (s', Throw e) => (s', Rejected (Thrown e))
      end
  | (s, Rejected err) => (s, Rejected err)
  end.

Definition catch_ {S A : Type} (onRejected : rejection -> S -> S * settled A)
  (p : S * settled A) : S * settled A :=
  match p with
  | (s, Fulfilled a) => (s, Fulfilled a)
  | (s, Rejected err) => onRejected err s
  end.

(** [err.valErrors], for a reason that has properties: an exception has no
    such property, and reading one of [null] or [undefined] throws (see
    [save_settle]). *)
Definition valErrors (err : rejection) : value :=
  match err with
  | Reason v => value_prop v "valErrors"
  | Thrown _ => VUndefined
  end.

Definition is_nullish (err : rejection) : bool :=
  match err with
  | Reason (VUndefined | VNull) => true
  | _ => false
  end.

Definition pending (m : Model) : Z := m_pendingRequestCount (mdata m).

Definition add_pending (k : Z) (m : Model) : Model :=
  with_mdata (fun d => set_pendingRequestCount (m_pendingRequestCount d + k) d) m.

Definition Store_pending (s : Store) : Z := s_pendingRequestCount (sdata s).

Definition Store_add_pending (k : Z) (s : Store) : Store :=
  with_sdata (fun d => s_set_pendingRequestCount (s_pendingRequestCount d + k) d) s.

(** [Model.__getApi] and [Store.__getApi]. *)
Definition getApi (m : Model) : result unit :=
  if negb (api (m_class (mdata m))) then Throw NoApi
  else match urlRoot (m_class (mdata m)) with
       | Some root => if String.eqb root "" then Throw NoUrlRoot else Ok tt
       | None => Throw NoUrlRoot
       end.

Definition Store_getApi (s : Store) : result unit :=
  if negb (sc_api (s_class (sdata s))) then Throw NoApi
  else match sc_url (s_class (sdata s)) with
       | Some u => if String.eqb u "" then Throw NoUrl else Ok tt
       | None => Throw NoUrl
       end.

(** [Model.url]. *)
Definition url (m : Model) : string :=
  (match urlRoot (m_class (mdata m)) with Some root => root | None => "undefined" end
   ++ if truthy (id_of m) then toKey (id_of m) ++ "/" else "")%string.

(** [Model.save]: up to the call of the adapter, and when it settles. *)
Definition save_begin (m : Model) (params : value) : Model * result Request :=
  let m := with_mdata (set_backendValidationErrors (VObj [])) m in
  let m := add_pending 1 m in
  match getApi m with
  | Throw e => (m, Throw e)
  | Ok _ => (m, Ok (saveModel (url m) (toBackend m) params (isNew m)))
  end.

Definition save_settle (rec : Methods) (m : Model) (res : settled Payload)
  : Model * settled unit :=
  catch_
    (fun err m =>
       let m := add_pending (-1) m in
       if is_nullish err
       then (m, Rejected (Thrown (TypeError "Cannot read property 'valErrors'")))
       else
         let m := if truthy (valErrors err)
                  then with_mdata (set_backendValidationErrors (valErrors err)) m
                  else m in
         (m, Rejected err))
    (then_
       (fun res m =>
          let m := add_pending (-1) m in
          match Model_fromBackend rec m res with
          | (m', None) => (m', Ok tt)
          | (m', Some e) => (m', Throw e)
          end)
       (m, res)).

(** [Model.saveAll]; the second state is lodash's [idCounter]. *)
Definition saveAll_begin (m : Model) (idCounter : Z) : (Model * Z) * result Request :=
  let m := with_mdata (set_backendValidationErrors (VObj [])) m in
  let m := add_pending 1 m in
  match getApi m with
  | Throw e => ((m, idCounter), Throw e)
  | Ok _ =>
      match Model_toBackendAll m VUndefined idCounter with
      | (Ok data, c) => ((m, c), Ok (saveAllModels (urlRoot (m_class (mdata m))) data))
      | (Throw e, c) => ((m, c), Throw e)
      end
  end.

Definition saveAll_settle (rec : Methods) (m : Model) (res : settled Payload)
  : Model * settled unit :=
  catch_
    (fun err m => (add_pending (-1) m, Rejected err))
    (then_
       (fun res m =>
          let m := add_pending (-1) m in
          match Model_fromBackend rec m res with
          | (m', None) => (m', Ok tt)
          | (m', Some e) => (m', Throw e)
          end)
       (m, res)).

(** [Model.delete].  The entity's state is paired with whether it has asked
    its collection to remove it ([removeFromStore]); the request is [None]
    for [Promise.resolve()]. *)
Definition removeFromStore (st : Model * bool) : Model * bool :=
  let '(m, removed) := st in (m, removed || m_store (mdata m)).

Definition delete_begin (m : Model) (immediate : bool) (params : value)
  : (Model * bool) * result (option Request) :=
  let st := (m, false) in
  let st := if immediate || isNew m then removeFromStore st else st in
  if isNew m then (st, Ok None)
  else
    let st := (add_pending 1 (fst st), snd st) in
    match getApi (fst st) with
    | Throw e => (st, Throw e)
    | Ok _ => (st, Ok (Some (deleteModel (url (fst st)) params)))
    end.

Definition delete_settle (st : Model * bool) (immediate : bool) (res : settled unit)
  : (Model * bool) * settled unit :=
  then_
    (fun _ st =>
       let st := (add_pending (-1) (fst st), snd st) in
       (if immediate then st else removeFromStore st, Ok tt))
    (st, res).

(** [Model.fetch]. *)
Definition fetch_begin (m : Model) (data : value) : Model * result Request :=
  if isNew m then (m, Throw FetchWithoutId)
  else
    let m := add_pending 1 m in
    match getApi m with
    | Throw e => (m, Throw e)
    | Ok _ => (m, Ok (fetchModel (url m) data))
    end.

Definition fetch_settle (rec : Methods) (m : Model) (res : settled Payload)
  : Model * settled unit :=
  then_
    (fun res m =>
       match Model_fromBackend rec m res with
       | (m', None) => (add_pending (-1) m', Ok tt)
       | (m', Some e) => (m', Throw e)
       end)
    (m, res).

(** What [fetchStore] resolves with: a payload and [totalRecords]. *)
Record StoreResponse : Type := {
  r_totalRecords : Z;
  r_payload : Payload
}.

(** [Store.fetch]. *)
Definition Store_fetch_begin (s : Store) (data : value) : Store * result Request :=
  let s := Store_add_pending 1 s in
  match Store_getApi s with
  | Throw e => (s, Throw e)
  | Ok _ =>
      (s, Ok (fetchStore (sc_url (s_class (sdata s))) (s_params (sdata s)) data))
  end.

Definition Store_fetch_settle (rec : Methods) (s : Store) (res : settled StoreResponse)
  : Store * settled unit :=
  then_
    (fun res s =>
       let s := Store_add_pending (-1) s in
       let s := set_totalRecords (r_totalRecords res) s in
       match Store_fromBackend rec s (r_payload res) with
       | (s', None) => (s', Ok tt)
       | (s', Some e) => (s', Throw e)
       end)
    (s, res).

(** [Store.setPage(page, options)]: [fetch] is [options.fetch]. *)
Definition setPage (s : Store) (page fetch : value) : Store * result (option Request) :=
  let page := match page with VUndefined => VNum 1 | _ => page end in
  match as_integer page with
  | Some n =>
      if (n >? totalPages s) || (n <? 1) then (s, Throw (PageOutOfRange (totalPages s)))
      else
        let s := set_currentPage n s in
        if is_undefined fetch || truthy fetch then
          match Store_fetch_begin s VUndefined with
          | (s', Ok req) => (s', Ok (Some req))
          | (s', Throw e) => (s', Throw e)
          end
        else (s, Ok None)
  | None => (s, Throw PageNotNumber)
  end.

Definition getNextPage (s : Store) : Store * result Request :=
  if negb (hasNextPage s) then (s, Throw NoNextPage)
  else Store_fetch_begin (set_currentPage (Store_currentPage s + 1) s) VUndefined.

Definition getPreviousPage (s : Store) : Store * result Request :=
  if negb (hasPreviousPage s) then (s, Throw NoPreviousPage)
  else Store_fetch_begin (set_currentPage (Store_currentPage s - 1) s) VUndefined.

End WithEnv.

Arguments Fulfilled {A} a.
Arguments Rejected {A} err.

(* ------------------------------------------------------------------------ *)
(** ** Plain copies and reset: [toJS] and [clear] *)

(** The [forEach] of [Model.toJS] over [__activeCurrentRelations]: a
    relation field that is set is copied under the relation's own name. *)
Fixpoint toJS_relations (toJS : Rel -> value) (rels : list (string * Rel))
  (currentRels : list string) (output : obj) : obj :=
  match currentRels with
  | [] => output
  | currentRel :: rest =>
      toJS_relations toJS rels rest
        match on_field toJS currentRel rels with
        | Some copy => obj_set output currentRel copy
        | None => output
        end
  end.

(** [Model.toJS] and [Store.toJS]. *)
Fixpoint Model_toJS (m : Model) : value :=
  let output :=
    fold_left
      (fun output attr => obj_set output attr (toJSAttr m attr (field m attr)))
      (attributes m) [] in
  match m with
  | MkModel d rels =>
      VObj (toJS_relations
              (fun rel =>
                 match rel with
                 | RModel c => Model_toJS c
                 | RStore s => Store_toJS s
                 end)
              rels (m_activeCurrentRelations d) output)
  end
with Store_toJS (s : Store) : value :=
  match s with
  | MkStore _ ms => VArr (map Model_toJS ms)
  end.

(** [Store.clear]: the members go, everything else stays. *)
Definition Store_clear (s : Store) : Store := set_models [] s.

(** The [forEach] of [Model.clear] over [__activeCurrentRelations]; [clear]
    is the method of a related entity. *)
Fixpoint clear_relations (clear : Model -> outcome Model) (currentRels : list string)
  (m : Model) : outcome Model :=
  match currentRels with
  | [] => (m, None)
  | currentRel :: rest =>
      match rel_field m currentRel with
      | None => (m, Some (TypeError "Cannot read property 'clear' of undefined"))
      | Some (RStore s) =>
          clear_relations clear rest (set_rel currentRel (RStore (Store_clear s)) m)
      | Some (RModel c) =>
          match clear c with
          | (c', None) => clear_relations clear rest (set_rel currentRel (RModel c') m)
          | (c', Some e) => (set_rel currentRel (RModel c') m, Some e)
          end
      end
  end.

(** [Model.clear]: every attribute gets the value it had when the entity
    was constructed, then the relations are cleared.  [fuel] bounds the
    depth of the relation tree, as for [methods]. *)
Fixpoint Model_clear (fuel : nat) (m : Model) : outcome Model :=
  match fuel with
  | O => (m, Some OutOfFuel)
  | S fuel' =>
      let m :=
        fold_left (fun m kv => set_field (fst kv) (snd kv) m)
          (m_originalAttributes (mdata m)) m in
      clear_relations (Model_clear fuel') (m_activeCurrentRelations (mdata m)) m
  end.

(* ------------------------------------------------------------------------ *)
(** ** The life of a collection *)

(** One call of a method of [Store] that changes the collection: the
    collection when the call has returned or thrown.  A fetch is two steps,
    the call and the handler run when the request is fulfilled. *)
Inductive Store_step (E : Env) (rec : Methods) (s : Store) : Store -> Prop :=
| step_parse (data : value) :
    Store_step E rec s (fst (Store_parse E rec s data))
| step_addFromRepository (ids : value) :
    Store_step E rec s (fst (Store_addFromRepository E rec s ids))
| step_fromBackend (res : Payload) :
    Store_step E rec s (fst (Store_fromBackend E rec s res))
| step_add (input : value) :
    Store_step E rec s (fst (Store_add E rec s input))
| step_clear :
    Store_step E rec s (Store_clear s)
| step_setLimit (lim : value) :
    Store_step E rec s (fst (Store_setLimit s lim))
| step_setPage (page fetch : value) :
    Store_step E rec s (fst (setPage s page fetch))
| step_getNextPage :
    Store_step E rec s (fst (getNextPage s))
| step_getPreviousPage :
    Store_step E rec s (fst (getPreviousPage s))
| step_fetch (data : value) :
    Store_step E rec s (fst (Store_fetch_begin s data))
| step_fetched (res : settled StoreResponse) :
    Store_step E rec s (fst (Store_fetch_settle E rec s res)).

(** The collections a program can reach from [new Store(options)]. *)
Inductive Store_reachable (E : Env) (rec : Methods) (sc : StoreClass) : Store -> Prop :=
| reach_new (options : StoreOptions) (s : Store) :
    new_Store sc options = Ok s -> Store_reachable E rec sc s
| reach_step (s s' : Store) :
    Store_reachable E rec sc s -> Store_step E rec s s' -> Store_reachable E rec sc s'.

(* ------------------------------------------------------------------------ *)
(** ** The life of an entity *)

(** Whether a relation field holds a collection. *)
Definition is_collection (r : Rel) : bool :=
  match r with RStore _ => true | RModel _ => false end.

(** One call of a method of [Model] that changes the entity: the entity
    when the call has returned or thrown.  A request is two calls, the
    method and the handlers run when the request settles. *)
Inductive Model_call (E : Env) (rec : Methods) (m : Model) : Model -> Prop :=
| call_parse (data : value) :
    Model_call E rec m (fst (Model_parse E rec m data))
| call_addFromRepository (id : value) :
    Model_call E rec m (fst (Model_addFromRepository E rec m id))
| call_fromBackend (res : Payload) :
    Model_call E rec m (fst (Model_fromBackend E rec m res))
| call_clear (fuel : nat) :
    Model_call E rec m (fst (Model_clear fuel m))
| call_save (params : value) :
    Model_call E rec m (fst (save_begin E m params))
| call_saved (res : settled Payload) :
    Model_call E rec m (fst (save_settle E rec m res))
| call_saveAll (idCounter : Z) :
    Model_call E rec m (fst (fst (saveAll_begin E m idCounter)))
| call_savedAll (res : settled Payload) :
    Model_call E rec m (fst (saveAll_settle E rec m res))
| call_fetch (data : value) :
    Model_call E rec m (fst (fetch_begin m data))
| call_fetched (res : settled Payload) :
    Model_call E rec m (fst (fetch_settle E rec m res))
| call_delete (immediate : bool) (params : value) :
    Model_call E rec m (fst (fst (delete_begin m immediate params)))
| call_deleted (removed immediate : bool) (res : settled unit) :
    Model_call E rec m (fst (fst (delete_settle (m, removed) immediate res))).

(** One step in the life of an entity: a call of one of its methods, or a
    call of a method of a related instance, which changes what a relation
    field holds. *)
Inductive Model_step (E : Env) (rec : Methods) (m : Model) : Model -> Prop :=
| mstep_call (m' : Model) :
    Model_call E rec m m' -> Model_step E rec m m'
| mstep_related (rel : string) (r r' : Rel) :
    rel_field m rel = Some r -> is_collection r' = is_collection r ->
    Model_step E rec m (set_rel rel r' m).

(** The entities a program can reach from [new cls(data, options)]. *)
Inductive Model_reachable (E : Env) (rec : Methods) (cls : ModelClass) : Model -> Prop :=
| mreach_new (data : value) (options : Options) (m : Model) :
    new_Model E rec cls data options = Ok m -> Model_reachable E rec cls m
| mreach_step (m m' : Model) :
    Model_reachable E rec cls m -> Model_step E rec m m' -> Model_reachable E rec cls m'.

(** The entities a program builds with the methods of the entity alone,
    from the constructor of any class. *)
Inductive Model_built (E : Env) (rec : Methods) : Model -> Prop :=
| built_new (cls : ModelClass) (data : value) (options : Options) (m : Model) :
    new_Model E rec cls data options = Ok m -> Model_built E rec m
| built_call (m m' : Model) :
    Model_built E rec m -> Model_call E rec m m' -> Model_built E rec m'.

(* ------------------------------------------------------------------------ *)
(** ** A concrete application

    An environment and a few entity types on which the operations are run:
    animals that have a kind (an entity) and past owners (a collection of
    persons). *)

Definition is_upper (c : ascii) : bool :=
  let n := nat_of_ascii c in ((65 <=? n) && (n <=? 90))%nat.

Definition is_lower (c : ascii) : bool :=
  let n := nat_of_ascii c in ((97 <=? n) && (n <=? 122))%nat.

Definition is_digit (c : ascii) : bool :=
  let n := nat_of_ascii c in ((48 <=? n) && (n <=? 57))%nat.

Definition to_upper (c : ascii) : ascii :=
  if is_lower c then ascii_of_nat (nat_of_ascii c - 32) else c.

Definition to_lower (c : ascii) : ascii :=
  if is_upper c then ascii_of_nat (nat_of_ascii c + 32) else c.

(** [\w]. *)
Definition is_word (c : ascii) : bool :=
  is_upper c || is_lower c || is_digit c || Ascii.eqb c "_".

(** Modelled from the spec: the repository's [snakeToCamel] module is not
    among the sources.  Section 6 of the specification calls the conversion
    between backend and internal field names mechanical; here an underscore
    followed by a word character is replaced by that character in upper
    case, and nothing else changes (dots are kept, so a relation path stays
    a path). *)
Fixpoint ascii_snakeToCamel (s : string) : string :=
  match s with
  | EmptyString => EmptyString
  | String c t =>
      match t with
      | String c' t' =>
          if Ascii.eqb c "_" && is_word c'
          then String (to_upper c') (ascii_snakeToCamel t')
          else String c (ascii_snakeToCamel t)
      | EmptyString => String c EmptyString
      end
  end.

(** lodash's [snakeCase] on the names used here (ASCII letters, words
    marked by a capital): a capital starts a new word, words are joined by
    an underscore and lower-cased. *)
Fixpoint ascii_snakeCase_rest (s : string) : string :=
  match s with
  | EmptyString => EmptyString
  | String c t =>
      if is_upper c then String "_" (String (to_lower c) (ascii_snakeCase_rest t))
      else String c (ascii_snakeCase_rest t)
  end.

Definition ascii_snakeCase (s : string) : string :=
  match s with
  | EmptyString => EmptyString
  | String c t => String (to_lower c) (ascii_snakeCase_rest t)
  end.

(** The string as a Number, for decimal numerals. *)
Definition decimal_StringToNumber (s : string) : value :=
  match NilZero.int_of_string s with
  | Some i => VNum (Z.of_int i)
  | None => VNaN
  end.

Definition Breed : ModelClass :=
  {| primaryKey := "id";
     observables := [("id", VNull); ("name", VStr "")];
     casts := [];
     relations := None;
     urlRoot := Some "/api/breed/";
     api := true |}.

Definition Kind : ModelClass :=
  {| primaryKey := "id";
     observables := [("id", VNull); ("name", VStr "")];
     casts := [];
     relations := Some [("breed", ToModel "Breed")];
     urlRoot := Some "/api/kind/";
     api := true |}.

Definition Person : ModelClass :=
  {| primaryKey := "id";
     observables := [("id", VNull); ("name", VStr "")];
     casts := [];
     relations := None;
     urlRoot := Some "/api/person/";
     api := true |}.

Definition PersonStore : StoreClass :=
  {| sc_Model := "Person"; sc_url := Some "/api/person/"; sc_api := true |}.

Definition Animal : ModelClass :=
  {| primaryKey := "id";
     observables := [("id", VNull); ("name", VStr "")];
     casts := [];
     relations := Some [("kind", ToModel "Kind"); ("pastOwners", ToStore PersonStore)];
     urlRoot := Some "/api/animal/";
     api := true |}.

Definition AnimalStore : StoreClass :=
  {| sc_Model := "Animal"; sc_url := Some "/api/animal/"; sc_api := true |}.

(** A tree: a node has children, a collection of nodes. *)
Definition NodeStore : StoreClass :=
  {| sc_Model := "Node"; sc_url := Some "/api/node/"; sc_api := true |}.

Definition Node : ModelClass :=
  {| primaryKey := "id";
     observables := [("id", VNull); ("label", VStr "")];
     casts := [];
     relations := Some [("children", ToStore NodeStore)];
     urlRoot := Some "/api/node/";
     api := true |}.

(** A ticket: its primary key is [ticketId], its holders are persons. *)
Definition Ticket : ModelClass :=
  {| primaryKey := "ticketId";
     observables := [("ticketId", VNull); ("seat", VStr "")];
     casts := [];
     relations := Some [("holders", ToStore PersonStore)];
     urlRoot := Some "/api/ticket/";
     api := true |}.

(** A session: [_token] is kept for the client only. *)
Definition Session : ModelClass :=
  {| primaryKey := "id";
     observables := [("id", VNull); ("user", VStr ""); ("_token", VStr "")];
     casts := [];
     relations := None;
     urlRoot := Some "/api/session/";
     api := true |}.

Definition demo_classes (name : string) : ModelClass :=
  if String.eqb name "Node" then Node
  else if String.eqb name "Ticket" then Ticket
  else if String.eqb name "Session" then Session
  else if String.eqb name "Animal" then Animal
  else if String.eqb name "Kind" then Kind
  else if String.eqb name "Breed" then Breed
  else Person.

Definition demo : Env :=
  {| snakeCase := ascii_snakeCase;
     snakeToCamel := ascii_snakeToCamel;
     classes := demo_classes;
     StringToNumber := decimal_StringToNumber;
     isMatchDeep := fun _ _ => false;
     looseEqObject := fun _ _ => false;
     otherProperty := fun name => String.eqb name "$mobx" |}.

Definition no_options : Options :=
  {| opt_store := None; opt_repository := VUndefined; opt_relations := None |}.

Definition with_relations (rels : list string) : Options :=
  {| opt_store := None; opt_repository := VUndefined;
     opt_relations := Some (map Some rels) |}.

(** The instance a constructor call returned, or [d] if it threw. *)
Definition instance {A : Type} (d : A) (r : result A) : A :=
  match r with Ok a => a | Throw _ => d end.

Definition blank_Model : Model :=
  MkModel {| m_class := Person; m_attrs := []; m_originalAttributes := [];
             m_activeRelations := []; m_activeCurrentRelations := [];
             m_repository := VUndefined; m_store := false;
             m_backendValidationErrors := VObj []; m_pendingRequestCount := 0 |} [].

Definition blank_Store (sc : StoreClass) : Store :=
  MkStore {| s_class := sc; s_params := []; s_pendingRequestCount := 0;
             s_state := {| currentPage := 1; limit := Some 25; totalRecords := 0 |};
             s_activeRelations := []; s_repository := VUndefined;
             s_nestedRepository := [] |} [].

(** [new Animal({name: 'Lion', past_owners: [{name: 'Jo'}, {name: 'Al'},
    {name: 'Cy'}]}, {relations: ['pastOwners']})]: an unsaved animal with
    three unsaved past owners. *)
Definition lion : Model :=
  instance blank_Model
    (new_Model demo (methods demo 3) Animal
       (VObj [("name", VStr "Lion");
              ("past_owners", VArr [VObj [("name", VStr "Jo")];
                                    VObj [("name", VStr "Al")];
                                    VObj [("name", VStr "Cy")]])])
       (with_relations ["pastOwners"])).

(** [new Animal(null, {relations: ['kind']})]. *)
Definition cat : Model :=
  instance blank_Model (new_Model demo (methods demo 3) Animal VNull (with_relations ["kind"])).

(** [new Animal({id: 4, name: 'Rex'})]. *)
Definition rex : Model :=
  instance blank_Model
    (new_Model demo (methods demo 3) Animal
       (VObj [("id", VNum 4); ("name", VStr "Rex")]) no_options).

(** An [AnimalStore] holding the animals 1 and 2. *)
Definition zoo : Store :=
  fst (Store_parse demo (methods demo 3) (blank_Store AnimalStore)
         (VArr [VObj [("id", VNum 1); ("name", VStr "Ape")];
                VObj [("id", VNum 2); ("name", VStr "Bee")]])).

(** The same collection after a fetch that reported 50 records. *)
Definition zoo50 : Store := set_totalRecords 50 zoo.

(** The entity as an instance of a type that declares the primary key [k]
    and is otherwise the same. *)
Definition with_primaryKey (k : string) (m : Model) : Model :=
  with_mdata
    (fun d => set_class {| primaryKey := k;
                           observables := observables (m_class d);
                           casts := casts (m_class d);
                           relations := relations (m_class d);
                           urlRoot := urlRoot (m_class d);
                           api := api (m_class d) |} d) m.

(** What the backend answers for an animal: the kinds are in the repository
    [animal_kind]. *)
Definition animal_payload (data : value) : Payload :=
  {| p_data := data;
     p_repos := [("animal_kind", VArr [VObj [("id", VNum 7); ("name", VStr "Dog")]])];
     p_relMapping := [("kind", "animal_kind")] |}.

(** The kind of [cat] once the repository is attached to it. *)
Definition cat_kind : Model :=
  match rel_field (fst (Model_fromBackend demo (methods demo 3) cat (animal_payload VNull)))
          "kind" with
  | Some (RModel kind) => kind
  | _ => blank_Model
  end.

(** The attributes [toBackend] emits, those that do not start with an
    underscore, and the record they make when there are no casts and no
    relations. *)
Definition emitted (attrs : list string) : list string :=
  filter (fun a => negb (startsWith "_" a)) attrs.

Definition record_of (E : Env) (e : Model) (attrs : list string) : obj :=
  map (fun a => (snakeCase E a, field e a)) (emitted attrs).

(** [new Animal()]. *)
Definition new_animal : Model :=
  instance blank_Model (new_Model demo (methods demo 3) Animal VNull no_options).

(** [modelInstance[this.Model.primaryKey]] in [Store.add]. *)
Definition primaryValue (E : Env) (s : Store) (modelInstance : Model) : value :=
  field modelInstance (primaryKey (Store_Model E s)).

(** Two records to add to [zoo]: a new animal 3, and the animal 1 again. *)
Definition zoo_input : list value :=
  [VObj [("id", VNum 3); ("name", VStr "Cow")];
   VObj [("id", VNum 1); ("name", VStr "Ape")]].

Definition zoo_instances : list Model :=
  instance [] (map_result (newModel demo (methods demo 3) zoo) zoo_input).

(** The primary key of the entity is an attribute that [toBackend] emits
    under its own name and uncast, and no other attribute and no relation
    has that backend name. *)
Definition own_key_emitted (E : Env) (e : Model) : Prop :=
  includes (attributes e) (pk e) = true
  /\ startsWith "_" (pk e) = false
  /\ assoc (casts_of e) (pk e) = None
  /\ snakeCase E (pk e) = pk e
  /\ (forall a, In a (attributes e) -> startsWith "_" a = false ->
                snakeCase E a = pk e -> a = pk e)
  /\ (forall rel, In rel (m_activeCurrentRelations (mdata e)) ->
                  snakeCase E rel <> pk e).

(** The collection of past owners of [lion], and its members. *)
Definition lion_owners : Store :=
  match rel_field lion "pastOwners" with
  | Some (RStore s) => s
  | _ => blank_Store PersonStore
  end.

Definition lion_owner (i : nat) : Model := nth i (models lion_owners) blank_Model.

(* ------------------------------------------------------------------------ *)
(** ** The grouping of relation paths, as the specification words it

    Paths are grouped by their first segment; the remainder of a dotted
    path is a nested path under that segment; the nested paths of a
    segment accumulate in input order. *)

Definition first_segment (aRel : string) : string :=
  match regex_match aRel with Some (first, _) => first | None => aRel end.

Definition continuation (aRel : string) : option string :=
  match regex_match aRel with Some (_, rest) => Some rest | None => None end.

(** The nested paths under [seg]: the continuations of the dotted paths
    whose first segment it is, in order. *)
Definition nested_under (seg : string) (ps : list string) : list string :=
  flat_map
    (fun p =>
       if String.eqb (first_segment p) seg
       then match continuation p with Some c => [c] | None => [] end
       else [])
    ps.

(** The first segments, each once, in the order they first occur. *)
Definition segments (ps : list string) : list string :=
  fold_left
    (fun acc p =>
       if includes acc (first_segment p) then acc
       else (acc ++ [first_segment p])%list)
    ps [].

(** The nested paths as the value the constructor of the relation gets:
    [null] when there is none. *)
Definition nested_value (nested : list string) : option paths :=
  match nested with
  | [] => None
  | _ => Some (map Some nested)
  end.

(** One group per first segment, with all of its nested paths. *)
Definition grouped (ps : list string) : RelModels :=
  map (fun seg => (seg, nested_value (nested_under seg ps))) (segments ps).

(** No bare path comes after a dotted path with the same first segment;
    [done] are the paths before [ps]. *)
Fixpoint bare_first (done ps : list string) : bool :=
  match ps with
  | [] => true
  | p :: ps' =>
      match continuation p, nested_under (first_segment p) done with
      | None, _ :: _ => false
      | _, _ => bare_first (done ++ [p]) ps'
      end
  end.

(** No first segment is the name of a property that every object
    inherits. *)
Definition own_names (ps : list string) : Prop :=
  forall p, In p ps -> includes Object_prototype (first_segment p) = false.

(** [new Node({children: [{children: [{}]}, {}, {}]}, {relations:
    ['children.children']})]: a node with three new children, the first of
    which has a new child of its own. *)
Definition tree : Model :=
  instance blank_Model
    (new_Model demo (methods demo 4) Node
       (VObj [("children", VArr [VObj [("children", VArr [VObj []])];
                                 VObj []; VObj []])])
       (with_relations ["children.children"])).

(** [new Ticket({holders: [{}, {}, {}]}, {relations: ['holders']})]: a new
    ticket with three new holders. *)
Definition ticket : Model :=
  instance blank_Model
    (new_Model demo (methods demo 3) Ticket
       (VObj [("holders", VArr [VObj []; VObj []; VObj []])])
       (with_relations ["holders"])).

(** [new Session()], and [new Session({user: 'jo'})] after the assignment
    [_token = 'abc']. *)
Definition new_session : Model :=
  instance blank_Model (new_Model demo (methods demo 3) Session VNull no_options).

Definition session : Model :=
  set_field "_token" (VStr "abc")
    (instance blank_Model
       (new_Model demo (methods demo 3) Session (VObj [("user", VStr "jo")]) no_options)).

(** The data and the relations of an output of [toBackendAll]; nothing if
    the call threw. *)
Definition output_data (r : result BackendAll * Z) : list value :=
  match fst r with Ok ba => ba_data ba | Throw _ => [] end.

Definition output_relations (r : result BackendAll * Z) : list (string * list value) :=
  match fst r with Ok ba => ba_relations ba | Throw _ => [] end.

(* ------------------------------------------------------------------------ *)
(** ** What the statements about entities and collections speak of *)

(** The part of an entity that [parse] and [fromBackend] leave alone:
    everything but the values of the attributes and what the relation fields
    hold.  Of the relation fields it keeps the names, in order, and whether
    each is an entity or a collection. *)
Record Fixed : Type := {
  fx_class : ModelClass;
  fx_attributes : list string;
  fx_originalAttributes : obj;
  fx_activeRelations : paths;
  fx_activeCurrentRelations : list string;
  fx_repository : value;
  fx_store : bool;
  fx_backendValidationErrors : value;
  fx_pendingRequestCount : Z;
  fx_relations : list (string * bool)
}.

Definition fixed_part (m : Model) : Fixed :=
  {| fx_class := m_class (mdata m);
     fx_attributes := attributes m;
     fx_originalAttributes := m_originalAttributes (mdata m);
     fx_activeRelations := m_activeRelations (mdata m);
     fx_activeCurrentRelations := m_activeCurrentRelations (mdata m);
     fx_repository := m_repository (mdata m);
     fx_store := m_store (mdata m);
     fx_backendValidationErrors := m_backendValidationErrors (mdata m);
     fx_pendingRequestCount := m_pendingRequestCount (mdata m);
     fx_relations := map (fun kr => (fst kr, is_collection (snd kr))) (mrels m) |}.

(** The value of the last property of [data] whose name [snakeToCamel]
    turns into [attr]. *)
Definition last_value_for (E : Env) (attr : string) (data : obj) : option value :=
  option_map snd
    (List.find (fun kv => String.eqb (snakeToCamel E (fst kv)) attr) (List.rev data)).

(** [new cls(null, options)] for options without relations: the attributes
    have their initial values and there is no relation field. *)
Definition fresh_Model (cls : ModelClass) (repository : value) (store : bool) : Model :=
  let attrs := filter (fun kv => negb (startsWith "__" (fst kv))) (observables cls) in
  MkModel {| m_class := cls; m_attrs := attrs; m_originalAttributes := attrs;
             m_activeRelations := []; m_activeCurrentRelations := [];
             m_repository := repository; m_store := store;
             m_backendValidationErrors := VObj []; m_pendingRequestCount := 0 |} [].

(** The repository the owning collection keeps for the relation [relName]
    of its members ([options.store.__nestedRepository[relName]] when it is
    truthy), [undefined] when there is none. *)
Definition nested_repository_for (store : option obj) (relName : string) : value :=
  match store with
  | Some nestedRepository =>
      if truthy (prop nestedRepository relName) then prop nestedRepository relName
      else VUndefined
  | None => VUndefined
  end.

(** What a relation without nested relations is when the entity has just
    been constructed: an empty collection, or an entity with its initial
    values and the repository kept for it. *)
Definition fresh_relation (E : Env) (store : option obj) (relName : string)
  (target : RelTarget) : Rel :=
  match target with
  | ToStore sc => RStore (blank_Store sc)
  | ToModel c => RModel (fresh_Model (classes E c) (nested_repository_for store relName) false)
  end.

(** The order in which the language visits the properties of an object
    that got the [names] in this order. *)
Definition visit_order (names : list string) : list string :=
  map fst (own_properties (map (fun name => (name, tt)) names)).

(** A name of its own: none of the properties that every object inherits,
    and none of those that [Model.js] or the observation library gives an
    entity.  An attribute or a relation of such a name is found under it
    wherever the code looks a name up: in the instance, in the object that
    [casts()] returns, in a record and in the map of buckets. *)
Definition plain_name (E : Env) (name : string) : bool :=
  negb (includes Object_prototype name || includes Model_properties name
        || otherProperty E name).

(** The name is free for a relation of the class: it is a name of its own
    and no attribute of the class. *)
Definition free_name (E : Env) (cls : ModelClass) (name : string) : bool :=
  plain_name E name && negb (includes (map fst (observables cls)) name).

(** The names in the tree of an entity are names of their own: those of the
    attributes, and those of the relation fields, which are no attributes
    and whose backend names are no properties that every object inherits. *)
Fixpoint plain_names (E : Env) (m : Model) : bool :=
  match m with
  | MkModel d rels =>
      forallb (plain_name E) (map fst (m_attrs d))
      && (fix each (l : list (string * Rel)) : bool :=
            match l with
            | [] => true
            | (k, RModel related) :: l' =>
                plain_name E k && negb (includes (map fst (m_attrs d)) k)
                && negb (includes Object_prototype (snakeCase E k))
                && plain_names E related && each l'
            | (k, RStore (MkStore _ members)) :: l' =>
                plain_name E k && negb (includes (map fst (m_attrs d)) k)
                && negb (includes Object_prototype (snakeCase E k))
                && (fix every (ms : list Model) : bool :=
                      match ms with
                      | [] => true
                      | member :: ms' => plain_names E member && every ms'
                      end) members
                && each l'
            end) rels
  end.

(** The relation is declared by the class. *)
Definition declared (cls : ModelClass) (relName : string) : bool :=
  match relations cls with
  | Some table => match assoc table relName with Some _ => true | None => false end
  | None => false
  end.

(** No member with a defined (truthy) primary key comes after a member
    whose primary key [==] holds equal to it. *)
Definition unique_keys (E : Env) (ms : list Model) : Prop :=
  forall (i j : nat) (mi mj : Model),
    (i < j)%nat -> nth_error ms i = Some mi -> nth_error ms j = Some mj ->
    truthy (id_of mj) = true -> loose_eq E (id_of mi) (id_of mj) = false.

(** An identifier, or a list of identifiers, in which nothing is [null]. *)
Definition no_null (v : value) : Prop :=
  v <> VNull /\ forall ids, v = VArr ids -> ~ In VNull ids.

(** How many of the members [ms], the first at position [i], get an
    identifier synthesized by [Store.toBackendAll(newIds)]: those that are
    given none and whose record has [null] as the primary key. *)
Fixpoint ids_needed (E : Env) (newIds : value) (i : nat) (ms : list Model) : Z :=
  match ms with
  | [] => 0
  | m :: rest =>
      (if negb (truthy (newId_at newIds i)) && is_null (prop (toBackend E m) (pk m))
       then 1 else 0)
      + ids_needed E newIds (S i) rest
  end.

(** [new cls(record, {store, relations: []})]: the member a collection
    without relations makes of a record; a falsy record ([undefined] for
    an identifier that the repository does not have) gives an entity with
    its initial values. *)
Definition member_of (E : Env) (rec : Methods) (cls : ModelClass) (record : value)
  : Model :=
  let fresh := fresh_Model cls VUndefined true in
  if truthy record then fst (Model_parse E rec fresh record) else fresh.

(** The identifiers [Store.__addFromRepository(ids)] looks up. *)
Definition ids_of (ids : value) : list value :=
  match ids with
  | VUndefined => []
  | VArr xs => xs
  | _ => [ids]
  end.

(** Every current relation of the entity has a relation field, and so has
    every current relation of every entity below it: the related entities,
    the members of the related collections, and so on. *)
Fixpoint relations_set (m : Model) : Prop :=
  match m with
  | MkModel d rels =>
      (forall currentRel, In currentRel (m_activeCurrentRelations d) ->
         assoc rels currentRel <> None)
      /\ (fix each (l : list (string * Rel)) : Prop :=
            match l with
            | [] => True
            | (_, RModel related) :: l' => relations_set related /\ each l'
            | (_, RStore (MkStore _ members)) :: l' =>
                (fix every (ms : list Model) : Prop :=
                   match ms with
                   | [] => True
                   | member :: ms' => relations_set member /\ every ms'
                   end) members
                /\ each l'
            end) rels
  end.

(** The record filed under an identifier in the keyed repository: the last
    one whose key, written as a string, is the identifier written as a
    string. *)
Definition filed_under (repository : value) (key : string) (id : value) : option value :=
  List.find (fun record => String.eqb (toKey (value_prop record key)) (toKey id))
            (List.rev (elements repository)).

Definition record_for (repository : value) (key : string) (id : value) : value :=
  match filed_under repository key id with
  | Some record => record
  | None => VUndefined
  end.

(** An identifier that is read as one key of the keyed repository: no array
    and no object, and a string either has a record filed under it or has
    no dot and no bracket and is no name that every object inherits. *)
Definition one_key (repository : value) (key : string) (id : value) : bool :=
  match id with
  | VArr _ | VObj _ => false
  | VStr s =>
      match filed_under repository key id with
      | Some _ => true
      | None => negb (has_path_syntax s || includes Object_prototype s)
      end
  | _ => true
  end.

(** The identifiers that one turn of the loop of [Model.toBackendAll] gives
    the relation with the backend name [nm]: what is passed on to the
    related instance, the entity's record and the counter after the turn. *)
Definition relation_ids (nm : string) (data : obj) (idCounter : Z) : value * obj * Z :=
  let '(myNewId, data, idCounter) :=
    if is_null (prop data nm) then
      let '(id, c) := generateNegativeId idCounter in
      (id, obj_set data nm id, c)
    else (VNull, data, idCounter) in
  match prop data nm with
  | VArr ids =>
      let '(ids', c) := fill_ids ids idCounter in
      (VArr ids', obj_set data nm (VArr ids'), c)
  | _ => (myNewId, data, idCounter)
  end.

(** The backend names of the relation fields in the tree of an entity: its
    own, those of the related entities and of the members of the related
    collections, and so on. *)
Fixpoint names_below (E : Env) (m : Model) : list string :=
  match m with
  | MkModel _ rels =>
      (fix each (l : list (string * Rel)) : list string :=
         match l with
         | [] => []
         | (k, RModel related) :: l' =>
             snakeCase E k :: (names_below E related ++ each l')%list
         | (k, RStore (MkStore _ members)) :: l' =>
             snakeCase E k
             :: ((fix every (ms : list Model) : list string :=
                    match ms with
                    | [] => []
                    | member :: ms' => (names_below E member ++ every ms')%list
                    end) members
                 ++ each l')%list
         end) rels
  end.

Definition names_below_rel (E : Env) (rel : Rel) : list string :=
  match rel with
  | RModel related => names_below E related
  | RStore related => flat_map (names_below E) (models related)
  end.

(** The backend names in the trees of the relations [rels] of an entity. *)
Definition names_below_fields (E : Env) (e : Model) (rels : list string) : list string :=
  flat_map (fun currentRel =>
              match rel_field e currentRel with
              | Some rel => names_below_rel E rel
              | None => []
              end) rels.

(* ------------------------------------------------------------------------ *)
(** ** Proof automation *)

(** Evaluate the digit value and the white-space test of a literal
    character. *)
Ltac eval_digit :=
  match goal with
  | |- context [digit_of 10 ?c] =>
      let r := eval vm_compute in (digit_of 10 c) in
      change (digit_of 10 c) with r
  end; cbv beta iota.

Ltac eval_is_whitespace :=
  repeat match goal with
  | |- context [is_whitespace ?c] =>
      let r := eval vm_compute in (is_whitespace c) in
      change (is_whitespace c) with r
  end.

(** Decide a comparison of integers that occurs in the goal. *)
Ltac decide_ltb a b := destruct (Z.ltb_spec a b); try lia; cbv iota.

(* ------------------------------------------------------------------------ *)
(** * Properties *)

(** ** Placeholder identifiers *)

Lemma of_uint_acc_val d : forall acc,
  Zpos (Pos.of_uint_acc d acc) = uint_val d (Zpos acc).
Proof.
  induction d; intros acc; cbn [Pos.of_uint_acc uint_val]; try reflexivity;
    rewrite IHd; f_equal; lia.
Qed.

Lemma of_uint_val d : Z.of_N (Pos.of_uint d) = uint_val d 0.
Proof.
  induction d; cbn [Pos.of_uint uint_val]; try reflexivity;
    try (rewrite N2Z.inj_pos, of_uint_acc_val; reflexivity).
  exact IHd.
Qed.

Lemma parse_digits_uint d : forall acc,
  parse_digits 10 (NilEmpty.string_of_uint d) (Some acc) = Some (uint_val d acc).
Proof.
  induction d; intros acc; cbn [NilEmpty.string_of_uint parse_digits uint_val];
    try reflexivity; eval_digit; apply IHd.
Qed.

Lemma parse_digits_numeral d : d <> Nil ->
  parse_digits 10 (NilEmpty.string_of_uint d) None = Some (uint_val d 0).
Proof.
  destruct d; intros H; try congruence;
    cbn [NilEmpty.string_of_uint parse_digits uint_val];
    eval_digit; apply parse_digits_uint.
Qed.

Lemma parseInt_numeral d : d <> Nil ->
  parseInt (NilEmpty.string_of_uint d) = VNum (uint_val d 0).
Proof.
  intros Hd.
  assert (H : parse_digits 10 (NilEmpty.string_of_uint d) None = Some (uint_val d 0))
    by exact (parse_digits_numeral d Hd).
  destruct d as [|d|d|d|d|d|d|d|d|d|d]; try congruence;
    try (unfold parseInt; cbn [NilEmpty.string_of_uint trim_start] in *;
         eval_is_whitespace; cbv iota; rewrite H; f_equal; lia).
  destruct d as [|d|d|d|d|d|d|d|d|d|d];
    unfold parseInt; cbn [NilEmpty.string_of_uint trim_start] in *;
    eval_is_whitespace; cbv iota; rewrite H; f_equal; lia.
Qed.

(** [parseInt] reads back the numeral [toString] writes. *)
Lemma parseInt_toString (p : positive) : parseInt (toString (Zpos p)) = VNum (Zpos p).
Proof.
  unfold toString. cbn [Z.to_int NilZero.string_of_int].
  pose proof (DecimalPos.Unsigned.to_uint_nonnil p) as Hnn.
  assert (Hv : uint_val (Pos.to_uint p) 0 = Zpos p).
  { rewrite <- of_uint_val, DecimalPos.Unsigned.of_to. reflexivity. }
  rewrite <- Hv.
  replace (NilZero.string_of_uint (Pos.to_uint p))
    with (NilEmpty.string_of_uint (Pos.to_uint p)).
  - apply parseInt_numeral, Hnn.
  - unfold NilZero.string_of_uint. destruct (Pos.to_uint p); congruence.
Qed.

(** One call: the counter goes up by one and its negation is returned. *)
Lemma generateNegativeId_eq c : 0 <= c ->
  generateNegativeId c = (VNum (- (c + 1)), c + 1).
Proof.
  intros Hc. unfold generateNegativeId, uniqueId.
  destruct (c + 1) as [|p|p] eqn:E; try lia.
  rewrite parseInt_toString. reflexivity.
Qed.

Lemma synthesized_range : forall evs c ids c',
  0 <= c -> synthesized evs c = (ids, c') ->
  c <= c' /\
  Forall (fun v => exists k, v = VNum (- k) /\ c < k <= c') ids /\
  NoDup ids.
Proof.
  induction evs as [|ev evs IH]; intros c ids c' Hc H; cbn [synthesized] in H.
  - inversion H; subst. repeat split; [lia | constructor | constructor].
  - destruct ev.
    + rewrite (generateNegativeId_eq c Hc) in H.
      destruct (synthesized evs (c + 1)) as [ids1 c1] eqn:E.
      inversion H; subst; clear H.
      destruct (IH (c + 1) ids1 c' ltac:(lia) E) as (Hle & Hall & Hnd).
      split; [lia|]. split.
      * constructor; [exists (c + 1); split; [reflexivity | lia]|].
        eapply Forall_impl; [|exact Hall]. cbv beta.
        intros v (k & -> & Hk). exists k. split; [reflexivity | lia].
      * constructor; [|exact Hnd].
        intros Hin. rewrite Forall_forall in Hall.
        destruct (Hall _ Hin) as (k & Hk & Hr). inversion Hk. lia.
    + unfold uniqueId in H. cbn [snd] in H.
      destruct (IH (c + 1) ids c' ltac:(lia) H) as (Hle & Hall & Hnd).
      split; [lia|]. split; [|exact Hnd].
      eapply Forall_impl; [|exact Hall]. cbv beta.
      intros v (k & -> & Hk). exists k. split; [reflexivity | lia].
Qed.

(** C8. Identifier synthesis: along every sequence of events of one process
    (calls of [generateNegativeId], interleaved with any other calls of
    lodash's [uniqueId]), starting from the counter of a fresh process, no
    two calls of [generateNegativeId] return the same value and every value
    returned is a negative integer. *)
Theorem generateNegativeId_unique_negative : forall evs : list id_event,
  let ids := fst (synthesized evs initial_idCounter) in
  NoDup ids /\ Forall (fun v => exists n, v = VNum n /\ n < 0) ids.
Proof.
  intros evs ids. subst ids.
  destruct (synthesized evs initial_idCounter) as [ids c'] eqn:E. cbn [fst].
  destruct (synthesized_range evs initial_idCounter ids c'
              ltac:(unfold initial_idCounter; lia) E) as (_ & Hall & Hnd).
  split; [exact Hnd|].
  eapply Forall_impl; [|exact Hall]. cbv beta.
  intros v (k & -> & Hk). exists (- k). split; [reflexivity|].
  unfold initial_idCounter in Hk. lia.
Qed.

(** ** Pagination *)

(** The rounded quotient lies between the floor and the ceiling. *)
Lemma round_half_even_range (n d : Z) : 0 < d ->
  n / d <= round_half_even n d <= n / d + 1
  /\ (n mod d = 0 -> round_half_even n d = n / d)
  /\ (2 * (n mod d) < d -> round_half_even n d = n / d)
  /\ (d < 2 * (n mod d) -> round_half_even n d = n / d + 1).
Proof.
  intros Hd. unfold round_half_even.
  pose proof (Z.mod_pos_bound n d Hd) as Hr.
  destruct (Z.ltb_spec (2 * (n mod d)) d) as [H1|H1].
  - repeat split; intros; lia.
  - destruct (Z.ltb_spec d (2 * (n mod d))) as [H2|H2].
    + repeat split; intros; lia.
    + destruct (Z.even (n / d)); repeat split; intros; lia.
Qed.

Lemma round_half_even_nonneg (n d : Z) : 0 <= n -> 0 < d -> 0 <= round_half_even n d.
Proof.
  intros Hn Hd. pose proof (round_half_even_range n d Hd) as [H _].
  pose proof (Z.div_pos n d Hn Hd). lia.
Qed.

Lemma log2_quotient_le (a b : Z) : 0 < a -> 0 < b ->
  let k := log2_quotient a b in
  if 0 <=? k then b * 2 ^ k <= a else b <= a * 2 ^ (- k).
Proof.
  intros Ha Hb. cbv zeta. unfold log2_quotient.
  pose proof (Z.log2_spec a Ha) as [Ha1 Ha2].
  pose proof (Z.log2_spec b Hb) as [Hb1 Hb2].
  pose proof (Z.log2_nonneg a) as Hla. pose proof (Z.log2_nonneg b) as Hlb.
  set (la := Z.log2 a) in *. set (lb := Z.log2 b) in *.
  destruct (Z.leb_spec 0 (la - lb)) as [Ht|Ht].
  - destruct (Z.leb_spec (b * 2 ^ (la - lb)) a) as [Hge|Hlt].
    + replace (0 <=? la - lb) with true by (symmetry; apply Z.leb_le; lia). exact Hge.
    + destruct (Z.leb_spec 0 (la - lb - 1)) as [Ht'|Ht'].
      * (* b * 2^(t-1) < 2^(lb+1) * 2^(t-1) = 2^la <= a *)
        assert (H : 2 ^ (lb + 1) * 2 ^ (la - lb - 1) = 2 ^ la)
          by (rewrite <- Z.pow_add_r by lia; f_equal; lia).
        assert (0 < 2 ^ (la - lb - 1)) by (apply Z.pow_pos_nonneg; lia).
        nia.
      * (* t = 0: b <= a * 2 *)
        assert (la = lb) by lia.
        replace (- (la - lb - 1)) with 1 by lia. change (2 ^ 1) with 2.
        replace (Z.succ lb) with (lb + 1) in Hb2 by lia.
        rewrite Z.pow_add_r in Hb2 by lia. change (2 ^ 1) with 2 in Hb2.
        replace lb with la in * by lia. lia.
  - destruct (Z.leb_spec b (a * 2 ^ (- (la - lb)))) as [Hge|Hlt].
    + replace (0 <=? la - lb) with false by (symmetry; apply Z.leb_gt; lia). exact Hge.
    + replace (0 <=? la - lb - 1) with false by (symmetry; apply Z.leb_gt; lia).
      (* b < 2^(lb+1) = 2^la * 2^(lb - la + 1) <= a * 2^(-(t-1)) *)
      replace (- (la - lb - 1)) with (lb - la + 1) by lia.
      assert (H : 2 ^ la * 2 ^ (lb - la + 1) = 2 ^ (Z.succ lb))
        by (rewrite <- Z.pow_add_r by lia; f_equal; lia).
      assert (0 < 2 ^ (lb - la + 1)) by (apply Z.pow_pos_nonneg; lia).
      nia.
Qed.

(** The significand is at least [2 ^ 52] before it is rounded. *)
Lemma double_quotient_scale (a b : Z) : 0 < a -> 0 < b ->
  let e := log2_quotient a b - 52 in
  (0 <= e -> 2 ^ 52 * (b * 2 ^ e) <= a)
  /\ (e < 0 -> 2 ^ 52 * b <= a * 2 ^ (- e)).
Proof.
  intros Ha Hb e. pose proof (log2_quotient_le a b Ha Hb) as H.
  cbv zeta in H. subst e. set (f := log2_quotient a b) in *.
  split; intros He.
  - replace (0 <=? f) with true in H by (symmetry; apply Z.leb_le; lia).
    replace f with (52 + (f - 52)) in H at 1 by lia.
    rewrite Z.pow_add_r in H by lia. lia.
  - destruct (Z.leb_spec 0 f) as [Hf|Hf].
    + replace (- (f - 52)) with (52 - f) by lia.
      assert (E : 2 ^ 52 = 2 ^ f * 2 ^ (52 - f))
        by (rewrite <- Z.pow_add_r by lia; f_equal; lia).
      assert (0 < 2 ^ (52 - f)) by (apply Z.pow_pos_nonneg; lia).
      rewrite E. nia.
    + replace (- (f - 52)) with (- f + 52) by lia.
      rewrite Z.pow_add_r by lia.
      assert (0 < 2 ^ 52) by (apply Z.pow_pos_nonneg; lia). nia.
Qed.

(** Ceiling and floor of [m / p], from bounds on [m]. *)
Lemma ceil_div_unique (m p k : Z) : 0 < p -> (k - 1) * p < m <= k * p -> - ((- m) / p) = k.
Proof.
  intros Hp H. symmetry. apply Z.opp_inj. rewrite Z.opp_involutive.
  apply (Z.div_unique (- m) p (- k) (k * p - m)); lia.
Qed.

Lemma floor_div_unique (m p k : Z) : 0 < p -> k * p <= m < (k + 1) * p -> m / p = k.
Proof.
  intros Hp H. symmetry. apply (Z.div_unique m p k (m - k * p)); lia.
Qed.

(** For a numerator below [2 ^ 53] the rounding of the quotient does not
    cross an integer: its ceiling and its floor are those of the exact
    quotient. *)
Lemma double_quotient_exact (a b : Z) : 0 < a < 2 ^ 53 -> 0 < b ->
  let m := fst (double_quotient a b) in
  let e := snd (double_quotient a b) in
  (if 0 <=? e then m * 2 ^ e else - ((- m) / 2 ^ (- e))) = - ((- a) / b)
  /\ (if 0 <=? e then m * 2 ^ e else m / 2 ^ (- e)) = a / b.
Proof.
  intros Ha Hb. unfold double_quotient. cbn [fst snd].
  pose proof (double_quotient_scale a b ltac:(lia) Hb) as [Hge Hlt].
  cbv zeta in Hge, Hlt. set (e := log2_quotient a b - 52) in *.
  destruct (Z.leb_spec 0 e) as [He|He].
  - specialize (Hge He).
    assert (Hp : 0 < 2 ^ e) by (apply Z.pow_pos_nonneg; lia).
    assert (H52 : 2 ^ 53 = 2 * 2 ^ 52) by reflexivity.
    assert (H52p : 0 < 2 ^ 52) by reflexivity.
    assert (Hb1 : b * 2 ^ e = 1) by nia.
    assert (Hb' : b = 1) by nia.
    assert (Hp' : 2 ^ e = 1) by nia.
    rewrite Hb1, Hp'. subst b.
    destruct (round_half_even_range a 1 ltac:(lia)) as (_ & H0 & _).
    rewrite H0 by apply Z.mod_1_r.
    rewrite !Z.div_1_r. lia.
  - specialize (Hlt He). set (p := 2 ^ (- e)) in *.
    assert (Hp : 0 < p) by (apply Z.pow_pos_nonneg; lia).
    assert (H52 : 2 ^ 53 = 2 * 2 ^ 52) by reflexivity.
    assert (H52p : 0 < 2 ^ 52) by reflexivity.
    assert (Hbp : b < 2 * p) by nia.
    pose proof (Z.div_mod a b ltac:(lia)) as Ea.
    pose proof (Z.mod_pos_bound a b Hb) as Hr.
    set (k := a / b) in *. set (r := a mod b) in *.
    destruct (round_half_even_range (a * p) b Hb) as (Hrange & Hz & Hdown & Hup).
    pose proof (Z.div_mod (a * p) b ltac:(lia)) as En.
    pose proof (Z.mod_pos_bound (a * p) b Hb) as Hr0.
    set (q0 := (a * p) / b) in *. set (r0 := (a * p) mod b) in *.
    set (m := round_half_even (a * p) b) in *.
    assert (Hq0 : k * p <= q0 <= (k + 1) * p) by nia.
    destruct (Z.eq_dec r 0) as [Hr0'|Hrpos].
    + (* the quotient is the integer k *)
      assert (Eq : q0 = k * p) by nia.
      assert (Er : r0 = 0) by nia.
      assert (Em : m = k * p) by (rewrite (Hz Er); exact Eq).
      rewrite Em. split.
      * rewrite (ceil_div_unique (k * p) p k Hp) by lia.
        symmetry. apply (ceil_div_unique a b k Hb). nia.
      * rewrite (floor_div_unique (k * p) p k Hp) by lia. reflexivity.
    + assert (Hq0' : q0 < (k + 1) * p) by nia.
      assert (Hlow : k * p < m).
      { destruct (Z.eq_dec q0 (k * p)) as [Eq|Nq]; [|lia].
        assert (Er : r0 = r * p) by nia.
        rewrite (Hup ltac:(nia)). lia. }
      assert (Hhigh : m < (k + 1) * p).
      { destruct (Z.eq_dec q0 ((k + 1) * p - 1)) as [Eq|Nq]; [|lia].
        assert (Er : r0 = b - (b - r) * p) by nia.
        rewrite (Hdown ltac:(nia)). lia. }
      split.
      * rewrite (ceil_div_unique m p (k + 1) Hp) by lia.
        symmetry. apply (ceil_div_unique a b (k + 1) Hb). nia.
      * apply (floor_div_unique m p k Hp). lia.
Qed.

(** The exact ceiling of the quotient, for a numerator below [2 ^ 53]. *)
Lemma Math_ceil_div_exact (a b : Z) : - 2 ^ 53 < a < 2 ^ 53 -> b <> 0 ->
  Math_ceil_div a b = - ((- a) / b).
Proof.
  intros Ha Hb. unfold Math_ceil_div.
  destruct (Z.eqb_spec a 0) as [->|Ha0]; [reflexivity|].
  destruct (Z.eqb_spec b 0) as [|_]; [contradiction|]. cbn [orb].
  pose proof (double_quotient_exact (Z.abs a) (Z.abs b) ltac:(lia) ltac:(lia)) as [Hc Hf].
  cbv zeta in Hc, Hf.
  destruct (double_quotient (Z.abs a) (Z.abs b)) as [m e]. cbn [fst snd] in Hc, Hf.
  destruct (Z.ltb_spec a 0) as [Han|Hap]; destruct (Z.ltb_spec b 0) as [Hbn|Hbp];
    cbn [Bool.eqb].
  - rewrite Hc. rewrite (Z.abs_neq a), (Z.abs_neq b) by lia.
    rewrite Z.opp_involutive. rewrite <- (Z.div_opp_opp a (- b)) by lia.
    rewrite Z.opp_involutive. reflexivity.
  - rewrite Hf. rewrite (Z.abs_neq a), (Z.abs_eq b) by lia. reflexivity.
  - rewrite Hf. rewrite (Z.abs_eq a), (Z.abs_neq b) by lia.
    rewrite <- (Z.div_opp_opp (- a) b) by lia. rewrite Z.opp_involutive. reflexivity.
  - rewrite Hc. rewrite (Z.abs_eq a), (Z.abs_eq b) by lia. reflexivity.
Qed.

(** The significand is positive. *)
Lemma double_quotient_pos (a b : Z) : 0 < a -> 0 < b ->
  2 ^ 52 <= fst (double_quotient a b).
Proof.
  intros Ha Hb. unfold double_quotient. cbn [fst].
  pose proof (double_quotient_scale a b Ha Hb) as [Hge Hlt].
  cbv zeta in Hge, Hlt. set (e := log2_quotient a b - 52) in *.
  destruct (Z.leb_spec 0 e) as [He|He].
  - specialize (Hge He).
    assert (Hp : 0 < 2 ^ e) by (apply Z.pow_pos_nonneg; lia).
    assert (Hd : 0 < b * 2 ^ e) by nia.
    destruct (round_half_even_range a (b * 2 ^ e) Hd) as ([Hl _] & _).
    assert (2 ^ 52 <= a / (b * 2 ^ e)) by (apply Z.div_le_lower_bound; lia).
    lia.
  - specialize (Hlt He).
    destruct (round_half_even_range (a * 2 ^ (- e)) b Hb) as ([Hl _] & _).
    assert (2 ^ 52 <= a * 2 ^ (- e) / b) by (apply Z.div_le_lower_bound; lia).
    lia.
Qed.

(** The sign of the result. *)
Lemma Math_ceil_div_nonpos (a b : Z) : a * b <= 0 -> Math_ceil_div a b <= 0.
Proof.
  intros H. unfold Math_ceil_div.
  destruct (Z.eqb_spec a 0) as [->|Ha0]; [cbn; lia|].
  destruct (Z.eqb_spec b 0) as [->|Hb0]; [cbn; lia|]. cbn [orb].
  pose proof (double_quotient_pos (Z.abs a) (Z.abs b) ltac:(lia) ltac:(lia)) as Hm.
  destruct (double_quotient (Z.abs a) (Z.abs b)) as [m e]. cbn [fst] in Hm.
  assert (H52p : 0 < 2 ^ 52) by reflexivity.
  replace (Bool.eqb (a <? 0) (b <? 0)) with false
    by (destruct (Z.ltb_spec a 0); destruct (Z.ltb_spec b 0); cbn; try reflexivity; nia).
  destruct (Z.leb_spec 0 e) as [He|He].
  - assert (0 < 2 ^ e) by (apply Z.pow_pos_nonneg; lia). nia.
  - assert (0 < 2 ^ (- e)) by (apply Z.pow_pos_nonneg; lia).
    pose proof (Z.div_pos m (2 ^ (- e)) ltac:(lia) ltac:(lia)). lia.
Qed.

Lemma Math_ceil_div_positive (a b : Z) : 0 < a * b -> 1 <= Math_ceil_div a b.
Proof.
  intros H. unfold Math_ceil_div.
  destruct (Z.eqb_spec a 0) as [->|Ha0]; [lia|].
  destruct (Z.eqb_spec b 0) as [->|Hb0]; [lia|]. cbn [orb].
  pose proof (double_quotient_pos (Z.abs a) (Z.abs b) ltac:(lia) ltac:(lia)) as Hm.
  destruct (double_quotient (Z.abs a) (Z.abs b)) as [m e]. cbn [fst] in Hm.
  assert (H52p : 0 < 2 ^ 52) by reflexivity.
  replace (Bool.eqb (a <? 0) (b <? 0)) with true
    by (destruct (Z.ltb_spec a 0); destruct (Z.ltb_spec b 0); cbn; try reflexivity; nia).
  destruct (Z.leb_spec 0 e) as [He|He].
  - assert (Hp : 0 < 2 ^ e) by (apply Z.pow_pos_nonneg; lia). nia.
  - assert (Hp : 0 < 2 ^ (- e)) by (apply Z.pow_pos_nonneg; lia).
    assert (Hdiv : (- m) / 2 ^ (- e) < 0) by (apply Z.div_lt_upper_bound; lia).
    lia.
Qed.

Lemma Math_ceil_div_bounds (a b : Z) : - 2 ^ 53 < a < 2 ^ 53 -> 0 < b ->
  (Math_ceil_div a b - 1) * b < a <= Math_ceil_div a b * b.
Proof.
  intros Ha Hb. rewrite Math_ceil_div_exact by lia.
  pose proof (Z.div_mod (- a) b ltac:(lia)) as Hdm.
  pose proof (Z.mod_pos_bound (- a) b Hb) as Hmod.
  nia.
Qed.

Lemma Qceiling_div (a b : Z) : b <> 0 ->
  Qceiling (inject_Z a / inject_Z b) = - ((- a) / b).
Proof.
  intros Hb. unfold Qceiling. f_equal.
  rewrite Zdiv_Qdiv. apply Qfloor_comp.
  rewrite inject_Z_opp. field.
  intros H. apply Hb. unfold Qeq in H. cbn in H. lia.
Qed.

Lemma Store_currentPage_set n s : Store_currentPage (set_currentPage n s) = n.
Proof. destruct s as [d ms]. reflexivity. Qed.

Lemma totalPages_set_currentPage n s : totalPages (set_currentPage n s) = totalPages s.
Proof. destruct s as [d ms]. reflexivity. Qed.

Lemma Store_fetch_begin_state s data :
  s_state (sdata (fst (Store_fetch_begin s data))) = s_state (sdata s).
Proof.
  unfold Store_fetch_begin. destruct s as [d ms].
  destruct (Store_getApi _); reflexivity.
Qed.

Lemma value_eq_undefined (v : value) : v = VUndefined \/ v <> VUndefined.
Proof. destruct v; (left; reflexivity) || (right; discriminate). Qed.

(** [setPage] with no page, or with [undefined], takes the page 1. *)
Lemma setPage_default s fetch : setPage s VUndefined fetch = setPage s (VNum 1) fetch.
Proof. reflexivity. Qed.

(** [setPage] reads a page that is an integer as that integer. *)
Lemma setPage_integer s page fetch n :
  as_integer page = Some n -> setPage s page fetch = setPage s (VNum n) fetch.
Proof.
  intros H. unfold setPage.
  replace (match page with VUndefined => VNum 1 | _ => page end) with page
    by (destruct page; try reflexivity; discriminate H).
  rewrite H. reflexivity.
Qed.

Lemma setPage_in_range s n fetch : 1 <= n <= totalPages s ->
  s_state (sdata (fst (setPage s (VNum n) fetch)))
  = s_state (sdata (set_currentPage n s)).
Proof.
  intros Hn. unfold setPage. cbn [as_integer].
  replace (n >? totalPages s) with false by (rewrite Z.gtb_ltb; symmetry; apply Z.ltb_ge; lia).
  replace (n <? 1) with false by (symmetry; apply Z.ltb_ge; lia).
  cbn [orb].
  destruct (is_undefined fetch || truthy fetch).
  - pose proof (Store_fetch_begin_state (set_currentPage n s) VUndefined) as H.
    destruct (Store_fetch_begin (set_currentPage n s) VUndefined) as [s' [req|e]];
      exact H.
  - reflexivity.
Qed.

Lemma setPage_out_of_range s n fetch : n < 1 \/ totalPages s < n ->
  setPage s (VNum n) fetch = (s, Throw (PageOutOfRange (totalPages s))).
Proof.
  intros Hn. unfold setPage. cbn [as_integer].
  destruct (n >? totalPages s) eqn:E1; [reflexivity|].
  destruct (n <? 1) eqn:E2; [reflexivity|].
  rewrite Z.gtb_ltb in E1. apply Z.ltb_ge in E1. apply Z.ltb_ge in E2. lia.
Qed.

Lemma setPage_not_integer s page fetch :
  page <> VUndefined -> Number_isInteger page = false ->
  setPage s page fetch = (s, Throw PageNotNumber).
Proof.
  intros Hu Hi. unfold setPage, Number_isInteger in *.
  replace (match page with VUndefined => VNum 1 | _ => page end) with page
    by (destruct page; try reflexivity; congruence).
  destruct (as_integer page); [discriminate | reflexivity].
Qed.

Lemma setPage_success s page fetch s' req :
  setPage s page fetch = (s', Ok req) ->
  exists n, (as_integer page = Some n \/ (page = VUndefined /\ n = 1)) /\
            1 <= n <= totalPages s /\ Store_currentPage s' = n.
Proof.
  intros H.
  assert (Hnum : forall n, setPage s (VNum n) fetch = (s', Ok req) ->
                           1 <= n <= totalPages s /\ Store_currentPage s' = n).
  { intros n Hn.
    destruct (Z_lt_dec n 1) as [Hlt|Hge];
      [rewrite setPage_out_of_range in Hn by lia; discriminate|].
    destruct (Z_lt_dec (totalPages s) n) as [Hgt|Hle];
      [rewrite setPage_out_of_range in Hn by lia; discriminate|].
    split; [lia|].
    pose proof (setPage_in_range s n fetch ltac:(lia)) as Hs.
    rewrite Hn in Hs. cbn [fst] in Hs.
    unfold Store_currentPage. rewrite Hs.
    apply (Store_currentPage_set n s). }
  destruct (value_eq_undefined page) as [->|Hu].
  - exists 1. split; [right; split; reflexivity|]. apply Hnum. exact H.
  - destruct (as_integer page) as [n|] eqn:En.
    + exists n. split; [left; reflexivity|]. apply Hnum.
      rewrite <- (setPage_integer s page fetch n En). exact H.
    + rewrite setPage_not_integer in H; [discriminate | exact Hu|].
      unfold Number_isInteger. rewrite En. reflexivity.
Qed.

(** C4. Pagination.  Without a limit [totalPages] is 0.  With a limit it
    is [Math.ceil(totalRecords / limit)] as the language computes it, with
    the quotient rounded to a double: it is 1 or more exactly when records
    and limit have the same sign, and for a record count below [2^53] in
    magnitude it is the ceiling of the quotient (for a positive limit, the
    least number of pages that hold the records).  [hasNextPage] holds iff
    [currentPage + 1 <= totalPages] and [hasPreviousPage] iff
    [currentPage > 1].  [setPage(n)] throws, leaving the collection as it
    was, when [n] is given and is not an integer (a fraction such as 1.5,
    [NaN], an infinity, a string, ...) or lies outside [1, totalPages];
    [setPage()] and [setPage(undefined)] are [setPage(1)]; when [setPage]
    returns normally [currentPage] is [n].  With 50 records and a limit of
    25 there are 2 pages, [setPage(3)] and [setPage(1.5)] throw, and after
    [setPage(1)] there is no previous page and there is a next page. *)
Theorem pagination_bounds : forall s : Store,
  let st := s_state (sdata s) in
  (limit st = None -> totalPages s = 0) /\
  (forall l, limit st = Some l -> l <> 0 ->
     totalPages s = Math_ceil_div (totalRecords st) l /\
     (1 <= totalPages s <-> 0 < totalRecords st * l) /\
     (- 2 ^ 53 < totalRecords st < 2 ^ 53 ->
        totalPages s = Qceiling (inject_Z (totalRecords st) / inject_Z l) /\
        (inject_Z (totalPages s - 1) < inject_Z (totalRecords st) / inject_Z l)%Q /\
        (inject_Z (totalRecords st) / inject_Z l <= inject_Z (totalPages s))%Q /\
        (0 < l -> (totalPages s - 1) * l < totalRecords st <= totalPages s * l))) /\
  (hasNextPage s = true <-> Store_currentPage s + 1 <= totalPages s) /\
  (hasPreviousPage s = true <-> 1 < Store_currentPage s) /\
  (forall page fetch, page <> VUndefined -> Number_isInteger page = false ->
     setPage s page fetch = (s, Throw PageNotNumber)) /\
  (forall q numeral fetch, ~ (q == inject_Z (Qfloor q))%Q ->
     setPage s (VFrac q numeral) fetch = (s, Throw PageNotNumber)) /\
  (forall n fetch, n < 1 \/ totalPages s < n ->
     setPage s (VNum n) fetch = (s, Throw (PageOutOfRange (totalPages s)))) /\
  (forall fetch, setPage s VUndefined fetch = setPage s (VNum 1) fetch) /\
  (forall page fetch s' req, setPage s page fetch = (s', Ok req) ->
     exists n, (as_integer page = Some n \/ (page = VUndefined /\ n = 1)) /\
               1 <= n <= totalPages s /\ Store_currentPage s' = n) /\
  (forall n fetch, 1 <= n <= totalPages s ->
     Store_currentPage (fst (setPage s (VNum n) fetch)) = n) /\
  (totalRecords st = 50 -> limit st = Some 25 ->
     totalPages s = 2 /\
     (forall fetch, setPage s (VNum 3) fetch = (s, Throw (PageOutOfRange 2))) /\
     (forall fetch, setPage s (VFrac (3 # 2) "1.5") fetch = (s, Throw PageNotNumber)) /\
     (forall fetch, let s1 := fst (setPage s (VNum 1) fetch) in
                    hasPreviousPage s1 = false /\ hasNextPage s1 = true)).
Proof.
  intros s st.
  assert (Hin : forall n fetch, 1 <= n <= totalPages s ->
            Store_currentPage (fst (setPage s (VNum n) fetch)) = n
            /\ totalPages (fst (setPage s (VNum n) fetch)) = totalPages s).
  { intros n fetch Hn. pose proof (setPage_in_range s n fetch Hn) as H.
    unfold Store_currentPage, totalPages. rewrite H.
    split; [apply (Store_currentPage_set n s) | apply (totalPages_set_currentPage n s)]. }
  assert (Hfrac : forall q numeral fetch, ~ (q == inject_Z (Qfloor q))%Q ->
            setPage s (VFrac q numeral) fetch = (s, Throw PageNotNumber)).
  { intros q numeral fetch Hq. apply setPage_not_integer; [discriminate|].
    unfold Number_isInteger, as_integer.
    destruct (Qeq_bool q (inject_Z (Qfloor q))) eqn:Eq; [|reflexivity].
    apply Qeq_bool_iff in Eq. contradiction. }
  split; [|split; [|split; [|split; [|split; [|split; [|split; [|split; [|split;
    [|split]]]]]]]]].
  - intros H. unfold totalPages. fold st. rewrite H. reflexivity.
  - intros l H Hl.
    assert (Htp : totalPages s = Math_ceil_div (totalRecords st) l).
    { unfold totalPages. fold st. rewrite H.
      replace (l =? 0) with false by (symmetry; apply Z.eqb_neq; exact Hl).
      reflexivity. }
    split; [exact Htp|]. split.
    + rewrite Htp. split.
      * intros H1. destruct (Z_lt_dec 0 (totalRecords st * l)) as [Hp|Hn]; [exact Hp|].
        pose proof (Math_ceil_div_nonpos (totalRecords st) l ltac:(lia)). lia.
      * apply Math_ceil_div_positive.
    + intros Hsafe.
      assert (Hq : totalPages s = Qceiling (inject_Z (totalRecords st) / inject_Z l)).
      { rewrite Htp, Qceiling_div by exact Hl. apply Math_ceil_div_exact; assumption. }
      split; [exact Hq|]. split; [rewrite Hq; apply Qceiling_lt|].
      split; [rewrite Hq; apply Qle_ceiling|].
      intros Hpos. rewrite Htp. apply Math_ceil_div_bounds; assumption.
  - unfold hasNextPage. apply Z.leb_le.
  - unfold hasPreviousPage. rewrite Z.gtb_ltb. apply Z.ltb_lt.
  - intros page fetch. apply setPage_not_integer.
  - exact Hfrac.
  - intros n fetch. apply setPage_out_of_range.
  - intros fetch. apply setPage_default.
  - intros page fetch s' req. apply setPage_success.
  - intros n fetch Hn. apply Hin, Hn.
  - intros Htr Hlim.
    assert (Htp : totalPages s = 2).
    { unfold totalPages. fold st. rewrite Hlim, Htr. reflexivity. }
    split; [exact Htp|]. split; [|split].
    + intros fetch. rewrite <- Htp. apply setPage_out_of_range. lia.
    + intros fetch. apply Hfrac. intros H. vm_compute in H. discriminate H.
    + intros fetch s1. subst s1.
      destruct (Hin 1 fetch ltac:(lia)) as [Hc Ht].
      unfold hasPreviousPage, hasNextPage. rewrite Hc, Ht, Htp. split; reflexivity.
Qed.

(** The worked example of C4 on a collection of the application. *)
Lemma pagination_bounds_witness :
  totalPages zoo50 = 2
  /\ (forall fetch, setPage zoo50 (VNum 3) fetch = (zoo50, Throw (PageOutOfRange 2)))
  /\ (forall fetch, setPage zoo50 (VFrac (3 # 2) "1.5") fetch = (zoo50, Throw PageNotNumber))
  /\ (forall fetch, let s1 := fst (setPage zoo50 (VNum 1) fetch) in
                    hasPreviousPage s1 = false /\ hasNextPage s1 = true).
Proof.
  apply (pagination_bounds zoo50); reflexivity.
Defined.

(** C4, where the claim fails: a collection that reports [2^54] records,
    with a limit of 3.  The quotient is not a double; it is rounded down
    to the integer below it, so [totalPages] is one less than the ceiling
    of the quotient and that many pages of 3 do not hold the records.  And
    [setPage(undefined)] does not fail, although [undefined] is not an
    integer: the page defaults to 1. *)
Lemma totalPages_below_ceiling :
  let s := fst (Store_setLimit (set_totalRecords (2 ^ 54) zoo) (VNum 3)) in
  limit (s_state (sdata s)) = Some 3
  /\ totalRecords (s_state (sdata s)) = 2 ^ 54
  /\ totalPages s = 6004799503160661
  /\ Qceiling (inject_Z (totalRecords (s_state (sdata s))) / inject_Z 3) = 6004799503160662
  /\ totalPages s * 3 < totalRecords (s_state (sdata s))
  /\ Number_isInteger VUndefined = false
  /\ setPage zoo50 VUndefined (VBool false) = (set_currentPage 1 zoo50, Ok None).
Proof. vm_compute. repeat split; reflexivity. Qed.

(** ** Positional access: [at] *)

Lemma Store_at_above s index : Store_length s - 1 < index ->
  Store_at s index = Throw (IndexOutOfBounds index (Store_length s - 1)).
Proof.
  intros H. unfold Store_at. rewrite Z.gtb_ltb.
  decide_ltb (Store_length s - 1) index. reflexivity.
Qed.

Lemma Store_at_in_range s index : 0 <= index < Store_length s ->
  Store_at s index = Ok (nth_error (models s) (Z.to_nat index)).
Proof.
  intros H. unfold Store_at, models_at. rewrite Z.gtb_ltb.
  decide_ltb (Store_length s - 1) index. decide_ltb index 0.
  decide_ltb index 0. reflexivity.
Qed.

Lemma Store_at_from_end s index : - Store_length s <= index < 0 ->
  Store_at s index = Ok (nth_error (models s) (Z.to_nat (Store_length s + index))).
Proof.
  intros H. unfold Store_at, models_at. rewrite Z.gtb_ltb.
  decide_ltb (Store_length s - 1) index. decide_ltb index 0.
  decide_ltb (index + Store_length s) 0.
  rewrite Z.add_comm. reflexivity.
Qed.

(** Below the range nothing is thrown: the wrapped index is still negative
    and the read of [models] yields [undefined]. *)
Lemma Store_at_below s index : index < - Store_length s ->
  Store_at s index = Ok None.
Proof.
  intros H. unfold Store_at, models_at.
  assert (0 <= Store_length s) by (unfold Store_length; lia).
  rewrite Z.gtb_ltb.
  decide_ltb (Store_length s - 1) index. decide_ltb index 0.
  decide_ltb (index + Store_length s) 0. reflexivity.
Qed.

(** C7, at the failing input.  On a collection of two members, [at(2)]
    throws and [at(-1)], [at(-2)] wrap from the end, but [at(-3)], a
    negative index beyond bounds, throws nothing: it returns [undefined]. *)
Theorem at_negative_beyond_bounds :
  Store_length zoo = 2
  /\ Store_at zoo 2 = Throw (IndexOutOfBounds 2 1)
  /\ Store_at zoo (-1) = Ok (nth_error (models zoo) 1)
  /\ Store_at zoo (-2) = Ok (nth_error (models zoo) 0)
  /\ Store_at zoo (-3) = Ok None.
Proof.
  assert (Hlen : Store_length zoo = 2) by reflexivity.
  split; [exact Hlen|].
  split; [rewrite (Store_at_above zoo 2); rewrite Hlen; [reflexivity | lia]|].
  split; [rewrite (Store_at_from_end zoo (-1)); rewrite Hlen; [reflexivity | lia]|].
  split; [rewrite (Store_at_from_end zoo (-2)); rewrite Hlen; [reflexivity | lia]|].
  apply (Store_at_below zoo (-3)). rewrite Hlen. lia.
Qed.

(** ** The relation descriptor parser *)

Lemma span_app_stop (p : ascii -> bool) (a : string) (c : ascii) (b : string) :
  (forall x, In x (list_ascii_of_string a) -> p x = true) -> p c = false ->
  span p (a ++ String c b) = (a, String c b).
Proof.
  intros Ha Hc. induction a as [|x a IH]; cbn [append span].
  - rewrite Hc. reflexivity.
  - rewrite (Ha x (or_introl eq_refl)).
    rewrite IH; [reflexivity|]. intros y Hy. apply Ha. right. exact Hy.
Qed.

Lemma span_all (p : ascii -> bool) (a : string) :
  (forall x, In x (list_ascii_of_string a) -> p x = true) -> span p a = (a, "").
Proof.
  intros Ha. induction a as [|x a IH]; cbn [span]; [reflexivity|].
  rewrite (Ha x (or_introl eq_refl)).
  rewrite IH; [reflexivity|]. intros y Hy. apply Ha. right. exact Hy.
Qed.

(** A path [first.rest] whose first segment is not empty and has no dot, and
    whose rest is not empty and has no line break, is split at its first
    dot. *)
Lemma regex_match_dotted (first rest : string) :
  first <> "" -> rest <> "" ->
  (forall x, In x (list_ascii_of_string first) -> is_dot x = false) ->
  (forall x, In x (list_ascii_of_string rest) -> is_line_terminator x = false) ->
  regex_match (first ++ String "." rest) = Some (first, rest).
Proof.
  intros Hf Hr Hdots Hlines.
  assert (Hm : match_here (first ++ String "." rest) = Some (first, rest)).
  { unfold match_here.
    rewrite (span_app_stop (fun c => negb (is_dot c)) first "." rest);
      [|intros x Hx; rewrite (Hdots x Hx); reflexivity | reflexivity].
    destruct first as [|f first']; [congruence|].
    rewrite (span_all (fun c => negb (is_line_terminator c)) rest);
      [|intros x Hx; rewrite (Hlines x Hx); reflexivity].
    destruct rest as [|r rest']; [congruence|]. reflexivity. }
  destruct first as [|f first']; [congruence|].
  cbn [append regex_match]. cbn [append] in Hm. rewrite Hm. reflexivity.
Qed.

(** A path without a dot does not match. *)
Lemma regex_match_bare (s : string) :
  (forall x, In x (list_ascii_of_string s) -> is_dot x = false) ->
  regex_match s = None.
Proof.
  intros Hdots. induction s as [|c s IH].
  - reflexivity.
  - cbn [regex_match].
    assert (Hm : match_here (String c s) = None).
    { unfold match_here.
      rewrite (span_all (fun x => negb (is_dot x)) (String c s));
        [reflexivity | intros x Hx; rewrite (Hdots x Hx); reflexivity]. }
    rewrite Hm. apply IH. intros x Hx. apply Hdots. right. exact Hx.
Qed.

(** C3, at the failing input.  A bare first segment followed by a dotted
    path is merged as the claim says, and the entity is constructed; a
    dotted path followed by its bare first segment leaves [null] among the
    nested paths of the segment, and the constructor of the related entity
    throws on it, so no relation is instantiated. *)
Theorem parseRelations_dotted_then_bare :
  parseRelations_loop [Some "kind"; Some "kind.breed"] ([], [])
  = Ok ([("kind", Some [Some "breed"])], ["kind"])
  /\ (exists m, new_Model demo (methods demo 3) Animal VNull
                  (with_relations ["kind"; "kind.breed"]) = Ok m)
  /\ parseRelations_loop [Some "kind.breed"; Some "kind"] ([], [])
     = Ok ([("kind", Some [Some "breed"; None])], ["kind"])
  /\ new_Model demo (methods demo 3) Animal VNull (with_relations ["kind.breed"; "kind"])
     = Throw (TypeError "Cannot read property 'match' of null").
Proof.
  split; [reflexivity|]. split; [eexists; reflexivity|]. split; reflexivity.
Qed.

(** ** Request accounting *)

Lemma pending_add_pending k m : pending (add_pending k m) = pending m + k.
Proof. destruct m as [d rels]. reflexivity. Qed.

Lemma pending_set_errors v m :
  pending (with_mdata (set_backendValidationErrors v) m) = pending m.
Proof. destruct m as [d rels]. reflexivity. Qed.

Lemma errors_add_pending k m :
  m_backendValidationErrors (mdata (add_pending k m)) = m_backendValidationErrors (mdata m).
Proof. destruct m as [d rels]. reflexivity. Qed.

Lemma errors_set_errors v m :
  m_backendValidationErrors (mdata (with_mdata (set_backendValidationErrors v) m)) = v.
Proof. destruct m as [d rels]. reflexivity. Qed.

Lemma save_begin_pending (E : Env) m params :
  pending (fst (save_begin E m params)) = pending m + 1.
Proof.
  unfold save_begin. destruct (getApi _); cbn [fst];
    rewrite pending_add_pending, pending_set_errors; reflexivity.
Qed.

(** A rejected save: the counter is back where it was before the call, the
    rejection is passed on, and [valErrors], when the rejection carries
    them, are the entity's validation errors.  A reason that is [null] or
    [undefined] has no properties: reading [valErrors] throws, after the
    counter was put back, and the promise is rejected with that
    [TypeError]. *)
Lemma save_rejected (E : Env) rec m params err :
  let m1 := fst (save_begin E m params) in
  let r := save_settle E rec m1 (Rejected err) in
  pending (fst r) = pending m
  /\ (is_nullish err = false ->
      snd r = Rejected err
      /\ (truthy (valErrors err) = true ->
          m_backendValidationErrors (mdata (fst r)) = valErrors err)
      /\ (truthy (valErrors err) = false ->
          m_backendValidationErrors (mdata (fst r)) = VObj []))
  /\ (is_nullish err = true ->
      (exists what, snd r = Rejected (Thrown (TypeError what)))
      /\ m_backendValidationErrors (mdata (fst r)) = VObj []).
Proof.
  intros m1 r. subst r. unfold save_settle, then_, catch_.
  assert (Hp : pending m1 = pending m + 1) by apply save_begin_pending.
  assert (He : m_backendValidationErrors (mdata m1) = VObj []).
  { subst m1. unfold save_begin. destruct (getApi _); cbn [fst];
      rewrite errors_add_pending, errors_set_errors; reflexivity. }
  destruct (is_nullish err) eqn:Hn; cbn [fst snd].
  - rewrite pending_add_pending, errors_add_pending.
    split; [lia|]. split; [discriminate|]. intros _. split; [eauto | exact He].
  - destruct (truthy (valErrors err)) eqn:Hv; cbn [fst snd].
    + rewrite pending_set_errors, pending_add_pending, errors_set_errors.
      split; [lia|]. split; [|discriminate]. intros _. repeat split; congruence.
    + rewrite pending_add_pending, errors_add_pending.
      split; [lia|]. split; [|discriminate]. intros _. repeat split; congruence.
Qed.

Lemma saveAll_rejected (E : Env) rec m c err :
  let m1 := fst (fst (saveAll_begin E m c)) in
  let r := saveAll_settle E rec m1 (Rejected err) in
  pending (fst r) = pending m /\ snd r = Rejected err.
Proof.
  intros m1 r. subst r m1. unfold saveAll_settle, then_, catch_. cbn [fst snd].
  rewrite pending_add_pending. split; [|reflexivity].
  unfold saveAll_begin. destruct (getApi _); cbn [fst].
  - destruct (Model_toBackendAll _ _ _ _) as [[data|e] c']; cbn [fst];
      rewrite pending_add_pending, pending_set_errors; lia.
  - rewrite pending_add_pending, pending_set_errors; lia.
Qed.

(** [fetch] and [delete] chain no rejection handler: when the adapter
    rejects, the entity is left as it was while the request was pending. *)
Lemma fetch_settle_rejected (E : Env) rec m err :
  fetch_settle E rec m (Rejected err) = (m, Rejected err).
Proof. reflexivity. Qed.

Lemma delete_settle_rejected st immediate err :
  delete_settle st immediate (Rejected err) = (st, Rejected err).
Proof. reflexivity. Qed.

Lemma Store_fetch_settle_rejected (E : Env) rec s err :
  Store_fetch_settle E rec s (Rejected err) = (s, Rejected err).
Proof. reflexivity. Qed.

Lemma fetch_begin_pending m data req :
  snd (fetch_begin m data) = Ok req -> pending (fst (fetch_begin m data)) = pending m + 1.
Proof.
  unfold fetch_begin. destruct (isNew m); [discriminate|].
  destruct (getApi _); cbn [fst snd]; intros _; apply pending_add_pending.
Qed.

(** C6, at the failing input.  The saved animal [rex] has no request
    pending.  [fetch] issues a request and counts it; when the adapter
    rejects the request the count is still 1 (and so it is after a rejected
    [delete]), whereas after a rejected [save] it is back to 0 and the
    validation errors are the rejection's [valErrors]. *)
Theorem fetch_rejected_keeps_pending :
  let err := Reason (VObj [("valErrors", VObj [("name", VStr "required")])]) in
  pending rex = 0
  /\ (exists req, snd (fetch_begin rex VUndefined) = Ok req)
  /\ pending (fst (fetch_begin rex VUndefined)) = 1
  /\ fetch_settle demo (methods demo 3) (fst (fetch_begin rex VUndefined)) (Rejected err)
     = (fst (fetch_begin rex VUndefined), Rejected err)
  /\ pending (fst (fetch_settle demo (methods demo 3)
                     (fst (fetch_begin rex VUndefined)) (Rejected err))) = 1
  /\ pending (fst (fst (delete_settle (fst (delete_begin rex false VUndefined)) false
                          (Rejected err)))) = 1
  /\ pending (fst (save_settle demo (methods demo 3)
                     (fst (save_begin demo rex VUndefined)) (Rejected err))) = 0
  /\ m_backendValidationErrors
       (mdata (fst (save_settle demo (methods demo 3)
                      (fst (save_begin demo rex VUndefined)) (Rejected err))))
     = VObj [("name", VStr "required")].
Proof.
  cbv zeta. split; [reflexivity|]. split; [eexists; reflexivity|].
  repeat split.
Qed.

(** ** Objects *)

Lemma includes_In xs x : includes xs x = true <-> In x xs.
Proof.
  unfold includes. rewrite existsb_exists. split.
  - intros (y & Hy & He). apply String.eqb_eq in He. subst. exact Hy.
  - intros H. exists x. split; [exact H | apply String.eqb_refl].
Qed.

Lemma obj_get_set_same o k v : obj_get (obj_set o k v) k = Some v.
Proof.
  induction o as [|[k' v'] o IH]; cbn [obj_set obj_get].
  - rewrite String.eqb_refl. reflexivity.
  - destruct (String.eqb k k') eqn:Ek; cbn [obj_get]; rewrite Ek; [reflexivity | exact IH].
Qed.

Lemma obj_get_set_other o k k' v : k <> k' -> obj_get (obj_set o k v) k' = obj_get o k'.
Proof.
  intros Hne. induction o as [|[k0 v0] o IH]; cbn [obj_set obj_get].
  - replace (String.eqb k' k) with false; [reflexivity|].
    symmetry. apply String.eqb_neq. congruence.
  - destruct (String.eqb k k0) eqn:Ek; cbn [obj_get].
    + apply String.eqb_eq in Ek. subst k0.
      replace (String.eqb k' k) with false; [reflexivity|].
      symmetry. apply String.eqb_neq. congruence.
    + destruct (String.eqb k' k0); [reflexivity | exact IH].
Qed.

Lemma prop_set_same o k v : prop (obj_set o k v) k = v.
Proof. unfold prop. rewrite obj_get_set_same. reflexivity. Qed.

Lemma prop_set_other o k k' v : k <> k' -> prop (obj_set o k v) k' = prop o k'.
Proof. intros H. unfold prop. rewrite obj_get_set_other by exact H. reflexivity. Qed.

Lemma obj_set_keys o k v : In k (map fst o) -> map fst (obj_set o k v) = map fst o.
Proof.
  induction o as [|[k' v'] o IH]; cbn [obj_set map fst In]; [tauto|].
  intros H. destruct (String.eqb k k') eqn:Ek; cbn [map fst]; [reflexivity|].
  f_equal. apply IH. destruct H as [H|H]; [|exact H].
  subst. rewrite String.eqb_refl in Ek. discriminate.
Qed.

Lemma obj_set_fresh o k v : ~ In k (map fst o) -> obj_set o k v = (o ++ [(k, v)])%list.
Proof.
  induction o as [|[k' v'] o IH]; cbn [obj_set map fst In app]; [reflexivity|].
  intros H. destruct (String.eqb k k') eqn:Ek.
  - apply String.eqb_eq in Ek. subst. tauto.
  - rewrite <- app_comm_cons. f_equal. apply IH. tauto.
Qed.

(** Two objects with the same keys, none of them twice, and the same value
    under each key are the same object. *)
Lemma obj_ext (o1 o2 : obj) :
  map fst o1 = map fst o2 -> NoDup (map fst o1) ->
  (forall k, In k (map fst o1) -> prop o1 k = prop o2 k) -> o1 = o2.
Proof.
  revert o2. induction o1 as [|[k v] o1 IH]; intros [|[k2 v2] o2] Hk Hnd Hp;
    cbn [map fst] in Hk; try discriminate; [reflexivity|].
  injection Hk as -> Hk. cbn [map fst] in Hnd. inversion Hnd as [|? ? Hni Hnd']; subst.
  assert (v = v2).
  { specialize (Hp k2 (or_introl eq_refl)). unfold prop in Hp. cbn [obj_get] in Hp.
    rewrite String.eqb_refl in Hp. exact Hp. }
  subst v2. f_equal. apply IH; [exact Hk | exact Hnd'|].
  intros k Hin. specialize (Hp k (or_intror Hin)).
  unfold prop in *. cbn [obj_get] in Hp.
  destruct (String.eqb k k2) eqn:Ek; [|exact Hp].
  apply String.eqb_eq in Ek. subst. contradiction.
Qed.

(** Assigning a list of properties: the last assignment to a key wins. *)
Lemma prop_fold_set (f : string -> value) (l : list string) : forall (o : obj) (k : string),
  prop (fold_left (fun o a => obj_set o a (f a)) l o) k
  = if includes l k then f k else prop o k.
Proof.
  induction l as [|a l IH]; intros o k; cbn [fold_left]; [reflexivity|].
  rewrite IH. unfold includes. cbn [existsb].
  fold (includes l k). destruct (includes l k); [rewrite orb_true_r; reflexivity|].
  rewrite orb_false_r. destruct (String.eqb k a) eqn:Ek.
  - apply String.eqb_eq in Ek. subst. apply prop_set_same.
  - apply prop_set_other. intros ->. rewrite String.eqb_refl in Ek. discriminate.
Qed.

Lemma keys_fold_set (f : string -> value) (l : list string) : forall (o : obj),
  (forall a, In a l -> In a (map fst o)) ->
  map fst (fold_left (fun o a => obj_set o a (f a)) l o) = map fst o.
Proof.
  induction l as [|a l IH]; intros o H; cbn [fold_left]; [reflexivity|].
  rewrite IH.
  - apply obj_set_keys. apply H. left. reflexivity.
  - intros b Hb. rewrite obj_set_keys by (apply H; left; reflexivity).
    apply H. right. exact Hb.
Qed.

(** ** Resolution by identifier: [__addFromRepository] *)

Lemma find_all_false {A : Type} (p : A -> bool) (l : list A) :
  (forall x, In x l -> p x = false) -> List.find p l = None.
Proof.
  induction l as [|x l IH]; intros H; cbn [List.find]; [reflexivity|].
  rewrite (H x (or_introl eq_refl)). apply IH. intros y Hy. apply H. right. exact Hy.
Qed.

Lemma attributes_with_primaryKey k m : attributes (with_primaryKey k m) = attributes m.
Proof. destruct m as [d rels]. reflexivity. Qed.

Lemma set_field_with_primaryKey k a v m :
  set_field a v (with_primaryKey k m) = with_primaryKey k (set_field a v m).
Proof. destruct m as [d rels]. reflexivity. Qed.

Lemma set_rel_with_primaryKey k a r m :
  set_rel a r (with_primaryKey k m) = with_primaryKey k (set_rel a r m).
Proof. destruct m as [d rels]. reflexivity. Qed.

(** [parse] never reads the declared primary key. *)
Lemma parse_property_with_primaryKey (E : Env) rec k key v m :
  parse_property E rec key v (with_primaryKey k m)
  = (with_primaryKey k (fst (parse_property E rec key v m)),
     snd (parse_property E rec key v m)).
Proof.
  unfold parse_property. rewrite attributes_with_primaryKey.
  destruct (includes (attributes m) (snakeToCamel E key)).
  - cbn [fst snd]. rewrite set_field_with_primaryKey. destruct m as [d rels]. reflexivity.
  - replace (m_activeCurrentRelations (mdata (with_primaryKey k m)))
      with (m_activeCurrentRelations (mdata m)) by (destruct m; reflexivity).
    destruct (includes (m_activeCurrentRelations (mdata m)) (snakeToCamel E key));
      [|reflexivity].
    replace (rel_field (with_primaryKey k m) (snakeToCamel E key))
      with (rel_field m (snakeToCamel E key)) by (destruct m; reflexivity).
    destruct (rel_field m (snakeToCamel E key)) as [r|]; [|reflexivity].
    destruct (if is_nested_data v then Rel_parse E rec r v
              else Rel_addFromRepository E rec r v) as [r' err].
    cbn [fst snd]. rewrite set_rel_with_primaryKey. reflexivity.
Qed.

Lemma forIn_with_primaryKey (E : Env) rec k (o : obj) : forall m,
  forIn (parse_property E rec) o (with_primaryKey k m)
  = (with_primaryKey k (fst (forIn (parse_property E rec) o m)),
     snd (forIn (parse_property E rec) o m)).
Proof.
  induction o as [|[key v] o IH]; intros m; cbn [forIn]; [reflexivity|].
  rewrite parse_property_with_primaryKey.
  destruct (parse_property E rec key v m) as [m' [e|]]; cbn [fst snd]; [reflexivity|].
  apply IH.
Qed.

Lemma Model_parse_with_primaryKey (E : Env) rec k m data :
  Model_parse E rec (with_primaryKey k m) data
  = (with_primaryKey k (fst (Model_parse E rec m data)), snd (Model_parse E rec m data)).
Proof.
  unfold Model_parse. destruct data; try reflexivity. apply forIn_with_primaryKey.
Qed.

(** C10. Resolution by identifier of an entity relation.  When the attached
    repository holds no record that matches the identifier (in particular
    when no repository is attached), [__addFromRepository] returns without
    an exception and leaves the entity as it was.  The lookup is by the
    property named [id]: the result is the same whatever primary key the
    entity's type declares, and for an identifier that is a defined
    primitive value a record matches exactly when its [id] property is
    strictly equal to the identifier. *)
Theorem addFromRepository_absent_id :
  forall (E : Env) (rec : Methods) (m : Model) (id : value),
  ((forall record, In record (elements (m_repository (mdata m))) ->
                   matches_id E id record = false) ->
   Model_addFromRepository E rec m id = (m, None))
  /\ (forall k,
        Model_addFromRepository E rec (with_primaryKey k m) id
        = (with_primaryKey k (fst (Model_addFromRepository E rec m id)),
           snd (Model_addFromRepository E rec m id)))
  /\ (forall o, is_primitive id = true -> id <> VNaN -> id <> VUndefined ->
        matches_id E id (VObj o) = strict_eq (prop o "id") id).
Proof.
  intros E rec m id. split; [|split].
  - intros H. unfold Model_addFromRepository, addFromRepository_with, find_id.
    rewrite (find_all_false _ _ H). reflexivity.
  - intros k. unfold Model_addFromRepository, addFromRepository_with.
    replace (m_repository (mdata (with_primaryKey k m))) with (m_repository (mdata m))
      by (destruct m; reflexivity).
    destruct (find_id E (m_repository (mdata m)) id) as [relData|]; [|reflexivity].
    destruct (truthy relData); [|reflexivity].
    apply Model_parse_with_primaryKey.
  - intros o Hp Hn Hu. destruct id; try discriminate; try congruence;
      cbn [matches_id value_prop is_undefined negb orb]; apply andb_true_r.
Qed.

(** C10 on the application: the kind of [cat] has the repository that holds
    the kind 7; resolving 8 changes nothing, whereas 7 is found. *)
Lemma addFromRepository_absent_id_witness :
  Model_addFromRepository demo (methods demo 3) cat_kind (VNum 8) = (cat_kind, None)
  /\ field (fst (Model_addFromRepository demo (methods demo 3) cat_kind (VNum 7))) "name"
     = VStr "Dog".
Proof.
  split.
  - apply (proj1 (addFromRepository_absent_id demo (methods demo 3) cat_kind (VNum 8))).
    intros record Hin. cbn in Hin. destruct Hin as [<-|[]]. reflexivity.
  - reflexivity.
Defined.

(** ** The codec round trip *)

Lemma attributes_set_field a v m :
  In a (attributes m) -> attributes (set_field a v m) = attributes m.
Proof.
  destruct m as [d rels]. unfold attributes, set_field. cbn [with_mdata mdata set_attrs m_attrs].
  apply obj_set_keys.
Qed.

Lemma casts_of_set_field a v m : casts_of (set_field a v m) = casts_of m.
Proof. destruct m as [d rels]. reflexivity. Qed.

Lemma with_set_attrs_twice o1 o2 m :
  with_mdata (set_attrs o2) (with_mdata (set_attrs o1) m) = with_mdata (set_attrs o2) m.
Proof. destruct m as [d rels]. reflexivity. Qed.

Lemma with_set_attrs_same m : with_mdata (set_attrs (m_attrs (mdata m))) m = m.
Proof. destruct m as [[c a oa ar acr r s b p] rels]. reflexivity. Qed.

(** A sequence of attribute assignments is one assignment of the attribute
    object. *)
Lemma fold_set_field (f : string -> value) (l : list string) : forall m,
  fold_left (fun m a => set_field a (f a) m) l m
  = with_mdata
      (set_attrs (fold_left (fun o a => obj_set o a (f a)) l (m_attrs (mdata m)))) m.
Proof.
  induction l as [|a l IH]; intros m; cbn [fold_left].
  - symmetry. apply with_set_attrs_same.
  - rewrite IH. destruct m as [d rels]. reflexivity.
Qed.

Section RoundTrip.

Context (E : Env) (rec : Methods) (e : Model).

Hypothesis e_no_casts : casts_of e = [].
Hypothesis e_no_relations : m_activeCurrentRelations (mdata e) = [].
Hypothesis names_round_trip :
  forall a, In a (attributes e) -> startsWith "_" a = false ->
            snakeToCamel E (snakeCase E a) = a.

Lemma emitted_In l a : In a (emitted l) <-> In a l /\ startsWith "_" a = false.
Proof. unfold emitted. rewrite filter_In, negb_true_iff. tauto. Qed.

(** Without casts and relations the record is one property per emitted
    attribute, in order. *)
Lemma toBackend_attributes_only :
  NoDup (attributes e) -> toBackend E e = record_of E e (attributes e).
Proof.
  intros Hnd. unfold toBackend. rewrite e_no_relations. cbn [fold_left].
  assert (Hgen : forall l acc,
            NoDup l -> (forall a, In a l -> In a (attributes e)) ->
            (forall a, In a l -> startsWith "_" a = false ->
                       ~ In (snakeCase E a) (map fst acc)) ->
            fold_left
              (fun output attr =>
                 if startsWith "_" attr then output
                 else obj_set output (snakeCase E attr) (toJSAttr e attr (field e attr)))
              l acc
            = (acc ++ record_of E e l)%list).
  { induction l as [|a l IH]; intros acc Hl Hsub Hfresh; cbn [fold_left].
    - unfold record_of. cbn. rewrite app_nil_r. reflexivity.
    - inversion Hl as [|? ? Hni Hl']; subst.
      unfold record_of, emitted. cbn [filter].
      destruct (startsWith "_" a) eqn:Ea; cbn [negb].
      + apply IH; [exact Hl' | intros b Hb; apply Hsub; right; exact Hb|].
        intros b Hb. apply Hfresh. right. exact Hb.
      + cbn [map].
        assert (Hjs : toJSAttr e a (field e a) = field e a).
        { unfold toJSAttr. rewrite e_no_casts. reflexivity. }
        rewrite Hjs.
        rewrite obj_set_fresh by (apply Hfresh; [left; reflexivity | exact Ea]).
        rewrite IH; [rewrite <- app_assoc; reflexivity | exact Hl'
                    | intros b Hb; apply Hsub; right; exact Hb |].
        intros b Hb Eb. rewrite map_app, in_app_iff. cbn [map fst In].
        intros [Hin|[Heq|[]]].
        * revert Hin. apply Hfresh; [right; exact Hb | exact Eb].
        * assert (a = b).
          { rewrite <- (names_round_trip a) by (try exact Ea; apply Hsub; left; reflexivity).
            rewrite <- (names_round_trip b) by (try exact Eb; apply Hsub; right; exact Hb).
            rewrite Heq. reflexivity. }
          subst b. contradiction. }
  rewrite (Hgen (attributes e) [] Hnd); [reflexivity | tauto |].
  intros a _ _ [].
Qed.

(** Parsing such a record assigns each of its attributes, and none of the
    calls reaches a relation. *)
Lemma parse_attribute_record (l : list string) : forall t,
  (forall a, In a l -> In a (attributes e) /\ startsWith "_" a = false) ->
  attributes t = attributes e -> casts_of t = [] ->
  forIn (parse_property E rec) (map (fun a => (snakeCase E a, field e a)) l) t
  = (fold_left (fun m a => set_field a (field e a) m) l t, None).
Proof.
  induction l as [|a l IH]; intros t Hsub Ht Hc; cbn [map forIn fold_left];
    [reflexivity|].
  destruct (Hsub a (or_introl eq_refl)) as [Ha Hu].
  unfold parse_property at 1. rewrite (names_round_trip a Ha Hu).
  replace (includes (attributes t) a) with true
    by (symmetry; apply includes_In; rewrite Ht; exact Ha).
  unfold parseAttr. rewrite Hc. cbn [assoc].
  apply IH.
  - intros b Hb. apply Hsub. right. exact Hb.
  - rewrite attributes_set_field by (rewrite Ht; exact Ha). exact Ht.
  - rewrite casts_of_set_field. exact Hc.
Qed.

(** The record of [e] parsed into [t]: the emitted attributes are assigned
    in turn. *)
Lemma round_trip_parse (t : Model) :
  NoDup (attributes e) -> attributes t = attributes e -> casts_of t = [] ->
  Model_parse E rec t (VObj (toBackend E e))
  = (fold_left (fun m a => set_field a (field e a) m) (emitted (attributes e)) t, None).
Proof.
  intros Hnd Ht Hc. unfold Model_parse.
  rewrite (toBackend_attributes_only Hnd). unfold record_of.
  apply parse_attribute_record; [|exact Ht | exact Hc].
  intros a Ha. apply emitted_In in Ha. exact Ha.
Qed.

Lemma round_trip_field (t : Model) a :
  field (fold_left (fun m a => set_field a (field e a) m) (emitted (attributes e)) t) a
  = if includes (emitted (attributes e)) a then field e a else field t a.
Proof.
  rewrite fold_set_field. destruct t as [d rels].
  unfold field. cbn [with_mdata mdata set_attrs m_attrs]. apply prop_fold_set.
Qed.

Lemma round_trip_attrs (t : Model) :
  NoDup (attributes e) -> attributes t = attributes e -> casts_of t = [] ->
  (forall a, In a (attributes e) -> startsWith "_" a = true -> field t a = field e a) ->
  Model_parse E rec t (VObj (toBackend E e))
  = (with_mdata (set_attrs (m_attrs (mdata e))) t, None).
Proof.
  intros Hnd Ht Hc Hint. rewrite (round_trip_parse t Hnd Ht Hc).
  rewrite fold_set_field. f_equal. f_equal. f_equal.
  apply obj_ext.
  - rewrite keys_fold_set; [exact Ht|].
    intros a Ha. apply emitted_In in Ha. fold (attributes t). rewrite Ht. tauto.
  - rewrite keys_fold_set; [fold (attributes t); rewrite Ht; exact Hnd|].
    intros a Ha. apply emitted_In in Ha. fold (attributes t). rewrite Ht. tauto.
  - intros k Hk.
    rewrite keys_fold_set in Hk
      by (intros a Ha; apply emitted_In in Ha; fold (attributes t); rewrite Ht; tauto).
    fold (attributes t) in Hk. rewrite Ht in Hk.
    rewrite prop_fold_set.
    destruct (includes (emitted (attributes e)) k) eqn:Ek; [reflexivity|].
    destruct (startsWith "_" k) eqn:Eu.
    + apply (Hint k Hk Eu).
    + assert (In k (emitted (attributes e))) by (apply emitted_In; tauto).
      apply includes_In in H. congruence.
Qed.

End RoundTrip.

(** C9. Round trip of the codec.  Let [e] be an entity without casts and
    without active relations, with field names of their own (none is the
    name of a property or method that [Model.js] or [Object.prototype]
    gives an entity) that the naming conversion maps to the backend and
    back (asked only of the names that do not start with an underscore),
    whatever values its attributes hold (the claim asks for primitive
    values; without casts the record holds the values as they are).  Parsing the record [toBackend(e)] into an entity
    [t] with the same attributes (a new instance of the type, or [e] itself
    at any later time) returns normally.  It assigns the attributes whose
    name does not start with an underscore, in their order, and so leaves
    each of them with the value it has in [e].  [toBackend] leaves out the
    attributes whose name starts with an underscore: these keep the value
    they have in [t], so [e]'s values are reproduced for them only where
    [t] already agrees with [e], as [e] itself and any entity without such
    attributes does; then every attribute of [t] ends with the value it
    has in [e].  Nothing but attributes changes in [t]. *)
Theorem parse_toBackend_round_trip :
  forall (E : Env) (rec : Methods) (e t : Model),
  casts_of e = [] -> casts_of t = [] ->
  m_activeCurrentRelations (mdata e) = [] ->
  NoDup (attributes e) -> attributes t = attributes e ->
  (forall a, In a (attributes e) -> plain_name E a = true) ->
  (forall a, In a (attributes e) -> startsWith "_" a = false ->
             snakeToCamel E (snakeCase E a) = a) ->
  let parsed :=
    fold_left (fun m a => set_field a (field e a) m) (emitted (attributes e)) t in
  Model_parse E rec t (VObj (toBackend E e)) = (parsed, None)
  /\ (forall a, In a (attributes e) -> startsWith "_" a = false ->
        field parsed a = field e a)
  /\ (forall a, startsWith "_" a = true -> field parsed a = field t a)
  /\ parsed = with_mdata (set_attrs (m_attrs (mdata parsed))) t
  /\ ((forall a, In a (attributes e) -> startsWith "_" a = true ->
         field t a = field e a) ->
      parsed = with_mdata (set_attrs (m_attrs (mdata e))) t
      /\ forall a, field parsed a = field e a).
Proof.
  intros E rec e t Hce Hct Hrel Hnd Hattrs _ Hnames parsed.
  pose proof (round_trip_parse E rec e Hce Hrel Hnames t Hnd Hattrs Hct) as Hparse.
  fold parsed in Hparse.
  split; [exact Hparse|]. split; [|split; [|split]].
  - intros a Ha Hu. subst parsed. rewrite round_trip_field.
    replace (includes (emitted (attributes e)) a) with true; [reflexivity|].
    symmetry. apply includes_In, emitted_In. split; assumption.
  - intros a Hu. subst parsed. rewrite round_trip_field.
    destruct (includes (emitted (attributes e)) a) eqn:Ei; [|reflexivity].
    apply includes_In, emitted_In in Ei. destruct Ei as [_ Ef]. congruence.
  - subst parsed. rewrite fold_set_field. destruct t as [d rels]. reflexivity.
  - intros Hint.
    pose proof (round_trip_attrs E rec e Hce Hrel Hnames t Hnd Hattrs Hct Hint) as H.
    rewrite Hparse in H. injection H as H. split; [exact H|].
    intros a. rewrite H. destruct t as [d rels]. reflexivity.
Qed.

(** Parsing its own record leaves an entity as it is. *)
Corollary parse_toBackend_self (E : Env) (rec : Methods) (e : Model) :
  casts_of e = [] -> m_activeCurrentRelations (mdata e) = [] ->
  NoDup (attributes e) ->
  (forall a, In a (attributes e) -> startsWith "_" a = false ->
             snakeToCamel E (snakeCase E a) = a) ->
  Model_parse E rec e (VObj (toBackend E e)) = (e, None).
Proof.
  intros Hc Hrel Hnd Hnames.
  rewrite (round_trip_attrs E rec e Hc Hrel Hnames e Hnd eq_refl Hc (fun _ _ _ => eq_refl)).
  rewrite with_set_attrs_same. reflexivity.
Qed.

(** C9 on the application: the record of [rex] parsed into a new animal,
    and the record of [session] parsed into a new session. *)
Lemma parse_toBackend_round_trip_witness :
  (forall a, field (fst (Model_parse demo (methods demo 3) new_animal
                           (VObj (toBackend demo rex)))) a = field rex a)
  /\ snd (Model_parse demo (methods demo 3) new_session (VObj (toBackend demo session)))
     = None
  /\ field (fst (Model_parse demo (methods demo 3) new_session
                   (VObj (toBackend demo session)))) "user" = VStr "jo".
Proof.
  assert (Hnd_rex : NoDup (attributes rex))
    by (repeat constructor; cbn; intuition discriminate).
  assert (Hnd_session : NoDup (attributes session))
    by (repeat constructor; cbn; intuition discriminate).
  assert (Hplain_rex : forall a, In a (attributes rex) -> plain_name demo a = true)
    by (intros a [<-|[<-|[]]]; reflexivity).
  assert (Hplain_session : forall a, In a (attributes session) -> plain_name demo a = true)
    by (intros a [<-|[<-|[<-|[]]]]; reflexivity).
  assert (Hnames_rex : forall a, In a (attributes rex) -> startsWith "_" a = false ->
                                 snakeToCamel demo (snakeCase demo a) = a)
    by (intros a [<-|[<-|[]]]; reflexivity).
  assert (Hnames_session : forall a, In a (attributes session) ->
                                     startsWith "_" a = false ->
                                     snakeToCamel demo (snakeCase demo a) = a)
    by (intros a [<-|[<-|[<-|[]]]]; try reflexivity; discriminate).
  destruct (parse_toBackend_round_trip demo (methods demo 3) rex new_animal
              eq_refl eq_refl eq_refl Hnd_rex eq_refl Hplain_rex Hnames_rex)
    as (Hparse & _ & _ & _ & Hall).
  destruct (parse_toBackend_round_trip demo (methods demo 3) session new_session
              eq_refl eq_refl eq_refl Hnd_session eq_refl Hplain_session Hnames_session)
    as (Hparse' & Hemitted & _).
  split; [|split].
  - rewrite Hparse. apply Hall. intros a [<-|[<-|[]]]; discriminate.
  - rewrite Hparse'. reflexivity.
  - rewrite Hparse'. apply (Hemitted "user"); [right; left; reflexivity | reflexivity].
Defined.

(** C9 fails as it stands.  [session] has no casts and no relations and
    holds primitive values; its record leaves out [_token], so parsing the
    record into a new session does not reproduce the value of [_token]. *)
Lemma parse_toBackend_drops_underscore :
  casts_of session = []
  /\ m_activeCurrentRelations (mdata session) = []
  /\ (forall a, In a (attributes session) -> is_primitive (field session a) = true)
  /\ toBackend demo session = [("id", VNull); ("user", VStr "jo")]
  /\ snd (Model_parse demo (methods demo 3) new_session (VObj (toBackend demo session)))
     = None
  /\ field session "_token" = VStr "abc"
  /\ field (fst (Model_parse demo (methods demo 3) new_session
                   (VObj (toBackend demo session)))) "_token" = VStr "".
Proof.
  repeat split; try reflexivity.
  intros a [<-|[<-|[<-|[]]]]; reflexivity.
Qed.


(** ** Membership: [add] *)

Lemma Store_get_None (E : Env) s id :
  Store_get E s id = None <->
  forall member, In member (models s) -> loose_eq E (id_of member) id = false.
Proof.
  unfold Store_get. split.
  - intros H member Hin. exact (List.find_none _ _ H member Hin).
  - apply find_all_false.
Qed.

Lemma Store_get_Some (E : Env) s id member :
  Store_get E s id = Some member ->
  In member (models s) /\ loose_eq E (id_of member) id = true.
Proof. unfold Store_get. apply find_some. Qed.

Lemma models_set_models ms s : models (set_models ms s) = ms.
Proof. destruct s. reflexivity. Qed.

Lemma sdata_set_models ms s : sdata (set_models ms s) = sdata s.
Proof. destruct s. reflexivity. Qed.

Lemma set_models_twice ms ms' s : set_models ms (set_models ms' s) = set_models ms s.
Proof. destruct s. reflexivity. Qed.

Lemma set_models_same s : set_models (models s) s = s.
Proof. destruct s. reflexivity. Qed.

Lemma primaryValue_set_models (E : Env) ms s mi :
  primaryValue E (set_models ms s) mi = primaryValue E s mi.
Proof. destruct s. reflexivity. Qed.

(** What the loop of [add] leaves: the instances before the first one whose
    defined primary key is that of a member (or of an instance added before
    it) have been appended, and that instance is what the exception is
    about. *)
Lemma add_each_spec (E : Env) : forall (modelInstances : list Model) (s : Store),
  exists k : nat,
    fst (add_each E modelInstances s)
    = set_models (models s ++ firstn k modelInstances) s
    /\ (forall j mj, (j < k)%nat -> nth_error modelInstances j = Some mj ->
          truthy (primaryValue E s mj) = true ->
          forall member, In member (models s ++ firstn j modelInstances) ->
                         loose_eq E (id_of member) (primaryValue E s mj) = false)
    /\ match snd (add_each E modelInstances s) with
       | None => k = List.length modelInstances
       | Some e =>
           exists mi,
             nth_error modelInstances k = Some mi
             /\ e = DuplicatePrimaryKey (primaryValue E s mi)
             /\ truthy (primaryValue E s mi) = true
             /\ exists member,
                  In member (models s ++ firstn k modelInstances)
                  /\ loose_eq E (id_of member) (primaryValue E s mi) = true
       end.
Proof.
  induction modelInstances as [|mi rest IH]; intros s; cbn [add_each].
  - exists O. cbn [fst snd firstn List.length]. rewrite app_nil_r, set_models_same.
    split; [reflexivity|]. split; [|reflexivity]. intros j mj Hj. lia.
  - fold (primaryValue E s mi).
    destruct (truthy (primaryValue E s mi)) eqn:Et; cbn [andb].
    + destruct (Store_get E s (primaryValue E s mi)) as [member|] eqn:Eg.
      * exists O. cbn [fst snd firstn nth_error]. rewrite app_nil_r, set_models_same.
        split; [reflexivity|]. split; [intros j mj Hj; lia|].
        exists mi. split; [reflexivity|]. split; [reflexivity|]. split; [exact Et|].
        exists member. apply Store_get_Some in Eg. exact Eg.
      * destruct (IH (set_models (models s ++ [mi]) s)) as (k & Hfst & Hmin & Hsnd).
        exists (S k). cbn [firstn nth_error].
        rewrite Hfst, models_set_models, set_models_twice, <- app_assoc.
        split; [reflexivity|]. split.
        -- intros [|j] mj Hj Hnth Htr member Hin; cbn [nth_error firstn] in *.
           ++ injection Hnth as <-. rewrite app_nil_r in Hin.
              exact (proj1 (Store_get_None E s _) Eg member Hin).
           ++ rewrite <- (primaryValue_set_models E (models s ++ [mi])%list s mj).
              apply (Hmin j mj ltac:(lia) Hnth).
              ** rewrite primaryValue_set_models. exact Htr.
              ** rewrite models_set_models, <- app_assoc. exact Hin.
        -- destruct (snd (add_each E rest (set_models (models s ++ [mi]) s))) as [e|].
           ++ destruct Hsnd as (mk & Hnth & He & Htr & member & Hin & Heq).
              rewrite models_set_models, <- app_assoc in Hin.
              rewrite primaryValue_set_models in *.
              exists mk. repeat split; try assumption. exists member. split; assumption.
           ++ cbn [List.length]. lia.
    + destruct (IH (set_models (models s ++ [mi]) s)) as (k & Hfst & Hmin & Hsnd).
      exists (S k). cbn [firstn nth_error].
      rewrite Hfst, models_set_models, set_models_twice, <- app_assoc.
      split; [reflexivity|]. split.
      * intros [|j] mj Hj Hnth Htr member Hin; cbn [nth_error firstn] in *.
        -- injection Hnth as <-. congruence.
        -- rewrite <- (primaryValue_set_models E (models s ++ [mi])%list s mj).
           apply (Hmin j mj ltac:(lia) Hnth).
           ++ rewrite primaryValue_set_models. exact Htr.
           ++ rewrite models_set_models, <- app_assoc. exact Hin.
      * destruct (snd (add_each E rest (set_models (models s ++ [mi]) s))) as [e|].
        -- destruct Hsnd as (mk & Hnth & He & Htr & member & Hin & Heq).
           rewrite models_set_models, <- app_assoc in Hin.
           rewrite primaryValue_set_models in *.
           exists mk. repeat split; try assumption. exists member. split; assumption.
        -- cbn [List.length]. lia.
Qed.

(** C5, as the code has it.  When the entities made from the input include
    one whose defined primary key equals that of a member, [add] throws the
    duplicate-key error.  The collection then holds its previous members
    followed by the entities that precede the first conflicting one, which
    is the entity the error is about; neither it nor a later one is added,
    and nothing else of the collection changes.  For an input that is one
    record, not a list, the collection is unchanged. *)
Theorem add_conflict_keeps_earlier :
  forall (E : Env) (rec : Methods) (s : Store) (input : value)
         (modelInstances : list Model),
  map_result (newModel E rec s) (match input with VArr xs => xs | _ => [input] end)
  = Ok modelInstances ->
  (exists mi member,
     In mi modelInstances /\ In member (models s)
     /\ truthy (primaryValue E s mi) = true
     /\ loose_eq E (id_of member) (primaryValue E s mi) = true) ->
  exists (k : nat) (mk : Model),
    nth_error modelInstances k = Some mk
    /\ Store_add E rec s input
       = (set_models (models s ++ firstn k modelInstances) s,
          Throw (DuplicatePrimaryKey (primaryValue E s mk)))
    /\ truthy (primaryValue E s mk) = true
    /\ (exists member, In member (models s ++ firstn k modelInstances)
                       /\ loose_eq E (id_of member) (primaryValue E s mk) = true)
    /\ (forall j mj, (j < k)%nat -> nth_error modelInstances j = Some mj ->
          truthy (primaryValue E s mj) = true ->
          forall member, In member (models s ++ firstn j modelInstances) ->
                         loose_eq E (id_of member) (primaryValue E s mj) = false)
    /\ (isArray input = false -> Store_add E rec s input
                                 = (s, Throw (DuplicatePrimaryKey (primaryValue E s mk)))).
Proof.
  intros E rec s input modelInstances Hnew (mi & member & Hmi & Hmem & Htr & Heq).
  destruct (add_each_spec E modelInstances s) as (k & Hfst & Hmin & Hsnd).
  destruct (snd (add_each E modelInstances s)) as [e|] eqn:Esnd.
  - destruct Hsnd as (mk & Hnth & He & Htk & Hex).
    assert (Hadd : Store_add E rec s input
                   = (set_models (models s ++ firstn k modelInstances) s,
                      Throw (DuplicatePrimaryKey (primaryValue E s mk)))).
    { unfold Store_add. rewrite Hnew.
      destruct (add_each E modelInstances s) as [s' o]. cbn [fst snd] in *.
      subst. reflexivity. }
    exists k, mk. repeat split; try assumption.
    intros Hsingle. rewrite Hadd.
    assert (Hone : exists x, modelInstances = [x]).
    { destruct input; try discriminate Hsingle; cbn [map_result bind] in Hnew;
        match type of Hnew with
        | context [newModel E rec s ?v] =>
            destruct (newModel E rec s v) as [x|]; [|discriminate]
        end; injection Hnew as <-; eexists; reflexivity. }
    destruct Hone as [x ->].
    destruct k as [|k]; [|destruct k; discriminate Hnth].
    cbn [firstn]. rewrite app_nil_r, set_models_same. reflexivity.
  - (* no exception: then no instance conflicts with a member *)
    exfalso. subst k.
    destruct (In_nth_error _ _ Hmi) as [j Hj].
    assert (Hlt : (j < List.length modelInstances)%nat)
      by (apply nth_error_Some; congruence).
    pose proof (Hmin j mi Hlt Hj Htr member ltac:(apply in_or_app; left; exact Hmem)).
    congruence.
Qed.

(** C5 on the application: adding the animals 3 and 1 to [zoo], which holds
    1 and 2. *)
Lemma add_conflict_keeps_earlier_witness :
  exists (k : nat) (mk : Model),
    nth_error zoo_instances k = Some mk
    /\ Store_add demo (methods demo 3) zoo (VArr zoo_input)
       = (set_models (models zoo ++ firstn k zoo_instances) zoo,
          Throw (DuplicatePrimaryKey (primaryValue demo zoo mk)))
    /\ k = 1%nat.
Proof.
  destruct (add_conflict_keeps_earlier demo (methods demo 3) zoo (VArr zoo_input)
              zoo_instances eq_refl) as (k & mk & Hnth & Hadd & _).
  - exists (nth 1 zoo_instances blank_Model), (nth 0 (models zoo) blank_Model).
    repeat split; [right; left; reflexivity | left; reflexivity].
  - exists k, mk. split; [exact Hnth|]. split; [exact Hadd|].
    destruct k as [|[|k]]; [discriminate Hadd | reflexivity |].
    destruct k; discriminate Hnth.
Defined.

(** C5 as stated fails for a list: adding the records 3 and 1 to a
    collection that holds 1 and 2 throws the duplicate-key error for 1,
    and the collection has changed: 3 has been added. *)
Lemma add_conflict_changes_collection :
  let r := Store_add demo (methods demo 3) zoo (VArr zoo_input) in
  snd r = Throw (DuplicatePrimaryKey (VNum 1))
  /\ map id_of (models zoo) = [VNum 1; VNum 2]
  /\ map id_of (models (fst r)) = [VNum 1; VNum 2; VNum 3]
  /\ models (fst r) <> models zoo.
Proof.
  cbv zeta. split; [reflexivity|]. split; [reflexivity|]. split; [reflexivity|].
  intros H. apply (f_equal (@List.length Model)) in H. discriminate H.
Qed.

(** ** Repository resolution: [fromBackend] *)

Lemma assoc_set_same {A : Type} (l : list (string * A)) k a :
  assoc (assoc_set l k a) k = Some a.
Proof.
  induction l as [|[k' a'] l IH]; cbn [assoc_set assoc].
  - rewrite String.eqb_refl. reflexivity.
  - destruct (String.eqb k k') eqn:Ek; cbn [assoc]; rewrite Ek; [reflexivity | exact IH].
Qed.

Lemma rel_field_set_rel k r m : rel_field (set_rel k r m) k = Some r.
Proof. destruct m as [d rels]. apply assoc_set_same. Qed.

Lemma mdata_set_rel k r m : mdata (set_rel k r m) = mdata m.
Proof. destruct m as [d rels]. reflexivity. Qed.

Lemma attributes_set_rel k r m : attributes (set_rel k r m) = attributes m.
Proof. destruct m as [d rels]. reflexivity. Qed.

Lemma attributes_set_repository v m :
  attributes (with_mdata (set_repository v) m) = attributes m.
Proof. destruct m as [d rels]. reflexivity. Qed.

Lemma field_set_field_same a v m : field (set_field a v m) a = v.
Proof. destruct m as [d rels]. apply prop_set_same. Qed.

(** [find] returns the one element that satisfies the predicate. *)
Lemma find_unique {A : Type} (p : A -> bool) (l : list A) (x : A) :
  In x l -> p x = true -> (forall y, In y l -> p y = true -> y = x) ->
  List.find p l = Some x.
Proof.
  intros Hin Hp Huniq. induction l as [|y l IH]; [destruct Hin|].
  cbn [List.find]. destruct (p y) eqn:Ey.
  - f_equal. apply Huniq; [left; reflexivity | exact Ey].
  - destruct Hin as [->|Hin]; [congruence|].
    apply IH; [exact Hin|]. intros z Hz. apply Huniq. right. exact Hz.
Qed.

(** The record of the kind "Dog". *)
Lemma parse_dog (E : Env) (rec : Methods) (kind : Model) :
  snakeToCamel E "id" = "id" -> snakeToCamel E "name" = "name" ->
  includes (attributes kind) "name" = true ->
  assoc (casts_of kind) "name" = None ->
  includes (m_activeCurrentRelations (mdata kind)) "id" = false ->
  exists kind',
    Model_parse E rec kind (VObj [("id", VNum 7); ("name", VStr "Dog")]) = (kind', None)
    /\ field kind' "name" = VStr "Dog"
    /\ m_repository (mdata kind') = m_repository (mdata kind).
Proof.
  intros Hid Hname Hattr Hcast Hrel.
  unfold Model_parse. cbn [forIn].
  assert (Hstep : exists k1,
             parse_property E rec "id" (VNum 7) kind = (k1, None)
             /\ attributes k1 = attributes kind /\ casts_of k1 = casts_of kind
             /\ m_repository (mdata k1) = m_repository (mdata kind)).
  { unfold parse_property. rewrite Hid.
    destruct (includes (attributes kind) "id") eqn:Ei.
    - eexists. split; [reflexivity|]. split; [|split].
      + apply attributes_set_field. apply includes_In. exact Ei.
      + apply casts_of_set_field.
      + destruct kind as [d rels]. reflexivity.
    - rewrite Hrel. eexists. repeat split. }
  destruct Hstep as (k1 & -> & Ha1 & Hc1 & Hr1).
  unfold parse_property. rewrite Hname, Ha1, Hattr.
  unfold parseAttr. rewrite Hc1, Hcast.
  eexists. split; [reflexivity|]. split.
  - apply field_set_field_same.
  - rewrite <- Hr1. destruct k1 as [d rels]. reflexivity.
Qed.



(** ** The graph flattener: [toBackendAll] *)

Lemma on_field_assoc {A B : Type} (f : A -> B) k (l : list (string * A)) :
  on_field f k l = option_map f (assoc l k).
Proof.
  induction l as [|[k' a] l IH]; cbn [on_field assoc option_map]; [reflexivity|].
  destruct (String.eqb k k'); [reflexivity | exact IH].
Qed.

(** An entity without active relations that is given an identifier. *)
Lemma toBackendAll_leaf (E : Env) (m : Model) (newId : value) (c : Z) :
  truthy newId = true -> m_activeCurrentRelations (mdata m) = [] ->
  Model_toBackendAll E m newId c
  = (Ok {| ba_data := [VObj (obj_set (toBackend E m) (pk m) newId)];
           ba_relations := [] |}, c).
Proof.
  intros Ht Hrel. destruct m as [d rels]. cbn [mdata] in Hrel.
  cbn [Model_toBackendAll]. rewrite Ht, Hrel. reflexivity.
Qed.

Lemma fill_ids_three_null (c : Z) : 0 <= c ->
  fill_ids [VNull; VNull; VNull] c
  = ([VNum (- (c + 1)); VNum (- (c + 2)); VNum (- (c + 3))], c + 3).
Proof.
  intros Hc. cbn [fill_ids is_null].
  rewrite (generateNegativeId_eq c) by lia.
  rewrite (generateNegativeId_eq (c + 1)) by lia.
  rewrite (generateNegativeId_eq (c + 1 + 1)) by lia.
  replace (c + 1 + 1) with (c + 2) by lia.
  replace (c + 2 + 1) with (c + 3) by lia.
  reflexivity.
Qed.

(** The relations of [toBackend] do not touch the other properties. *)
Lemma toBackend_relations_other (E : Env) (e : Model) (k : string) (l : list string) :
  forall output,
  (forall rel, In rel l -> snakeCase E rel <> k) ->
  prop (fold_left
          (fun output currentRel =>
             let relBackendName := snakeCase E currentRel in
             match rel_field e currentRel with
             | Some (RModel rel) => obj_set output relBackendName (id_of rel)
             | Some (RStore rel) =>
                 obj_set output relBackendName (VArr (mapByPrimaryKey E rel))
             | None => output
             end) l output) k
  = prop output k.
Proof.
  induction l as [|rel l IH]; intros output Hne; cbn [fold_left]; [reflexivity|].
  rewrite IH by (intros rel' Hrel'; apply Hne; right; exact Hrel').
  cbv zeta. destruct (rel_field e rel) as [[c|s]|]; try reflexivity;
    apply prop_set_other, Hne; left; reflexivity.
Qed.

(** The attribute under a backend name that only it has. *)
Lemma toBackend_attributes_own (E : Env) (e : Model) (a0 : string) (l : list string) :
  forall output,
  (forall a, In a l -> startsWith "_" a = false -> snakeCase E a = snakeCase E a0 -> a = a0) ->
  startsWith "_" a0 = false ->
  prop (fold_left
          (fun output attr =>
             if startsWith "_" attr then output
             else obj_set output (snakeCase E attr) (toJSAttr e attr (field e attr)))
          l output) (snakeCase E a0)
  = if includes l a0 then toJSAttr e a0 (field e a0) else prop output (snakeCase E a0).
Proof.
  intros output Huniq Hu. revert output.
  induction l as [|a l IH]; intros output; cbn [fold_left]; [reflexivity|].
  rewrite IH by (intros b Hb; apply Huniq; right; exact Hb).
  unfold includes. cbn [existsb]. fold (includes l a0).
  destruct (includes l a0); [rewrite orb_true_r; reflexivity|]. rewrite orb_false_r.
  destruct (String.eqb a0 a) eqn:Ea.
  - apply String.eqb_eq in Ea. subst a. rewrite Hu. apply prop_set_same.
  - destruct (startsWith "_" a) eqn:Eu; [reflexivity|].
    apply prop_set_other. intros Heq.
    rewrite (Huniq a (or_introl eq_refl) Eu Heq) in Ea.
    rewrite String.eqb_refl in Ea. discriminate.
Qed.

(** The record holds the primary key as the entity has it. *)
Lemma toBackend_own_key (E : Env) (e : Model) :
  own_key_emitted E e -> prop (toBackend E e) (pk e) = field e (pk e).
Proof.
  intros (Hattr & Hu & Hcast & Hsnake & Huniq & Hrels).
  unfold toBackend. rewrite toBackend_relations_other by exact Hrels.
  rewrite <- Hsnake at 1.
  rewrite toBackend_attributes_own;
    [|intros a Ha Hua Heq; apply Huniq; [exact Ha | exact Hua | congruence] | exact Hu].
  fold (attributes e). rewrite Hattr. unfold toJSAttr. rewrite Hcast. reflexivity.
Qed.

(** ** The grouping of relation paths *)

Lemma assoc_map_key {A : Type} (f : string -> A) (l : list string) (k : string) :
  assoc (map (fun s => (s, f s)) l) k = if includes l k then Some (f k) else None.
Proof.
  induction l as [|s l IH]; cbn [map assoc includes existsb]; [reflexivity|].
  destruct (String.eqb k s) eqn:Ek; cbn [orb].
  - apply String.eqb_eq in Ek. subst. reflexivity.
  - exact IH.
Qed.

Lemma assoc_set_map_fresh {A : Type} (f : string -> A) (l : list string) k a :
  includes l k = false ->
  assoc_set (map (fun s => (s, f s)) l) k a
  = (map (fun s => (s, f s)) l ++ [(k, a)])%list.
Proof.
  induction l as [|s l IH]; cbn [map assoc_set includes existsb app]; [reflexivity|].
  destruct (String.eqb k s); cbn [orb]; [discriminate|].
  intros H. rewrite <- app_comm_cons. f_equal. apply IH. exact H.
Qed.

Lemma assoc_set_map_present {A : Type} (f g : string -> A) (l : list string) k a :
  NoDup l -> (forall s, s <> k -> In s l -> f s = g s) -> a = g k ->
  includes l k = true ->
  assoc_set (map (fun s => (s, f s)) l) k a = map (fun s => (s, g s)) l.
Proof.
  intros Hnd Hfg ->. induction l as [|s l IH]; cbn [map assoc_set includes existsb];
    [discriminate|].
  inversion Hnd as [|? ? Hni Hnd']; subst.
  destruct (String.eqb k s) eqn:Ek; cbn [orb].
  - intros _. apply String.eqb_eq in Ek. subst s. f_equal.
    apply map_ext_in. intros s Hs. f_equal. apply Hfg; [|right; exact Hs].
    intros ->. contradiction.
  - intros Hin. f_equal.
    + f_equal. apply Hfg; [|left; reflexivity].
      intros ->. rewrite String.eqb_refl in Ek. discriminate.
    + apply IH; [exact Hnd' | | exact Hin].
      intros s' Hne Hs'. apply Hfg; [exact Hne | right; exact Hs'].
Qed.

Lemma segments_snoc done p :
  segments (done ++ [p])
  = if includes (segments done) (first_segment p) then segments done
    else (segments done ++ [first_segment p])%list.
Proof. unfold segments. rewrite fold_left_app. reflexivity. Qed.

Lemma nested_under_snoc seg done p :
  nested_under seg (done ++ [p])
  = (nested_under seg done
     ++ if String.eqb (first_segment p) seg
        then match continuation p with Some c => [c] | None => [] end
        else [])%list.
Proof. unfold nested_under. rewrite flat_map_app. cbn [flat_map]. rewrite app_nil_r. reflexivity. Qed.

Lemma segments_NoDup done : NoDup (segments done).
Proof.
  induction done as [|p done IH] using rev_ind; [constructor|].
  rewrite segments_snoc.
  destruct (includes (segments done) (first_segment p)) eqn:Ei; [exact IH|].
  apply NoDup_app; [exact IH | repeat constructor; intros [] |].
  intros s Hs [<-|[]]. apply includes_In in Hs. congruence.
Qed.

(** A segment that has a nested path is one of the segments. *)
Lemma nested_under_segments seg done :
  includes (segments done) seg = false -> nested_under seg done = [].
Proof.
  induction done as [|p done IH] using rev_ind; [reflexivity|].
  rewrite segments_snoc, nested_under_snoc.
  destruct (includes (segments done) (first_segment p)) eqn:Ei; intros Hs.
  - rewrite (IH Hs). destruct (String.eqb (first_segment p) seg) eqn:Ep; [|reflexivity].
    apply String.eqb_eq in Ep. congruence.
  - assert (Hs' : includes (segments done) seg = false).
    { destruct (includes (segments done) seg) eqn:E; [|reflexivity].
      apply includes_In in E.
      assert (In seg (segments done ++ [first_segment p])) by (apply in_or_app; tauto).
      apply includes_In in H. congruence. }
    rewrite (IH Hs'). destruct (String.eqb (first_segment p) seg) eqn:Ep; [|reflexivity].
    apply String.eqb_eq in Ep.
    assert (In seg (segments done ++ [first_segment p]))
      by (apply in_or_app; right; left; exact Ep).
    apply includes_In in H. congruence.
Qed.

Lemma nested_value_snoc l c :
  nested_value (l ++ [c])
  = Some (match nested_value l with Some arr => arr | None => [] end ++ [Some c])%list.
Proof.
  destruct l as [|x l]; [reflexivity|].
  cbn [nested_value]. rewrite <- map_app with (l' := [c]).
  reflexivity.
Qed.

(** One turn of the loop for a path whose first segment is not a name
    that every object inherits. *)
Lemma parseRelation_own p relModels cur :
  includes Object_prototype (first_segment p) = false ->
  parseRelation (Some p) (relModels, cur)
  = Ok (assoc_set relModels (first_segment p)
          match assoc relModels (first_segment p) with
          | Some (Some arr) =>
              Some (arr ++ match continuation p with
                           | Some o => [Some o]
                           | None => [None]
                           end)%list
          | _ => match continuation p with
                 | Some o => Some [Some o]
                 | None => None
                 end
          end,
        if includes cur (first_segment p) then cur
        else (cur ++ [first_segment p])%list).
Proof.
  unfold parseRelation, first_segment, continuation.
  destruct (regex_match p) as [[r1 r2]|]; intros Hown;
    destruct (assoc relModels _) as [[arr|]|]; try rewrite Hown; reflexivity.
Qed.

(** What a turn that returned has done. *)
Lemma parseRelation_inv aRel relModels cur st' :
  parseRelation aRel (relModels, cur) = Ok st' ->
  exists p, aRel = Some p
    /\ (assoc relModels (first_segment p) = None ->
        includes Object_prototype (first_segment p) = false)
    /\ st' = (assoc_set relModels (first_segment p)
                match assoc relModels (first_segment p) with
                | Some (Some arr) =>
                    Some (arr ++ match continuation p with
                                 | Some o => [Some o]
                                 | None => [None]
                                 end)%list
                | _ => match continuation p with
                       | Some o => Some [Some o]
                       | None => None
                       end
                end,
              if includes cur (first_segment p) then cur
              else (cur ++ [first_segment p])%list).
Proof.
  destruct aRel as [p|]; [|discriminate]. intros H. exists p. split; [reflexivity|].
  unfold parseRelation, first_segment, continuation in *.
  destruct (regex_match p) as [[r1 r2]|];
    destruct (assoc relModels _) as [[arr|]|];
    try (injection H as <-; split; [discriminate | reflexivity]);
    destruct (includes Object_prototype _); try discriminate H;
    injection H as <-; split; reflexivity.
Qed.

(** One turn of the loop on the groups made so far. *)
Lemma parseRelation_grouped done p :
  includes Object_prototype (first_segment p) = false ->
  match continuation p, nested_under (first_segment p) done with
  | None, _ :: _ => False
  | _, _ => True
  end ->
  parseRelation (Some p) (grouped done, segments done)
  = Ok (grouped (done ++ [p]), segments (done ++ [p])).
Proof.
  intros Hown Hok. rewrite (parseRelation_own p _ _ Hown).
  set (seg := first_segment p) in *.
  unfold grouped at 1 2. rewrite assoc_map_key, segments_snoc. fold seg.
  set (g := fun s => nested_value (nested_under s (done ++ [p]))).
  assert (Hother : forall s, s <> seg ->
            nested_value (nested_under s done) = g s).
  { intros s Hne. subst g. cbv beta. rewrite nested_under_snoc. fold seg.
    replace (String.eqb seg s) with false
      by (symmetry; apply String.eqb_neq; congruence).
    rewrite app_nil_r. reflexivity. }
  assert (Hseg : nested_under seg (done ++ [p])
                 = (nested_under seg done
                    ++ match continuation p with Some c => [c] | None => [] end)%list).
  { rewrite nested_under_snoc. fold seg. rewrite String.eqb_refl. reflexivity. }
  destruct (includes (segments done) seg) eqn:Ei.
  - (* the segment has a group already *)
    f_equal. f_equal. unfold grouped. rewrite segments_snoc. fold seg. rewrite Ei.
    fold g.
    apply assoc_set_map_present; [apply segments_NoDup | | | exact Ei].
    + intros s Hne _. apply Hother. exact Hne.
    + subst g. cbv beta. rewrite Hseg.
      destruct (continuation p) as [c|].
      * rewrite nested_value_snoc. destruct (nested_value (nested_under seg done));
          reflexivity.
      * rewrite app_nil_r. destruct (nested_under seg done); [reflexivity | contradiction].
  - (* a new segment *)
    f_equal. f_equal. unfold grouped. rewrite segments_snoc. fold seg. rewrite Ei.
    rewrite assoc_set_map_fresh by exact Ei.
    rewrite map_app. cbn [map]. fold g. f_equal.
    + apply map_ext_in. intros s Hs. f_equal. apply Hother.
      intros ->. apply includes_In in Hs. congruence.
    + f_equal. f_equal. subst g. cbv beta. rewrite Hseg.
      rewrite (nested_under_segments seg done Ei). cbn [app].
      destruct (continuation p); reflexivity.
Qed.

Lemma parseRelations_loop_grouped : forall ps done,
  own_names ps ->
  bare_first done ps = true ->
  parseRelations_loop (map Some ps) (grouped done, segments done)
  = Ok (grouped (done ++ ps), segments (done ++ ps)).
Proof.
  induction ps as [|p ps IH]; intros done Hown Hok; cbn [map parseRelations_loop].
  - rewrite app_nil_r. reflexivity.
  - cbn [bare_first] in Hok.
    rewrite parseRelation_grouped.
    + cbn [bind]. rewrite IH.
      * rewrite <- app_assoc. reflexivity.
      * intros q Hq. apply Hown. right. exact Hq.
      * destruct (continuation p); [exact Hok|].
        destruct (nested_under (first_segment p) done); [exact Hok | discriminate].
    + apply Hown. left. reflexivity.
    + destruct (continuation p); [exact I|].
      destruct (nested_under (first_segment p) done); [exact I | discriminate].
Qed.

(** On every list of paths in which no bare path follows a dotted path with
    the same first segment, and no first segment is a name that every
    object inherits ([constructor], [toString], ...), [__parseRelations]
    makes the groups the specification describes: one per first segment,
    in order of first occurrence, with all the nested paths of the
    segment. *)
Lemma parseRelations_groups (ps : list string) :
  own_names ps ->
  bare_first [] ps = true ->
  parseRelations_loop (map Some ps) ([], []) = Ok (grouped ps, segments ps).
Proof. intros Hown H. exact (parseRelations_loop_grouped ps [] Hown H). Qed.

(** ** Request accounting on the success path *)

Lemma pending_set_field a v m : pending (set_field a v m) = pending m.
Proof. destruct m as [d rels]. reflexivity. Qed.

Lemma pending_set_rel k r m : pending (set_rel k r m) = pending m.
Proof. destruct m as [d rels]. reflexivity. Qed.

(** [parse] and [fromBackend] leave the entity's own counter alone. *)
Lemma parse_property_pending (E : Env) rec key v m :
  pending (fst (parse_property E rec key v m)) = pending m.
Proof.
  unfold parse_property.
  destruct (includes (attributes m) (snakeToCamel E key)); cbn [fst];
    [apply pending_set_field|].
  destruct (includes (m_activeCurrentRelations (mdata m)) (snakeToCamel E key));
    [|reflexivity].
  destruct (rel_field m (snakeToCamel E key)) as [r|]; [|reflexivity].
  destruct (if is_nested_data v then Rel_parse E rec r v
            else Rel_addFromRepository E rec r v) as [r' err].
  cbn [fst]. apply pending_set_rel.
Qed.

Lemma forIn_pending (E : Env) rec (o : obj) : forall m,
  pending (fst (forIn (parse_property E rec) o m)) = pending m.
Proof.
  induction o as [|[key v] o IH]; intros m; cbn [forIn]; [reflexivity|].
  pose proof (parse_property_pending E rec key v m) as H.
  destruct (parse_property E rec key v m) as [m' [e|]]; cbn [fst] in *; [exact H|].
  rewrite IH. exact H.
Qed.

Lemma Model_parse_pending (E : Env) rec m data :
  pending (fst (Model_parse E rec m data)) = pending m.
Proof. unfold Model_parse. destruct data; try reflexivity. apply forIn_pending. Qed.

Lemma assign_repository_pending path repository m r :
  assign_repository path repository m = Some r -> pending (fst r) = pending m.
Proof.
  destruct path as [|seg rest]; cbn [assign_repository]; [discriminate|].
  destruct (rel_field m seg) as [rel|].
  - destruct rest as [|seg' rest'].
    + intros [= <-]. apply pending_set_rel.
    + destruct rel as [c|s]; [|discriminate].
      destruct (assign_repository (seg' :: rest') repository c) as [[c' err]|];
        [|discriminate].
      intros [= <-]. apply pending_set_rel.
  - destruct (includes (attributes m) seg); [|discriminate].
    destruct (value_get rest (field m seg)); try discriminate;
      intros [= <-]; try reflexivity.
    apply pending_set_field.
Qed.

Lemma update_rel_pending path f m : pending (update_rel path f m) = pending m.
Proof.
  destruct path as [|seg rest]; cbn [update_rel]; [reflexivity|].
  destruct (rel_field m seg) as [rel|]; [|reflexivity].
  destruct rest; [apply pending_set_rel|].
  destruct rel; [apply pending_set_rel | reflexivity].
Qed.

Lemma propagate_repositories_pending (E : Env) repos relMapping : forall m,
  pending (fst (propagate_repositories E repos relMapping m)) = pending m.
Proof.
  induction relMapping as [|[relName repoName] rest IH]; intros m;
    cbn [propagate_repositories]; [reflexivity|].
  assert (H : pending (fst (propagate_repository E repos relName repoName m)) = pending m).
  { unfold propagate_repository.
    destruct (leaves_model E _ m); [reflexivity|].
    destruct (assign_repository _ _ m) as [r|] eqn:Ea.
    - apply (assign_repository_pending _ _ _ _ Ea).
    - destruct (find_first_store E relName m) as [[path nestedRel]|]; cbn [fst];
        [|reflexivity].
      destruct (leaves_model E path m); [reflexivity | apply update_rel_pending]. }
  destruct (propagate_repository E repos relName repoName m) as [m' [e|]];
    cbn [fst] in *; [exact H|].
  rewrite IH. exact H.
Qed.

Lemma Model_fromBackend_pending (E : Env) rec m res :
  pending (fst (Model_fromBackend E rec m res)) = pending m.
Proof.
  unfold Model_fromBackend, fromBackend_with.
  pose proof (propagate_repositories_pending E (p_repos res) (p_relMapping res) m) as H.
  destruct (propagate_repositories E (p_repos res) (p_relMapping res) m) as [m' [e|]];
    cbn [fst] in *; [exact H|].
  destruct (truthy (p_data res)); [|exact H].
  rewrite Model_parse_pending. exact H.
Qed.

(** A fulfilled save: when the response is parsed without an exception the
    counter is back where it was before the call; when parsing it throws,
    both handlers run and the counter has been decremented twice. *)
Lemma save_fulfilled (E : Env) rec m params res :
  let m1 := fst (save_begin E m params) in
  let r := save_settle E rec m1 (Fulfilled res) in
  match snd (Model_fromBackend E rec (add_pending (-1) m1) res) with
  | None => pending (fst r) = pending m /\ snd r = Fulfilled tt
  | Some e => pending (fst r) = pending m - 1 /\ snd r = Rejected (Thrown e)
  end.
Proof.
  intros m1 r. subst r. unfold save_settle, then_, catch_.
  pose proof (Model_fromBackend_pending E rec (add_pending (-1) m1) res) as Hp.
  rewrite pending_add_pending in Hp.
  assert (Hm1 : pending m1 = pending m + 1) by apply save_begin_pending.
  destruct (Model_fromBackend E rec (add_pending (-1) m1) res) as [m' [e|]];
    cbn [fst snd valErrors truthy is_nullish] in *.
  - rewrite pending_add_pending. split; [lia | reflexivity].
  - split; [lia | reflexivity].
Qed.

(** A fulfilled fetch whose response is parsed without an exception. *)
Lemma fetch_fulfilled (E : Env) rec m data req res :
  snd (fetch_begin m data) = Ok req ->
  let m1 := fst (fetch_begin m data) in
  let r := fetch_settle E rec m1 (Fulfilled res) in
  match snd (Model_fromBackend E rec m1 res) with
  | None => pending (fst r) = pending m /\ snd r = Fulfilled tt
  | Some e => pending (fst r) = pending m + 1 /\ snd r = Rejected (Thrown e)
  end.
Proof.
  intros Hreq m1 r. subst r. unfold fetch_settle, then_.
  pose proof (Model_fromBackend_pending E rec m1 res) as Hp.
  assert (Hm1 : pending m1 = pending m + 1) by (apply (fetch_begin_pending m data req Hreq)).
  destruct (Model_fromBackend E rec m1 res) as [m' [e|]]; cbn [fst snd] in *.
  - split; [lia | reflexivity].
  - rewrite pending_add_pending. split; [lia | reflexivity].
Qed.

(** ** The life of a collection: what every method keeps *)

Lemma add_each_sdata (E : Env) modelInstances s :
  sdata (fst (add_each E modelInstances s)) = sdata s.
Proof.
  destruct (add_each_spec E modelInstances s) as (k & Hfst & _).
  rewrite Hfst. apply sdata_set_models.
Qed.

Lemma Store_parse_sdata (E : Env) rec s data :
  sdata (fst (Store_parse E rec s data)) = sdata s.
Proof.
  unfold Store_parse. destruct data; try reflexivity.
  destruct (map_result _ _); cbn [fst]; [apply sdata_set_models | reflexivity].
Qed.

Lemma Store_addFromRepository_sdata (E : Env) rec s ids :
  sdata (fst (Store_addFromRepository E rec s ids)) = sdata s.
Proof.
  unfold Store_addFromRepository.
  destruct (bind _ _); cbn [fst]; [apply sdata_set_models | reflexivity].
Qed.

Lemma Store_fromBackend_sdata (E : Env) rec s res :
  sdata (fst (Store_fromBackend E rec s res)) = sdata s.
Proof.
  unfold Store_fromBackend. destruct (p_data res); try reflexivity.
  destruct (map_result _ _); cbn [fst]; [apply sdata_set_models | reflexivity].
Qed.

Lemma Store_add_sdata (E : Env) rec s input :
  sdata (fst (Store_add E rec s input)) = sdata s.
Proof.
  unfold Store_add. destruct (map_result _ _) as [modelInstances|e]; [|reflexivity].
  pose proof (add_each_sdata E modelInstances s) as H.
  destruct (add_each E modelInstances s) as [s' [e|]]; exact H.
Qed.

(** The pagination state after [setLimit]: only the limit changes, and it
    is never set to 0. *)
Lemma setLimit_state_spec lim st st' :
  setLimit_state lim st = Ok st' ->
  currentPage st' = currentPage st /\ totalRecords st' = totalRecords st
  /\ limit st' <> Some 0.
Proof.
  unfold setLimit_state. destruct (truthy lim && negb (Number_isInteger lim)); [discriminate|].
  intros [= <-]. cbn [currentPage totalRecords limit]. repeat split.
  destruct (as_integer lim) as [n|]; [|discriminate].
  destruct (n =? 0) eqn:En; [discriminate|].
  apply Z.eqb_neq in En. intros [= H]. contradiction.
Qed.

Lemma Store_fetch_begin_sdata s data :
  s_state (sdata (fst (Store_fetch_begin s data))) = s_state (sdata s)
  /\ s_class (sdata (fst (Store_fetch_begin s data))) = s_class (sdata s).
Proof.
  unfold Store_fetch_begin. destruct s as [d ms].
  destruct (Store_getApi _); split; reflexivity.
Qed.

(** What a step does to the class, the page and the limit. *)
Lemma set_currentPage_sdata n s :
  s_class (sdata (set_currentPage n s)) = s_class (sdata s)
  /\ limit (s_state (sdata (set_currentPage n s))) = limit (s_state (sdata s))
  /\ totalRecords (s_state (sdata (set_currentPage n s))) = totalRecords (s_state (sdata s))
  /\ Store_currentPage (set_currentPage n s) = n.
Proof. destruct s as [d ms]. repeat split. Qed.

Lemma Store_fetch_begin_page s data :
  s_class (sdata (fst (Store_fetch_begin s data))) = s_class (sdata s)
  /\ limit (s_state (sdata (fst (Store_fetch_begin s data)))) = limit (s_state (sdata s))
  /\ Store_currentPage (fst (Store_fetch_begin s data)) = Store_currentPage s.
Proof.
  destruct (Store_fetch_begin_sdata s data) as [Hst Hcl].
  unfold Store_currentPage. rewrite Hst, Hcl. repeat split.
Qed.

Lemma setPage_page s page fetch :
  s_class (sdata (fst (setPage s page fetch))) = s_class (sdata s)
  /\ limit (s_state (sdata (fst (setPage s page fetch)))) = limit (s_state (sdata s))
  /\ (Store_currentPage (fst (setPage s page fetch)) = Store_currentPage s
      \/ 1 <= Store_currentPage (fst (setPage s page fetch)) <= totalPages s).
Proof.
  assert (Hnum : forall n,
    s_class (sdata (fst (setPage s (VNum n) fetch))) = s_class (sdata s)
    /\ limit (s_state (sdata (fst (setPage s (VNum n) fetch)))) = limit (s_state (sdata s))
    /\ (Store_currentPage (fst (setPage s (VNum n) fetch)) = Store_currentPage s
        \/ 1 <= Store_currentPage (fst (setPage s (VNum n) fetch)) <= totalPages s)).
  { intros n. unfold setPage. cbn [as_integer].
    destruct ((n >? totalPages s) || (n <? 1)) eqn:Eout; cbn [fst]; [auto|].
    apply orb_false_elim in Eout. destruct Eout as [E1 E2].
    rewrite Z.gtb_ltb in E1. apply Z.ltb_ge in E1. apply Z.ltb_ge in E2.
    destruct (set_currentPage_sdata n s) as (Hc & Hl & _ & Hp).
    destruct (is_undefined fetch || truthy fetch).
    - destruct (Store_fetch_begin_page (set_currentPage n s) VUndefined) as (Hc' & Hl' & Hp').
      destruct (Store_fetch_begin (set_currentPage n s) VUndefined) as [s' [req|e]];
        cbn [fst] in *; rewrite Hc', Hl', Hp', Hc, Hl, Hp; repeat split; right; lia.
    - cbn [fst]. rewrite Hc, Hl, Hp. repeat split; right; lia. }
  destruct (value_eq_undefined page) as [->|Hu]; [apply Hnum|].
  destruct (as_integer page) as [n|] eqn:En.
  - rewrite (setPage_integer s page fetch n En). apply Hnum.
  - rewrite setPage_not_integer; [cbn [fst]; auto | exact Hu|].
    unfold Number_isInteger. rewrite En. reflexivity.
Qed.

Lemma getNextPage_page s :
  s_class (sdata (fst (getNextPage s))) = s_class (sdata s)
  /\ limit (s_state (sdata (fst (getNextPage s)))) = limit (s_state (sdata s))
  /\ (Store_currentPage (fst (getNextPage s)) = Store_currentPage s
      \/ Store_currentPage (fst (getNextPage s)) = Store_currentPage s + 1).
Proof.
  unfold getNextPage. destruct (negb (hasNextPage s)); cbn [fst]; [auto|].
  destruct (Store_fetch_begin_page (set_currentPage (Store_currentPage s + 1) s) VUndefined)
    as (Hc' & Hl' & Hp').
  destruct (set_currentPage_sdata (Store_currentPage s + 1) s) as (Hc & Hl & _ & Hp).
  rewrite Hc', Hl', Hp', Hc, Hl, Hp. auto.
Qed.

Lemma getPreviousPage_page s :
  s_class (sdata (fst (getPreviousPage s))) = s_class (sdata s)
  /\ limit (s_state (sdata (fst (getPreviousPage s)))) = limit (s_state (sdata s))
  /\ (Store_currentPage (fst (getPreviousPage s)) = Store_currentPage s
      \/ 1 <= Store_currentPage (fst (getPreviousPage s))).
Proof.
  unfold getPreviousPage. destruct (hasPreviousPage s) eqn:Eprev; cbn [negb fst]; [|auto].
  unfold hasPreviousPage in Eprev. rewrite Z.gtb_ltb in Eprev. apply Z.ltb_lt in Eprev.
  destruct (Store_fetch_begin_page (set_currentPage (Store_currentPage s - 1) s) VUndefined)
    as (Hc' & Hl' & Hp').
  destruct (set_currentPage_sdata (Store_currentPage s - 1) s) as (Hc & Hl & _ & Hp).
  rewrite Hc', Hl', Hp', Hc, Hl, Hp. repeat split. right. lia.
Qed.

Lemma Store_fetch_settle_page (E : Env) rec s res :
  s_class (sdata (fst (Store_fetch_settle E rec s res))) = s_class (sdata s)
  /\ limit (s_state (sdata (fst (Store_fetch_settle E rec s res)))) = limit (s_state (sdata s))
  /\ Store_currentPage (fst (Store_fetch_settle E rec s res)) = Store_currentPage s.
Proof.
  unfold Store_fetch_settle, then_. destruct res as [res|err]; [|auto].
  pose proof (Store_fromBackend_sdata E rec
                (set_totalRecords (r_totalRecords res) (Store_add_pending (-1) s))
                (r_payload res)) as H.
  unfold Store_currentPage.
  destruct (Store_fromBackend E rec _ (r_payload res)) as [s' [e|]];
    cbn [fst] in *; rewrite H; destruct s as [d ms]; repeat split.
Qed.

Lemma Store_step_page (E : Env) rec s s' :
  Store_step E rec s s' ->
  s_class (sdata s') = s_class (sdata s)
  /\ (limit (s_state (sdata s')) = limit (s_state (sdata s))
      \/ limit (s_state (sdata s')) <> Some 0)
  /\ (Store_currentPage s' = Store_currentPage s \/ 1 <= Store_currentPage s'
      \/ Store_currentPage s' = Store_currentPage s + 1).
Proof.
  intros Hstep. unfold Store_currentPage. destruct Hstep.
  - rewrite Store_parse_sdata. auto.
  - rewrite Store_addFromRepository_sdata. auto.
  - rewrite Store_fromBackend_sdata. auto.
  - rewrite Store_add_sdata. auto.
  - unfold Store_clear. rewrite sdata_set_models. auto.
  - unfold Store_setLimit.
    destruct (setLimit_state lim (s_state (sdata s))) as [st|e] eqn:Est;
      cbn [fst]; [|auto].
    destruct (setLimit_state_spec _ _ _ Est) as (Hc & _ & Hl).
    destruct s as [d ms]. cbn in *. auto.
  - destruct (setPage_page s page fetch) as (Hc & Hl & Hp).
    unfold Store_currentPage in Hp. repeat split; [exact Hc | auto | tauto].
  - destruct (getNextPage_page s) as (Hc & Hl & Hp).
    unfold Store_currentPage in Hp. repeat split; [exact Hc | auto | tauto].
  - destruct (getPreviousPage_page s) as (Hc & Hl & Hp).
    unfold Store_currentPage in Hp. repeat split; [exact Hc | auto | tauto].
  - destruct (Store_fetch_begin_page s data) as (Hc & Hl & Hp).
    unfold Store_currentPage in Hp. auto.
  - destruct (Store_fetch_settle_page E rec s res) as (Hc & Hl & Hp).
    unfold Store_currentPage in Hp. auto.
Qed.

(** X1. Every collection that a program reaches from [new Store(options)]
    by calls of [parse], [__addFromRepository], [fromBackend], [add],
    [clear], [setLimit], [setPage], [getNextPage], [getPreviousPage] and
    [fetch] (returning or throwing, the request fulfilled or rejected) is on
    a page numbered 1 or more and has a limit that is [null] or an integer
    other than 0, so that [totalPages] never divides by 0; it is still an
    instance of the class it was constructed from. *)
Theorem reachable_page_invariant :
  forall (E : Env) (rec : Methods) (sc : StoreClass) (s : Store),
  Store_reachable E rec sc s ->
  1 <= Store_currentPage s
  /\ limit (s_state (sdata s)) <> Some 0
  /\ (forall l, limit (s_state (sdata s)) = Some l ->
        totalPages s = Math_ceil_div (totalRecords (s_state (sdata s))) l)
  /\ s_class (sdata s) = sc.
Proof.
  intros E rec sc s Hreach.
  assert (Hinv : 1 <= Store_currentPage s
                 /\ limit (s_state (sdata s)) <> Some 0
                 /\ s_class (sdata s) = sc).
  { induction Hreach as [options s Hnew | s s' Hreach (Hpage & Hlim & Hcls) Hstep].
    - unfold new_Store in Hnew.
      destruct (so_others options); [|discriminate].
      destruct (is_undefined (so_limit options)).
      + injection Hnew as <-. cbn. repeat split; [lia | discriminate].
      + destruct (setLimit_state _ _) as [st|e] eqn:Est; [|discriminate].
        injection Hnew as <-.
        destruct (setLimit_state_spec _ _ _ Est) as (Hc & _ & Hl).
        unfold Store_currentPage. cbn in *. rewrite Hc. repeat split; [lia | exact Hl].
    - destruct (Store_step_page E rec s s' Hstep) as (Hc & Hl & Hp).
      repeat split.
      + lia.
      + destruct Hl as [Hl|Hl]; [rewrite Hl; exact Hlim | exact Hl].
      + congruence. }
  destruct Hinv as (Hpage & Hlim & Hcls).
  repeat split; try assumption.
  intros l Hl. unfold totalPages. rewrite Hl.
  destruct (l =? 0) eqn:El; [|reflexivity].
  apply Z.eqb_eq in El. subst l. contradiction.
Qed.

(** X1 on the application: a collection of animals constructed with a
    limit of 10, after [setLimit(0)], a fetch that reports 50 records and
    [getPreviousPage()]. *)
Lemma reachable_page_invariant_witness :
  let s0 := instance (blank_Store AnimalStore)
              (new_Store AnimalStore
                 {| so_relations := None; so_limit := VNum 10; so_others := [] |}) in
  let s1 := fst (Store_setLimit s0 (VNum 0)) in
  let s2 := fst (Store_fetch_settle demo (methods demo 3) s1
                   (Fulfilled {| r_totalRecords := 50;
                                 r_payload := {| p_data := VArr []; p_repos := [];
                                                 p_relMapping := [] |} |})) in
  let s3 := fst (getPreviousPage s2) in
  1 <= Store_currentPage s3 /\ limit (s_state (sdata s3)) <> Some 0.
Proof.
  intros s0 s1 s2 s3.
  assert (R0 : Store_reachable demo (methods demo 3) AnimalStore s0).
  { apply (reach_new _ _ _ {| so_relations := None; so_limit := VNum 10; so_others := [] |}).
    reflexivity. }
  assert (R1 : Store_reachable demo (methods demo 3) AnimalStore s1).
  { apply (reach_step _ _ _ s0 s1 R0). apply step_setLimit. }
  assert (R2 : Store_reachable demo (methods demo 3) AnimalStore s2).
  { apply (reach_step _ _ _ s1 s2 R1). apply step_fetched. }
  assert (R3 : Store_reachable demo (methods demo 3) AnimalStore s3).
  { apply (reach_step _ _ _ s2 s3 R2). apply step_getPreviousPage. }
  exact (let H := reachable_page_invariant demo (methods demo 3) AnimalStore s3 R3 in
         conj (proj1 H) (proj1 (proj2 H))).
Defined.

(** ** Pagination: what [setPage], [setLimit] and the page turns need *)

Lemma Math_ceil_div_pos (a b : Z) : b <> 0 -> 1 <= Math_ceil_div a b -> 0 < a * b.
Proof.
  intros Hb H. destruct (Z_lt_dec 0 (a * b)) as [Hpos|Hneg]; [exact Hpos|].
  pose proof (Math_ceil_div_nonpos a b ltac:(lia)). lia.
Qed.

(** X2. [setPage] returns normally only on a collection that has a limit
    and a record count which are both other than 0 and have the same
    sign: without a limit, or with no records (as a collection is before
    its first fetch), every call of [setPage] throws, [setPage()] and
    [setPage(1)] included. *)
Theorem setPage_needs_records :
  forall (s : Store) (page fetch : value) (s' : Store) (req : option Request),
  setPage s page fetch = (s', Ok req) ->
  exists l : Z,
    limit (s_state (sdata s)) = Some l
    /\ 0 < totalRecords (s_state (sdata s)) * l
    /\ 1 <= Store_currentPage s' <= totalPages s.
Proof.
  intros s page fetch s' req H.
  destruct (setPage_success s page fetch s' req H) as (n & _ & Hn & Hcur).
  assert (Htp : 1 <= totalPages s) by lia.
  unfold totalPages in Htp.
  destruct (limit (s_state (sdata s))) as [l|] eqn:El; [|lia].
  exists l. split; [reflexivity|]. split; [|lia].
  destruct (l =? 0) eqn:E0; [lia|]. apply Z.eqb_neq in E0.
  apply Math_ceil_div_pos; assumption.
Qed.

(** X2 on the application: page 2 of the 50 animals, 25 to a page. *)
Lemma setPage_needs_records_witness :
  exists l : Z,
    limit (s_state (sdata zoo50)) = Some l
    /\ 0 < totalRecords (s_state (sdata zoo50)) * l
    /\ 1 <= Store_currentPage (fst (setPage zoo50 (VNum 2) (VBool false))) <= totalPages zoo50.
Proof.
  exact (setPage_needs_records zoo50 (VNum 2) (VBool false)
           (fst (setPage zoo50 (VNum 2) (VBool false))) None eq_refl).
Defined.

Lemma Store_fetch_begin_ok s data :
  Store_getApi s = Ok tt ->
  Store_fetch_begin s data
  = (Store_add_pending 1 s,
     Ok (fetchStore (sc_url (s_class (sdata s))) (s_params (sdata s)) data)).
Proof.
  intros Hapi. unfold Store_fetch_begin.
  replace (Store_getApi (Store_add_pending 1 s)) with (Store_getApi s)
    by (destruct s; reflexivity).
  rewrite Hapi. destruct s as [d ms]. reflexivity.
Qed.

(** X3. On a collection that has an [api] and a [url] and is on a page
    with a next page, [getNextPage()] moves to the next page and issues a
    fetch; [getPreviousPage()] after it, when the page was 1 or more,
    issues another fetch and is back on the page the collection was on.
    The two requests are then counted as pending and the members and the
    rest of the pagination state are as they were. *)
Theorem next_then_previous_page :
  forall s : Store,
  Store_getApi s = Ok tt -> hasNextPage s = true -> 1 <= Store_currentPage s ->
  let fetch := fetchStore (sc_url (s_class (sdata s))) (s_params (sdata s)) VUndefined in
  exists s1 s2 : Store,
    getNextPage s = (s1, Ok fetch)
    /\ Store_currentPage s1 = Store_currentPage s + 1
    /\ getPreviousPage s1 = (s2, Ok fetch)
    /\ s_state (sdata s2) = s_state (sdata s)
    /\ models s2 = models s
    /\ Store_pending s2 = Store_pending s + 2.
Proof.
  intros s Hapi Hnext Hpage fetch. subst fetch.
  exists (Store_add_pending 1 (set_currentPage (Store_currentPage s + 1) s)).
  exists (Store_add_pending 1
            (set_currentPage (Store_currentPage s)
               (Store_add_pending 1 (set_currentPage (Store_currentPage s + 1) s)))).
  split.
  { unfold getNextPage. rewrite Hnext. cbn [negb].
    rewrite Store_fetch_begin_ok by (destruct s; exact Hapi).
    destruct s as [d ms]. reflexivity. }
  split; [destruct s as [d ms]; reflexivity|].
  split.
  { unfold getPreviousPage.
    replace (hasPreviousPage _) with true.
    - cbn [negb]. rewrite Store_fetch_begin_ok by (destruct s; exact Hapi).
      replace (Store_currentPage _ - 1) with (Store_currentPage s)
        by (destruct s as [d ms]; cbn; lia).
      destruct s as [d ms]. reflexivity.
    - symmetry. unfold hasPreviousPage. rewrite Z.gtb_ltb. apply Z.ltb_lt.
      destruct s as [d ms]. cbn in *. lia. }
  destruct s as [[cls params pend [cur lim tot] arels repo nrepo] ms].
  cbn. repeat split. lia.
Qed.

(** X3 on the application: the 50 animals, 25 to a page, from page 1. *)
Lemma next_then_previous_page_witness :
  exists s1 s2 : Store,
    fst (getNextPage zoo50) = s1
    /\ Store_currentPage s1 = 2
    /\ fst (getPreviousPage s1) = s2
    /\ Store_currentPage s2 = 1
    /\ Store_pending s2 = 2.
Proof.
  destruct (next_then_previous_page zoo50 eq_refl eq_refl ltac:(cbv; discriminate))
    as (s1 & s2 & Hn & Hc & Hp & Hst & _ & Hpend).
  exists s1, s2.
  split; [rewrite Hn; reflexivity|].
  split; [exact Hc|].
  split; [rewrite Hp; reflexivity|].
  split; [unfold Store_currentPage; rewrite Hst; reflexivity | exact Hpend].
Defined.

(** X4. [setLimit] with a falsy value ([0], [null], [undefined], the empty
    string, [false], [NaN]) switches pagination off: the limit is [null],
    there are 0 pages, the page offset is 0, there is no next page on a
    collection whose page is 0 or more, and every later [setPage] throws.
    The current page and the record count keep their values, as do the
    members. *)
Theorem setLimit_falsy_disables_pages :
  forall (s : Store) (lim : value),
  truthy lim = false ->
  exists s' : Store,
    Store_setLimit s lim = (s', None)
    /\ limit (s_state (sdata s')) = None
    /\ Store_currentPage s' = Store_currentPage s
    /\ totalRecords (s_state (sdata s')) = totalRecords (s_state (sdata s))
    /\ models s' = models s
    /\ totalPages s' = 0
    /\ getPageOffset s' = 0
    /\ (0 <= Store_currentPage s -> hasNextPage s' = false)
    /\ (forall page fetch, exists e, setPage s' page fetch = (s', Throw e)).
Proof.
  intros s lim Hfalsy.
  assert (Hst : setLimit_state lim (s_state (sdata s))
                = Ok {| currentPage := currentPage (s_state (sdata s));
                        limit := None;
                        totalRecords := totalRecords (s_state (sdata s)) |}).
  { unfold setLimit_state. rewrite Hfalsy. cbn [andb].
    destruct lim; try reflexivity; try discriminate Hfalsy.
    - cbn [truthy] in Hfalsy. apply negb_false_iff in Hfalsy.
      cbn [as_integer]. rewrite Hfalsy. reflexivity.
    - cbn [truthy] in Hfalsy. apply negb_false_iff, Qeq_bool_iff in Hfalsy.
      cbn [as_integer].
      assert (Hf : Qfloor q = 0) by (rewrite (Qfloor_comp _ _ Hfalsy); reflexivity).
      rewrite Hf.
      replace (Qeq_bool q (inject_Z 0)) with true
        by (symmetry; apply Qeq_bool_iff; exact Hfalsy).
      reflexivity. }
  eexists. unfold Store_setLimit. rewrite Hst.
  split; [reflexivity|].
  destruct s as [d ms]. cbn [with_sdata sdata s_set_state s_state limit models
                              Store_currentPage currentPage totalRecords].
  repeat split.
  - unfold getPageOffset. cbn. lia.
  - intros Hcur. unfold hasNextPage, totalPages, Store_currentPage. cbn.
    apply Z.leb_gt. unfold Store_currentPage in Hcur. cbn in Hcur. lia.
  - intros page fetch.
    set (s' := MkStore _ ms).
    assert (Htp : totalPages s' = 0) by reflexivity.
    destruct (value_eq_undefined page) as [->|Hu].
    + exists (PageOutOfRange (totalPages s')).
      rewrite setPage_default. apply setPage_out_of_range. lia.
    + destruct (as_integer page) as [n|] eqn:En.
      * exists (PageOutOfRange (totalPages s')).
        rewrite (setPage_integer s' page fetch n En).
        apply setPage_out_of_range. lia.
      * exists PageNotNumber. apply setPage_not_integer; [exact Hu|].
        unfold Number_isInteger. rewrite En. reflexivity.
Qed.

(** X4 on the application: [setLimit(0)] on the 50 animals. *)
Lemma setLimit_falsy_disables_pages_witness :
  exists s' : Store,
    Store_setLimit zoo50 (VNum 0) = (s', None)
    /\ totalPages s' = 0
    /\ totalRecords (s_state (sdata s')) = 50.
Proof.
  destruct (setLimit_falsy_disables_pages zoo50 (VNum 0) eq_refl)
    as (s' & Hs & _ & _ & Htot & _ & Htp & _).
  exists s'. split; [exact Hs|]. split; [exact Htp|]. rewrite Htot. reflexivity.
Defined.

(** ** What [parse] and [fromBackend] change, and what they leave alone *)

Lemma assoc_In_keys {A : Type} (l : list (string * A)) k a :
  assoc l k = Some a -> In k (map fst l).
Proof.
  induction l as [|[k' a'] l IH]; cbn [assoc map fst In]; [discriminate|].
  destruct (String.eqb k k') eqn:Ek.
  - apply String.eqb_eq in Ek. auto.
  - auto.
Qed.

(** Replacing what a field holds by something that [g] does not tell apart
    from it. *)
Lemma map_assoc_set {A B : Type} (g : string * A -> B) (l : list (string * A)) k a a' :
  assoc l k = Some a -> g (k, a') = g (k, a) -> map g (assoc_set l k a') = map g l.
Proof.
  intros Ha Hg. induction l as [|[k0 a0] l IH]; cbn [assoc assoc_set map] in *;
    [discriminate|].
  destruct (String.eqb k k0) eqn:Ek; cbn [map].
  - apply String.eqb_eq in Ek. subst k0. injection Ha as ->. rewrite Hg. reflexivity.
  - rewrite IH by exact Ha. reflexivity.
Qed.

Lemma fixed_set_field a v m :
  includes (attributes m) a = true -> fixed_part (set_field a v m) = fixed_part m.
Proof.
  intros Ha. apply includes_In in Ha.
  pose proof (attributes_set_field a v m Ha) as Hattrs.
  destruct m as [d rels]. unfold fixed_part. rewrite Hattrs. reflexivity.
Qed.

Lemma fixed_set_rel k r r' m :
  rel_field m k = Some r -> is_collection r' = is_collection r ->
  fixed_part (set_rel k r' m) = fixed_part m.
Proof.
  intros Hr Hkind. destruct m as [d rels]. unfold fixed_part.
  cbn [set_rel mdata mrels attributes]. f_equal.
  apply (map_assoc_set _ rels k r r' Hr). cbn [fst snd]. rewrite Hkind. reflexivity.
Qed.

Lemma Rel_parse_kind (E : Env) rec r v :
  is_collection (fst (Rel_parse E rec r v)) = is_collection r.
Proof.
  destruct r as [c|s]; cbn [Rel_parse].
  - destruct (rec_parse rec c v). reflexivity.
  - destruct (Store_parse E rec s v). reflexivity.
Qed.

Lemma Rel_addFromRepository_kind (E : Env) rec r v :
  is_collection (fst (Rel_addFromRepository E rec r v)) = is_collection r.
Proof.
  destruct r as [c|s]; cbn [Rel_addFromRepository].
  - destruct (addFromRepository_with E (rec_parse rec) c v). reflexivity.
  - destruct (Store_addFromRepository E rec s v). reflexivity.
Qed.

Lemma parse_property_fixed (E : Env) rec key v m :
  fixed_part (fst (parse_property E rec key v m)) = fixed_part m.
Proof.
  unfold parse_property.
  destruct (includes (attributes m) (snakeToCamel E key)) eqn:Ea; cbn [fst];
    [apply fixed_set_field, Ea|].
  destruct (includes (m_activeCurrentRelations (mdata m)) (snakeToCamel E key));
    [|reflexivity].
  destruct (rel_field m (snakeToCamel E key)) as [r|] eqn:Er; [|reflexivity].
  destruct (is_nested_data v).
  - pose proof (Rel_parse_kind E rec r v) as Hk.
    destruct (Rel_parse E rec r v) as [r' err]. cbn [fst] in *.
    apply (fixed_set_rel _ r r' m Er Hk).
  - pose proof (Rel_addFromRepository_kind E rec r v) as Hk.
    destruct (Rel_addFromRepository E rec r v) as [r' err]. cbn [fst] in *.
    apply (fixed_set_rel _ r r' m Er Hk).
Qed.

Lemma Model_parse_fixed (E : Env) rec m data :
  fixed_part (fst (Model_parse E rec m data)) = fixed_part m.
Proof.
  unfold Model_parse. destruct data as [| |b|n| |str|xs|o|q numeral|positive]; try reflexivity.
  revert m. induction o as [|[key v] o IH]; intros m; cbn [forIn]; [reflexivity|].
  pose proof (parse_property_fixed E rec key v m) as H.
  destruct (parse_property E rec key v m) as [m' [e|]]; cbn [fst] in *; [exact H|].
  rewrite IH. exact H.
Qed.

Lemma assign_repository_fixed path repository : forall m r,
  assign_repository path repository m = Some r -> fixed_part (fst r) = fixed_part m.
Proof.
  induction path as [|seg rest IH]; intros m r; cbn [assign_repository]; [discriminate|].
  destruct (rel_field m seg) as [rel|] eqn:Er.
  - destruct rest as [|seg' rest'].
    + intros [= <-]. cbn [fst]. apply (fixed_set_rel _ rel _ m Er).
      destruct rel; reflexivity.
    + destruct rel as [c|s]; [|discriminate].
      destruct (assign_repository (seg' :: rest') repository c) as [[c' err]|];
        [|discriminate].
      intros [= <-]. cbn [fst]. apply (fixed_set_rel _ (RModel c) _ m Er). reflexivity.
  - destruct (includes (attributes m) seg) eqn:Ea; [|discriminate].
    destruct (value_get rest (field m seg)); try discriminate;
      intros [= <-]; cbn [fst]; try reflexivity.
    apply fixed_set_field, Ea.
Qed.

Lemma update_rel_fixed path f m :
  (forall r, is_collection (f r) = is_collection r) ->
  fixed_part (update_rel path f m) = fixed_part m.
Proof.
  intros Hf. destruct path as [|seg rest]; cbn [update_rel]; [reflexivity|].
  destruct (rel_field m seg) as [rel|] eqn:Er; [|reflexivity].
  destruct rest.
  - apply (fixed_set_rel _ rel _ m Er), Hf.
  - destruct rel; [|reflexivity]. apply (fixed_set_rel _ (RModel m0) _ m Er). reflexivity.
Qed.

Lemma propagate_repositories_fixed (E : Env) repos relMapping : forall m,
  fixed_part (fst (propagate_repositories E repos relMapping m)) = fixed_part m.
Proof.
  induction relMapping as [|[relName repoName] rest IH]; intros m;
    cbn [propagate_repositories]; [reflexivity|].
  assert (H : fixed_part (fst (propagate_repository E repos relName repoName m))
              = fixed_part m).
  { unfold propagate_repository.
    destruct (leaves_model E _ m); [reflexivity|].
    destruct (assign_repository _ _ m) as [r|] eqn:Ea.
    - apply (assign_repository_fixed _ _ _ _ Ea).
    - destruct (find_first_store E relName m) as [[path nestedRel]|]; cbn [fst];
        [|reflexivity].
      destruct (leaves_model E path m); [reflexivity|].
      apply update_rel_fixed. intros [c|s]; reflexivity. }
  destruct (propagate_repository E repos relName repoName m) as [m' [e|]];
    cbn [fst] in *; [exact H|].
  rewrite IH. exact H.
Qed.

Lemma Model_fromBackend_fixed (E : Env) rec m res :
  fixed_part (fst (Model_fromBackend E rec m res)) = fixed_part m.
Proof.
  unfold Model_fromBackend, fromBackend_with.
  pose proof (propagate_repositories_fixed E (p_repos res) (p_relMapping res) m) as H.
  destruct (propagate_repositories E (p_repos res) (p_relMapping res) m) as [m' [e|]];
    cbn [fst] in *; [exact H|].
  destruct (truthy (p_data res)); [|exact H].
  rewrite Model_parse_fixed. exact H.
Qed.


(** ** The attribute values after [parse] *)

Lemma find_app {A : Type} (p : A -> bool) (l1 l2 : list A) :
  List.find p (l1 ++ l2)
  = match List.find p l1 with Some x => Some x | None => List.find p l2 end.
Proof.
  induction l1 as [|x l1 IH]; [reflexivity|].
  rewrite <- app_comm_cons. cbn [List.find].
  destruct (p x); [reflexivity | exact IH].
Qed.

Lemma last_value_for_cons (E : Env) attr key v data :
  last_value_for E attr ((key, v) :: data)
  = match last_value_for E attr data with
    | Some v' => Some v'
    | None => if String.eqb (snakeToCamel E key) attr then Some v else None
    end.
Proof.
  unfold last_value_for. cbn [List.rev]. rewrite find_app.
  destruct (List.find _ (List.rev data)) as [[k' v']|]; [reflexivity|].
  cbn [List.find fst]. destruct (String.eqb (snakeToCamel E key) attr); reflexivity.
Qed.

Lemma field_set_field_other a a' v m : a <> a' -> field (set_field a v m) a' = field m a'.
Proof. intros H. destruct m as [d rels]. apply prop_set_other, H. Qed.

Lemma field_set_rel k r m a : field (set_rel k r m) a = field m a.
Proof. destruct m as [d rels]. reflexivity. Qed.

Lemma parseAttr_fixed m m' attr v :
  fixed_part m' = fixed_part m -> parseAttr m' attr v = parseAttr m attr v.
Proof.
  intros H. apply (f_equal fx_class) in H. cbn in H.
  unfold parseAttr, casts_of. rewrite H. reflexivity.
Qed.

(** One property of the data: the attribute it names gets the parsed value,
    the other attributes keep theirs. *)
Lemma parse_property_field (E : Env) rec key v m attr :
  includes (attributes m) attr = true ->
  field (fst (parse_property E rec key v m)) attr
  = if String.eqb (snakeToCamel E key) attr then parseAttr m attr v else field m attr.
Proof.
  intros Hattr. unfold parse_property.
  destruct (String.eqb (snakeToCamel E key) attr) eqn:Ek.
  - apply String.eqb_eq in Ek. rewrite Ek, Hattr. cbn [fst]. apply field_set_field_same.
  - apply String.eqb_neq in Ek.
    destruct (includes (attributes m) (snakeToCamel E key)); cbn [fst];
      [apply field_set_field_other, Ek|].
    destruct (includes (m_activeCurrentRelations (mdata m)) (snakeToCamel E key));
      [|reflexivity].
    destruct (rel_field m (snakeToCamel E key)) as [r|]; [|reflexivity].
    destruct (if is_nested_data v then Rel_parse E rec r v
              else Rel_addFromRepository E rec r v) as [r' err].
    cbn [fst]. apply field_set_rel.
Qed.

Lemma forIn_parse_field (E : Env) rec attr (data : obj) : forall m,
  snd (forIn (parse_property E rec) data m) = None ->
  includes (attributes m) attr = true ->
  field (fst (forIn (parse_property E rec) data m)) attr
  = match last_value_for E attr data with
    | Some v => parseAttr m attr v
    | None => field m attr
    end.
Proof.
  induction data as [|[key v] data IH]; intros m Hok Hattr; cbn [forIn] in *;
    [reflexivity|].
  pose proof (parse_property_field E rec key v m attr Hattr) as Hone.
  pose proof (parse_property_fixed E rec key v m) as Hfix.
  destruct (parse_property E rec key v m) as [m1 [e|]]; cbn [fst snd] in *;
    [discriminate|].
  assert (Hattr1 : includes (attributes m1) attr = true).
  { apply (f_equal fx_attributes) in Hfix. cbn in Hfix. rewrite Hfix. exact Hattr. }
  rewrite (IH m1 Hok Hattr1), last_value_for_cons.
  destruct (last_value_for E attr data) as [v'|].
  - apply parseAttr_fixed, Hfix.
  - rewrite Hone. destruct (String.eqb (snakeToCamel E key) attr); reflexivity.
Qed.

(** Data that names no active relation is parsed without an exception,
    whatever the methods of the related instances do. *)
Lemma forIn_parse_attributes_only (E : Env) rec (data : obj) : forall m,
  (forall key, In key (map fst data) ->
     includes (attributes m) (snakeToCamel E key) = true
     \/ includes (m_activeCurrentRelations (mdata m)) (snakeToCamel E key) = false) ->
  snd (forIn (parse_property E rec) data m) = None.
Proof.
  induction data as [|[key v] data IH]; intros m Hkeys; cbn [forIn]; [reflexivity|].
  pose proof (parse_property_fixed E rec key v m) as Hfix.
  assert (Hnone : snd (parse_property E rec key v m) = None).
  { unfold parse_property.
    destruct (Hkeys key (or_introl eq_refl)) as [H|H]; rewrite H; [reflexivity|].
    destruct (includes (attributes m) (snakeToCamel E key)); reflexivity. }
  destruct (parse_property E rec key v m) as [m1 [e|]]; cbn [fst snd] in *;
    [discriminate|].
  apply IH. intros key' Hin.
  pose proof (f_equal fx_attributes Hfix) as Ha.
  pose proof (f_equal fx_activeCurrentRelations Hfix) as Hr.
  cbn in Ha, Hr. rewrite Ha, Hr. apply Hkeys. right. exact Hin.
Qed.



(** ** The life of an entity: what every method keeps *)

Lemma keys_assoc_set {A : Type} (l : list (string * A)) k a :
  map fst (assoc_set l k a)
  = if includes (map fst l) k then map fst l else (map fst l ++ [k])%list.
Proof.
  induction l as [|[k' a'] l IH]; cbn [assoc_set map fst includes existsb]; [reflexivity|].
  destruct (String.eqb k k') eqn:Ek; cbn [orb map fst]; [reflexivity|].
  rewrite IH. fold (includes (map fst l) k).
  destruct (includes (map fst l) k); reflexivity.
Qed.

Lemma NoDup_snoc_fresh (l : list string) k :
  NoDup l -> includes l k = false -> NoDup (l ++ [k]).
Proof.
  intros Hnd Hk. apply NoDup_app; [exact Hnd | repeat constructor; intros [] |].
  intros s Hs [<-|[]]. apply includes_In in Hs. congruence.
Qed.

(** The relation map and the list of current relations grow together. *)
Lemma parseRelation_keys aRel relModels cur st' :
  map fst relModels = cur -> NoDup cur ->
  parseRelation aRel (relModels, cur) = Ok st' ->
  map fst (fst st') = snd st' /\ NoDup (snd st').
Proof.
  intros Hk Hnd H. destruct (parseRelation_inv _ _ _ _ H) as (p & _ & _ & ->).
  cbn [fst snd]. rewrite keys_assoc_set, Hk.
  destruct (includes cur _) eqn:Ei; split; try reflexivity; try exact Hnd.
  apply NoDup_snoc_fresh; assumption.
Qed.

Lemma parseRelations_loop_keys : forall activeRelations relModels cur st',
  map fst relModels = cur -> NoDup cur ->
  parseRelations_loop activeRelations (relModels, cur) = Ok st' ->
  map fst (fst st') = snd st' /\ NoDup (snd st').
Proof.
  induction activeRelations as [|aRel rest IH]; intros relModels cur st' Hk Hnd;
    cbn [parseRelations_loop].
  - intros [= <-]. auto.
  - destruct (parseRelation aRel (relModels, cur)) as [[relModels1 cur1]|e] eqn:E1;
      cbn [bind]; [|discriminate].
    destruct (parseRelation_keys _ _ _ _ Hk Hnd E1) as [Hk1 Hnd1]. cbn [fst snd] in *.
    apply IH; assumption.
Qed.

Lemma new_relations_keys (E : Env) rec cls store : forall relModels rels,
  new_relations E rec cls store relModels = Ok rels ->
  map fst rels = map fst relModels.
Proof.
  induction relModels as [|[relName otherRelNames] rest IH]; intros rels;
    cbn [new_relations].
  - intros [= <-]. reflexivity.
  - destruct (new_relation E rec cls store relName otherRelNames) as [r|e];
      cbn [bind]; [|discriminate].
    destruct (new_relations E rec cls store rest) as [rs|e]; cbn [bind]; [|discriminate].
    intros [= <-]. cbn [map fst]. f_equal. apply IH. reflexivity.
Qed.

(** The order in which the properties are visited is an order of the same
    properties. *)
Lemma insert_index_perm {A : Type} n (kv : string * A) l :
  Permutation (insert_index n kv l) (kv :: l).
Proof.
  induction l as [|kv' l IH]; cbn [insert_index]; [reflexivity|].
  destruct (array_index (fst kv')) as [n'|]; [|reflexivity].
  destruct (n <? n'); [reflexivity|].
  rewrite IH. apply perm_swap.
Qed.

Lemma own_properties_perm {A : Type} (o : list (string * A)) :
  Permutation (own_properties o) o.
Proof.
  unfold own_properties.
  assert (H : forall acc,
            Permutation
              (fold_left (fun acc kv =>
                            match array_index (fst kv) with
                            | Some n => insert_index n kv acc
                            | None => (acc ++ [kv])%list
                            end) o acc)
              (acc ++ o)).
  { induction o as [|kv o IH]; intros acc; cbn [fold_left].
    - rewrite app_nil_r. reflexivity.
    - rewrite IH. destruct (array_index (fst kv)).
      + rewrite insert_index_perm. apply Permutation_cons_app. reflexivity.
      + rewrite <- app_assoc. reflexivity. }
  apply (H []).
Qed.

Lemma own_properties_In {A : Type} (o : list (string * A)) kv :
  In kv (own_properties o) <-> In kv o.
Proof.
  split; apply Permutation_in; [|symmetry]; apply own_properties_perm.
Qed.

Lemma own_properties_keys {A : Type} (o : list (string * A)) k :
  In k (map fst (own_properties o)) <-> In k (map fst o).
Proof.
  split; apply Permutation_in; [|symmetry]; apply Permutation_map, own_properties_perm.
Qed.

(** The fields listed by name. *)
Lemma fields_of_assoc names created k :
  assoc (fields_of names created) k
  = if includes names k then assoc created k else None.
Proof.
  unfold fields_of. induction names as [|name names IH];
    cbn [flat_map includes existsb]; [reflexivity|].
  fold (includes names k).
  destruct (String.eqb k name) eqn:Ek; cbn [orb].
  - apply String.eqb_eq in Ek. subst name.
    destruct (assoc created k) as [r|] eqn:Er.
    + change ([(k, r)] ++ ?l)%list with ((k, r) :: l). cbn [assoc].
      rewrite String.eqb_refl. reflexivity.
    + change ([] ++ ?l)%list with l.
      rewrite IH. destruct (includes names k); reflexivity.
  - destruct (assoc created name) as [r|].
    + change ([(name, r)] ++ ?l)%list with ((name, r) :: l). cbn [assoc].
      rewrite Ek. exact IH.
    + change ([] ++ ?l)%list with l. exact IH.
Qed.

Lemma fields_of_keys names created :
  (forall k, In k names -> assoc created k <> None) ->
  map fst (fields_of names created) = names.
Proof.
  unfold fields_of. induction names as [|name names IH]; intros H;
    cbn [flat_map map]; [reflexivity|].
  destruct (assoc created name) as [r|] eqn:Er.
  - change ([(name, r)] ++ ?l)%list with ((name, r) :: l). cbn [map fst].
    f_equal. apply IH. intros k Hk. apply H. right. exact Hk.
  - exfalso. apply (H name); [left; reflexivity | exact Er].
Qed.

Lemma fields_of_In names created k r :
  In (k, r) (fields_of names created) -> assoc created k = Some r.
Proof.
  unfold fields_of. intros H. apply in_flat_map in H. destruct H as (name & _ & H).
  destruct (assoc created name) as [r'|] eqn:Er; [|destruct H].
  destruct H as [[= <- <-]|[]]. exact Er.
Qed.

Lemma assoc_of_key {A : Type} (l : list (string * A)) k :
  In k (map fst l) -> exists a, assoc l k = Some a.
Proof.
  induction l as [|[k' a'] l IH]; cbn [map fst In assoc]; [tauto|].
  intros H. destruct (String.eqb k k') eqn:Ek; [eauto|].
  apply IH. destruct H as [->|H]; [|exact H].
  rewrite String.eqb_refl in Ek. discriminate.
Qed.

(** Assigning the original attributes, and clearing the relations, keeps
    the fixed part. *)
Lemma fold_set_field_fixed (l : list (string * value)) : forall m,
  (forall kv, In kv l -> In (fst kv) (attributes m)) ->
  fixed_part (fold_left (fun m kv => set_field (fst kv) (snd kv) m) l m) = fixed_part m.
Proof.
  induction l as [|kv l IH]; intros m Hin; cbn [fold_left]; [reflexivity|].
  assert (H1 : fixed_part (set_field (fst kv) (snd kv) m) = fixed_part m).
  { apply fixed_set_field, includes_In, Hin. left. reflexivity. }
  rewrite IH; [exact H1|].
  intros kv' Hkv'. apply (f_equal fx_attributes) in H1. cbn in H1. rewrite H1.
  apply Hin. right. exact Hkv'.
Qed.

Lemma clear_relations_fixed clear currentRels : forall m,
  fixed_part (fst (clear_relations clear currentRels m)) = fixed_part m.
Proof.
  induction currentRels as [|currentRel rest IH]; intros m; cbn [clear_relations];
    [reflexivity|].
  destruct (rel_field m currentRel) as [[c|s]|] eqn:Er; [| |reflexivity].
  - destruct (clear c) as [c' [e|]]; cbn [fst].
    + apply (fixed_set_rel _ (RModel c) _ m Er). reflexivity.
    + rewrite IH. apply (fixed_set_rel _ (RModel c) _ m Er). reflexivity.
  - rewrite IH. apply (fixed_set_rel _ (RStore s) _ m Er). reflexivity.
Qed.

Lemma Model_clear_fixed fuel m :
  attributes m = map fst (m_originalAttributes (mdata m)) ->
  fixed_part (fst (Model_clear fuel m)) = fixed_part m.
Proof.
  intros Hattrs. destruct fuel as [|fuel]; cbn [Model_clear]; [reflexivity|].
  rewrite clear_relations_fixed. apply fold_set_field_fixed.
  intros kv Hkv. rewrite Hattrs. apply in_map, Hkv.
Qed.

(** What does not depend on the requests in flight. *)
Lemma fixed_add_pending k m :
  fixed_part (add_pending k m)
  = {| fx_class := fx_class (fixed_part m);
       fx_attributes := fx_attributes (fixed_part m);
       fx_originalAttributes := fx_originalAttributes (fixed_part m);
       fx_activeRelations := fx_activeRelations (fixed_part m);
       fx_activeCurrentRelations := fx_activeCurrentRelations (fixed_part m);
       fx_repository := fx_repository (fixed_part m);
       fx_store := fx_store (fixed_part m);
       fx_backendValidationErrors := fx_backendValidationErrors (fixed_part m);
       fx_pendingRequestCount := fx_pendingRequestCount (fixed_part m) + k;
       fx_relations := fx_relations (fixed_part m) |}.
Proof. destruct m as [d rels]. reflexivity. Qed.

Lemma fixed_set_errors v m :
  fixed_part (with_mdata (set_backendValidationErrors v) m)
  = {| fx_class := fx_class (fixed_part m);
       fx_attributes := fx_attributes (fixed_part m);
       fx_originalAttributes := fx_originalAttributes (fixed_part m);
       fx_activeRelations := fx_activeRelations (fixed_part m);
       fx_activeCurrentRelations := fx_activeCurrentRelations (fixed_part m);
       fx_repository := fx_repository (fixed_part m);
       fx_store := fx_store (fixed_part m);
       fx_backendValidationErrors := v;
       fx_pendingRequestCount := fx_pendingRequestCount (fixed_part m);
       fx_relations := fx_relations (fixed_part m) |}.
Proof. destruct m as [d rels]. reflexivity. Qed.

(** The part of the fixed part that no method changes. *)
Lemma Model_step_frame (E : Env) rec m m' :
  attributes m = map fst (m_originalAttributes (mdata m)) ->
  Model_step E rec m m' ->
  fx_class (fixed_part m') = fx_class (fixed_part m)
  /\ fx_attributes (fixed_part m') = fx_attributes (fixed_part m)
  /\ fx_originalAttributes (fixed_part m') = fx_originalAttributes (fixed_part m)
  /\ fx_activeRelations (fixed_part m') = fx_activeRelations (fixed_part m)
  /\ fx_activeCurrentRelations (fixed_part m') = fx_activeCurrentRelations (fixed_part m)
  /\ fx_repository (fixed_part m') = fx_repository (fixed_part m)
  /\ fx_store (fixed_part m') = fx_store (fixed_part m)
  /\ fx_relations (fixed_part m') = fx_relations (fixed_part m).
Proof.
  intros Hattrs Hstep.
  assert (Heq : forall a b : Model, fixed_part a = fixed_part b ->
            fx_class (fixed_part a) = fx_class (fixed_part b)
            /\ fx_attributes (fixed_part a) = fx_attributes (fixed_part b)
            /\ fx_originalAttributes (fixed_part a) = fx_originalAttributes (fixed_part b)
            /\ fx_activeRelations (fixed_part a) = fx_activeRelations (fixed_part b)
            /\ fx_activeCurrentRelations (fixed_part a)
               = fx_activeCurrentRelations (fixed_part b)
            /\ fx_repository (fixed_part a) = fx_repository (fixed_part b)
            /\ fx_store (fixed_part a) = fx_store (fixed_part b)
            /\ fx_relations (fixed_part a) = fx_relations (fixed_part b)).
  { intros a b ->. repeat split. }
  destruct Hstep as [m' Hcall|rel r r' Hr Hkind];
    [destruct Hcall|apply Heq; apply (fixed_set_rel rel r r' m); assumption].
  - apply Heq, Model_parse_fixed.
  - apply Heq. unfold Model_addFromRepository, addFromRepository_with.
    destruct (find_id E _ id) as [relData|]; [|reflexivity].
    destruct (truthy relData); [apply Model_parse_fixed | reflexivity].
  - apply Heq, Model_fromBackend_fixed.
  - apply Heq, Model_clear_fixed, Hattrs.
  - unfold save_begin. destruct (getApi _); cbn [fst];
      rewrite fixed_add_pending, fixed_set_errors; repeat split.
  - unfold save_settle, then_, catch_. destruct res as [res|err].
    + pose proof (Model_fromBackend_fixed E rec (add_pending (-1) m) res) as H.
      rewrite fixed_add_pending in H.
      destruct (Model_fromBackend E rec (add_pending (-1) m) res) as [m1 [e|]];
        cbn [fst] in *.
      * cbn [valErrors truthy is_nullish fst]. rewrite fixed_add_pending, H. repeat split.
      * rewrite H. repeat split.
    + destruct (is_nullish err); [cbn [fst]; rewrite fixed_add_pending; repeat split|].
      destruct (truthy (valErrors err)); cbn [fst];
        rewrite ?fixed_set_errors, fixed_add_pending; repeat split.
  - unfold saveAll_begin. destruct (getApi _); cbn [fst].
    + destruct (Model_toBackendAll E _ VUndefined idCounter) as [[data|e] c]; cbn [fst];
        rewrite fixed_add_pending, fixed_set_errors; repeat split.
    + rewrite fixed_add_pending, fixed_set_errors; repeat split.
  - unfold saveAll_settle, then_, catch_. destruct res as [res|err].
    + pose proof (Model_fromBackend_fixed E rec (add_pending (-1) m) res) as H.
      rewrite fixed_add_pending in H.
      destruct (Model_fromBackend E rec (add_pending (-1) m) res) as [m1 [e|]];
        cbn [fst] in *.
      * rewrite fixed_add_pending, H. repeat split.
      * rewrite H. repeat split.
    + cbn [fst]. rewrite fixed_add_pending. repeat split.
  - unfold fetch_begin. destruct (isNew m); cbn [fst]; [repeat split|].
    destruct (getApi _); cbn [fst]; rewrite fixed_add_pending; repeat split.
  - unfold fetch_settle, then_. destruct res as [res|err]; [|repeat split].
    pose proof (Model_fromBackend_fixed E rec m res) as H.
    destruct (Model_fromBackend E rec m res) as [m1 [e|]]; cbn [fst] in *.
    + rewrite H. repeat split.
    + rewrite fixed_add_pending, H. repeat split.
  - unfold delete_begin, removeFromStore.
    destruct (isNew m); rewrite ?orb_true_r, ?orb_false_r; cbn [fst]; [repeat split|].
    destruct immediate; cbn [fst snd]; destruct (getApi _); cbn [fst];
      rewrite fixed_add_pending; repeat split.
  - unfold delete_settle, then_, removeFromStore. destruct res as [[]|err];
      [|repeat split].
    destruct immediate; cbn [fst snd]; rewrite fixed_add_pending; repeat split.
Qed.

(** The entity a constructor call returns. *)
Lemma new_Model_shape (E : Env) rec cls data options m :
  new_Model E rec cls data options = Ok m ->
  m_class (mdata m) = cls
  /\ m_originalAttributes (mdata m)
     = filter (fun kv => negb (startsWith "__" (fst kv))) (observables cls)
  /\ attributes m = map fst (m_originalAttributes (mdata m))
  /\ map fst (fx_relations (fixed_part m)) = m_activeCurrentRelations (mdata m)
  /\ NoDup (m_activeCurrentRelations (mdata m)).
Proof.
  intros Hnew. unfold new_Model in Hnew.
  set (attrs := filter _ (observables cls)) in *.
  set (d := {| m_class := cls; m_attrs := attrs |}) in *.
  assert (H0 : forall m0,
            match opt_relations options with
            | Some activeRelations =>
                parseRelations E rec (opt_store options) d activeRelations
            | None => Ok (MkModel d [])
            end = Ok m0 ->
            m_class (mdata m0) = cls
            /\ m_originalAttributes (mdata m0) = attrs
            /\ attributes m0 = map fst (m_originalAttributes (mdata m0))
            /\ map fst (fx_relations (fixed_part m0))
               = m_activeCurrentRelations (mdata m0)
            /\ NoDup (m_activeCurrentRelations (mdata m0))).
  { intros m0. destruct (opt_relations options) as [activeRelations|].
    - unfold parseRelations.
      destruct (parseRelations_loop activeRelations ([], m_activeCurrentRelations d))
        as [[relModels cur]|e] eqn:Eloop; cbn [bind]; [|discriminate].
      destruct (parseRelations_loop_keys activeRelations [] [] (relModels, cur)
                  eq_refl (NoDup_nil _) Eloop)
        as [Hk Hnd]. cbn [fst snd] in Hk, Hnd.
      destruct (new_relations E rec (m_class d) (opt_store options)
                  (own_properties relModels))
        as [created|e] eqn:Erels; cbn [bind]; [|discriminate].
      intros [= <-]. cbn. rewrite map_map. cbn [fst].
      change (map (fun x : string * Rel => fst x) (fields_of (map fst relModels) created))
        with (map fst (fields_of (map fst relModels) created)).
      rewrite fields_of_keys.
      + rewrite Hk. repeat split. exact Hnd.
      + intros k Hin. apply own_properties_keys in Hin.
        rewrite <- (new_relations_keys _ _ _ _ _ _ Erels) in Hin.
        destruct (assoc_of_key created k Hin) as [r Hr]. congruence.
    - intros [= <-]. cbn. repeat split. constructor. }
  destruct (match opt_relations options with
            | Some activeRelations =>
                parseRelations E rec (opt_store options) d activeRelations
            | None => Ok (MkModel d [])
            end) as [m0|e] eqn:Em0; cbn [bind] in Hnew; [|discriminate].
  specialize (H0 m0 eq_refl).
  destruct (truthy data).
  - pose proof (Model_parse_fixed E rec m0 data) as Hfix.
    destruct (Model_parse E rec m0 data) as [m1 [e|]]; [discriminate|].
    injection Hnew as <-. cbn [fst] in Hfix.
    destruct H0 as (H1 & H2 & H3 & H4 & H5).
    pose proof (f_equal fx_class Hfix) as F1.
    pose proof (f_equal fx_originalAttributes Hfix) as F2.
    pose proof (f_equal fx_attributes Hfix) as F3.
    pose proof (f_equal fx_activeCurrentRelations Hfix) as F4.
    cbn in F1, F2, F3, F4. rewrite Hfix, F1, F2, F3, F4. auto.
  - injection Hnew as <-. exact H0.
Qed.



(** ** The constructor and the relations it is given *)

Lemma new_relation_undeclared (E : Env) rec cls store relName otherRelNames :
  declared cls relName = false ->
  new_relation E rec cls store relName otherRelNames
  = Throw (match relations cls with
           | Some _ => RelationDoesNotExist relName
           | None => TypeError "Cannot read property of undefined"
           end).
Proof.
  unfold declared, new_relation. destruct (relations cls) as [table|]; [|reflexivity].
  destruct (assoc table relName); [discriminate | reflexivity].
Qed.

Lemma new_relations_undeclared (E : Env) rec cls store : forall relModels relName,
  In relName (map fst relModels) -> declared cls relName = false ->
  exists e, new_relations E rec cls store relModels = Throw e.
Proof.
  induction relModels as [|[k o] rest IH]; intros relName Hin Hun; [destruct Hin|].
  cbn [new_relations].
  destruct (new_relation E rec cls store k o) as [r|e] eqn:Er; cbn [bind]; [|eauto].
  destruct Hin as [Hk|Hin].
  - cbn [fst] in Hk. subst k. rewrite new_relation_undeclared in Er by exact Hun.
    discriminate.
  - destruct (IH relName Hin Hun) as [e He]. rewrite He. cbn [bind]. eauto.
Qed.

(** The names in the relation map only grow, and the first stays first. *)
Lemma parseRelation_grows aRel relModels cur st' :
  parseRelation aRel (relModels, cur) = Ok st' ->
  (forall k, In k (map fst relModels) -> In k (map fst (fst st')))
  /\ (forall p, aRel = Some p -> In (first_segment p) (map fst (fst st')))
  /\ (forall k o l, relModels = (k, o) :: l -> exists o' l', fst st' = (k, o') :: l').
Proof.
  intros H. destruct (parseRelation_inv _ _ _ _ H) as (aRel' & -> & _ & ->).
  cbn [fst].
  set (new := match assoc relModels _ with Some (Some arr) => _ | _ => _ end).
  clearbody new. repeat split.
  - intros k Hk. rewrite keys_assoc_set.
    destruct (includes (map fst relModels) (first_segment aRel')); [exact Hk|].
    apply in_or_app. left. exact Hk.
  - intros p [= <-]. rewrite keys_assoc_set.
    destruct (includes (map fst relModels) (first_segment aRel')) eqn:Ei.
    + apply includes_In, Ei.
    + apply in_or_app. right. left. reflexivity.
  - intros k o l ->. cbn [assoc_set].
    destruct (String.eqb (first_segment aRel') k); eauto.
Qed.

Lemma parseRelations_loop_grows : forall activeRelations relModels cur st',
  parseRelations_loop activeRelations (relModels, cur) = Ok st' ->
  (forall k, In k (map fst relModels) -> In k (map fst (fst st')))
  /\ (forall p, In (Some p) activeRelations -> In (first_segment p) (map fst (fst st')))
  /\ (forall k o l, relModels = (k, o) :: l -> exists o' l', fst st' = (k, o') :: l').
Proof.
  induction activeRelations as [|aRel rest IH]; intros relModels cur st';
    cbn [parseRelations_loop].
  - intros [= <-]. cbn [fst]. repeat split; [auto | intros p [] | eauto].
  - destruct (parseRelation aRel (relModels, cur)) as [[relModels1 cur1]|e] eqn:E1;
      cbn [bind]; [|discriminate].
    intros Hrest.
    destruct (parseRelation_grows _ _ _ _ E1) as (G1 & G2 & G3). cbn [fst] in *.
    destruct (IH _ _ _ Hrest) as (H1 & H2 & H3).
    repeat split.
    + intros k Hk. apply H1, G1, Hk.
    + intros p [Hp|Hp]; [apply H1, (G2 p Hp) | apply H2, Hp].
    + intros k o l Hl. destruct (G3 k o l Hl) as (o1 & l1 & Hl1). apply (H3 k o1 l1 Hl1).
Qed.

(** A list of paths that are all strings, none of which starts with a name
    that every object inherits, is never rejected by the loop; the current
    relations it leaves are the first segments, each once. *)
Lemma parseRelations_loop_strings : forall (ps : list string) relModels cur,
  own_names ps ->
  exists relModels',
    parseRelations_loop (map Some ps) (relModels, cur)
    = Ok (relModels',
          fold_left (fun acc p => if includes acc (first_segment p) then acc
                                  else (acc ++ [first_segment p])%list) ps cur).
Proof.
  induction ps as [|p ps IH]; intros relModels cur Hown; cbn [map parseRelations_loop];
    [eauto|].
  rewrite (parseRelation_own p relModels cur (Hown p (or_introl eq_refl))).
  cbn [bind fold_left]. apply IH. intros q Hq. apply Hown. right. exact Hq.
Qed.

(** The order of the visit depends on the names only. *)
Lemma insert_index_map {A B : Type} (g : string * A -> B) n kv (l : list (string * A)) :
  insert_index n (fst kv, g kv) (map (fun kv => (fst kv, g kv)) l)
  = map (fun kv => (fst kv, g kv)) (insert_index n kv l).
Proof.
  induction l as [|kv' l IH]; cbn [insert_index map fst]; [reflexivity|].
  destruct (array_index (fst kv')) as [n'|]; [|reflexivity].
  destruct (n <? n'); [reflexivity|]. cbn [map]. f_equal. exact IH.
Qed.

Lemma own_properties_map {A B : Type} (g : string * A -> B) (o : list (string * A)) :
  own_properties (map (fun kv => (fst kv, g kv)) o)
  = map (fun kv => (fst kv, g kv)) (own_properties o).
Proof.
  unfold own_properties.
  assert (H : forall acc,
            fold_left (fun acc kv =>
                         match array_index (fst kv) with
                         | Some n => insert_index n kv acc
                         | None => (acc ++ [kv])%list
                         end) (map (fun kv => (fst kv, g kv)) o)
              (map (fun kv => (fst kv, g kv)) acc)
            = map (fun kv => (fst kv, g kv))
                (fold_left (fun acc kv =>
                              match array_index (fst kv) with
                              | Some n => insert_index n kv acc
                              | None => (acc ++ [kv])%list
                              end) o acc)).
  { induction o as [|kv o IH]; intros acc; cbn [map fold_left fst]; [reflexivity|].
    destruct (array_index (fst kv)) as [n|].
    - rewrite insert_index_map. apply IH.
    - rewrite <- IH. f_equal. rewrite map_app. reflexivity. }
  apply (H []).
Qed.

Lemma own_properties_visit {A : Type} (o : list (string * A)) :
  map fst (own_properties o) = visit_order (map fst o).
Proof.
  unfold visit_order. rewrite map_map.
  rewrite (own_properties_map (fun _ : string * A => tt) o).
  rewrite map_map. reflexivity.
Qed.

(** Without array indices among the names the visit follows the
    insertion. *)
Lemma own_properties_no_index {A : Type} (o : list (string * A)) :
  (forall kv, In kv o -> array_index (fst kv) = None) -> own_properties o = o.
Proof.
  unfold own_properties.
  assert (H : forall acc,
            (forall kv, In kv o -> array_index (fst kv) = None) ->
            fold_left (fun acc kv =>
                         match array_index (fst kv) with
                         | Some n => insert_index n kv acc
                         | None => (acc ++ [kv])%list
                         end) o acc = (acc ++ o)%list).
  { induction o as [|kv o IH]; intros acc Hno; cbn [fold_left].
    - rewrite app_nil_r. reflexivity.
    - rewrite (Hno kv (or_introl eq_refl)), IH, <- app_assoc; [reflexivity|].
      intros kv' Hkv'. apply Hno. right. exact Hkv'. }
  apply (H []).
Qed.

Lemma visit_order_In names k : In k (visit_order names) <-> In k names.
Proof.
  unfold visit_order. rewrite own_properties_keys, map_map. cbn [fst].
  rewrite map_id. reflexivity.
Qed.

Lemma visit_order_no_index names :
  (forall k, In k names -> array_index k = None) -> visit_order names = names.
Proof.
  intros H. unfold visit_order. rewrite own_properties_no_index.
  - rewrite map_map. cbn [fst]. apply map_id.
  - intros kv Hkv. apply in_map_iff in Hkv. destruct Hkv as (k & <- & Hk).
    apply H, Hk.
Qed.

(** *** Relations without nested relations *)

Lemma nested_under_bare seg (done : list string) :
  (forall p, In p done -> regex_match p = None) -> nested_under seg done = [].
Proof.
  intros Hbare. unfold nested_under. induction done as [|p done IH]; [reflexivity|].
  cbn [flat_map]. rewrite IH by (intros q Hq; apply Hbare; right; exact Hq).
  unfold continuation. rewrite (Hbare p (or_introl eq_refl)).
  destruct (String.eqb (first_segment p) seg); reflexivity.
Qed.

Lemma bare_first_bare : forall ps done : list string,
  (forall p, In p done -> regex_match p = None) ->
  (forall p, In p ps -> regex_match p = None) ->
  bare_first done ps = true.
Proof.
  induction ps as [|p ps IH]; intros done Hdone Hps; cbn [bare_first]; [reflexivity|].
  rewrite (nested_under_bare _ done Hdone).
  assert (Hrest : bare_first (done ++ [p]) ps = true).
  { apply IH.
    - intros q Hq. apply in_app_or in Hq. destruct Hq as [Hq|[<-|[]]];
        [apply Hdone, Hq | apply Hps; left; reflexivity].
    - intros q Hq. apply Hps. right. exact Hq. }
  destruct (continuation p); exact Hrest.
Qed.

Lemma segments_In (ps : list string) s :
  In s (segments ps) <-> exists p, In p ps /\ first_segment p = s.
Proof.
  induction ps as [|p ps IH] using rev_ind.
  - cbn. split; [tauto | intros (p & [] & _)].
  - rewrite segments_snoc.
    assert (Hin : In s (segments ps ++ [first_segment p])
                  <-> exists q, In q (ps ++ [p]) /\ first_segment q = s).
    { rewrite in_app_iff, IH. cbn [In]. split.
      - intros [(q & Hq & Hs)|[Hs|[]]].
        + exists q. split; [apply in_or_app; left; exact Hq | exact Hs].
        + exists p. split; [apply in_or_app; right; left; reflexivity | exact Hs].
      - intros (q & Hq & Hs). apply in_app_or in Hq. destruct Hq as [Hq|[<-|[]]]; eauto. }
    destruct (includes (segments ps) (first_segment p)) eqn:Ei; [|exact Hin].
    rewrite <- Hin, in_app_iff. cbn [In]. split; [tauto|].
    intros [H|[<-|[]]]; [exact H | apply includes_In, Ei].
Qed.

(** The constructor of the relation that is visited first throws when the
    class does not declare it. *)
Lemma new_relations_head_undeclared (E : Env) rec cls table store relModels k o rest :
  relations cls = Some table -> declared cls k = false ->
  relModels = (k, o) :: rest ->
  new_relations E rec cls store relModels = Throw (RelationDoesNotExist k).
Proof.
  intros Htable Hun ->. cbn [new_relations].
  rewrite new_relation_undeclared by exact Hun. rewrite Htable. reflexivity.
Qed.

(** X8. The constructor cannot activate a relation that the class does not
    declare: when some path of [options.relations] starts with a name that
    is not in [relations()] (or the class has no [relations()]),
    [new cls(data, options)] throws, whatever the data, the other paths and
    the related classes.  When all paths are strings, none of them starts
    with a name that every object inherits, and the class has a
    [relations()], the relations are made in the order in which the
    language visits the properties of an object, array indices first: if
    the first of them in that order is one the class does not declare, the
    exception is the one that names it.  Without array indices among the
    names that is the first path. *)
Theorem constructor_rejects_undeclared_relation :
  forall (E : Env) (rec : Methods) (cls : ModelClass) (data : value) (options : Options)
         (activeRelations : paths) (p : string),
  opt_relations options = Some activeRelations ->
  In (Some p) activeRelations ->
  declared cls (first_segment p) = false ->
  (exists e, new_Model E rec cls data options = Throw e)
  /\ (forall ps table k rest,
        activeRelations = map Some ps -> own_names ps ->
        relations cls = Some table ->
        visit_order (segments ps) = k :: rest -> declared cls k = false ->
        new_Model E rec cls data options = Throw (RelationDoesNotExist k))
  /\ (forall ps table,
        activeRelations = map Some (p :: ps) -> own_names (p :: ps) ->
        (forall q, In q (p :: ps) -> array_index (first_segment q) = None) ->
        relations cls = Some table ->
        new_Model E rec cls data options
        = Throw (RelationDoesNotExist (first_segment p))).
Proof.
  intros E rec cls data options activeRelations p Hopt Hin Hun.
  assert (Hvisit : forall ps table k rest,
            activeRelations = map Some ps -> own_names ps ->
            relations cls = Some table ->
            visit_order (segments ps) = k :: rest -> declared cls k = false ->
            new_Model E rec cls data options = Throw (RelationDoesNotExist k)).
  { intros ps table k rest -> Hown Htable Hk Hunk.
    unfold new_Model. rewrite Hopt. unfold parseRelations.
    cbn [m_activeCurrentRelations m_class].
    destruct (parseRelations_loop_strings ps [] [] Hown) as [relModels Hloop].
    unfold RelModels in Hloop. rewrite Hloop. cbn [bind]. fold (segments ps).
    destruct (parseRelations_loop_keys (map Some ps) [] [] _ eq_refl (NoDup_nil _) Hloop)
      as [Hkeys _].
    cbn [fst snd] in Hkeys. fold (segments ps) in Hkeys.
    pose proof (own_properties_visit relModels) as Hv. rewrite Hkeys, Hk in Hv.
    destruct (own_properties relModels) as [|[k' o] l] eqn:Eown; [discriminate Hv|].
    cbn [map fst] in Hv. injection Hv as -> _.
    rewrite (new_relations_head_undeclared E rec cls table (opt_store options)
               ((k, o) :: l) k o l Htable Hunk eq_refl).
    reflexivity. }
  split; [|split; [exact Hvisit|]].
  - unfold new_Model. rewrite Hopt. unfold parseRelations.
    cbn [m_activeCurrentRelations m_class].
    destruct (parseRelations_loop activeRelations ([], [])) as [[relModels cur]|e]
      eqn:Eloop; cbn [bind]; [|eauto].
    destruct (parseRelations_loop_grows _ _ _ _ Eloop) as (_ & Hseg & _).
    cbn [fst] in Hseg.
    destruct (new_relations_undeclared E rec cls (opt_store options)
                (own_properties relModels) (first_segment p)) as [e He];
      [apply own_properties_keys, (Hseg p Hin) | exact Hun|].
    rewrite He. cbn [bind]. eauto.
  - intros ps table Hact Hown Hnoindex Htable.
    assert (Hsegs : forall k, In k (segments (p :: ps)) -> array_index k = None).
    { intros k Hk. apply segments_In in Hk. destruct Hk as (q & Hq & <-).
      apply Hnoindex, Hq. }
    assert (Hhead : exists rest, segments (p :: ps) = first_segment p :: rest).
    { unfold segments. cbn [fold_left includes existsb app].
      generalize ps. intros l.
      assert (G : forall acc a, exists rest,
                fold_left (fun acc p => if includes acc (first_segment p) then acc
                                        else (acc ++ [first_segment p])%list) l (a :: acc)
                = a :: rest).
      { induction l as [|q l IH]; intros acc a; cbn [fold_left]; [eauto|].
        destruct (includes (a :: acc) (first_segment q)); [apply IH|].
        rewrite <- app_comm_cons. apply IH. }
      apply (G [] (first_segment p)). }
    destruct Hhead as [rest Hrest].
    apply (Hvisit (p :: ps) table (first_segment p) rest Hact Hown Htable); [|exact Hun].
    rewrite visit_order_no_index by exact Hsegs. exact Hrest.
Qed.

(** X8 on the application: an animal has no relation [owner], and none
    called [7], which is visited before [owner]. *)
Lemma constructor_rejects_undeclared_relation_witness :
  new_Model demo (methods demo 3) Animal VNull (with_relations ["owner.town"; "kind"])
  = Throw (RelationDoesNotExist "owner")
  /\ new_Model demo (methods demo 3) Animal VNull (with_relations ["owner.town"; "7"])
     = Throw (RelationDoesNotExist "7").
Proof.
  split.
  - exact (proj2 (proj2 (constructor_rejects_undeclared_relation demo (methods demo 3)
                           Animal VNull (with_relations ["owner.town"; "kind"])
                           (map Some ["owner.town"; "kind"]) "owner.town"
                           eq_refl (or_introl eq_refl) eq_refl))
                 ["kind"] _ eq_refl
                 ltac:(intros q [<-|[<-|[]]]; reflexivity)
                 ltac:(intros q [<-|[<-|[]]]; reflexivity) eq_refl).
  - exact (proj1 (proj2 (constructor_rejects_undeclared_relation demo (methods demo 3)
                           Animal VNull (with_relations ["owner.town"; "7"])
                           (map Some ["owner.town"; "7"]) "owner.town"
                           eq_refl (or_introl eq_refl) eq_refl))
                 ["owner.town"; "7"] _ "7" ["owner"] eq_refl
                 ltac:(intros q [<-|[<-|[]]]; reflexivity) eq_refl eq_refl eq_refl).
Defined.

Lemma new_relation_fresh (E : Env) n cls table store relName target :
  relations cls = Some table -> assoc table relName = Some target ->
  (forall sc, target = ToStore sc -> nested_repository_for store relName = VUndefined) ->
  new_relation E (methods E (S n)) cls store relName None
  = Ok (fresh_relation E store relName target).
Proof.
  intros Htable Htarget Hrepo. unfold new_relation. rewrite Htable, Htarget.
  destruct target as [c|sc].
  - cbn [methods rec_new fresh_relation bind]. unfold nested_repository_for.
    destruct store as [nestedRepository|]; [|reflexivity].
    destruct (truthy (prop nestedRepository relName)); reflexivity.
  - specialize (Hrepo sc eq_refl). unfold nested_repository_for in Hrepo.
    destruct store as [nestedRepository|]; [|reflexivity].
    destruct (truthy (prop nestedRepository relName)) eqn:Et; [|reflexivity].
    rewrite Hrepo in Et. discriminate.
Qed.

Lemma new_relations_fresh (E : Env) n cls table store (f : string -> Rel) :
  relations cls = Some table ->
  forall segs : list string,
  (forall seg, In seg segs ->
     exists target, assoc table seg = Some target
       /\ (forall sc, target = ToStore sc -> nested_repository_for store seg = VUndefined)
       /\ f seg = fresh_relation E store seg target) ->
  new_relations E (methods E (S n)) cls store (map (fun seg => (seg, None)) segs)
  = Ok (map (fun seg => (seg, f seg)) segs).
Proof.
  intros Htable. induction segs as [|seg segs IH]; intros Hsegs; [reflexivity|].
  cbn [map new_relations].
  destruct (Hsegs seg (or_introl eq_refl)) as (target & Htarget & Hrepo & Hf).
  rewrite (new_relation_fresh E n cls table store seg target Htable Htarget Hrepo).
  cbn [bind]. rewrite IH by (intros s Hs; apply Hsegs; right; exact Hs).
  cbn [bind]. rewrite Hf. reflexivity.
Qed.

Lemma own_properties_const {A : Type} (c : A) (names : list string) :
  own_properties (map (fun name => (name, c)) names)
  = map (fun name => (name, c)) (visit_order names).
Proof.
  unfold visit_order.
  replace (map (fun name => (name, c)) names)
    with (map (fun kv : string * unit => (fst kv, c)) (map (fun name => (name, tt)) names))
    by (rewrite map_map; reflexivity).
  rewrite (own_properties_map (fun _ : string * unit => c)), map_map. reflexivity.
Qed.

Lemma includes_ext (l l' : list string) k :
  (forall s, In s l <-> In s l') -> includes l k = includes l' k.
Proof.
  intros H. destruct (includes l k) eqn:E1, (includes l' k) eqn:E2; try reflexivity.
  - apply includes_In, H, includes_In in E1. congruence.
  - apply includes_In, H, includes_In in E2. congruence.
Qed.

(** X9. The constructor with relations that have no nested relations.  For
    a class with a [relations()], no data, and relation names without a dot
    that the class declares and that are free (no property that every
    object inherits, none that [Model.js] gives an entity, no attribute of
    the class), [new cls(data, options)] returns an entity whose current
    relations are the names in the order of their first occurrence, each
    once, whose attributes have their initial values, and in which every
    relation is as constructed: an empty collection with the default
    pagination state, or an entity of the related class with its initial
    values that has the repository which the owning collection keeps for
    the relation, if it keeps one.  (A collection relation for which the
    owning collection keeps a repository is left out: the [Store]
    constructor does not take a repository.) *)
Theorem constructor_with_declared_relations :
  forall (E : Env) (n : nat) (cls : ModelClass) (table : list (string * RelTarget))
         (names : list string) (store : option obj) (repository data : value),
  relations cls = Some table ->
  truthy data = false ->
  (forall name, In name names ->
     regex_match name = None
     /\ free_name E cls name = true
     /\ exists target,
          assoc table name = Some target
          /\ (forall sc, target = ToStore sc ->
                nested_repository_for store name = VUndefined)) ->
  exists m : Model,
    new_Model E (methods E (S n)) cls data
      {| opt_store := store; opt_repository := repository;
         opt_relations := Some (map Some names) |} = Ok m
    /\ m_attrs (mdata m)
       = filter (fun kv => negb (startsWith "__" (fst kv))) (observables cls)
    /\ m_activeCurrentRelations (mdata m) = segments names
    /\ (forall name, In name (m_activeCurrentRelations (mdata m)) <-> In name names)
    /\ (forall name target, In name names -> assoc table name = Some target ->
          rel_field m name = Some (fresh_relation E store name target)).
Proof.
  intros E n cls table names store repository data Htable Hdata Hnames.
  assert (Hbare : forall p, In p names -> regex_match p = None)
    by (intros p Hp; apply (Hnames p Hp)).
  assert (Hfirst : forall p, In p names -> first_segment p = p)
    by (intros p Hp; unfold first_segment; rewrite (Hbare p Hp); reflexivity).
  assert (Hown : own_names names).
  { intros p Hp. rewrite (Hfirst p Hp).
    destruct (Hnames p Hp) as (_ & Hfree & _). unfold free_name, plain_name in Hfree.
    destruct (includes Object_prototype p); [discriminate Hfree | reflexivity]. }
  assert (Hsegs : forall s, In s (segments names) <-> In s names).
  { intros s. rewrite segments_In. split.
    - intros (p & Hp & <-). rewrite (Hfirst p Hp). exact Hp.
    - intros Hs. exists s. split; [exact Hs | apply Hfirst, Hs]. }
  set (f := fun seg => match assoc table seg with
                       | Some target => fresh_relation E store seg target
                       | None => RStore (blank_Store PersonStore)
                       end).
  unfold new_Model. cbn [opt_relations opt_store opt_repository].
  unfold parseRelations. cbn [m_activeCurrentRelations m_class].
  rewrite (parseRelations_groups names Hown)
    by (apply bare_first_bare; [intros p [] | exact Hbare]).
  cbn [bind].
  assert (Hgrouped : grouped names = map (fun seg => (seg, None)) (segments names)).
  { unfold grouped. apply map_ext. intros seg.
    rewrite (nested_under_bare seg names Hbare). reflexivity. }
  rewrite Hgrouped, own_properties_const.
  rewrite (new_relations_fresh E n cls table store f Htable).
  2:{ intros seg Hseg. apply visit_order_In, Hsegs in Hseg.
      destruct (Hnames seg Hseg) as (_ & _ & target & Htarget & Hrepo).
      exists target. split; [exact Htarget|]. split; [exact Hrepo|].
      subst f. cbv beta. rewrite Htarget. reflexivity. }
  cbn [bind]. rewrite Hdata.
  eexists. split; [reflexivity|]. cbn [mdata m_attrs m_activeCurrentRelations].
  split; [reflexivity|]. split; [reflexivity|]. split; [exact Hsegs|].
  intros name target Hname Htarget.
  unfold rel_field. cbn [mrels]. rewrite fields_of_assoc, (assoc_map_key f).
  rewrite map_map. cbn [fst]. rewrite map_id.
  rewrite (includes_ext (visit_order (segments names)) (segments names) name)
    by (intros s; apply visit_order_In).
  replace (includes (segments names) name) with true
    by (symmetry; apply includes_In, Hsegs, Hname).
  subst f. cbv beta. rewrite Htarget. reflexivity.
Qed.

(** X9 on the application: [new Animal(null, {relations: ['pastOwners',
    'kind', 'pastOwners']})]. *)
Lemma constructor_with_declared_relations_witness :
  exists m : Model,
    new_Model demo (methods demo 1) Animal VNull
      (with_relations ["pastOwners"; "kind"; "pastOwners"]) = Ok m
    /\ m_activeCurrentRelations (mdata m) = ["pastOwners"; "kind"]
    /\ rel_field m "kind" = Some (RModel (fresh_Model Kind VUndefined false))
    /\ rel_field m "pastOwners" = Some (RStore (blank_Store PersonStore)).
Proof.
  destruct (constructor_with_declared_relations demo 0 Animal
              [("kind", ToModel "Kind"); ("pastOwners", ToStore PersonStore)]
              ["pastOwners"; "kind"; "pastOwners"] None VUndefined VNull
              eq_refl eq_refl) as (m & Hnew & _ & Hcur & _ & Hrels).
  - intros name [<-|[<-|[<-|[]]]]; (split; [reflexivity|]); (split; [reflexivity|]);
      eexists; (split; [reflexivity|]); intros sc _; reflexivity.
  - exists m. split; [exact Hnew|]. split; [rewrite Hcur; reflexivity|]. split.
    + exact (Hrels "kind" (ToModel "Kind") (or_intror (or_introl eq_refl)) eq_refl).
    + exact (Hrels "pastOwners" (ToStore PersonStore) (or_introl eq_refl) eq_refl).
Defined.

(** ** Membership: what [add] and [get] do together *)

Lemma map_result_nth {A B : Type} (f : A -> result B) : forall xs ys,
  map_result f xs = Ok ys ->
  List.length ys = List.length xs
  /\ forall j y, nth_error ys j = Some y -> exists x, nth_error xs j = Some x /\ f x = Ok y.
Proof.
  induction xs as [|x xs IH]; intros ys; cbn [map_result].
  - intros [= <-]. split; [reflexivity|]. intros [|j] y; discriminate.
  - destruct (f x) as [y0|e] eqn:Ex; cbn [bind]; [|discriminate].
    destruct (map_result f xs) as [ys0|e]; cbn [bind]; [|discriminate].
    intros [= <-]. destruct (IH ys0 eq_refl) as [Hlen Hnth].
    split; [cbn [List.length]; lia|].
    intros [|j] y; cbn [nth_error].
    + intros [= <-]. eauto.
    + apply Hnth.
Qed.

(** The instances [_newModel] makes are of the collection's entity type. *)
Lemma newModel_class (E : Env) n s v m :
  newModel E (methods E (S n)) s v = Ok m -> pk m = primaryKey (Store_Model E s).
Proof.
  unfold newModel. cbn [methods rec_new]. intros Hnew.
  destruct (new_Model_shape _ _ _ _ _ _ Hnew) as (Hcls & _).
  unfold pk. rewrite Hcls. reflexivity.
Qed.

Lemma Store_add_inv (E : Env) rec s input s' instances :
  Store_add E rec s input = (s', Ok instances) ->
  map_result (newModel E rec s) (match input with VArr xs => xs | _ => [input] end)
  = Ok instances
  /\ add_each E instances s = (s', None).
Proof.
  unfold Store_add.
  destruct (map_result _ _) as [modelInstances|e]; [|discriminate].
  destruct (add_each E modelInstances s) as [s1 [e|]] eqn:Eeach; [discriminate|].
  intros [= <- <-]. split; [reflexivity | exact Eeach].
Qed.

(** What a call of [add] that returned has done. *)
Lemma add_each_returned (E : Env) instances s s' :
  add_each E instances s = (s', None) ->
  s' = set_models (models s ++ instances) s
  /\ forall j mj, nth_error instances j = Some mj ->
       truthy (primaryValue E s mj) = true ->
       forall member, In member (models s ++ firstn j instances) ->
                      loose_eq E (id_of member) (primaryValue E s mj) = false.
Proof.
  intros Hadd. destruct (add_each_spec E instances s) as (k & Hfst & Hmin & Hsnd).
  rewrite Hadd in Hfst, Hsnd. cbn [fst snd] in *. subst k.
  rewrite firstn_all in Hfst. split; [exact Hfst|].
  intros j mj Hnth. apply Hmin; [|exact Hnth].
  apply nth_error_Some. congruence.
Qed.

(** X10. [add] returns normally exactly when no new instance with a
    defined (truthy) primary key has a key that [==] the key of a member
    or of an instance before it in the input; the collection then holds its
    previous members followed by all the new instances, in order, and
    these are what is returned.  In particular instances without a primary
    key (unset, 0, the empty string) are never rejected, however many. *)
Theorem add_returns_iff_no_conflict :
  forall (E : Env) (rec : Methods) (s : Store) (input : value) (instances : list Model),
  map_result (newModel E rec s) (match input with VArr xs => xs | _ => [input] end)
  = Ok instances ->
  ((forall j mj, nth_error instances j = Some mj ->
      truthy (primaryValue E s mj) = true ->
      forall member, In member (models s ++ firstn j instances) ->
                     loose_eq E (id_of member) (primaryValue E s mj) = false)
   <-> Store_add E rec s input = (set_models (models s ++ instances) s, Ok instances))
  /\ ((forall mj, In mj instances -> truthy (primaryValue E s mj) = false) ->
      Store_add E rec s input = (set_models (models s ++ instances) s, Ok instances))
  /\ (forall s' r, Store_add E rec s input = (s', Ok r) ->
        r = instances /\ s' = set_models (models s ++ instances) s).
Proof.
  intros E rec s input instances Hnew.
  assert (Hiff : (forall j mj, nth_error instances j = Some mj ->
                    truthy (primaryValue E s mj) = true ->
                    forall member, In member (models s ++ firstn j instances) ->
                                   loose_eq E (id_of member) (primaryValue E s mj) = false)
                 <-> Store_add E rec s input
                     = (set_models (models s ++ instances) s, Ok instances)).
  { split.
    - intros Hfree. unfold Store_add. rewrite Hnew.
      destruct (add_each_spec E instances s) as (k & Hfst & _ & Hsnd).
      destruct (add_each E instances s) as [s1 [e|]]; cbn [fst snd] in *.
      + exfalso. destruct Hsnd as (mi & Hnth & _ & Htr & member & Hin & Heq).
        rewrite (Hfree k mi Hnth Htr member Hin) in Heq. discriminate.
      + subst k. rewrite firstn_all in Hfst. rewrite Hfst. reflexivity.
    - intros Hadd. apply Store_add_inv in Hadd. destruct Hadd as [_ Hadd].
      apply (add_each_returned E instances s _ Hadd). }
  split; [exact Hiff|]. split.
  - intros Hunset. apply Hiff. intros j mj Hnth Htr.
    rewrite (Hunset mj (nth_error_In _ _ Hnth)) in Htr. discriminate.
  - intros s' r Hadd. destruct (Store_add_inv E rec s input s' r Hadd) as [Hr Heach].
    rewrite Hnew in Hr. injection Hr as <-.
    split; [reflexivity|]. apply (add_each_returned E instances s s' Heach).
Qed.

(** X10 on the application: two animals without an identifier are added
    to [zoo]. *)
Lemma add_returns_iff_no_conflict_witness :
  let input := VArr [VObj [("name", VStr "Cat")]; VObj [("name", VStr "Cat")]] in
  map id_of (models (fst (Store_add demo (methods demo 3) zoo input)))
  = [VNum 1; VNum 2; VNull; VNull].
Proof.
  intros input.
  destruct (add_returns_iff_no_conflict demo (methods demo 3) zoo input
              (instance [] (map_result (newModel demo (methods demo 3) zoo)
                              [VObj [("name", VStr "Cat")]; VObj [("name", VStr "Cat")]]))
              eq_refl) as (_ & Hunset & _).
  rewrite Hunset.
  - reflexivity.
  - intros mj [<-|[<-|[]]]; reflexivity.
Defined.

Lemma loose_eq_refl (E : Env) v :
  truthy v = true -> is_primitive v = true -> loose_eq E v v = true.
Proof.
  destruct v as [| |[|]|n| |str|xs|o|q numeral|positive]; try discriminate; intros _ _; cbn.
  - reflexivity.
  - apply Z.eqb_refl.
  - apply String.eqb_refl.
  - apply Qeq_bool_iff. reflexivity.
  - apply Bool.eqb_reflx.
Qed.

Lemma find_app_first {A : Type} (p : A -> bool) (l1 l2 : list A) (x : A) :
  (forall y, In y l1 -> p y = false) -> p x = true ->
  List.find p (l1 ++ x :: l2) = Some x.
Proof.
  intros Hl1 Hx. rewrite find_app, (find_all_false p l1 Hl1).
  cbn [List.find]. rewrite Hx. reflexivity.
Qed.

Lemma nth_error_firstn_split {A : Type} (l : list A) j x :
  nth_error l j = Some x -> l = (firstn j l ++ x :: skipn (S j) l)%list.
Proof.
  revert j. induction l as [|a l IH]; intros [|j]; cbn [nth_error]; try discriminate.
  - intros [= ->]. reflexivity.
  - intros H. cbn [firstn skipn]. rewrite <- app_comm_cons. f_equal. apply IH, H.
Qed.

(** After a call of [add] that returned, [get] finds what it found
    before, and finds each new instance under its primary key. *)
Lemma add_get_lookup :
  forall (E : Env) (n : nat) (s : Store) (input : value) (s' : Store)
         (instances : list Model),
  Store_add E (methods E (S n)) s input = (s', Ok instances) ->
  (forall id member, Store_get E s id = Some member -> Store_get E s' id = Some member)
  /\ (forall j mj, nth_error instances j = Some mj ->
        truthy (id_of mj) = true -> is_primitive (id_of mj) = true ->
        Store_get E s' (id_of mj) = Some mj).
Proof.
  intros E n s input s' instances Hadd.
  destruct (Store_add_inv _ _ _ _ _ _ Hadd) as [Hnew Heach].
  destruct (add_each_returned E instances s s' Heach) as [-> Hfree].
  unfold Store_get. rewrite models_set_models. split.
  - intros id member Hget. rewrite find_app. unfold Store_get in Hget.
    rewrite Hget. reflexivity.
  - intros j mj Hnth Htr Hprim.
    destruct (proj2 (map_result_nth _ _ _ Hnew) j mj Hnth) as (x & _ & Hx).
    assert (Hid : id_of mj = primaryValue E s mj).
    { unfold id_of, primaryValue. rewrite (newModel_class E n s x mj Hx). reflexivity. }
    rewrite (nth_error_firstn_split instances j mj Hnth) at 1.
    rewrite app_assoc. apply find_app_first.
    + intros member Hin. rewrite Hid. apply (Hfree j mj Hnth); [|exact Hin].
      rewrite <- Hid. exact Htr.
    + apply loose_eq_refl; assumption.
Qed.

(** [add] that returned keeps the primary keys distinct. *)
Lemma add_unique_keys :
  forall (E : Env) (n : nat) (s : Store) (input : value) (s' : Store)
         (instances : list Model),
  Store_add E (methods E (S n)) s input = (s', Ok instances) ->
  unique_keys E (models s) -> unique_keys E (models s').
Proof.
  intros E n s input s' instances Hadd Huniq.
  destruct (Store_add_inv _ _ _ _ _ _ Hadd) as [Hnew Heach].
  destruct (add_each_returned E instances s s' Heach) as [-> Hfree].
  rewrite models_set_models.
  intros i j mi mj Hij Hi Hj Htr.
  destruct (Nat.lt_ge_cases j (List.length (models s))) as [Hold|Hnewj].
  - rewrite nth_error_app1 in Hi, Hj by lia. apply (Huniq i j mi mj Hij Hi Hj Htr).
  - rewrite nth_error_app2 in Hj by exact Hnewj.
    set (j' := (j - List.length (models s))%nat) in *.
    destruct (proj2 (map_result_nth _ _ _ Hnew) j' mj Hj) as (x & _ & Hx).
    assert (Hid : id_of mj = primaryValue E s mj).
    { unfold id_of, primaryValue. rewrite (newModel_class E n s x mj Hx). reflexivity. }
    rewrite Hid. apply (Hfree j' mj Hj); [rewrite <- Hid; exact Htr|].
    destruct (Nat.lt_ge_cases i (List.length (models s))) as [Hi'|Hi'].
    + rewrite nth_error_app1 in Hi by exact Hi'.
      apply in_or_app. left. apply (nth_error_In _ _ Hi).
    + rewrite nth_error_app2 in Hi by exact Hi'.
      apply in_or_app. right.
      apply (nth_error_In (firstn j' instances) (i - List.length (models s))).
      rewrite nth_error_firstn.
      replace (i - List.length (models s) <? j')%nat with true
        by (symmetry; apply Nat.ltb_lt; subst j'; lia).
      exact Hi.
Qed.

(** X11. Insert and look up.  After a call of [add] that returned, [get]
    finds what it found before for every identifier for which it found a
    member, and for every new instance whose primary key is defined
    (truthy) and a primitive value, [get] of that key returns that
    instance.  The members keep distinct primary keys: when no member
    with a defined key comes after a member with a key that [==] it, the
    same holds after the call. *)
Theorem get_after_add :
  forall (E : Env) (n : nat) (s : Store) (input : value) (s' : Store)
         (instances : list Model),
  Store_add E (methods E (S n)) s input = (s', Ok instances) ->
  (forall id member, Store_get E s id = Some member -> Store_get E s' id = Some member)
  /\ (forall j mj, nth_error instances j = Some mj ->
        truthy (id_of mj) = true -> is_primitive (id_of mj) = true ->
        Store_get E s' (id_of mj) = Some mj)
  /\ (unique_keys E (models s) -> unique_keys E (models s')).
Proof.
  intros E n s input s' instances Hadd.
  destruct (add_get_lookup E n s input s' instances Hadd) as [Hold Hnew].
  split; [exact Hold|]. split; [exact Hnew|].
  apply (add_unique_keys E n s input s' instances Hadd).
Qed.

(** X11 on the application: the animal 3 is added to [zoo], which holds
    the animals 1 and 2. *)
Lemma get_after_add_witness :
  let r := Store_add demo (methods demo 3) zoo (VObj [("id", VNum 3); ("name", VStr "Cow")]) in
  option_map (fun m => field m "name") (Store_get demo (fst r) (VNum 3)) = Some (VStr "Cow")
  /\ option_map (fun m => field m "name") (Store_get demo (fst r) (VNum 1)) = Some (VStr "Ape")
  /\ unique_keys demo (models (fst r)).
Proof.
  intros r.
  pose (cow := instance blank_Model
                 (newModel demo (methods demo 3) zoo
                    (VObj [("id", VNum 3); ("name", VStr "Cow")]))).
  destruct (get_after_add demo 2 zoo (VObj [("id", VNum 3); ("name", VStr "Cow")])
              (fst r) [cow] eq_refl) as (Hold & Hnew & Hkeys).
  split; [|split].
  - change (VNum 3) with (id_of cow). rewrite (Hnew O cow eq_refl eq_refl eq_refl).
    reflexivity.
  - rewrite (Hold (VNum 1) (nth 0 (models zoo) blank_Model) eq_refl). reflexivity.
  - apply Hkeys.
    intros [|[|i]] [|[|[|j]]] mi mj Hij Hi Hj Htr; try lia;
      cbn in Hi, Hj; try discriminate;
      try (destruct j; discriminate); try (destruct i; discriminate).
    injection Hi as <-. injection Hj as <-. reflexivity.
Defined.

(** X13. [get] takes the identifier as a number or as a string: on a
    collection whose members' primary keys are not strings, arrays or
    objects, [get] of the decimal numeral of an integer finds what [get]
    of the integer finds. *)
Theorem get_string_or_number :
  forall (E : Env) (s : Store) (n : Z),
  StringToNumber E (toString n) = VNum n ->
  (forall member, In member (models s) ->
     match id_of member with VStr _ | VArr _ | VObj _ => False | _ => True end) ->
  Store_get E s (VStr (toString n)) = Store_get E s (VNum n).
Proof.
  intros E s n Hnum Hids. unfold Store_get.
  induction (models s) as [|member ms IH]; [reflexivity|].
  cbn [List.find].
  assert (Heq : loose_eq E (id_of member) (VStr (toString n))
                = loose_eq E (id_of member) (VNum n)).
  { specialize (Hids member (or_introl eq_refl)).
    destruct (id_of member) as [| |[|]|k| |str|xs|o|q numeral|positive]; try contradiction;
      cbn; rewrite ?Hnum; reflexivity. }
  rewrite Heq. destruct (loose_eq E (id_of member) (VNum n)); [reflexivity|].
  apply IH. intros m Hm. apply Hids. right. exact Hm.
Qed.

(** X13 on the application: [zoo.get('2')]. *)
Lemma get_string_or_number_witness :
  Store_get demo zoo (VStr "2") = Store_get demo zoo (VNum 2)
  /\ option_map (fun m => field m "name") (Store_get demo zoo (VStr "2")) = Some (VStr "Bee").
Proof.
  assert (H : Store_get demo zoo (VStr (toString 2)) = Store_get demo zoo (VNum 2)).
  { apply (get_string_or_number demo zoo 2 eq_refl).
    intros member [<-|[<-|[]]]; exact I. }
  split; [exact H|]. change (VStr "2") with (VStr (toString 2)). rewrite H. reflexivity.
Defined.

(** ** The record [toBackend] makes *)

Lemma obj_set_In_keys (o : obj) k v k0 :
  In k0 (map fst (obj_set o k v)) <-> In k0 (map fst o) \/ k0 = k.
Proof.
  induction o as [|[k' v'] o IH]; cbn [obj_set map fst In].
  - split; [intros [<-|[]]; auto | intros [[] | ->]; auto].
  - destruct (String.eqb k k') eqn:Ek; cbn [map fst In].
    + apply String.eqb_eq in Ek. subst k'. split; [tauto|].
      intros [H | ->]; [exact H | left; reflexivity].
    + rewrite IH. tauto.
Qed.

(** The keys after a loop of conditional assignments. *)
Lemma fold_set_In_keys {A : Type} (skip : A -> bool) (key : A -> string) (val : A -> value)
  (l : list A) k0 : forall o : obj,
  In k0 (map fst (fold_left (fun o x => if skip x then o else obj_set o (key x) (val x)) l o))
  <-> In k0 (map fst o) \/ exists x, In x l /\ skip x = false /\ key x = k0.
Proof.
  induction l as [|x l IH]; intros o; cbn [fold_left].
  - split; [auto | intros [H|(x & [] & _)]; exact H].
  - rewrite IH. destruct (skip x) eqn:Es.
    + split.
      * intros [H|(y & Hy & Hs & Hk)]; [auto|]. right. exists y. cbn [In]. auto.
      * intros [H|(y & [<-|Hy] & Hs & Hk)]; [auto | congruence | eauto].
    + rewrite obj_set_In_keys. split.
      * intros [[H | ->]|(y & Hy & Hs & Hk)]; [auto | |].
        -- right. exists x. cbn [In]. auto.
        -- right. exists y. cbn [In]. auto.
      * intros [H|(y & [<-|Hy] & Hs & Hk)]; [auto | auto | eauto].
Qed.

(** X14. The properties of the record [toBackend] makes are exactly the
    backend names ([snakeCase]) of the attributes whose names do not start
    with an underscore and of the current relations that have a relation
    field: an attribute that starts with an underscore is sent under no
    name of its own. *)
Theorem toBackend_keys :
  forall (E : Env) (m : Model) (k : string),
  In k (map fst (toBackend E m))
  <-> (exists attr, In attr (attributes m) /\ startsWith "_" attr = false
                    /\ snakeCase E attr = k)
      \/ (exists currentRel rel, In currentRel (m_activeCurrentRelations (mdata m))
                                 /\ rel_field m currentRel = Some rel
                                 /\ snakeCase E currentRel = k).
Proof.
  intros E m k. unfold toBackend.
  assert (Hrels : forall o : obj,
            fold_left
              (fun output currentRel =>
                 let relBackendName := snakeCase E currentRel in
                 match rel_field m currentRel with
                 | Some (RModel rel) => obj_set output relBackendName (id_of rel)
                 | Some (RStore rel) =>
                     obj_set output relBackendName (VArr (mapByPrimaryKey E rel))
                 | None => output
                 end) (m_activeCurrentRelations (mdata m)) o
            = fold_left
                (fun o x =>
                   if match rel_field m x with Some _ => false | None => true end then o
                   else obj_set o (snakeCase E x)
                          match rel_field m x with
                          | Some (RModel rel) => id_of rel
                          | Some (RStore rel) => VArr (mapByPrimaryKey E rel)
                          | None => VUndefined
                          end)
                (m_activeCurrentRelations (mdata m)) o).
  { induction (m_activeCurrentRelations (mdata m)) as [|r l IH]; intros o; cbn [fold_left];
      [reflexivity|].
    rewrite IH. destruct (rel_field m r) as [[c|s]|]; reflexivity. }
  rewrite Hrels, fold_set_In_keys.
  rewrite (fold_set_In_keys (startsWith "_") (snakeCase E)
             (fun attr => toJSAttr m attr (field m attr))).
  cbn [map In]. split.
  - intros [[[]|H]|(r & Hr & Hs & Hk)]; [left; exact H|].
    right. exists r. destruct (rel_field m r) as [rel|]; [eauto | discriminate].
  - intros [H|(r & rel & Hr & Hrel & Hk)]; [auto|].
    right. exists r. rewrite Hrel. auto.
Qed.

(** The value under a backend name that one relation only has. *)
Lemma toBackend_relation_own (E : Env) (m : Model) (r : string) (rel : Rel)
  (l : list string) : forall output,
  rel_field m r = Some rel ->
  (forall r', In r' l -> snakeCase E r' = snakeCase E r -> r' = r) ->
  prop (fold_left
          (fun output currentRel =>
             let relBackendName := snakeCase E currentRel in
             match rel_field m currentRel with
             | Some (RModel rel) => obj_set output relBackendName (id_of rel)
             | Some (RStore rel) =>
                 obj_set output relBackendName (VArr (mapByPrimaryKey E rel))
             | None => output
             end) l output) (snakeCase E r)
  = if includes l r
    then match rel with
         | RModel c => id_of c
         | RStore s => VArr (mapByPrimaryKey E s)
         end
    else prop output (snakeCase E r).
Proof.
  intros output Hrel Huniq. revert output.
  induction l as [|a l IH]; intros output; cbn [fold_left]; [reflexivity|].
  rewrite IH by (intros b Hb; apply Huniq; right; exact Hb).
  unfold includes. cbn [existsb]. fold (includes l r).
  destruct (includes l r); [rewrite orb_true_r; reflexivity|]. rewrite orb_false_r.
  cbv zeta. destruct (String.eqb r a) eqn:Ea.
  - apply String.eqb_eq in Ea. subst a. rewrite Hrel.
    destruct rel; apply prop_set_same.
  - assert (Hne : snakeCase E a <> snakeCase E r).
    { intros Heq. rewrite (Huniq a (or_introl eq_refl) Heq) in Ea.
      rewrite String.eqb_refl in Ea. discriminate. }
    destruct (rel_field m a) as [[c|s]|]; try reflexivity; apply prop_set_other, Hne.
Qed.

(** X15. In the record [toBackend] makes, a current relation whose backend
    name no other current relation has stands as the identifier of the
    related entity, or as the list of the primary keys of the members of
    the related collection, in member order (read by the primary key of
    the collection's entity type); an attribute with the same backend name
    is overwritten by it. *)
Theorem toBackend_relation_ids :
  forall (E : Env) (m : Model) (currentRel : string) (rel : Rel),
  In currentRel (m_activeCurrentRelations (mdata m)) ->
  rel_field m currentRel = Some rel ->
  (forall r', In r' (m_activeCurrentRelations (mdata m)) ->
     snakeCase E r' = snakeCase E currentRel -> r' = currentRel) ->
  prop (toBackend E m) (snakeCase E currentRel)
  = match rel with
    | RModel related => field related (pk related)
    | RStore related =>
        VArr (map (fun member => field member (primaryKey (Store_Model E related)))
                (models related))
    end.
Proof.
  intros E m currentRel rel Hin Hrel Huniq. unfold toBackend.
  rewrite (toBackend_relation_own E m currentRel rel _ _ Hrel Huniq).
  replace (includes (m_activeCurrentRelations (mdata m)) currentRel) with true
    by (symmetry; apply includes_In, Hin).
  destruct rel; reflexivity.
Qed.

(** X15 on the application: the animal [lion] has three past owners
    without an identifier. *)
Lemma toBackend_relation_ids_witness :
  prop (toBackend demo lion) "past_owners" = VArr [VNull; VNull; VNull].
Proof.
  exact (toBackend_relation_ids demo lion "pastOwners" (RStore lion_owners)
           (or_introl eq_refl) eq_refl
           (fun r' H _ => match H with
                          | or_introl e => eq_sym e
                          | or_intror f => match f with end
                          end)).
Defined.

(** ** The graph flattener: identifiers and buckets *)

Lemma parseInt_number s :
  match parseInt s with VNum _ | VNaN => True | _ => False end.
Proof.
  unfold parseInt.
  destruct (match trim_start s with
            | String "-" s' => (-1, s')
            | String "+" s' => (1, s')
            | _ => (1, trim_start s)
            end) as [sign s1].
  destruct (match s1 with
            | String "0" (String "x" s') => (16, s')
            | String "0" (String "X" s') => (16, s')
            | _ => (10, s1)
            end) as [radix s2].
  destruct (parse_digits radix s2 None); exact I.
Qed.

Lemma generateNegativeId_number c :
  match fst (generateNegativeId c) with VNum _ | VNaN => True | _ => False end.
Proof.
  unfold generateNegativeId, uniqueId. cbn [fst].
  pose proof (parseInt_number (toString (c + 1))) as H.
  destruct (parseInt _); try contradiction; exact I.
Qed.

Lemma generateNegativeId_counter c : snd (generateNegativeId c) = c + 1.
Proof. reflexivity. Qed.

Lemma generateNegativeId_no_null c : no_null (fst (generateNegativeId c)).
Proof.
  pose proof (generateNegativeId_number c) as H.
  destruct (fst (generateNegativeId c)); try contradiction; split; congruence.
Qed.

Lemma fill_ids_no_null : forall ids c, ~ In VNull (fst (fill_ids ids c)).
Proof.
  induction ids as [|id ids IH]; intros c; cbn [fill_ids]; [intros []|].
  destruct (is_null id) eqn:En.
  - pose proof (generateNegativeId_number c) as Hg.
    destruct (generateNegativeId c) as [id' c1]. cbn [fst] in Hg.
    specialize (IH c1). destruct (fill_ids ids c1) as [rest' c']. cbn [fst] in *.
    intros [H|H]; [subst id'; contradiction | exact (IH H)].
  - specialize (IH c). destruct (fill_ids ids c) as [rest' c']. cbn [fst] in *.
    intros [H|H]; [subst id; discriminate | exact (IH H)].
Qed.

(** Assigning a property keeps what holds of every value assigned and of
    the values that were there. *)
Lemma prop_set_keeps (P : value -> Prop) (o : obj) k v k0 :
  P v -> P (prop o k0) -> P (prop (obj_set o k v) k0).
Proof.
  intros Hv Ho. destruct (String.eqb k k0) eqn:Ek.
  - apply String.eqb_eq in Ek. subst k0. rewrite prop_set_same. exact Hv.
  - apply String.eqb_neq in Ek. rewrite prop_set_other by exact Ek. exact Ho.
Qed.

(** The two assignments of one turn of the loop of [Model.toBackendAll]. *)
Lemma relation_id_synthesized (data : obj) nm c myNewId data1 c1 :
  (if is_null (prop data nm)
   then let '(id, c) := generateNegativeId c in (id, obj_set data nm id, c)
   else (VNull, data, c)) = (myNewId, data1, c1) ->
  (prop data nm <> VNull /\ data1 = data)
  \/ (exists id, no_null id /\ data1 = obj_set data nm id).
Proof.
  destruct (is_null (prop data nm)) eqn:En.
  - pose proof (generateNegativeId_no_null c) as Hg.
    destruct (generateNegativeId c) as [id cg]. cbn [fst] in Hg.
    intros [= <- <- <-]. right. exists id. split; [exact Hg | reflexivity].
  - intros [= <- <- <-]. left. split; [|reflexivity].
    intros Heq. rewrite Heq in En. discriminate.
Qed.

Lemma relation_ids_filled (data1 : obj) nm myNewId c1 myNewId2 data2 c2 :
  match prop data1 nm with
  | VArr ids =>
      let '(ids', c) := fill_ids ids c1 in (VArr ids', obj_set data1 nm (VArr ids'), c)
  | _ => (myNewId, data1, c1)
  end = (myNewId2, data2, c2) ->
  ((forall ids, prop data1 nm <> VArr ids) /\ data2 = data1)
  \/ (exists ids', no_null (VArr ids') /\ data2 = obj_set data1 nm (VArr ids')).
Proof.
  destruct (prop data1 nm) as [| |b|z| |str|ids|o|q numeral|positive] eqn:Ep;
    try (intros [= <- <- <-]; left; split; [intros ids0; discriminate | reflexivity]).
  pose proof (fill_ids_no_null ids c1) as Hfill.
  destruct (fill_ids ids c1) as [ids' c']. cbn [fst] in Hfill.
  intros [= <- <- <-]. right. exists ids'. split; [|reflexivity].
  split; [discriminate|]. intros ids0 [= <-]. exact Hfill.
Qed.

(** The loop of [Model.toBackendAll] on the entity's record. *)
Lemma each_relation_no_null (E : Env) toBackendAll rels :
  forall currentRels data relations c ba c',
  each_relation E toBackendAll rels currentRels data relations c = (Ok ba, c') ->
  exists data',
    ba_data ba = [VObj data']
    /\ (forall k, prop data k <> VNull -> prop data' k <> VNull)
    /\ (forall k, no_null (prop data k) -> no_null (prop data' k))
    /\ (forall currentRel, In currentRel currentRels ->
          no_null (prop data' (snakeCase E currentRel))).
Proof.
  induction currentRels as [|currentRel rest IH]; intros data relations c ba c';
    cbn [each_relation].
  - intros [= <- _]. exists data. cbn [ba_data].
    split; [reflexivity|]. split; [auto|]. split; [auto|]. intros r [].
  - set (nm := snakeCase E currentRel).
    destruct (if is_null (prop data nm)
              then let '(id, c) := generateNegativeId c in (id, obj_set data nm id, c)
              else (VNull, data, c)) as [[myNewId data1] c1] eqn:E1.
    destruct (match prop data1 nm with
              | VArr ids =>
                  let '(ids', c2) := fill_ids ids c1 in
                  (VArr ids', obj_set data1 nm (VArr ids'), c2)
              | _ => (myNewId, data1, c1)
              end) as [[myNewId2 data2] c2] eqn:E2.
    apply relation_id_synthesized in E1. apply relation_ids_filled in E2.
    assert (Hnm : no_null (prop data2 nm)
                  /\ (forall k, prop data k <> VNull -> prop data2 k <> VNull)
                  /\ (forall k, no_null (prop data k) -> no_null (prop data2 k))).
    { assert (H1 : prop data1 nm <> VNull
                   /\ (forall k, prop data k <> VNull -> prop data1 k <> VNull)
                   /\ (forall k, no_null (prop data k) -> no_null (prop data1 k))).
      { destruct E1 as [[Hn ->]|(id & Hid & ->)]; [auto|].
        split; [rewrite prop_set_same; apply Hid|]. split.
        - intros k Hk. apply (prop_set_keeps (fun v => v <> VNull)); [apply Hid | exact Hk].
        - intros k Hk. apply (prop_set_keeps no_null); [exact Hid | exact Hk]. }
      destruct H1 as (Hn1 & Hk1 & Hk2).
      destruct E2 as [[Hna ->]|(ids' & Hids & ->)].
      - split; [split; [exact Hn1 | intros ids Heq; exfalso; apply (Hna ids Heq)]|].
        split; assumption.
      - split; [rewrite prop_set_same; exact Hids|]. split.
        + intros k Hk. apply (prop_set_keeps (fun v => v <> VNull));
            [apply Hids | apply Hk1, Hk].
        + intros k Hk. apply (prop_set_keeps no_null); [exact Hids | apply Hk2, Hk]. }
    destruct Hnm as (Hnm & Hk1 & Hk2).
    destruct (on_field _ currentRel rels) as [[[relBackendData|e] c3]|];
      try discriminate.
    intros Hrest. destruct (IH _ _ _ _ _ Hrest) as (data' & Hd & Hr1 & Hr2 & Hr3).
    exists data'. split; [exact Hd|]. split; [auto|]. split; [auto|].
    intros r [<-|Hr]; [apply Hr2, Hnm | apply Hr3, Hr].
Qed.

(** X16. [toBackendAll] leaves no identifier unset.  When
    [Model.toBackendAll(newId)] returns, its [data] is one record, the
    entity's; the primary key of the record is not [null], and for each
    current relation the record holds, under the relation's backend name, a
    value that is not [null] and, when it is a list, has no [null] in
    it. *)
Theorem toBackendAll_no_null_ids :
  forall (E : Env) (m : Model) (newId : value) (c : Z) (ba : BackendAll) (c' : Z),
  Model_toBackendAll E m newId c = (Ok ba, c') ->
  exists data : obj,
    ba_data ba = [VObj data]
    /\ prop data (pk m) <> VNull
    /\ (forall currentRel, In currentRel (m_activeCurrentRelations (mdata m)) ->
          no_null (prop data (snakeCase E currentRel))).
Proof.
  intros E m newId c ba c' H. destruct m as [d rels]. cbn [Model_toBackendAll] in H.
  set (m := MkModel d rels) in *.
  destruct (if truthy newId then (obj_set (toBackend E m) (pk m) newId, c)
            else if is_null (prop (toBackend E m) (pk m))
                 then let '(id, c0) := generateNegativeId c in
                      (obj_set (toBackend E m) (pk m) id, c0)
                 else (toBackend E m, c)) as [data0 c0] eqn:E0.
  assert (Hpk : prop data0 (pk m) <> VNull).
  { destruct (truthy newId) eqn:Et.
    - injection E0 as <- <-. rewrite prop_set_same. intros ->. discriminate.
    - destruct (is_null (prop (toBackend E m) (pk m))) eqn:En.
      + pose proof (generateNegativeId_no_null c) as Hg.
        destruct (generateNegativeId c) as [id cg]. injection E0 as <- <-.
        rewrite prop_set_same. apply Hg.
      + injection E0 as <- <-. intros Heq. rewrite Heq in En. discriminate. }
  destruct (each_relation_no_null E _ rels _ _ _ _ _ _ H) as (data' & Hd & Hk1 & _ & Hrels).
  exists data'. split; [exact Hd|]. split; [apply Hk1, Hpk | exact Hrels].
Qed.

(** X16 on the application: the animal [lion] and its three past owners,
    all without an identifier. *)
Lemma toBackendAll_no_null_ids_witness :
  exists data : obj,
    ba_data (instance {| ba_data := []; ba_relations := [] |}
               (fst (Model_toBackendAll demo lion VUndefined 0))) = [VObj data]
    /\ prop data "id" <> VNull
    /\ no_null (prop data "past_owners").
Proof.
  destruct (toBackendAll_no_null_ids demo lion VUndefined 0
              (instance {| ba_data := []; ba_relations := [] |}
                 (fst (Model_toBackendAll demo lion VUndefined 0)))
              (snd (Model_toBackendAll demo lion VUndefined 0)) eq_refl)
    as (data & Hd & Hpk & Hrels).
  exists data. split; [exact Hd|]. split; [exact Hpk|].
  exact (Hrels "pastOwners" (or_introl eq_refl)).
Defined.

(** *** Collections of entities without relations *)

(** [Model.toBackendAll] on an entity without current relations. *)
Lemma toBackendAll_no_relations (E : Env) (m : Model) (newId : value) (c : Z) :
  m_activeCurrentRelations (mdata m) = [] ->
  exists data : obj,
    Model_toBackendAll E m newId c
    = (Ok {| ba_data := [VObj data]; ba_relations := [] |},
       c + if negb (truthy newId) && is_null (prop (toBackend E m) (pk m)) then 1 else 0)
    /\ prop data (pk m) <> VNull
    /\ (forall k, k <> pk m -> prop data k = prop (toBackend E m) k)
    /\ (truthy newId = true -> prop data (pk m) = newId)
    /\ (truthy newId = false -> prop (toBackend E m) (pk m) <> VNull ->
        data = toBackend E m)
    /\ (truthy newId = false -> prop (toBackend E m) (pk m) = VNull ->
        prop data (pk m) = fst (generateNegativeId c)).
Proof.
  intros Hrel. destruct m as [d rels]. cbn [mdata] in Hrel.
  cbn [Model_toBackendAll]. rewrite Hrel. set (m := MkModel d rels).
  destruct (truthy newId) eqn:Et; cbn [negb andb each_relation].
  - eexists. split; [rewrite Z.add_0_r; reflexivity|].
    split; [rewrite prop_set_same; intros ->; discriminate|].
    split; [intros k Hk; apply prop_set_other; congruence|].
    split; [intros _; apply prop_set_same|]. split; discriminate.
  - destruct (is_null (prop (toBackend E m) (pk m))) eqn:En.
    + pose proof (generateNegativeId_no_null c) as Hg.
      pose proof (generateNegativeId_counter c) as Hc.
      destruct (generateNegativeId c) as [id cg]. cbn [fst snd] in Hg, Hc. subst cg.
      cbn [each_relation].
      eexists. split; [reflexivity|].
      split; [rewrite prop_set_same; apply Hg|].
      split; [intros k Hk; apply prop_set_other; congruence|].
      split; [discriminate|]. split.
      * intros _ Hnn. exfalso. apply Hnn.
        destruct (prop (toBackend E m) (pk m)); try discriminate. reflexivity.
      * intros _ _. apply prop_set_same.
    + cbn [each_relation]. eexists. split; [rewrite Z.add_0_r; reflexivity|].
      split; [intros Heq; rewrite Heq in En; discriminate|].
      split; [reflexivity|]. split; [discriminate|]. split; [reflexivity|].
      intros _ Heq. rewrite Heq in En. discriminate.
Qed.

Lemma ids_needed_nonneg (E : Env) newIds : forall ms i, 0 <= ids_needed E newIds i ms.
Proof.
  induction ms as [|m ms IH]; intros i; cbn [ids_needed]; [lia|].
  specialize (IH (S i)).
  destruct (negb (truthy (newId_at newIds i)) && is_null (prop (toBackend E m) (pk m)));
    lia.
Qed.

Lemma each_model_leaves (E : Env) (newIds : value) :
  forall (ms : list Model) (i : nat) (data : list value)
         (relations : list (string * list value)) (c : Z),
  (forall m, In m ms -> m_activeCurrentRelations (mdata m) = []) ->
  exists records : list value,
    each_model (Model_toBackendAll E) newIds ms i data relations c
    = (Ok {| ba_data := data ++ records; ba_relations := relations |},
       c + ids_needed E newIds i ms)
    /\ List.length records = List.length ms
    /\ forall j m, nth_error ms j = Some m ->
         exists record : obj,
           nth_error records j = Some (VObj record)
           /\ prop record (pk m) <> VNull
           /\ (forall k, k <> pk m -> prop record k = prop (toBackend E m) k)
           /\ (truthy (newId_at newIds (i + j)) = true ->
               prop record (pk m) = newId_at newIds (i + j))
           /\ (truthy (newId_at newIds (i + j)) = false ->
               prop (toBackend E m) (pk m) <> VNull -> record = toBackend E m)
           /\ (truthy (newId_at newIds (i + j)) = false ->
               prop (toBackend E m) (pk m) = VNull ->
               prop record (pk m)
               = fst (generateNegativeId (c + ids_needed E newIds i (firstn j ms)))).
Proof.
  induction ms as [|m ms IH]; intros i data relations c Hleaves;
    cbn [each_model ids_needed].
  - exists []. rewrite app_nil_r, Z.add_0_r. split; [reflexivity|].
    split; [reflexivity|]. intros [|j] m; discriminate.
  - destruct (toBackendAll_no_relations E m (newId_at newIds i) c
                (Hleaves m (or_introl eq_refl)))
      as (record & Hm & H1 & H2 & H3 & H4 & H5).
    rewrite Hm. cbn [ba_data ba_relations merge_relations fold_left].
    destruct (IH (S i) (data ++ [VObj record])%list relations
                (c + (if negb (truthy (newId_at newIds i))
                         && is_null (prop (toBackend E m) (pk m)) then 1 else 0))
                (fun m' H => Hleaves m' (or_intror H)))
      as (records & Hrest & Hlen & Hnth).
    exists (VObj record :: records). rewrite Hrest, <- app_assoc.
    split; [f_equal; lia|]. split; [cbn [List.length]; lia|].
    intros [|j] m' Hj; cbn [nth_error firstn ids_needed] in *.
    + injection Hj as <-. exists record. rewrite Nat.add_0_r, Z.add_0_r.
      repeat split; assumption.
    + destruct (Hnth j m' Hj) as (record' & Hr & Hrec).
      exists record'. replace (i + S j)%nat with (S i + j)%nat by lia.
      rewrite Z.add_assoc. auto.
Qed.



(** *** Buckets of related records *)

Lemma assoc_set_other {A : Type} (l : list (string * A)) k k' a :
  k <> k' -> assoc (assoc_set l k a) k' = assoc l k'.
Proof.
  intros Hne. induction l as [|[k0 a0] l IH]; cbn [assoc_set assoc].
  - replace (String.eqb k' k) with false; [reflexivity|].
    symmetry. apply String.eqb_neq. congruence.
  - destruct (String.eqb k k0) eqn:Ek; cbn [assoc].
    + apply String.eqb_eq in Ek. subst k0.
      replace (String.eqb k' k) with false; [reflexivity|].
      symmetry. apply String.eqb_neq. congruence.
    + destruct (String.eqb k' k0); [reflexivity | exact IH].
Qed.

Lemma assoc_not_key {A : Type} (l : list (string * A)) k :
  ~ In k (map fst l) -> assoc l k = None.
Proof.
  induction l as [|[k' a'] l IH]; cbn [map fst In assoc]; [reflexivity|].
  intros H. destruct (String.eqb k k') eqn:Ek.
  - apply String.eqb_eq in Ek. subst. tauto.
  - apply IH. tauto.
Qed.



(** ** Requests: what each outcome leaves *)

Lemma errors_fromBackend (E : Env) rec m res :
  m_backendValidationErrors (mdata (fst (Model_fromBackend E rec m res)))
  = m_backendValidationErrors (mdata m).
Proof. exact (f_equal fx_backendValidationErrors (Model_fromBackend_fixed E rec m res)). Qed.

Lemma save_begin_errors (E : Env) m params :
  m_backendValidationErrors (mdata (fst (save_begin E m params))) = VObj [].
Proof.
  unfold save_begin. destruct (getApi _); cbn [fst];
    rewrite errors_add_pending, errors_set_errors; reflexivity.
Qed.

(** X19. The outcomes of [save].  The call empties the validation errors
    and counts the request.  When the request is rejected, the count is
    back at its value before the call; if the reason of the rejection is
    not [null] or [undefined], the validation errors are the reason's
    [valErrors] if it has any and empty if not, and the rejection is passed
    on; if the reason is [null] or [undefined], reading its [valErrors]
    throws, the validation errors stay empty and the promise is rejected
    with that [TypeError] instead.  When the request is fulfilled and the
    response is parsed without an exception, the count is back at its value
    before the call, the validation errors are empty and the promise is
    fulfilled.  When parsing the response throws, the handler for
    rejections runs as well: the count is one less than before the call,
    and the promise is rejected with the exception. *)
Theorem save_outcomes :
  forall (E : Env) (rec : Methods) (m : Model) (params : value),
  let m1 := fst (save_begin E m params) in
  pending m1 = pending m + 1
  /\ m_backendValidationErrors (mdata m1) = VObj []
  /\ (forall err,
        let r := save_settle E rec m1 (Rejected err) in
        pending (fst r) = pending m
        /\ (is_nullish err = false ->
              snd r = Rejected err
              /\ m_backendValidationErrors (mdata (fst r))
                 = if truthy (valErrors err) then valErrors err else VObj [])
        /\ (is_nullish err = true ->
              (exists what, snd r = Rejected (Thrown (TypeError what)))
              /\ m_backendValidationErrors (mdata (fst r)) = VObj []))
  /\ (forall res,
        let r := save_settle E rec m1 (Fulfilled res) in
        m_backendValidationErrors (mdata (fst r)) = VObj []
        /\ match snd (Model_fromBackend E rec (add_pending (-1) m1) res) with
           | None => pending (fst r) = pending m /\ snd r = Fulfilled tt
           | Some e => pending (fst r) = pending m - 1 /\ snd r = Rejected (Thrown e)
           end).
Proof.
  intros E rec m params m1.
  split; [apply save_begin_pending|]. split; [apply save_begin_errors|]. split.
  - intros err r.
    destruct (save_rejected E rec m params err) as (Hp & Hr & Hn).
    fold m1 in Hp, Hr, Hn. fold r in Hp, Hr, Hn.
    split; [exact Hp|]. split; [|exact Hn].
    intros Hnot. destruct (Hr Hnot) as (Hsnd & Ht & Hf). split; [exact Hsnd|].
    destruct (truthy (valErrors err)); [apply Ht | apply Hf]; reflexivity.
  - intros res r. split; [|apply (save_fulfilled E rec m params res)].
    subst r. unfold save_settle, then_, catch_.
    pose proof (errors_fromBackend E rec (add_pending (-1) m1) res) as He.
    rewrite errors_add_pending in He.
    pose proof (save_begin_errors E m params) as H1. fold m1 in H1.
    destruct (Model_fromBackend E rec (add_pending (-1) m1) res) as [m' [e|]];
      cbn [fst snd valErrors truthy is_nullish] in *.
    + rewrite errors_add_pending. congruence.
    + congruence.
Qed.

(** X20. The outcomes of [fetch].  On an entity without an identifier the
    call throws and nothing changes.  Otherwise, when the call returns, the
    request is counted; when the request is fulfilled and the response is
    parsed without an exception the count is back at its value before the
    call; when parsing the response throws, or the request is rejected,
    the request stays counted. *)
Theorem fetch_outcomes :
  forall (E : Env) (rec : Methods) (m : Model) (data : value),
  (isNew m = true -> fetch_begin m data = (m, Throw FetchWithoutId))
  /\ (forall req, snd (fetch_begin m data) = Ok req ->
        let m1 := fst (fetch_begin m data) in
        isNew m = false
        /\ req = fetchModel (url m) data
        /\ pending m1 = pending m + 1
        /\ (forall err, fetch_settle E rec m1 (Rejected err) = (m1, Rejected err))
        /\ (forall res,
              let r := fetch_settle E rec m1 (Fulfilled res) in
              match snd (Model_fromBackend E rec m1 res) with
              | None => pending (fst r) = pending m /\ snd r = Fulfilled tt
              | Some e => pending (fst r) = pending m + 1 /\ snd r = Rejected (Thrown e)
              end)).
Proof.
  intros E rec m data. split.
  - intros Hnew. unfold fetch_begin. rewrite Hnew. reflexivity.
  - intros req Hreq m1.
    split; [unfold fetch_begin in Hreq; destruct (isNew m); [discriminate | reflexivity]|].
    split.
    { unfold fetch_begin in Hreq. destruct (isNew m); [discriminate|].
      destruct (getApi (add_pending 1 m)); cbn [snd] in Hreq; [|discriminate].
      injection Hreq as <-. destruct m as [d rels]. reflexivity. }
    split; [apply (fetch_begin_pending m data req Hreq)|].
    split; [reflexivity|].
    intros res. apply (fetch_fulfilled E rec m data req res Hreq).
Qed.

(** X20 on the application: [rex.fetch()], answered with a new name. *)
Lemma fetch_outcomes_witness :
  let m1 := fst (fetch_begin rex VUndefined) in
  let r := fetch_settle demo (methods demo 3) m1
             (Fulfilled {| p_data := VObj [("name", VStr "Max")]; p_repos := [];
                           p_relMapping := [] |}) in
  pending m1 = 1 /\ pending (fst r) = 0 /\ snd r = Fulfilled tt.
Proof.
  intros m1 r.
  destruct (proj2 (fetch_outcomes demo (methods demo 3) rex VUndefined)
              (fetchModel "/api/animal/4/" VUndefined) eq_refl)
    as (_ & _ & Hp & _ & Hres).
  split; [exact Hp|].
  exact (Hres {| p_data := VObj [("name", VStr "Max")]; p_repos := [];
                 p_relMapping := [] |}).
Defined.

Lemma getApi_add_pending k m : getApi (add_pending k m) = getApi m.
Proof. destruct m as [d rels]. reflexivity. Qed.

Lemma url_add_pending k m : url (add_pending k m) = url m.
Proof. destruct m as [d rels]. reflexivity. Qed.

Lemma store_add_pending k m : m_store (mdata (add_pending k m)) = m_store (mdata m).
Proof. destruct m as [d rels]. reflexivity. Qed.

(** X21. [delete] and the owning collection.  An entity without an
    identifier is only taken out of its collection, if it has one: no
    request is issued, no [api] is needed and the entity does not change.
    For an entity with an identifier, [api] and [urlRoot], the request is
    counted and issued at the entity's [url]; with [immediate] the entity
    is taken out of its collection before the request is issued, and
    otherwise when the request is fulfilled, so that after a fulfilled
    request it has been taken out in either case and the count is back at
    its value before the call, while after a rejected request it has been
    taken out only with [immediate]. *)
Theorem delete_outcomes :
  forall (m : Model) (immediate : bool) (params : value),
  (isNew m = true ->
   delete_begin m immediate params = ((m, m_store (mdata m)), Ok None))
  /\ (isNew m = false -> getApi m = Ok tt ->
      let st1 := fst (delete_begin m immediate params) in
      snd (delete_begin m immediate params) = Ok (Some (deleteModel (url m) params))
      /\ pending (fst st1) = pending m + 1
      /\ snd st1 = immediate && m_store (mdata m)
      /\ (forall err, delete_settle st1 immediate (Rejected err) = (st1, Rejected err))
      /\ pending (fst (fst (delete_settle st1 immediate (Fulfilled tt)))) = pending m
      /\ snd (fst (delete_settle st1 immediate (Fulfilled tt))) = m_store (mdata m)
      /\ snd (delete_settle st1 immediate (Fulfilled tt)) = Fulfilled tt).
Proof.
  intros m immediate params. split.
  - intros Hnew. unfold delete_begin, removeFromStore. rewrite Hnew, orb_true_r.
    reflexivity.
  - intros Hnew Hapi st1. subst st1.
    unfold delete_begin, delete_settle, then_, removeFromStore.
    rewrite Hnew, orb_false_r.
    destruct immediate; cbn [fst snd orb andb];
      rewrite getApi_add_pending, Hapi; cbn [fst snd];
      rewrite ?pending_add_pending, ?url_add_pending, ?store_add_pending;
      repeat split; lia.
Qed.

(** X21 on the application: [rex.delete()] and [rex.delete({immediate:
    true})] for an animal that is in no collection. *)
Lemma delete_outcomes_witness :
  snd (delete_begin rex false VUndefined)
  = Ok (Some (deleteModel "/api/animal/4/" VUndefined))
  /\ pending (fst (fst (delete_settle (fst (delete_begin rex true VUndefined)) true
                          (Fulfilled tt)))) = 0.
Proof.
  split.
  - exact (proj1 (proj2 (delete_outcomes rex false VUndefined) eq_refl eq_refl)).
  - exact (proj1 (proj2 (proj2 (proj2 (proj2
             (proj2 (delete_outcomes rex true VUndefined) eq_refl eq_refl)))))).
Defined.

Lemma Store_getApi_add_pending k s : Store_getApi (Store_add_pending k s) = Store_getApi s.
Proof. destruct s as [d ms]. reflexivity. Qed.

Lemma map_result_length {A B : Type} (f : A -> result B) xs ys :
  map_result f xs = Ok ys -> List.length ys = List.length xs.
Proof. intros H. apply (map_result_nth f xs ys H). Qed.

(** X22. The outcomes of [Store.fetch] on a collection with [api] and
    [url].  The request is counted.  When it is fulfilled the count is
    back at its value before the call and [totalRecords] is the one of the
    response, whether or not the records can be read; when they can, the
    members are replaced by one new member per record, and when reading
    them throws, the members are the ones the collection had and the
    promise is rejected with the exception.  Page and limit do not
    change.  When the request is rejected nothing is undone: the request
    stays counted. *)
Theorem Store_fetch_outcomes :
  forall (E : Env) (rec : Methods) (s : Store) (data : value),
  Store_getApi s = Ok tt ->
  let s1 := fst (Store_fetch_begin s data) in
  snd (Store_fetch_begin s data)
  = Ok (fetchStore (sc_url (s_class (sdata s))) (s_params (sdata s)) data)
  /\ Store_pending s1 = Store_pending s + 1
  /\ models s1 = models s
  /\ (forall err, Store_fetch_settle E rec s1 (Rejected err) = (s1, Rejected err))
  /\ (forall res,
        let r := Store_fetch_settle E rec s1 (Fulfilled res) in
        Store_pending (fst r) = Store_pending s
        /\ totalRecords (s_state (sdata (fst r))) = r_totalRecords res
        /\ Store_currentPage (fst r) = Store_currentPage s
        /\ limit (s_state (sdata (fst r))) = limit (s_state (sdata s))
        /\ match snd r with
           | Fulfilled _ =>
               exists records,
                 p_data (r_payload res) = VArr records
                 /\ List.length (models (fst r)) = List.length records
           | Rejected _ => models (fst r) = models s
           end).
Proof.
  intros E rec s data Hapi s1. subst s1.
  rewrite (Store_fetch_begin_ok s data Hapi). cbn [fst snd].
  split; [reflexivity|]. split; [destruct s; reflexivity|].
  split; [destruct s; reflexivity|]. split; [reflexivity|].
  intros res. unfold Store_fetch_settle, then_.
  set (s2 := set_totalRecords (r_totalRecords res)
               (Store_add_pending (-1) (Store_add_pending 1 s))).
  assert (H2 : Store_pending s2 = Store_pending s
               /\ totalRecords (s_state (sdata s2)) = r_totalRecords res
               /\ Store_currentPage s2 = Store_currentPage s
               /\ limit (s_state (sdata s2)) = limit (s_state (sdata s))
               /\ models s2 = models s).
  { subst s2. destruct s as [d ms]. unfold Store_pending, Store_currentPage. cbn.
    repeat split. lia. }
  destruct H2 as (Hp & Ht & Hc & Hl & Hm).
  pose proof (Store_fromBackend_sdata E rec s2 (r_payload res)) as Hsd.
  unfold Store_pending, Store_currentPage in *.
  unfold Store_fromBackend in *.
  destruct (p_data (r_payload res)) as [| |b|z| |str|records|o|q numeral|positive];
    try (cbn [fst snd]; rewrite Hp, Ht, Hc, Hl, Hm; repeat split; fail).
  destruct (map_result _ records) as [ms|e] eqn:Emap; cbn [fst snd] in *.
  - rewrite Hsd, Hp, Ht, Hc, Hl. repeat split.
    exists records. split; [reflexivity|].
    rewrite models_set_models. apply (map_result_length _ _ _ Emap).
  - rewrite Hp, Ht, Hc, Hl, Hm. repeat split.
Qed.

(** X22 on the application: [zoo.fetch()], answered with one animal of 50. *)
Lemma Store_fetch_outcomes_witness :
  let s1 := fst (Store_fetch_begin zoo VUndefined) in
  let r := Store_fetch_settle demo (methods demo 3) s1
             (Fulfilled {| r_totalRecords := 50;
                           r_payload := {| p_data := VArr [VObj [("id", VNum 5)]];
                                           p_repos := []; p_relMapping := [] |} |}) in
  Store_pending (fst r) = 0 /\ totalPages (fst r) = 2 /\ map id_of (models (fst r)) = [VNum 5].
Proof.
  intros s1 r.
  destruct (Store_fetch_outcomes demo (methods demo 3) zoo VUndefined eq_refl)
    as (_ & _ & _ & _ & Hres).
  destruct (Hres {| r_totalRecords := 50;
                    r_payload := {| p_data := VArr [VObj [("id", VNum 5)]];
                                    p_repos := []; p_relMapping := [] |} |})
    as (Hp & _).
  split; [exact Hp|]. split; reflexivity.
Defined.

(** X23. A request on an instance without [api] (or without [urlRoot], or
    [url] for a collection) throws before anything is sent, but after the
    request has been counted: [save], [saveAll], [fetch] and [delete] of
    an entity with an identifier, and [fetch] of a collection, leave the
    count of pending requests one higher than it was, so that [isLoading]
    holds from then on for an instance that had no request pending. *)
Theorem request_without_api_stays_counted :
  forall (E : Env) (m : Model) (e : error),
  getApi m = Throw e ->
  (forall params,
     snd (save_begin E m params) = Throw e
     /\ pending (fst (save_begin E m params)) = pending m + 1)
  /\ (forall idCounter,
        snd (saveAll_begin E m idCounter) = Throw e
        /\ pending (fst (fst (saveAll_begin E m idCounter))) = pending m + 1)
  /\ (isNew m = false ->
      (forall data,
         snd (fetch_begin m data) = Throw e
         /\ pending (fst (fetch_begin m data)) = pending m + 1)
      /\ (forall immediate params,
            snd (delete_begin m immediate params) = Throw e
            /\ pending (fst (fst (delete_begin m immediate params))) = pending m + 1))
  /\ (0 <= pending m -> forall params, isLoading (fst (save_begin E m params)) = true)
  /\ (forall (s : Store) (e' : error) data,
        Store_getApi s = Throw e' ->
        Store_fetch_begin s data = (Store_add_pending 1 s, Throw e')
        /\ Store_pending (Store_add_pending 1 s) = Store_pending s + 1).
Proof.
  intros E m e Hapi.
  assert (Hsave : forall params,
            snd (save_begin E m params) = Throw e
            /\ pending (fst (save_begin E m params)) = pending m + 1).
  { intros params. split; [|apply save_begin_pending].
    unfold save_begin. rewrite getApi_add_pending.
    replace (getApi (with_mdata (set_backendValidationErrors (VObj [])) m))
      with (getApi m) by (destruct m; reflexivity).
    rewrite Hapi. reflexivity. }
  split; [exact Hsave|]. split.
  { intros idCounter. unfold saveAll_begin. rewrite getApi_add_pending.
    replace (getApi (with_mdata (set_backendValidationErrors (VObj [])) m))
      with (getApi m) by (destruct m; reflexivity).
    rewrite Hapi. cbn [fst snd]. split; [reflexivity|].
    rewrite pending_add_pending, pending_set_errors. reflexivity. }
  split.
  { intros Hnew. split.
    - intros data. unfold fetch_begin. rewrite Hnew, getApi_add_pending, Hapi.
      cbn [fst snd]. split; [reflexivity | apply pending_add_pending].
    - intros immediate params. unfold delete_begin. rewrite Hnew, orb_false_r.
      destruct immediate; cbn [fst snd removeFromStore];
        rewrite getApi_add_pending, Hapi; cbn [fst snd];
        (split; [reflexivity | apply pending_add_pending]). }
  split.
  { intros Hpos params. unfold isLoading. apply Z.ltb_lt.
    pose proof (proj2 (Hsave params)) as Hp. unfold pending in Hp, Hpos. lia. }
  intros s e' data Hs. unfold Store_fetch_begin.
  rewrite Store_getApi_add_pending, Hs. split; [reflexivity|].
  destruct s as [d ms]. reflexivity.
Qed.

(** X23 on an example: an animal of a class without [api]. *)
Lemma request_without_api_stays_counted_witness :
  let offline := with_mdata
                   (set_class {| primaryKey := "id"; observables := observables Animal;
                                 casts := []; relations := relations Animal;
                                 urlRoot := urlRoot Animal; api := false |}) rex in
  snd (save_begin demo offline VUndefined) = Throw NoApi
  /\ pending (fst (save_begin demo offline VUndefined)) = 1
  /\ isLoading (fst (save_begin demo offline VUndefined)) = true.
Proof.
  intros offline.
  destruct (request_without_api_stays_counted demo offline NoApi eq_refl)
    as (Hsave & _ & _ & Hloading & _).
  split; [apply (Hsave VUndefined)|]. split; [apply (Hsave VUndefined)|].
  apply Hloading. cbv. discriminate.
Defined.

(** ** [fromBackend] and the relations that are not active *)

Lemma split_dots_no_dot (s : string) :
  existsb is_dot (list_ascii_of_string s) = false -> split_dots s = [s].
Proof.
  induction s as [|c s IH]; cbn [list_ascii_of_string existsb split_dots];
    [reflexivity|].
  intros H. apply orb_false_elim in H. destruct H as [Hc Hs].
  rewrite Hc, (IH Hs). reflexivity.
Qed.

(** X24. A response that maps a relation which the entity has not
    activated cannot be read.  When the first entry of [relMapping] names
    a relation, by a name without a dot, whose first segment is no property
    of the entity at all (no relation field, no attribute, none of the
    properties that [Model.js], the observable library or
    [Object.prototype] give it, and written without brackets),
    [fromBackend] throws the [TypeError] of reading [__nestedRepository] of
    [undefined]; the entity is unchanged: no repository is attached and
    nothing of [data] is parsed. *)
Theorem fromBackend_inactive_relation :
  forall (E : Env) (rec : Methods) (m : Model) (res : Payload)
         (relName repoName : string) (rest : list (string * string))
         (seg : string) (path : list string),
  p_relMapping res = (relName, repoName) :: rest ->
  existsb is_dot (list_ascii_of_string relName) = false ->
  split_dots (snakeToCamel E relName) = seg :: path ->
  rel_field m seg = None ->
  includes (attributes m) seg = false ->
  Model_property E seg = false ->
  Model_fromBackend E rec m res
  = (m, Some (TypeError "Cannot read property '__nestedRepository' of undefined")).
Proof.
  intros E rec m res relName repoName rest seg path Hmap Hbare Hsplit Hrel Hattr Hprop.
  assert (Hleaves : leaves_model E (seg :: path) m = false)
    by (cbn [leaves_model]; rewrite Hrel, Hattr; exact Hprop).
  unfold Model_fromBackend, fromBackend_with. rewrite Hmap.
  cbn [propagate_repositories]. unfold propagate_repository.
  rewrite Hsplit, Hleaves. cbn [assign_repository]. rewrite Hrel, Hattr.
  unfold find_first_store. rewrite (split_dots_no_dot relName Hbare).
  cbn [List.length seq map firstn skipn join fst List.find].
  rewrite Hsplit, Hleaves. cbn [get_rel orb]. rewrite Hrel. reflexivity.
Qed.

(** X24 on the application: the animal [rex] was constructed without
    relations; the backend answers with its kind. *)
Lemma fromBackend_inactive_relation_witness :
  Model_fromBackend demo (methods demo 3) rex
    (animal_payload (VObj [("name", VStr "Max"); ("kind", VNum 7)]))
  = (rex, Some (TypeError "Cannot read property '__nestedRepository' of undefined")).
Proof.
  exact (fromBackend_inactive_relation demo (methods demo 3) rex
           (animal_payload (VObj [("name", VStr "Max"); ("kind", VNum 7)]))
           "kind" "animal_kind" [] "kind" [] eq_refl eq_refl eq_refl eq_refl eq_refl
           eq_refl).
Defined.

(** ** Reset: [clear] *)

Lemma obj_get_not_key (o : obj) k : ~ In k (map fst o) -> obj_get o k = None.
Proof.
  induction o as [|[k' v'] o IH]; cbn [map fst In obj_get]; [reflexivity|].
  intros H. destruct (String.eqb k k') eqn:Ek.
  - apply String.eqb_eq in Ek. subst. tauto.
  - apply IH. tauto.
Qed.

(** Assigning every property of an object that names no property twice. *)
Lemma prop_fold_pairs (O : obj) : forall (A : obj) k,
  NoDup (map fst O) ->
  prop (fold_left (fun o kv => obj_set o (fst kv) (snd kv)) O A) k
  = match obj_get O k with Some v => v | None => prop A k end.
Proof.
  induction O as [|[k0 v0] O IH]; intros A k Hnd; cbn [fold_left obj_get fst snd];
    [reflexivity|].
  cbn [map fst] in Hnd. inversion Hnd as [|? ? Hni Hnd']; subst.
  rewrite IH by exact Hnd'.
  destruct (String.eqb k k0) eqn:Ek.
  - apply String.eqb_eq in Ek. subst k0.
    rewrite (obj_get_not_key O k Hni). apply prop_set_same.
  - destruct (obj_get O k); [reflexivity|].
    apply prop_set_other. intros ->. rewrite String.eqb_refl in Ek. discriminate.
Qed.

Lemma keys_fold_pairs (O : obj) : forall A : obj,
  (forall kv, In kv O -> In (fst kv) (map fst A)) ->
  map fst (fold_left (fun o kv => obj_set o (fst kv) (snd kv)) O A) = map fst A.
Proof.
  induction O as [|kv O IH]; intros A Hin; cbn [fold_left]; [reflexivity|].
  rewrite IH.
  - apply obj_set_keys, Hin. left. reflexivity.
  - intros kv' Hkv'. rewrite obj_set_keys by (apply Hin; left; reflexivity).
    apply Hin. right. exact Hkv'.
Qed.

Lemma obj_get_In (o : obj) k v : NoDup (map fst o) -> In (k, v) o -> obj_get o k = Some v.
Proof.
  induction o as [|[k' v'] o IH]; cbn [map fst In obj_get]; [tauto|].
  intros Hnd Hin. inversion Hnd as [|? ? Hni Hnd']; subst.
  destruct Hin as [[= -> ->]|Hin]; [rewrite String.eqb_refl; reflexivity|].
  destruct (String.eqb k k') eqn:Ek; [|apply IH; assumption].
  apply String.eqb_eq in Ek. subst k'. exfalso. apply Hni.
  apply (in_map fst) in Hin. exact Hin.
Qed.

(** Assigning to an object the properties of an object with the same names
    gives that object. *)
Lemma fold_pairs_same_keys (O A : obj) :
  map fst A = map fst O -> NoDup (map fst O) ->
  fold_left (fun o kv => obj_set o (fst kv) (snd kv)) O A = O.
Proof.
  intros Hkeys Hnd.
  assert (Hk : map fst (fold_left (fun o kv => obj_set o (fst kv) (snd kv)) O A)
               = map fst O).
  { rewrite keys_fold_pairs; [exact Hkeys|].
    intros kv Hkv. rewrite Hkeys. apply in_map, Hkv. }
  apply obj_ext; [exact Hk | rewrite Hk; exact Hnd|].
  intros k Hin. rewrite Hk in Hin. rewrite prop_fold_pairs by exact Hnd.
  apply in_map_iff in Hin. destruct Hin as ([k' v] & Hfst & Hin). cbn [fst] in Hfst. subst k'.
  unfold prop. rewrite (obj_get_In O k v Hnd Hin). reflexivity.
Qed.

Lemma fold_set_field_pairs (l : list (string * value)) : forall m,
  fold_left (fun m kv => set_field (fst kv) (snd kv) m) l m
  = with_mdata
      (set_attrs (fold_left (fun o kv => obj_set o (fst kv) (snd kv)) l (m_attrs (mdata m))))
      m.
Proof.
  induction l as [|kv l IH]; intros m; cbn [fold_left].
  - symmetry. apply with_set_attrs_same.
  - rewrite IH. destruct m as [d rels]. reflexivity.
Qed.

Lemma clear_relations_attrs clear currentRels : forall m,
  m_attrs (mdata (fst (clear_relations clear currentRels m))) = m_attrs (mdata m).
Proof.
  induction currentRels as [|currentRel rest IH]; intros m; cbn [clear_relations];
    [reflexivity|].
  destruct (rel_field m currentRel) as [[c|s]|]; [| |reflexivity].
  - destruct (clear c) as [c' [e|]]; cbn [fst]; [|rewrite IH]; rewrite mdata_set_rel;
      reflexivity.
  - rewrite IH, mdata_set_rel. reflexivity.
Qed.

Lemma rel_field_set_rel_other k k' r m :
  k <> k' -> rel_field (set_rel k r m) k' = rel_field m k'.
Proof. intros H. destruct m as [d rels]. apply assoc_set_other, H. Qed.

(** What [clear] leaves in a relation field that holds a collection. *)
Lemma clear_relations_store clear rel : forall currentRels m s m',
  rel_field m rel = Some (RStore s) ->
  clear_relations clear currentRels m = (m', None) ->
  rel_field m' rel
  = Some (RStore (if includes currentRels rel then Store_clear s else s)).
Proof.
  induction currentRels as [|currentRel rest IH]; intros m s m' Hrel;
    cbn [clear_relations].
  - intros [= <-]. exact Hrel.
  - unfold includes. cbn [existsb]. fold (includes rest rel).
    destruct (String.eqb rel currentRel) eqn:Ek; cbn [orb].
    + apply String.eqb_eq in Ek. subst currentRel. rewrite Hrel. intros Hrest.
      rewrite (IH _ (Store_clear s) m' (rel_field_set_rel _ _ _) Hrest).
      destruct (includes rest rel); [|reflexivity].
      destruct s. reflexivity.
    + assert (Hne : currentRel <> rel)
        by (intros ->; rewrite String.eqb_refl in Ek; discriminate).
      destruct (rel_field m currentRel) as [[c|s0]|]; [| |discriminate].
      * destruct (clear c) as [c' [e|]]; [discriminate|]. intros Hrest.
        apply (IH _ s m' (eq_trans (rel_field_set_rel_other _ _ _ _ Hne) Hrel) Hrest).
      * intros Hrest.
        apply (IH _ s m' (eq_trans (rel_field_set_rel_other _ _ _ _ Hne) Hrel) Hrest).
Qed.



Lemma same_fixed_no_relations m m' :
  fixed_part m' = fixed_part m -> mrels m = [] ->
  with_mdata (set_attrs (m_attrs (mdata m))) m' = m.
Proof.
  intros Hfix Hrels.
  destruct m as [[c a oa ar acr r s b p] rels], m' as [[c' a' oa' ar' acr' r' s' b' p'] rels'].
  cbn [mrels] in Hrels. subst rels.
  unfold fixed_part in Hfix. cbn in Hfix.
  injection Hfix as -> _ -> -> -> -> -> -> -> Hr.
  destruct rels'; [reflexivity | discriminate Hr].
Qed.

(** X26. [clear] undoes [parse] on an entity without relations: when the
    attributes of the entity have their original values and no name
    occurs twice among them, then after [parse(data)], for any data, and
    whether it returned or threw, [clear] returns and the entity is what it
    was before [parse]. *)
Theorem clear_after_parse :
  forall (E : Env) (rec : Methods) (fuel : nat) (m : Model) (data : value),
  mrels m = [] ->
  m_activeCurrentRelations (mdata m) = [] ->
  m_attrs (mdata m) = m_originalAttributes (mdata m) ->
  NoDup (attributes m) ->
  Model_clear (S fuel) (fst (Model_parse E rec m data)) = (m, None).
Proof.
  intros E rec fuel m data Hrels Hcur Horig Hnd.
  pose proof (Model_parse_fixed E rec m data) as Hfix.
  set (m1 := fst (Model_parse E rec m data)) in *.
  pose proof (f_equal fx_attributes Hfix) as Ha.
  pose proof (f_equal fx_originalAttributes Hfix) as Ho.
  pose proof (f_equal fx_activeCurrentRelations Hfix) as Hc.
  cbn in Ha, Ho, Hc.
  cbn [Model_clear]. rewrite fold_set_field_pairs.
  replace (m_activeCurrentRelations (mdata (with_mdata _ m1)))
    with (m_activeCurrentRelations (mdata m1)) by (destruct m1; reflexivity).
  rewrite Hc, Hcur. cbn [clear_relations]. f_equal.
  rewrite fold_pairs_same_keys.
  - rewrite Ho, <- Horig. apply same_fixed_no_relations; assumption.
  - fold (attributes m1). rewrite Ha, Ho. unfold attributes. rewrite Horig. reflexivity.
  - rewrite Ho, <- Horig. exact Hnd.
Qed.

(** X26 on the application: a new animal is given a name and an identifier
    and is cleared. *)
Lemma clear_after_parse_witness :
  Model_clear 1 (fst (Model_parse demo (methods demo 3) new_animal
                        (VObj [("id", VNum 6); ("name", VStr "Owl")])))
  = (new_animal, None).
Proof.
  apply (clear_after_parse demo (methods demo 3) 0 new_animal); try reflexivity.
  repeat constructor; cbn; intuition discriminate.
Defined.

(** ** Plain copies: [toJS] *)

Lemma Store_toJS_members s : Store_toJS s = VArr (map Model_toJS (models s)).
Proof. destruct s as [d ms]. reflexivity. Qed.

Lemma toJS_relations_prop (f : Rel -> value) (rels : list (string * Rel)) k :
  forall currentRels (output : obj),
  prop (toJS_relations f rels currentRels output) k
  = if includes currentRels k
    then match assoc rels k with Some r => f r | None => prop output k end
    else prop output k.
Proof.
  induction currentRels as [|c rest IH]; intros output; cbn [toJS_relations];
    [reflexivity|].
  rewrite IH, on_field_assoc. unfold includes. cbn [existsb]. fold (includes rest k).
  destruct (String.eqb k c) eqn:Ek; cbn [orb].
  - apply String.eqb_eq in Ek. subst c.
    destruct (assoc rels k) as [r|]; cbn [option_map].
    + rewrite prop_set_same. destruct (includes rest k); reflexivity.
    + destruct (includes rest k); reflexivity.
  - assert (Hne : c <> k) by (intros ->; rewrite String.eqb_refl in Ek; discriminate).
    assert (Hsame : prop match option_map f (assoc rels c) with
                         | Some copy => obj_set output c copy
                         | None => output
                         end k = prop output k).
    { destruct (option_map f (assoc rels c)); [apply prop_set_other, Hne | reflexivity]. }
    rewrite Hsame. reflexivity.
Qed.

Lemma toJS_relations_keys (f : Rel -> value) (rels : list (string * Rel)) k :
  forall currentRels (output : obj),
  In k (map fst (toJS_relations f rels currentRels output))
  <-> In k (map fst output) \/ (In k currentRels /\ assoc rels k <> None).
Proof.
  induction currentRels as [|c rest IH]; intros output; cbn [toJS_relations In].
  - tauto.
  - rewrite IH, on_field_assoc.
    destruct (assoc rels c) as [r|] eqn:Ec; cbn [option_map].
    + rewrite obj_set_In_keys. split.
      * intros [[H | ->]|[H1 H2]]; [tauto | right | tauto].
        split; [left; reflexivity | congruence].
      * intros [H|[[-> | H1] H2]]; tauto.
    + split; [tauto|].
      intros [H|[[-> | H1] H2]]; [tauto | congruence | tauto].
Qed.


(** The copy of an entity without relations and casts is its attribute
    object. *)
Lemma fold_set_own (o : obj) :
  NoDup (map fst o) ->
  fold_left (fun out a => obj_set out a (prop o a)) (map fst o) [] = o.
Proof.
  intros Hnd.
  assert (Hgen : forall (l : obj) (acc : obj),
            NoDup (map fst (acc ++ l)) ->
            (forall kv, In kv l -> prop o (fst kv) = snd kv) ->
            fold_left (fun out a => obj_set out a (prop o a)) (map fst l) acc
            = (acc ++ l)%list).
  { induction l as [|[k v] l IH]; intros acc Hacc Hval; cbn [map fst fold_left].
    - rewrite app_nil_r. reflexivity.
    - pose proof (Hval (k, v) (or_introl eq_refl)) as Hv. cbn [fst snd] in Hv.
      rewrite Hv, obj_set_fresh.
      + rewrite IH; [rewrite <- app_assoc; reflexivity | |].
        * rewrite <- app_assoc. exact Hacc.
        * intros kv Hkv. apply Hval. right. exact Hkv.
      + rewrite map_app in Hacc. cbn [map fst] in Hacc.
        apply NoDup_remove_2 in Hacc. intros Hin. apply Hacc.
        apply in_or_app. left. exact Hin. }
  apply (Hgen o [] Hnd).
  intros [k v] Hkv. cbn [fst snd]. unfold prop. rewrite (obj_get_In o k v Hnd Hkv).
  reflexivity.
Qed.

Lemma toJS_no_relations (e : Model) :
  casts_of e = [] -> m_activeCurrentRelations (mdata e) = [] -> NoDup (attributes e) ->
  Model_toJS e = VObj (m_attrs (mdata e)).
Proof.
  intros Hc Hrel Hnd. destruct e as [d rels]. cbn [Model_toJS].
  cbn [mdata] in Hrel. rewrite Hrel. cbn [toJS_relations]. f_equal.
  unfold attributes in *. cbn [mdata] in *.
  rewrite <- (fold_set_own (m_attrs d) Hnd) at 2. clear Hnd.
  generalize (@nil (string * value)).
  induction (map fst (m_attrs d)) as [|a l IH]; intros acc; cbn [fold_left];
    [reflexivity|].
  rewrite IH. unfold toJSAttr. rewrite Hc. reflexivity.
Qed.

Lemma last_value_for_own (E : Env) (o : obj) attr :
  NoDup (map fst o) -> In attr (map fst o) ->
  (forall a, In a (map fst o) -> snakeToCamel E a = a) ->
  last_value_for E attr o = Some (prop o attr).
Proof.
  intros Hnd Hin Hcamel. induction o as [|[k v] o IH]; [destruct Hin|].
  cbn [map fst] in Hnd, Hin, Hcamel. inversion Hnd as [|? ? Hni Hnd']; subst.
  rewrite last_value_for_cons. unfold prop. cbn [obj_get].
  rewrite (Hcamel k (or_introl eq_refl)).
  destruct (String.eqb attr k) eqn:Ek.
  - apply String.eqb_eq in Ek. subst k.
    assert (Hnone : last_value_for E attr o = None).
    { unfold last_value_for.
      rewrite (find_all_false _ (List.rev o)); [reflexivity|].
      intros [k' v'] Hkv. apply in_rev in Hkv. cbn [fst].
      rewrite (Hcamel k' (or_intror (in_map fst _ _ Hkv))).
      apply String.eqb_neq. intros ->. apply Hni. apply (in_map fst _ _ Hkv). }
    rewrite Hnone, String.eqb_refl. reflexivity.
  - destruct Hin as [->|Hin]; [rewrite String.eqb_refl in Ek; discriminate|].
    rewrite (IH Hnd' Hin (fun a Ha => Hcamel a (or_intror Ha))).
    reflexivity.
Qed.



(** ** Loading a collection: [parse], [fromBackend], [__addFromRepository] *)

(** The member a collection without relations makes of a record that is a
    plain object or falsy. *)
Lemma new_member (E : Env) n cls nested record :
  isPlainObject record = true \/ truthy record = false ->
  new_Model E (methods E n) cls record
    {| opt_store := Some nested; opt_repository := VUndefined; opt_relations := Some [] |}
  = Ok (member_of E (methods E n) cls record).
Proof.
  intros Hrec. unfold new_Model, member_of. cbn [opt_relations opt_store opt_repository].
  unfold parseRelations, own_properties, fields_of.
  cbn [parseRelations_loop bind new_relations m_activeCurrentRelations
       m_class m_attrs m_originalAttributes m_repository m_store
       m_backendValidationErrors m_pendingRequestCount fold_left map flat_map].
  fold (fresh_Model cls VUndefined true).
  destruct (truthy record) eqn:Et; [|reflexivity].
  destruct Hrec as [Hobj|Hf]; [|congruence].
  destruct record as [| |b|z| |str|xs|o|q numeral|positive]; try discriminate Hobj.
  pose proof (forIn_parse_attributes_only E (methods E n) o (fresh_Model cls VUndefined true))
    as Hok.
  cbn [Model_parse].
  destruct (forIn (parse_property E (methods E n)) o (fresh_Model cls VUndefined true))
    as [m' [e|]]; cbn [fst snd] in *; [|reflexivity].
  discriminate Hok. intros key _. right. reflexivity.
Qed.

Lemma map_result_all {A B : Type} (f : A -> result B) (g : A -> B) : forall xs,
  (forall x, In x xs -> f x = Ok (g x)) -> map_result f xs = Ok (map g xs).
Proof.
  induction xs as [|x xs IH]; intros H; cbn [map_result map]; [reflexivity|].
  rewrite (H x (or_introl eq_refl)). cbn [bind].
  rewrite IH by (intros y Hy; apply H; right; exact Hy). reflexivity.
Qed.

Lemma record_at_one_key repository key id :
  one_key repository key id = true ->
  record_at repository key id = Ok (record_for repository key id).
Proof.
  unfold one_key, record_at, record_for, filed_under.
  destruct id as [| |b|z| |str|xs|o|q numeral|positive]; try discriminate;
    intros H; destruct (List.find _ _); try reflexivity.
  apply negb_true_iff in H. rewrite H. reflexivity.
Qed.

Lemma records_at_one_key repository key ids :
  (forall id, In id ids -> one_key repository key id = true) ->
  records_at repository key ids = Ok (map (record_for repository key) ids).
Proof.
  intros H. unfold records_at. apply map_result_all.
  intros id Hin. apply record_at_one_key, H, Hin.
Qed.

(** X29. [Store.__addFromRepository(ids)] on a collection without
    relations, of a class whose fields have names of their own (no name of
    a property or method that [Model.js] or [Object.prototype] gives an
    entity), whose repository holds plain objects, for identifiers that
    are read as one key each (none is an array or an object, and a string
    under which no record is filed has no dot and no bracket and is no name
    that every object inherits), returns normally and replaces the members
    by one member per identifier, in the order of [ids] (one for an [ids]
    that is not a list).  The member for an identifier is made of the last
    record of the repository whose primary key, written as a string, is
    the identifier written as a string; for an identifier that the
    repository does not have the member is an entity of the collection's
    type with its initial values. *)
Theorem Store_addFromRepository_members :
  forall (E : Env) (n : nat) (s : Store) (ids : value),
  s_activeRelations (sdata s) = [] ->
  (forall record, In record (elements (s_repository (sdata s))) ->
     isPlainObject record = true) ->
  let cls := Store_Model E s in
  (forall a, In a (map fst (observables cls)) -> plain_name E a = true) ->
  (forall id, In id (ids_of ids) ->
     one_key (s_repository (sdata s)) (primaryKey cls) id = true) ->
  let records :=
    map (record_for (s_repository (sdata s)) (primaryKey cls)) (ids_of ids) in
  Store_addFromRepository E (methods E (S n)) s ids
  = (set_models (map (member_of E (methods E n) cls) records) s, None)
  /\ List.length records = List.length (ids_of ids)
  /\ (forall j id, nth_error (ids_of ids) j = Some id ->
        (forall record, In record (elements (s_repository (sdata s))) ->
           toKey (value_prop record (primaryKey cls)) <> toKey id) ->
        nth_error (map (member_of E (methods E n) cls) records) j
        = Some (fresh_Model cls VUndefined true)).
Proof.
  intros E n s ids Hrel Hrepo cls _ Hids records.
  assert (Hrecords : forall record, In record records ->
            isPlainObject record = true \/ truthy record = false).
  { intros record Hin. subst records.
    apply in_map_iff in Hin. destruct Hin as (id & <- & _).
    unfold record_for, filed_under.
    destruct (List.find _ _) as [r|] eqn:Ef; [|right; reflexivity].
    left. apply Hrepo. apply find_some in Ef. apply in_rev, Ef. }
  split; [|split].
  - unfold Store_addFromRepository. fold cls. fold (ids_of ids).
    rewrite (records_at_one_key _ _ _ Hids). cbn [bind]. fold records.
    rewrite Hrel. cbn [methods rec_new].
    rewrite (map_result_all _ (member_of E (methods E n) cls) records);
      [reflexivity|].
    intros record Hin. apply new_member, Hrecords, Hin.
  - subst records. apply length_map.
  - intros j id Hj Habsent. subst records.
    rewrite !nth_error_map, Hj. cbn [option_map].
    unfold record_for, filed_under.
    rewrite find_all_false; [reflexivity|].
    intros record Hin. apply String.eqb_neq, Habsent, in_rev, Hin.
Qed.

(** X29 on the application: past owners with the repository of persons 1
    and 2, asked for the persons 2 and 9. *)
Lemma Store_addFromRepository_members_witness :
  let owners := with_sdata
                  (s_set_repository (VArr [VObj [("id", VNum 1); ("name", VStr "Jo")];
                                           VObj [("id", VNum 2); ("name", VStr "Al")]]))
                  (blank_Store PersonStore) in
  map (fun m => field m "name")
    (models (fst (Store_addFromRepository demo (methods demo 3) owners
                    (VArr [VNum 2; VNum 9]))))
  = [VStr "Al"; VStr ""].
Proof.
  intros owners.
  destruct (Store_addFromRepository_members demo 2 owners (VArr [VNum 2; VNum 9]) eq_refl)
    as (H & _).
  - intros record [<-|[<-|[]]]; reflexivity.
  - intros a [<-|[<-|[]]]; reflexivity.
  - intros id [<-|[<-|[]]]; reflexivity.
  - rewrite H. reflexivity.
Defined.



(** ** The graph flattener on whole relation trees *)

(** Induction on the relation tree of an entity. *)
Lemma Model_tree_ind (P : Model -> Prop) :
  (forall d rels,
     (forall k related, In (k, RModel related) rels -> P related) ->
     (forall k related member, In (k, RStore related) rels ->
        In member (models related) -> P member) ->
     P (MkModel d rels)) ->
  forall m, P m.
Proof.
  intros HM. fix IH 1. intros [d rels]. apply HM.
  - induction rels as [|[k0 r0] rels IHrels]; intros k related Hin; [destruct Hin|].
    destruct Hin as [Heq|Hin]; [|apply (IHrels k related Hin)].
    destruct r0 as [c|s]; [|discriminate Heq].
    injection Heq as _ <-. apply IH.
  - induction rels as [|[k0 r0] rels IHrels]; intros k related member Hin Hmem;
      [destruct Hin|].
    destruct Hin as [Heq|Hin]; [|apply (IHrels k related member Hin Hmem)].
    destruct r0 as [c|[sd ms]]; [discriminate Heq|].
    injection Heq as _ <-. cbn [models] in Hmem.
    induction ms as [|x ms IHms]; [destruct Hmem|].
    destruct Hmem as [<-|Hmem]; [apply IH | apply (IHms Hmem)].
Qed.

Lemma relations_set_unfold d rels :
  relations_set (MkModel d rels)
  <-> (forall currentRel, In currentRel (m_activeCurrentRelations d) ->
         assoc rels currentRel <> None)
      /\ (forall k related, In (k, RModel related) rels -> relations_set related)
      /\ (forall k related member, In (k, RStore related) rels ->
            In member (models related) -> relations_set member).
Proof.
  cbn [relations_set].
  set (every := fix every (ms : list Model) : Prop :=
                  match ms with
                  | [] => True
                  | member :: ms' => relations_set member /\ every ms'
                  end).
  set (each := fix each (l : list (string * Rel)) : Prop :=
                 match l with
                 | [] => True
                 | (_, RModel related) :: l' => relations_set related /\ each l'
                 | (_, RStore (MkStore _ members)) :: l' => every members /\ each l'
                 end).
  assert (Hevery : forall ms, every ms <-> forall member, In member ms -> relations_set member).
  { induction ms as [|x ms IHms]; cbn [every In]; [tauto|].
    rewrite IHms. split.
    - intros [Hx Hms] member [<-|Hin]; auto.
    - intros H. split; [apply H; left; reflexivity | intros member Hin; apply H; auto]. }
  assert (Heach : forall l,
            each l
            <-> (forall k related, In (k, RModel related) l -> relations_set related)
                /\ (forall k related member, In (k, RStore related) l ->
                      In member (models related) -> relations_set member)).
  { induction l as [|[k0 [c|[sd ms]]] l IHl]; cbn [each In].
    - split; [intros _; split; intros; contradiction | tauto].
    - rewrite IHl. split.
      + intros [Hc [H1 H2]]. split.
        * intros k related [[= _ <-]|Hin]; [exact Hc | apply (H1 k related Hin)].
        * intros k related member [Heq|Hin]; [discriminate Heq | apply (H2 k related member Hin)].
      + intros [H1 H2]. split; [apply (H1 k0); left; reflexivity|]. split.
        * intros k related Hin. apply (H1 k). right. exact Hin.
        * intros k related member Hin. apply (H2 k). right. exact Hin.
    - rewrite IHl, Hevery. split.
      + intros [Hms [H1 H2]]. split.
        * intros k related [Heq|Hin]; [discriminate Heq | apply (H1 k related Hin)].
        * intros k related member [[= _ <-]|Hin];
            [apply Hms | apply (H2 k related member Hin)].
      + intros [H1 H2]. split; [|split].
        * intros member Hin. apply (H2 k0 (MkStore sd ms) member); [left; reflexivity | exact Hin].
        * intros k related Hin. apply (H1 k). right. exact Hin.
        * intros k related member Hin. apply (H2 k). right. exact Hin. }
  rewrite Heach. tauto.
Qed.

Lemma fill_ids_counter : forall ids c, c <= snd (fill_ids ids c).
Proof.
  induction ids as [|id ids IH]; intros c; cbn [fill_ids snd]; [lia|].
  destruct (is_null id).
  - pose proof (generateNegativeId_counter c) as Hc.
    destruct (generateNegativeId c) as [id' c1]. cbn [snd] in Hc. subst c1.
    specialize (IH (c + 1)). destruct (fill_ids ids (c + 1)) as [rest' c']. cbn [snd] in *.
    lia.
  - specialize (IH c). destruct (fill_ids ids c) as [rest' c']. cbn [snd] in *. lia.
Qed.

(** The loop of [Model.toBackendAll] returns when the method of every
    related instance does. *)
Lemma each_relation_returns (E : Env) toBackendAll rels : forall currentRels,
  (forall currentRel, In currentRel currentRels ->
     exists rel, assoc rels currentRel = Some rel
       /\ forall newId c, exists ba c',
            toBackendAll rel newId c = (Ok ba, c') /\ c <= c') ->
  forall data relations c, exists ba c',
    each_relation E toBackendAll rels currentRels data relations c = (Ok ba, c')
    /\ c <= c'.
Proof.
  induction currentRels as [|currentRel rest IH]; intros Hrels data relations c;
    cbn [each_relation].
  - eexists _, c. split; [reflexivity | lia].
  - set (nm := snakeCase E currentRel).
    destruct (if is_null (prop data nm)
              then let '(id, c) := generateNegativeId c in (id, obj_set data nm id, c)
              else (VNull, data, c)) as [[myNewId data1] c1] eqn:E1.
    assert (H1 : c <= c1).
    { destruct (is_null (prop data nm)).
      - pose proof (generateNegativeId_counter c) as Hc.
        destruct (generateNegativeId c) as [id cg]. cbn [snd] in Hc.
        injection E1 as _ _ <-. lia.
      - injection E1 as _ _ <-. lia. }
    destruct (match prop data1 nm with
              | VArr ids =>
                  let '(ids', c2) := fill_ids ids c1 in
                  (VArr ids', obj_set data1 nm (VArr ids'), c2)
              | _ => (myNewId, data1, c1)
              end) as [[myNewId2 data2] c2] eqn:E2.
    assert (H2 : c1 <= c2).
    { destruct (prop data1 nm) as [| |b|z| |str|ids|o|q numeral|positive];
        try (injection E2 as _ _ <-; lia).
      pose proof (fill_ids_counter ids c1) as Hc.
      destruct (fill_ids ids c1) as [ids' cf]. cbn [snd] in Hc.
      injection E2 as _ _ <-. exact Hc. }
    destruct (Hrels currentRel (or_introl eq_refl)) as (rel & Hrel & Hcall).
    rewrite on_field_assoc, Hrel. cbn [option_map].
    destruct (Hcall myNewId2 c2) as (relBackendData & c3 & Hc3 & H3).
    rewrite Hc3.
    destruct (IH (fun r Hr => Hrels r (or_intror Hr)) data2
                (merge_relations (assoc_set relations nm (ba_data relBackendData))
                   (ba_relations relBackendData)) c3) as (ba & c' & Hrest & H4).
    exists ba, c'. split; [exact Hrest | lia].
Qed.

Lemma each_model_returns (toBackendAll : Model -> value -> Z -> result BackendAll * Z)
  newIds : forall ms,
  (forall m, In m ms -> forall newId c, exists ba c',
     toBackendAll m newId c = (Ok ba, c') /\ c <= c') ->
  forall i data relations c, exists ba c',
    each_model toBackendAll newIds ms i data relations c = (Ok ba, c') /\ c <= c'.
Proof.
  induction ms as [|m ms IH]; intros Hms i data relations c; cbn [each_model].
  - eexists _, c. split; [reflexivity | lia].
  - destruct (Hms m (or_introl eq_refl) (newId_at newIds i) c) as (modelData & c1 & Hm & H1).
    rewrite Hm.
    destruct (IH (fun x Hx => Hms x (or_intror Hx)) (S i) (data ++ ba_data modelData)%list
                (merge_relations relations (ba_relations modelData)) c1)
      as (ba & c' & Hrest & H2).
    exists ba, c'. split; [exact Hrest | lia].
Qed.

Lemma toBackendAll_returns_on_tree (E : Env) : forall m,
  relations_set m ->
  forall newId c, exists ba c', Model_toBackendAll E m newId c = (Ok ba, c') /\ c <= c'.
Proof.
  induction m as [d rels IHmodels IHstores] using Model_tree_ind.
  intros Hset newId c. apply relations_set_unfold in Hset.
  destruct Hset as (Hfields & Hmodels & Hstores).
  cbn [Model_toBackendAll]. set (m := MkModel d rels).
  destruct (if truthy newId then (obj_set (toBackend E m) (pk m) newId, c)
            else if is_null (prop (toBackend E m) (pk m))
                 then let '(id, c0) := generateNegativeId c in
                      (obj_set (toBackend E m) (pk m) id, c0)
                 else (toBackend E m, c)) as [data0 c0] eqn:E0.
  assert (H0 : c <= c0).
  { destruct (truthy newId); [injection E0 as _ <-; lia|].
    destruct (is_null (prop (toBackend E m) (pk m))); [|injection E0 as _ <-; lia].
    pose proof (generateNegativeId_counter c) as Hc.
    destruct (generateNegativeId c) as [id cg]. cbn [snd] in Hc.
    injection E0 as _ <-. lia. }
  destruct (each_relation_returns E
              (fun rel => match rel with
                          | RModel c => Model_toBackendAll E c
                          | RStore s => Store_toBackendAll E s
                          end) rels (m_activeCurrentRelations d)) with
    (data := data0) (relations := @nil (string * list value)) (c := c0)
    as (ba & c' & Hres & H1).
  - intros currentRel Hin.
    destruct (assoc rels currentRel) as [rel|] eqn:Erel;
      [|exfalso; apply (Hfields currentRel Hin Erel)].
    exists rel. split; [reflexivity|].
    assert (Hrel_in : In (currentRel, rel) rels \/ exists k, In (k, rel) rels).
    { right. clear - Erel. induction rels as [|[k0 r0] rels IH]; cbn [assoc] in Erel;
        [discriminate|].
      destruct (String.eqb currentRel k0).
      - injection Erel as ->. exists k0. left. reflexivity.
      - destruct (IH Erel) as [k Hk]. exists k. right. exact Hk. }
    destruct Hrel_in as [Hk|[k Hk]]; destruct rel as [related|related];
      intros newId1 c1.
    + apply (IHmodels _ _ Hk), (Hmodels _ _ Hk).
    + destruct related as [sd ms]. cbn [Store_toBackendAll].
      apply each_model_returns. intros member Hmem.
      apply (IHstores _ _ member Hk Hmem), (Hstores _ _ member Hk Hmem).
    + apply (IHmodels _ _ Hk), (Hmodels _ _ Hk).
    + destruct related as [sd ms]. cbn [Store_toBackendAll].
      apply each_model_returns. intros member Hmem.
      apply (IHstores _ _ member Hk Hmem), (Hstores _ _ member Hk Hmem).
  - exists ba, c'. split; [exact Hres | lia].
Qed.

(** *** The relation fields throughout the tree *)

Lemma relations_set_mdata (f : ModelData -> ModelData) m :
  (forall d, m_activeCurrentRelations (f d) = m_activeCurrentRelations d) ->
  relations_set (with_mdata f m) <-> relations_set m.
Proof.
  intros Hf. destruct m as [d rels]. cbn [with_mdata].
  rewrite !relations_set_unfold, Hf. reflexivity.
Qed.

Lemma relations_set_set_field a v m : relations_set (set_field a v m) <-> relations_set m.
Proof. apply relations_set_mdata. reflexivity. Qed.

Lemma relations_set_add_pending k m : relations_set (add_pending k m) <-> relations_set m.
Proof. apply relations_set_mdata. reflexivity. Qed.

Lemma relations_set_set_errors v m :
  relations_set (with_mdata (set_backendValidationErrors v) m) <-> relations_set m.
Proof. apply relations_set_mdata. reflexivity. Qed.

Lemma In_assoc_set {A : Type} (l : list (string * A)) k a k0 x :
  In (k0, x) (assoc_set l k a) -> In (k0, x) l \/ x = a.
Proof.
  induction l as [|[k' a'] l IH]; cbn [assoc_set In].
  - intros [[= _ <-]|[]]. right. reflexivity.
  - destruct (String.eqb k k'); cbn [In].
    + intros [[= _ <-]|H]; [right; reflexivity | left; right; exact H].
    + intros [H|H]; [left; left; exact H|].
      destruct (IH H) as [H'|H']; [left; right; exact H' | right; exact H'].
Qed.

Lemma assoc_set_keeps {A : Type} (l : list (string * A)) k a k' :
  assoc l k' <> None -> assoc (assoc_set l k a) k' <> None.
Proof.
  intros H. destruct (String.eqb k k') eqn:Ek.
  - apply String.eqb_eq in Ek. subst. rewrite assoc_set_same. discriminate.
  - rewrite assoc_set_other; [exact H|].
    intros ->. rewrite String.eqb_refl in Ek. discriminate.
Qed.

Lemma assoc_In {A : Type} (l : list (string * A)) k a :
  assoc l k = Some a -> exists k', In (k', a) l.
Proof.
  induction l as [|[k0 a0] l IH]; cbn [assoc]; [discriminate|].
  destruct (String.eqb k k0).
  - intros [= ->]. exists k0. left. reflexivity.
  - intros H. destruct (IH H) as [k' Hk']. exists k'. right. exact Hk'.
Qed.

(** A relation field may be given any instance whose own tree has its
    relation fields. *)
Lemma relations_set_set_rel k r' m :
  relations_set m ->
  match r' with
  | RModel related => relations_set related
  | RStore related => forall member, In member (models related) -> relations_set member
  end ->
  relations_set (set_rel k r' m).
Proof.
  destruct m as [d rels]. cbn [set_rel]. rewrite !relations_set_unfold.
  intros (Hfields & Hmodels & Hstores) Hnew. split; [|split].
  - intros currentRel Hin. apply assoc_set_keeps, Hfields, Hin.
  - intros k0 related Hin. apply In_assoc_set in Hin.
    destruct Hin as [Hin|<-]; [apply (Hmodels k0 related Hin) | exact Hnew].
  - intros k0 related member Hin Hmem. apply In_assoc_set in Hin.
    destruct Hin as [Hin|<-]; [apply (Hstores k0 related member Hin Hmem) | apply Hnew, Hmem].
Qed.

Lemma relations_set_related m k r :
  relations_set m -> rel_field m k = Some r ->
  match r with
  | RModel related => relations_set related
  | RStore related => forall member, In member (models related) -> relations_set member
  end.
Proof.
  destruct m as [d rels]. rewrite relations_set_unfold. unfold rel_field. cbn [mrels].
  intros (_ & Hmodels & Hstores) Hr. destruct (assoc_In rels k r Hr) as [k' Hk'].
  destruct r as [related|related].
  - apply (Hmodels k' related Hk').
  - intros member Hmem. apply (Hstores k' related member Hk' Hmem).
Qed.

Lemma map_result_In {A B : Type} (f : A -> result B) xs ys y :
  map_result f xs = Ok ys -> In y ys -> exists x, f x = Ok y.
Proof.
  intros Hmap Hin. apply In_nth_error in Hin. destruct Hin as [j Hj].
  destruct (proj2 (map_result_nth f xs ys Hmap) j y Hj) as (x & _ & Hx). eauto.
Qed.

Lemma new_Store_empty sc options s : new_Store sc options = Ok s -> models s = [].
Proof.
  unfold new_Store. destruct (so_others options); [|discriminate].
  destruct (if is_undefined (so_limit options) then _ else _); cbn [bind]; [|discriminate].
  intros [= <-]. reflexivity.
Qed.

Section TreeInvariant.

Context (E : Env) (rec : Methods).

Hypothesis rec_new_set :
  forall cls data options m, rec_new rec cls data options = Ok m -> relations_set m.
Hypothesis rec_parse_set :
  forall m data, relations_set m -> relations_set (fst (rec_parse rec m data)).

Lemma Store_parse_set s v :
  (forall member, In member (models s) -> relations_set member) ->
  forall member, In member (models (fst (Store_parse E rec s v))) -> relations_set member.
Proof.
  intros Hs. unfold Store_parse. destruct v; try exact Hs.
  destruct (map_result (newModel E rec s) xs) as [ms|e] eqn:Emap; cbn [fst]; [|exact Hs].
  rewrite models_set_models. intros member Hin.
  destruct (map_result_In _ _ _ _ Emap Hin) as [x Hx].
  apply (rec_new_set _ _ _ _ Hx).
Qed.

Lemma Store_addFromRepository_set s ids :
  (forall member, In member (models s) -> relations_set member) ->
  forall member, In member (models (fst (Store_addFromRepository E rec s ids))) ->
                 relations_set member.
Proof.
  intros Hs. unfold Store_addFromRepository.
  destruct (records_at _ _ _) as [records|e0]; cbn [bind fst]; [|exact Hs].
  destruct (map_result _ records) as [ms|e] eqn:Emap; cbn [fst]; [|exact Hs].
  rewrite models_set_models. intros member Hin.
  destruct (map_result_In _ _ _ _ Emap Hin) as [x Hx].
  apply (rec_new_set _ _ _ _ Hx).
Qed.

Lemma addFromRepository_set c id :
  relations_set c -> relations_set (fst (addFromRepository_with E (rec_parse rec) c id)).
Proof.
  intros Hc. unfold addFromRepository_with.
  destruct (find_id E _ id) as [relData|]; [|exact Hc].
  destruct (truthy relData); [apply rec_parse_set, Hc | exact Hc].
Qed.

Lemma parse_property_set key v m :
  relations_set m -> relations_set (fst (parse_property E rec key v m)).
Proof.
  intros Hm. unfold parse_property.
  destruct (includes (attributes m) (snakeToCamel E key)); cbn [fst];
    [apply relations_set_set_field, Hm|].
  destruct (includes (m_activeCurrentRelations (mdata m)) (snakeToCamel E key));
    [|exact Hm].
  destruct (rel_field m (snakeToCamel E key)) as [r|] eqn:Er; [|exact Hm].
  pose proof (relations_set_related m _ r Hm Er) as Hr.
  destruct (is_nested_data v); destruct r as [c|s]; cbn [Rel_parse Rel_addFromRepository].
  - pose proof (rec_parse_set c v Hr) as H.
    destruct (rec_parse rec c v) as [c' err]. cbn [fst] in *.
    apply relations_set_set_rel; assumption.
  - pose proof (Store_parse_set s v Hr) as H.
    destruct (Store_parse E rec s v) as [s' err]. cbn [fst] in *.
    apply relations_set_set_rel; assumption.
  - pose proof (addFromRepository_set c v Hr) as H.
    destruct (addFromRepository_with E (rec_parse rec) c v) as [c' err]. cbn [fst] in *.
    apply relations_set_set_rel; assumption.
  - pose proof (Store_addFromRepository_set s v Hr) as H.
    destruct (Store_addFromRepository E rec s v) as [s' err]. cbn [fst] in *.
    apply relations_set_set_rel; assumption.
Qed.

Lemma Model_parse_set m data :
  relations_set m -> relations_set (fst (Model_parse E rec m data)).
Proof.
  unfold Model_parse. destruct data as [| |b|n| |str|xs|o|q numeral|positive]; try (intros H; exact H).
  revert m. induction o as [|[key v] o IH]; intros m Hm; cbn [forIn]; [exact Hm|].
  pose proof (parse_property_set key v m Hm) as H.
  destruct (parse_property E rec key v m) as [m' [e|]]; cbn [fst] in *; [exact H|].
  apply IH, H.
Qed.

Lemma new_relations_set cls store : forall relModels rels,
  new_relations E rec cls store relModels = Ok rels ->
  forall k r, In (k, r) rels ->
    match r with
    | RModel related => relations_set related
    | RStore related => forall member, In member (models related) -> relations_set member
    end.
Proof.
  induction relModels as [|[relName otherRelNames] rest IH]; intros rels;
    cbn [new_relations].
  - intros [= <-] k r [].
  - destruct (new_relation E rec cls store relName otherRelNames) as [r0|e] eqn:Er0;
      cbn [bind]; [|discriminate].
    destruct (new_relations E rec cls store rest) as [rs|e]; cbn [bind]; [|discriminate].
    intros [= <-] k r [[= _ <-]|Hin]; [|apply (IH rs eq_refl k r Hin)].
    unfold new_relation in Er0.
    destruct (relations cls) as [table|]; [|discriminate].
    destruct (assoc table relName) as [[c|sc]|]; [| |discriminate].
    + destruct (rec_new rec (classes E c) VNull _) as [m|e] eqn:Em; cbn [bind] in Er0;
        [|discriminate].
      injection Er0 as <-. apply (rec_new_set _ _ _ _ Em).
    + destruct (new_Store sc _) as [s|e] eqn:Es; cbn [bind] in Er0; [|discriminate].
      injection Er0 as <-. rewrite (new_Store_empty _ _ _ Es). intros member [].
Qed.

Lemma new_Model_set cls data options m :
  new_Model E rec cls data options = Ok m -> relations_set m.
Proof.
  unfold new_Model.
  set (d := {| m_class := cls |}).
  assert (H0 : forall m0,
            match opt_relations options with
            | Some activeRelations =>
                parseRelations E rec (opt_store options) d activeRelations
            | None => Ok (MkModel d [])
            end = Ok m0 -> relations_set m0).
  { intros m0. destruct (opt_relations options) as [activeRelations|].
    - unfold parseRelations.
      destruct (parseRelations_loop activeRelations ([], m_activeCurrentRelations d))
        as [[relModels cur]|e] eqn:Eloop; cbn [bind]; [|discriminate].
      destruct (parseRelations_loop_keys activeRelations [] [] (relModels, cur)
                  eq_refl (NoDup_nil _) Eloop) as [Hk _]. cbn [fst snd] in Hk.
      destruct (new_relations E rec (m_class d) (opt_store options)
                  (own_properties relModels))
        as [rels|e] eqn:Erels; cbn [bind]; [|discriminate].
      intros [= <-]. apply relations_set_unfold. cbn [m_activeCurrentRelations].
      pose proof (new_relations_set _ _ _ _ Erels) as Hchildren.
      assert (Hin_rels : forall k r, In (k, r) (fields_of (map fst relModels) rels) ->
                                     exists k', In (k', r) rels)
        by (intros k r Hin; apply (assoc_In rels k), (fields_of_In _ _ _ _ Hin)).
      split; [|split].
      + intros currentRel Hin. rewrite fields_of_assoc, Hk.
        replace (includes cur currentRel) with true
          by (symmetry; apply includes_In, Hin).
        destruct (assoc_of_key rels currentRel) as [r Hr]; [|congruence].
        rewrite (new_relations_keys _ _ _ _ _ _ Erels).
        apply own_properties_keys. rewrite Hk. exact Hin.
      + intros k related Hin. destruct (Hin_rels _ _ Hin) as [k' Hin'].
        apply (Hchildren k' (RModel related) Hin').
      + intros k related member Hin. destruct (Hin_rels _ _ Hin) as [k' Hin'].
        apply (Hchildren k' (RStore related) Hin').
    - intros [= <-]. apply relations_set_unfold. cbn [m_activeCurrentRelations].
      split; [intros r []|]. split; [intros k related [] | intros k related member []]. }
  destruct (match opt_relations options with
            | Some activeRelations =>
                parseRelations E rec (opt_store options) d activeRelations
            | None => Ok (MkModel d [])
            end) as [m0|e]; cbn [bind]; [|discriminate].
  specialize (H0 m0 eq_refl).
  destruct (truthy data); [|intros [= <-]; exact H0].
  pose proof (Model_parse_set m0 data H0) as H.
  destruct (Model_parse E rec m0 data) as [m1 [e|]]; [discriminate|].
  intros [= <-]. exact H.
Qed.

Lemma assign_repository_set repository : forall path m r,
  relations_set m -> assign_repository path repository m = Some r ->
  relations_set (fst r).
Proof.
  induction path as [|seg rest IH]; intros m r Hm; cbn [assign_repository];
    [discriminate|].
  destruct (rel_field m seg) as [rel|] eqn:Er.
  - pose proof (relations_set_related m seg rel Hm Er) as Hrel.
    destruct rest as [|seg' rest'].
    + intros [= <-]. cbn [fst]. apply relations_set_set_rel; [exact Hm|].
      destruct rel as [c|s]; cbn [Rel_set_repository].
      * apply relations_set_mdata; [reflexivity | exact Hrel].
      * destruct s. exact Hrel.
    + destruct rel as [c|s]; [|discriminate].
      destruct (assign_repository (seg' :: rest') repository c) as [[c' err]|] eqn:Ec;
        [|discriminate].
      intros [= <-]. cbn [fst]. apply relations_set_set_rel; [exact Hm|].
      apply (IH c (c', err) Hrel Ec).
  - destruct (includes (attributes m) seg); [|discriminate].
    destruct (value_get rest (field m seg)); try discriminate;
      intros [= <-]; cbn [fst]; try exact Hm.
    apply relations_set_set_field, Hm.
Qed.

Lemma update_rel_set (f : Rel -> Rel) :
  (forall s, exists s', f (RStore s) = RStore s' /\ models s' = models s) ->
  (forall c, f (RModel c) = RModel c) ->
  forall path m, relations_set m -> relations_set (update_rel path f m).
Proof.
  intros Hstore Hmodel. induction path as [|seg rest IH]; intros m Hm;
    cbn [update_rel]; [exact Hm|].
  destruct (rel_field m seg) as [rel|] eqn:Er; [|exact Hm].
  pose proof (relations_set_related m seg rel Hm Er) as Hrel.
  destruct rest as [|seg' rest'].
  - apply relations_set_set_rel; [exact Hm|].
    destruct rel as [c|s].
    + rewrite Hmodel. exact Hrel.
    + destruct (Hstore s) as (s' & -> & Hms). rewrite Hms. exact Hrel.
  - destruct rel as [c|s]; [|exact Hm].
    apply relations_set_set_rel; [exact Hm|]. apply IH, Hrel.
Qed.

Lemma Model_fromBackend_set m res :
  relations_set m -> relations_set (fst (Model_fromBackend E rec m res)).
Proof.
  intros Hm. unfold Model_fromBackend, fromBackend_with.
  assert (Hprop : forall relMapping m0, relations_set m0 ->
            relations_set (fst (propagate_repositories E (p_repos res) relMapping m0))).
  { induction relMapping as [|[relName repoName] rest IH]; intros m0 Hm0;
      cbn [propagate_repositories]; [exact Hm0|].
    assert (H1 : relations_set
                   (fst (propagate_repository E (p_repos res) relName repoName m0))).
    { unfold propagate_repository.
      destruct (leaves_model E _ m0); [exact Hm0|].
      destruct (assign_repository _ _ m0) as [r|] eqn:Ea.
      - apply (assign_repository_set _ _ _ _ Hm0 Ea).
      - destruct (find_first_store E relName m0) as [[path nestedRel]|]; cbn [fst];
          [|exact Hm0].
        destruct (leaves_model E path m0); [exact Hm0|].
        apply update_rel_set; [| |exact Hm0].
        + intros s. eexists. split; [reflexivity|]. destruct s. reflexivity.
        + reflexivity. }
    destruct (propagate_repository E (p_repos res) relName repoName m0) as [m1 [e|]];
      cbn [fst] in *; [exact H1 | apply IH, H1]. }
  specialize (Hprop (p_relMapping res) m Hm).
  destruct (propagate_repositories E (p_repos res) (p_relMapping res) m) as [m' [e|]];
    cbn [fst] in *; [exact Hprop|].
  destruct (truthy (p_data res)); [apply Model_parse_set, Hprop | exact Hprop].
Qed.

End TreeInvariant.

Lemma clear_relations_set clear :
  (forall c, relations_set c -> relations_set (fst (clear c))) ->
  forall currentRels m, relations_set m ->
  relations_set (fst (clear_relations clear currentRels m)).
Proof.
  intros Hclear. induction currentRels as [|currentRel rest IH]; intros m Hm;
    cbn [clear_relations]; [exact Hm|].
  destruct (rel_field m currentRel) as [[c|s]|] eqn:Er; [| |exact Hm].
  - pose proof (Hclear c (relations_set_related m _ _ Hm Er)) as Hc.
    destruct (clear c) as [c' [e|]]; cbn [fst] in *.
    + apply relations_set_set_rel; assumption.
    + apply IH, relations_set_set_rel; assumption.
  - apply IH, relations_set_set_rel; [exact Hm|].
    unfold Store_clear. rewrite models_set_models. intros member [].
Qed.

Lemma Model_clear_set : forall fuel m,
  relations_set m -> relations_set (fst (Model_clear fuel m)).
Proof.
  induction fuel as [|fuel IH]; intros m Hm; cbn [Model_clear]; [exact Hm|].
  apply clear_relations_set; [exact IH|].
  generalize (m_originalAttributes (mdata m)). intros l. revert m Hm.
  induction l as [|kv l IHl]; intros m Hm; cbn [fold_left]; [exact Hm|].
  apply IHl, relations_set_set_field, Hm.
Qed.

(** The methods at every depth make and keep trees with their relation
    fields. *)
Lemma methods_set (E : Env) : forall n,
  (forall cls data options m,
     rec_new (methods E n) cls data options = Ok m -> relations_set m)
  /\ (forall m data,
        relations_set m -> relations_set (fst (rec_parse (methods E n) m data))).
Proof.
  induction n as [|n [IHnew IHparse]]; cbn [methods rec_new rec_parse].
  - split; [discriminate | intros m data H; exact H].
  - split.
    + intros cls data options m. apply (new_Model_set E (methods E n) IHnew IHparse).
    + intros m data. apply (Model_parse_set E (methods E n) IHnew IHparse).
Qed.

Lemma Model_call_set (E : Env) n m m' :
  relations_set m -> Model_call E (methods E n) m m' -> relations_set m'.
Proof.
  intros Hm Hcall. destruct (methods_set E n) as [Hnew Hparse].
  pose proof (Model_parse_set E (methods E n) Hnew Hparse) as Hp.
  pose proof (Model_fromBackend_set E (methods E n) Hnew Hparse) as Hf.
  destruct Hcall.
  - apply Hp, Hm.
  - unfold Model_addFromRepository, addFromRepository_with.
    destruct (find_id E _ id) as [relData|]; [|exact Hm].
    destruct (truthy relData); [apply Hp, Hm | exact Hm].
  - apply Hf, Hm.
  - apply Model_clear_set, Hm.
  - unfold save_begin. destruct (getApi _); cbn [fst];
      apply relations_set_add_pending, relations_set_set_errors, Hm.
  - unfold save_settle, then_, catch_. destruct res as [res|err].
    + pose proof (Hf (add_pending (-1) m) res (proj2 (relations_set_add_pending _ _) Hm))
        as H.
      destruct (Model_fromBackend E (methods E n) (add_pending (-1) m) res) as [m1 [e|]];
        cbn [fst] in *; [|exact H].
      cbn [valErrors truthy is_nullish fst]. apply relations_set_add_pending, H.
    + destruct (is_nullish err); cbn [fst]; [apply relations_set_add_pending, Hm|].
      destruct (truthy (valErrors err)); cbn [fst].
      * apply relations_set_set_errors, relations_set_add_pending, Hm.
      * apply relations_set_add_pending, Hm.
  - unfold saveAll_begin. destruct (getApi _); cbn [fst].
    + destruct (Model_toBackendAll E _ VUndefined idCounter) as [[data|e] c]; cbn [fst];
        apply relations_set_add_pending, relations_set_set_errors, Hm.
    + apply relations_set_add_pending, relations_set_set_errors, Hm.
  - unfold saveAll_settle, then_, catch_. destruct res as [res|err].
    + pose proof (Hf (add_pending (-1) m) res (proj2 (relations_set_add_pending _ _) Hm))
        as H.
      destruct (Model_fromBackend E (methods E n) (add_pending (-1) m) res) as [m1 [e|]];
        cbn [fst] in *; [|exact H].
      apply relations_set_add_pending, H.
    + cbn [fst]. apply relations_set_add_pending, Hm.
  - unfold fetch_begin. destruct (isNew m); cbn [fst]; [exact Hm|].
    destruct (getApi _); cbn [fst]; apply relations_set_add_pending, Hm.
  - unfold fetch_settle, then_. destruct res as [res|err]; [|exact Hm].
    pose proof (Hf m res Hm) as H.
    destruct (Model_fromBackend E (methods E n) m res) as [m1 [e|]]; cbn [fst] in *;
      [exact H | apply relations_set_add_pending, H].
  - unfold delete_begin, removeFromStore.
    destruct (isNew m); rewrite ?orb_true_r, ?orb_false_r; cbn [fst]; [exact Hm|].
    destruct immediate; cbn [fst snd]; destruct (getApi _); cbn [fst];
      apply relations_set_add_pending, Hm.
  - unfold delete_settle, then_, removeFromStore. destruct res as [[]|err];
      [|exact Hm].
    destruct immediate; cbn [fst snd]; apply relations_set_add_pending, Hm.
Qed.

Lemma Model_built_set (E : Env) n m :
  Model_built E (methods E n) m -> relations_set m.
Proof.
  intros Hbuilt. induction Hbuilt as [cls data options m Hnew | m m' Hbuilt IH Hcall].
  - destruct (methods_set E n) as [Hn Hp].
    apply (new_Model_set E (methods E n) Hn Hp _ _ _ _ Hnew).
  - apply (Model_call_set E n m m' IH Hcall).
Qed.



(** ** The graph flattener on an entity with three new members *)

Lemma assoc_In_key {A : Type} (l : list (string * A)) k a :
  assoc l k = Some a -> In (k, a) l.
Proof.
  induction l as [|[k0 a0] l IH]; cbn [assoc]; [discriminate|].
  destruct (String.eqb k k0) eqn:Ek.
  - apply String.eqb_eq in Ek. subst k0. intros [= ->]. left. reflexivity.
  - intros H. right. apply IH, H.
Qed.

Lemma names_below_unfold (E : Env) d rels :
  names_below E (MkModel d rels)
  = flat_map (fun kv => snakeCase E (fst kv) :: names_below_rel E (snd kv)) rels.
Proof.
  cbn [names_below].
  induction rels as [|[k [c|[sd ms]]] rels IH]; [reflexivity| |].
  - cbn [flat_map fst snd names_below_rel]. rewrite <- IH. reflexivity.
  - cbn [flat_map fst snd names_below_rel models]. rewrite <- IH. reflexivity.
Qed.

(** One turn of the loop of [Model.toBackendAll]. *)
Lemma each_relation_turn (E : Env) toBackendAll rels currentRel rest data relations c :
  each_relation E toBackendAll rels (currentRel :: rest) data relations c
  = let '(myNewId, data2, c2) := relation_ids (snakeCase E currentRel) data c in
    match on_field (fun rel => toBackendAll rel myNewId c2) currentRel rels with
    | None => (Throw (TypeError "Cannot read property 'toBackendAll' of undefined"), c2)
    | Some (Throw e, c3) => (Throw e, c3)
    | Some (Ok relBackendData, c3) =>
        each_relation E toBackendAll rels rest data2
          (merge_relations
             (assoc_set relations (snakeCase E currentRel) (ba_data relBackendData))
             (ba_relations relBackendData)) c3
    end.
Proof.
  cbn [each_relation]. unfold relation_ids. cbv zeta.
  destruct (is_null (prop data (snakeCase E currentRel)));
    [destruct (generateNegativeId c) as [id c1]|];
    match goal with
    | |- context [match prop ?o ?k with _ => _ end] => destruct (prop o k)
    end; try reflexivity;
    match goal with
    | |- context [fill_ids ?ids ?c] => destruct (fill_ids ids c)
    end; reflexivity.
Qed.

Lemma relation_ids_spec nm data c myNewId data2 c2 :
  relation_ids nm data c = (myNewId, data2, c2) ->
  c <= c2
  /\ (forall k, k <> nm -> prop data2 k = prop data k)
  /\ (forall n, prop data nm = VNum n -> data2 = data /\ c2 = c).
Proof.
  unfold relation_ids.
  destruct (is_null (prop data nm)) eqn:En.
  - pose proof (generateNegativeId_counter c) as Hc.
    pose proof (generateNegativeId_number c) as Hn.
    destruct (generateNegativeId c) as [id c1]. cbn [fst snd] in Hc, Hn. subst c1.
    rewrite prop_set_same.
    destruct id; try contradiction; intros [= <- <- <-];
      (split; [lia|]); (split; [intros k Hk; apply prop_set_other; congruence|]);
      intros n0 Hp; rewrite Hp in En; discriminate.
  - destruct (prop data nm) as [| |b|z| |str|ids|o|q numeral|positive] eqn:Ep;
      try (intros [= <- <- <-]; (split; [lia|]); (split; [reflexivity|]);
           intros n Hp; try discriminate Hp; split; reflexivity).
    pose proof (fill_ids_counter ids c) as Hc.
    destruct (fill_ids ids c) as [ids' c1]. cbn [snd] in Hc.
    intros [= <- <- <-]. split; [exact Hc|].
    split; [intros k Hk; apply prop_set_other; congruence|].
    intros n Hp. discriminate Hp.
Qed.

Lemma relation_ids_three_null nm data c :
  0 <= c -> prop data nm = VArr [VNull; VNull; VNull] ->
  relation_ids nm data c
  = (VArr [VNum (- (c + 1)); VNum (- (c + 2)); VNum (- (c + 3))],
     obj_set data nm (VArr [VNum (- (c + 1)); VNum (- (c + 2)); VNum (- (c + 3))]),
     c + 3).
Proof.
  intros Hc Hp. unfold relation_ids. rewrite Hp. cbn [is_null]. rewrite Hp.
  rewrite (fill_ids_three_null c Hc). reflexivity.
Qed.

(** The loop on a list of relations is the loop on its first part followed
    by the loop on the rest. *)
Lemma each_relation_app (E : Env) toBackendAll rels l2 :
  forall l1 data relations c data1 relations1 c1,
  each_relation E toBackendAll rels l1 data relations c
  = (Ok {| ba_data := [VObj data1]; ba_relations := relations1 |}, c1) ->
  each_relation E toBackendAll rels (l1 ++ l2) data relations c
  = each_relation E toBackendAll rels l2 data1 relations1 c1.
Proof.
  induction l1 as [|currentRel l1 IH]; intros data relations c data1 relations1 c1.
  - cbn [each_relation app]. intros [= <- <- <-]. reflexivity.
  - rewrite <- app_comm_cons, !each_relation_turn.
    destruct (relation_ids (snakeCase E currentRel) data c) as [[myNewId data2] c2].
    destruct (on_field _ currentRel rels) as [[[relBackendData|e] c3]|];
      try discriminate.
    apply IH.
Qed.

(** What the loop leaves of the entity's record: the properties that are
    no backend name of a relation, and the Numbers. *)
Lemma each_relation_data (E : Env) toBackendAll rels :
  forall currentRels data relations c ba c',
  each_relation E toBackendAll rels currentRels data relations c = (Ok ba, c') ->
  exists data',
    ba_data ba = [VObj data']
    /\ (forall k, ~ In k (map (snakeCase E) currentRels) -> prop data' k = prop data k)
    /\ (forall k n, prop data k = VNum n -> prop data' k = VNum n).
Proof.
  induction currentRels as [|currentRel rest IH]; intros data relations c ba c'.
  - cbn [each_relation]. intros [= <- _]. exists data. cbn [ba_data]. auto.
  - rewrite each_relation_turn.
    destruct (relation_ids (snakeCase E currentRel) data c) as [[myNewId data2] c2] eqn:Eids.
    destruct (relation_ids_spec _ _ _ _ _ _ Eids) as (_ & Hother & Hnum).
    destruct (on_field _ currentRel rels) as [[[relBackendData|e] c3]|];
      try discriminate.
    intros Hrest. destruct (IH _ _ _ _ _ Hrest) as (data' & Hd & Hk & Hn).
    exists data'. split; [exact Hd|]. split.
    + intros k Hnot. rewrite Hk by (intros Hin; apply Hnot; right; exact Hin).
      apply Hother. intros ->. apply Hnot. left. reflexivity.
    + intros k n Hp. apply Hn.
      destruct (String.eqb k (snakeCase E currentRel)) eqn:Ek.
      * apply String.eqb_eq in Ek. subst k.
        destruct (Hnum n Hp) as [-> _]. exact Hp.
      * apply String.eqb_neq in Ek. rewrite (Hother k Ek). exact Hp.
Qed.

(** A bucket only grows when relations are merged into the map, and stays
    as it is when none of them has its name. *)
Lemma merge_relations_bucket (from : list (string * list value)) :
  forall relations k bucket,
  assoc relations k = Some bucket ->
  exists rest,
    assoc (merge_relations relations from) k = Some (bucket ++ rest)%list
    /\ (~ In k (map fst from) -> rest = []).
Proof.
  unfold merge_relations.
  induction from as [|[key relB] from IH]; intros relations k bucket Hb;
    cbn [fold_left map fst].
  - exists []. rewrite app_nil_r. auto.
  - destruct (String.eqb key k) eqn:Ek.
    + apply String.eqb_eq in Ek. subst key. rewrite Hb.
      destruct (IH (assoc_set relations k (bucket ++ relB)%list) k (bucket ++ relB)%list
                  (assoc_set_same _ _ _)) as (rest & Hrest & _).
      exists (relB ++ rest)%list. rewrite app_assoc. split; [exact Hrest|].
      intros Hnot. exfalso. apply Hnot. left. reflexivity.
    + apply String.eqb_neq in Ek.
      destruct (IH (assoc_set relations key
                      match assoc relations key with
                      | Some bucket0 => (bucket0 ++ relB)%list
                      | None => relB
                      end) k bucket) as (rest & Hrest & Hnil).
      * rewrite assoc_set_other by exact Ek. exact Hb.
      * exists rest. split; [exact Hrest|].
        intros Hnot. apply Hnil. intros Hin. apply Hnot. right. exact Hin.
Qed.

Lemma merge_relations_keys (from : list (string * list value)) :
  forall relations k,
  In k (map fst (merge_relations relations from)) ->
  In k (map fst relations) \/ In k (map fst from).
Proof.
  unfold merge_relations.
  induction from as [|[key relB] from IH]; intros relations k; cbn [fold_left map fst].
  - auto.
  - intros Hin. destruct (IH _ _ Hin) as [H|H]; [|right; right; exact H].
    rewrite keys_assoc_set in H.
    destruct (includes (map fst relations) key); [left; exact H|].
    apply in_app_or in H. destruct H as [H|[<-|[]]]; [left; exact H|].
    right. left. reflexivity.
Qed.

(** A bucket that is in the map before the loop runs over relations with
    other backend names. *)
Lemma each_relation_bucket (E : Env) toBackendAll rels name :
  forall currentRels data relations c ba c' bucket,
  each_relation E toBackendAll rels currentRels data relations c = (Ok ba, c') ->
  assoc relations name = Some bucket ->
  ~ In name (map (snakeCase E) currentRels) ->
  exists rest,
    assoc (ba_relations ba) name = Some (bucket ++ rest)%list
    /\ ((forall currentRel rel newId c1 ba1 c1',
           In currentRel currentRels -> assoc rels currentRel = Some rel ->
           toBackendAll rel newId c1 = (Ok ba1, c1') ->
           ~ In name (map fst (ba_relations ba1))) ->
        rest = []).
Proof.
  induction currentRels as [|currentRel rest IH];
    intros data relations c ba c' bucket.
  - cbn [each_relation]. intros [= <- _] Hb _. cbn [ba_relations].
    exists []. rewrite app_nil_r. auto.
  - rewrite each_relation_turn.
    destruct (relation_ids (snakeCase E currentRel) data c) as [[myNewId data2] c2].
    rewrite on_field_assoc.
    destruct (assoc rels currentRel) as [rel|] eqn:Erel; cbn [option_map];
      [|discriminate].
    destruct (toBackendAll rel myNewId c2) as [[relBackendData|e] c3] eqn:Ecall;
      [|discriminate].
    intros Hrest Hb Hnot.
    assert (Hne : snakeCase E currentRel <> name)
      by (intros Heq; apply Hnot; left; exact Heq).
    destruct (merge_relations_bucket (ba_relations relBackendData)
                (assoc_set relations (snakeCase E currentRel) (ba_data relBackendData))
                name bucket) as (rest1 & Hrest1 & Hnil1).
    { rewrite assoc_set_other by exact Hne. exact Hb. }
    destruct (IH _ _ _ _ _ _ Hrest Hrest1) as (rest2 & Hrest2 & Hnil2).
    { intros Hin. apply Hnot. right. exact Hin. }
    exists (rest1 ++ rest2)%list. rewrite app_assoc. split; [exact Hrest2|].
    intros Hfree.
    rewrite Hnil1 by (apply (Hfree currentRel rel myNewId c2 relBackendData c3);
                      [left; reflexivity | exact Erel | exact Ecall]).
    rewrite Hnil2; [reflexivity|].
    intros r' rel' newId c1 ba1 c1' Hin. apply Hfree. right. exact Hin.
Qed.

(** The names of the buckets. *)
Lemma each_relation_keys (E : Env) toBackendAll rels (P : string -> Prop) :
  forall currentRels data relations c ba c',
  each_relation E toBackendAll rels currentRels data relations c = (Ok ba, c') ->
  (forall k, In k (map fst relations) -> P k) ->
  (forall currentRel rel,
     In currentRel currentRels -> assoc rels currentRel = Some rel ->
     P (snakeCase E currentRel)
     /\ forall newId c1 ba1 c1', toBackendAll rel newId c1 = (Ok ba1, c1') ->
          forall k, In k (map fst (ba_relations ba1)) -> P k) ->
  forall k, In k (map fst (ba_relations ba)) -> P k.
Proof.
  induction currentRels as [|currentRel rest IH]; intros data relations c ba c'.
  - cbn [each_relation]. intros [= <- _] Hrel _. exact Hrel.
  - rewrite each_relation_turn.
    destruct (relation_ids (snakeCase E currentRel) data c) as [[myNewId data2] c2].
    rewrite on_field_assoc.
    destruct (assoc rels currentRel) as [rel|] eqn:Erel; cbn [option_map];
      [|discriminate].
    destruct (toBackendAll rel myNewId c2) as [[relBackendData|e] c3] eqn:Ecall;
      [|discriminate].
    intros Hrest Hrel Hbelow.
    destruct (Hbelow currentRel rel (or_introl eq_refl) Erel) as [Hown Hnested].
    apply (IH _ _ _ _ _ Hrest).
    + intros k Hk. apply merge_relations_keys in Hk. destruct Hk as [Hk|Hk].
      * rewrite keys_assoc_set in Hk.
        destruct (includes (map fst relations) (snakeCase E currentRel));
          [apply Hrel, Hk|].
        apply in_app_or in Hk. destruct Hk as [Hk|[<-|[]]]; [apply Hrel, Hk | exact Hown].
      * apply (Hnested _ _ _ _ Ecall k Hk).
    + intros r' rel' Hin. apply Hbelow. right. exact Hin.
Qed.

Lemma each_model_keys toBackendAll newIds (P : string -> Prop) :
  forall ms i data relations c ba c',
  each_model toBackendAll newIds ms i data relations c = (Ok ba, c') ->
  (forall k, In k (map fst relations) -> P k) ->
  (forall m, In m ms ->
     forall newId c1 ba1 c1', toBackendAll m newId c1 = (Ok ba1, c1') ->
       forall k, In k (map fst (ba_relations ba1)) -> P k) ->
  forall k, In k (map fst (ba_relations ba)) -> P k.
Proof.
  induction ms as [|m ms IH]; intros i data relations c ba c'; cbn [each_model].
  - intros [= <- _] Hrel _. exact Hrel.
  - destruct (toBackendAll m (newId_at newIds i) c) as [[modelData|e] c1] eqn:Ecall;
      [|discriminate].
    intros Hrest Hrel Hbelow. apply (IH _ _ _ _ _ _ Hrest).
    + intros k Hk. apply merge_relations_keys in Hk. destruct Hk as [Hk|Hk].
      * apply Hrel, Hk.
      * apply (Hbelow m (or_introl eq_refl) _ _ _ _ Ecall k Hk).
    + intros m' Hin. apply Hbelow. right. exact Hin.
Qed.

(** The buckets of an output are named after relations in the tree. *)
Lemma toBackendAll_keys (E : Env) : forall m newId c ba c',
  Model_toBackendAll E m newId c = (Ok ba, c') ->
  forall k, In k (map fst (ba_relations ba)) -> In k (names_below E m).
Proof.
  induction m as [d rels IHmodels IHstores] using Model_tree_ind.
  intros newId c ba c'. cbn [Model_toBackendAll]. set (m := MkModel d rels).
  destruct (if truthy newId then (obj_set (toBackend E m) (pk m) newId, c)
            else if is_null (prop (toBackend E m) (pk m))
                 then let '(id, c0) := generateNegativeId c in
                      (obj_set (toBackend E m) (pk m) id, c0)
                 else (toBackend E m, c)) as [data0 c0].
  intros Hres.
  apply (each_relation_keys E _ rels (fun k => In k (names_below E m)) _ _ _ _ _ _ Hres).
  - intros k [].
  - intros currentRel rel _ Erel. apply assoc_In_key in Erel.
    subst m. rewrite names_below_unfold. split.
    + apply in_flat_map. exists (currentRel, rel). split; [exact Erel | left; reflexivity].
    + intros newId1 c1 ba1 c1' Hcall k Hk.
      apply in_flat_map. exists (currentRel, rel). split; [exact Erel|]. right.
      cbn [snd]. destruct rel as [related|[sd ms]]; cbn [names_below_rel models].
      * apply (IHmodels _ _ Erel _ _ _ _ Hcall k Hk).
      * cbn [Store_toBackendAll] in Hcall.
        apply (each_model_keys _ _ (fun k => In k (flat_map (names_below E) ms))
                 _ _ _ _ _ _ _ Hcall); [intros k0 [] | | exact Hk].
        intros member Hmem newId2 c2 ba2 c2' Hcall2 k2 Hk2.
        apply in_flat_map. exists member. split; [exact Hmem|].
        apply (IHstores _ _ member Erel Hmem _ _ _ _ Hcall2 k2 Hk2).
Qed.

Lemma Rel_toBackendAll_keys (E : Env) rel newId c ba c' :
  match rel with
  | RModel related => Model_toBackendAll E related
  | RStore related => Store_toBackendAll E related
  end newId c = (Ok ba, c') ->
  forall k, In k (map fst (ba_relations ba)) -> In k (names_below_rel E rel).
Proof.
  destruct rel as [related|[sd ms]]; cbn [names_below_rel models].
  - apply toBackendAll_keys.
  - cbn [Store_toBackendAll]. intros Hcall.
    apply (each_model_keys _ _ (fun k => In k (flat_map (names_below E) ms))
             _ _ _ _ _ _ _ Hcall); [intros k0 []|].
    intros member Hmem newId2 c2 ba2 c2' Hcall2 k2 Hk2.
    apply in_flat_map. exists member. split; [exact Hmem|].
    apply (toBackendAll_keys E _ _ _ _ _ Hcall2 k2 Hk2).
Qed.

(** The methods of the related instances of an entity whose tree has its
    relation fields return. *)
Lemma related_return (E : Env) d rels :
  relations_set (MkModel d rels) ->
  forall currentRel, In currentRel (m_activeCurrentRelations d) ->
  exists rel, assoc rels currentRel = Some rel
    /\ forall newId c, exists ba c',
         match rel with
         | RModel related => Model_toBackendAll E related
         | RStore related => Store_toBackendAll E related
         end newId c = (Ok ba, c') /\ c <= c'.
Proof.
  intros Hset currentRel Hin. apply relations_set_unfold in Hset.
  destruct Hset as (Hfields & Hmodels & Hstores).
  destruct (assoc rels currentRel) as [rel|] eqn:Erel;
    [|exfalso; apply (Hfields currentRel Hin Erel)].
  exists rel. split; [reflexivity|]. apply assoc_In_key in Erel.
  destruct rel as [related|[sd ms]]; intros newId c.
  - apply toBackendAll_returns_on_tree, (Hmodels _ _ Erel).
  - cbn [Store_toBackendAll]. apply each_model_returns. intros member Hmem.
    apply toBackendAll_returns_on_tree, (Hstores _ _ member Erel Hmem).
Qed.

(** An entity that is given a Number other than 0 as its identifier has it
    in its record. *)
Lemma toBackendAll_given_id (E : Env) m n c ba c' :
  n <> 0 ->
  Model_toBackendAll E m (VNum n) c = (Ok ba, c') ->
  exists record,
    ba_data ba = [VObj record]
    /\ prop record (pk m) = VNum n
    /\ (m_activeCurrentRelations (mdata m) = [] ->
        record = obj_set (toBackend E m) (pk m) (VNum n)).
Proof.
  intros Hn. destruct m as [d rels]. cbn [Model_toBackendAll truthy].
  replace (negb (n =? 0)) with true by (symmetry; apply negb_true_iff, Z.eqb_neq, Hn).
  intros Hres.
  destruct (each_relation_data E _ _ _ _ _ _ _ _ Hres) as (record & Hd & _ & Hnum).
  exists record. split; [exact Hd|]. split; [apply Hnum, prop_set_same|].
  cbn [mdata]. intros Hleaf. rewrite Hleaf in Hres. cbn [each_relation] in Hres.
  injection Hres as <- _. cbn [ba_data] in Hd. congruence.
Qed.



